(* ===== verification/_CoqProject ===== *)
-Q . S2P
Prelude.v
Utils.v
Env.v
Position.v
Nearest.v
Loop.v
Motion.v
Transition.v
Equiv.v
Directions.v
Machine.v
Display.v
Offsets.v
Arrival.v
Navigation.v
Reentry.v
Listeners.v
Dispatch.v
Places.v
Session.v
Render.v
Scenarios.v
