(* ===== verification/Prelude.v ===== *)
(** * Verification of the Move component of the Splide slider (version 3.0.2)

    The program is [src/splide-3.0.2/src/js/components/Move/Move.ts]: the
    positioning and motion engine of a carousel.  It converts slide indices
    to track offsets and back, wraps offsets in loop mode, and serialises
    animated moves through a [waiting] flag, the slider's IDLE/MOVING state
    and a completion callback handed to the Transition component.  The file
    [src/unnamed/part_000] is its test suite.

    ** Plan of the development (files in dependency order)

    - [Prelude] (this file): the number model, boolean comparisons on
      rationals with their reflection lemmas, the tactics [qbool] and
      [qauto], the hint database [jsnum], lemmas on ceilings.
    - [Utils]: the helpers Move.ts imports from [utils] ([abs], [ceil],
      [sign], [clamp]), with their laws and [Proper] instances.
    - [Env]: what Move.ts reads and never writes: [Options], the Direction
      component ([resolve], [orient]), the Layout interface (a record of
      measurements with the class [LayoutLaws]), the slide registry and
      [Controller.getEnd]; the uniform layout as an instance.
    - [Position]: [offset], [trim], [toPosition], [getLimit],
      [exceededLimit], [toIndex] (Move.ts lines 172-274), with the reference
      definition [closest] that [toIndex] is compared against.
    - [Nearest]: the condition under which the loop of [toIndex] is the
      exhaustive search: positions that advance strictly and then stay
      ([Settled]), with its decision procedure.
    - [Loop]: [loop] (Move.ts lines 140-154) and the congruence modulo the
      slider size it preserves.
    - [Motion]: the mutable world ([waiting], [Splide.state], the DOM of
      list and track, the Transition component's pending callback, the log
      of events and calls), the handlers [mount], [reposition], [move], the
      completion closure of [move], [jump], [translate], [cancel], [isBusy]
      (Move.ts lines 60-163 and 257-259), the interface [MoveComponent.t]
      with the object [Move] the constructor returns (lines 22-33 and
      276-288), and the step relation [step] over the handlers with the
      invariants [Inv] (busy implies MOVING and a pending completion) and
      [Ordered] (moved events follow their move events).
    - [Transition]: the interface [TransitionComponent.t] of
      [Components.Transition] and the class [Contract] of what Move.ts
      relies on; [move_with] and [cancel_with] are [move] and [cancel]
      over any transition, their theorems proved from the contract;
      [Slide], [Fade] and the default choice [Transition] are instances.
    - [Equiv]: the equivalence [World_eq] of worlds up to the writing of
      their rationals, with a [Proper] instance for every handler; it is a
      bisimulation of [step].
    - [Directions]: the slider in another direction ([toward]) and the
      image of a world there ([image]: every position times the sign of
      the direction, every rule on its axis); each function and handler
      of Move.ts on the right-to-left and top-to-bottom sliders against
      the same on the left-to-right slider.
    - [Machine]: the abstract machine of the orchestration (waiting,
      state, deliverable completions, counts of move and moved events),
      the abstraction of worlds and labels, and the forward simulation
      from [step] to the machine.
    - [Display]: well-formedness [Coherent] of the DOM of the list along
      runs, and what [getPosition] and [cancel] read of it.
    - [Offsets]: where the list is sent: the invariant [Derived], that
      the target of the transform rule is the place of a registered slide
      as long as no other component translates to a position of its own.
    - [Arrival]: the whole cycle of a move: the invariant [Awaited] of
      looping completions, where the move ends, what it logs, and when
      the edge-trim compensation of lines 103-104 asks the Controller to
      go on.
    - [Navigation]: the compensation run to its end.  The Controller is
      its interface [ControllerComponent.t], the decision which
      destination and index a control leads to; [go_under] is
      [Controller.go] made of it (set [Splide.index], call [Move.move]),
      [done_under] and [move_under] are the completion and [move] of
      Move.ts lines 87-110 with the Controller at work, [serve] the
      interface of the component with it.
    - [Reentry]: the handlers cut at their [emit]s.  [emit] runs the
      listeners at once, and a listener may call the interface while the
      handler that emitted is still on the stack.  [move_announce] is [move]
      up to [emit( EVENT_MOVE )] (lines 87-95), [done_announce] and
      [done_finish] are the completion up to and after
      [emit( EVENT_MOVED )] (lines 98-101 and 103-107); a [Frame] is what
      remains of a handler, a configuration a world with a stack of frames,
      a [Turn] a call of the interface or the return of the listeners; the
      browser acts on an empty stack only.  [rstep], [rrun] and [rexec]
      are the runs of turns.
    - [Listeners]: the invariants of [Motion] and [Display] generalised to
      configurations ([Safe], [Sequenced], [Coherent], together [Robust]),
      proved for every run of turns; what listeners cannot break and what
      they can.
    - [Dispatch]: listeners as programs ([Script]: requests to move, jump,
      translate, cancel or refresh, each decided on the world the one
      before left) and [emit] as the interpreter [call], which runs a
      handler with the listeners of its events and all they request.
    - [Places]: the invariant of [Offsets] for configurations ([Placed]:
      the handlers waiting on the stack know the slides they will go to),
      proved for every run of turns and for [call] with listeners whose
      scripts ask with registered indices.
    - [Session]: runs across changes of the geometry ([resized], the
      events [reposition] is bound to), along which all invariants hold.
    - [Render]: the text of the transform rule, the template literal of
      [translate] (line 131), for positions that are whole numbers of
      pixels ([rule_text], [transform_text]), and its reader [read_rule].
    - [Scenarios]: the tests of [src/unnamed/part_000] as runs of the
      model through the interface [Move], with the texts they compare
      [rule.style.transform] with.

    ** Number model

    JavaScript numbers are IEEE doubles.  Here an offset or a size is a
    rational [Q], compared with [==] ([Qeq]); arithmetic is exact.  This is
    faithful as long as the doubles involved are exact, which holds for
    pixel measurements that are integers or halves below 2^53.  The three
    places where Move.ts meets a non-finite value are modelled explicitly:
    [minDistance = Infinity] in [toIndex] is [None] of an [option Q];
    [+focus * slideSize(index) || 0] with an undefined focus (NaN) is the
    constructor [FocusUndefined], which yields 0; and the division by
    [sliderSize()] in [loop] is only characterised under [0 < sliderSize]
    (with a zero size JavaScript produces NaN, the model produces the
    unwrapped position; see the findings).  [-0] and [0] are identified,
    as [===] identifies them.  Slide indices are integers [Z].

    ** What the theorems show

    - Position model: the concrete offsets of the test fixture; [trim] stays
      within its bounds and is idempotent; [toIndex] returns a registered
      index (or 0); on strictly monotone slide positions the early-exit scan
      of [toIndex] agrees with the exhaustive first-minimum search [closest]
      and [toIndex (toPosition i)] is [i]; on a plateau of equal positions
      the scan stops at the first slide (a defect of the strict comparison).
      Every slider of equal slides without trimming is strictly monotone
      ([laid_out_Monotone]); on the default trimmed slider the round trip
      holds exactly up to the first slide held at the end of the list
      ([trimmed_toIndex]).  The scan is the exhaustive search for every
      position whenever the positions advance strictly and then stay
      ([toIndex_nearest]), as they do on the default trimmed slider
      ([trimmed_nearest]); on positions that never go back this condition
      is also necessary ([settled_exact]): a plateau before the end of
      the list is the one shape on which [toIndex] is wrong.
    - Limits: [exceededLimit] is inclusive at the limit and splits into its
      minimum and maximum halves; on positions that never go back the
      minimum limit is not past the maximum ([limits_in_order]), so no
      position exceeds both.
    - Loop wrapper, on layouts of positive size: [loop] is the identity
      while waiting or outside loop mode; its result differs from its
      argument by a whole number of slider sizes, which is not zero
      exactly when the position is past a limit on the side it moves to
      ([loop_congruent]); the result no longer exceeds the limit it was
      wrapped at and is the one such position within a slider size of
      that limit ([loop_past_min], [loop_min_unique]); since that window
      is wider than the distance between the limits, a wrap past the
      minimum can land past the maximum, and a second [loop] then wraps
      it back ([loop_not_idempotent]).
    - Motion: [translate] with [preventLoop] followed by [getPosition] reads
      back the position; [cancel] keeps the position; [move] is dropped
      exactly when [waiting] is set (not when the state is MOVING); the
      completion clears [waiting] and returns to IDLE; along every run
      [waiting] implies MOVING and a pending completion, a busy component
      can always complete, and every moved event follows its move event.
    - Contract: for every transition that leaves the variables of the
      component alone, custom ones included, an accepted move announces
      itself, starts the transition and is then under way or over
      ([move_with_contract]).
    - Refinement: every step of the component is a step of the abstract
      machine of [Machine] ([step_simulates], [run_simulates]); the
      invariant of the machine, proved by cases on its six rules, gives
      the counting invariant of the log ([reachable_counts]); completions
      run out between moves ([completions_bounded], [fade_drains]); with
      [waitForTransition] off every move to a slide requested while
      another animates replaces the pending completion, and the moved
      event and the callback of the first are lost
      ([overlapping_move_lost]).
    - Equivalence: [World_eq] is a bisimulation, so nothing proved here
      depends on how a rational is written; [cancel] is idempotent up to
      it and the log.
    - Direction: in every direction the positions are those of
      [direction: 'ltr'] times the sign of the direction (-1 for
      right-to-left, 1 for top-to-bottom), indices and limit tests are
      the same ([positions_agree]), every handler commutes with the image
      of the world ([perform_toward]), and the runs of the slider are the
      images of the runs of the left-to-right one ([directions_agree]):
      [orient] and [resolve] are used consistently, so what is proved of
      one direction holds of the others.
    - Display: the DOM of the list stays well formed; [cancel] ends a
      move at its target.
    - Offsets: the handlers only ever send the list to the position of a
      registered slide, wrapped by whole slider sizes in loop mode, or
      leave it where it was created ([offsets_derived]); [translate]
      called from outside is the one way to any other position
      ([translate_unplaced]).  The same holds with listeners at work,
      for every run of turns whose calls come with registered indices
      ([rreachable_Placed]), and for a handler run with listeners whose
      scripts ask with registered indices ([call_Placed]).
    - Arrival: the swap of a clone for its slide is never wrapped
      ([clone_swap_unwrapped]); a move
      carried through its transition arrives at its slide and logs its
      move event, the start of the transition, its moved event and then
      the follow-up or the callback; on the default slider with
      [trimSpace: 'move'] the follow-up is requested exactly for moves
      between slides held at the end of the list.
    - Navigation: whatever the Controller decides, a handler run with it
      is a run of index updates and handlers of [Motion] ([serve_run]),
      so the invariants of the orchestration, the log and the DOM hold
      with the Controller at work ([serve_Sound]); what a request to go
      on logs is a chain of absorbed moves that ends at the Controller,
      in a move under way or in a move that called the callback, so the
      callback is called at most once and not at all when the Controller
      has nowhere left to go ([go_under_chain],
      [callback_lost_at_the_end]); with a Controller that makes progress
      ([Progressive]) the follow-ups end within the room between the
      index and the end of the slider ([go_under_terminates]) and the
      index stays within the slider ([go_under_within]); with one that
      goes to registered slides the list is only sent to their places
      ([serve_Derived]).
    - Render: what [translate] leaves in [rule.style.transform], with
      the loop or without, reads as the axis of the direction and the
      position written ([translate_writes]); the text of a rule
      determines its axis and position ([rule_text_injective]); the
      rules of the tests are the texts the tests expect
      ([transform_texts]).
    - Listeners: the lemmas of [Reentry] only tie the cut handlers to
      the handlers of [Motion] ([drain_enter], [reachable_turns]) and
      bound the returns by the weight of the stack ([drain_run]); they
      are not claims about Move.ts.  Whatever the listeners
      call, [waiting] implies MOVING and a completion that is pending or
      about to be ([rreachable_Safe]), moved events follow their move
      events ([rreachable_Sequenced]), the DOM stays well formed
      ([rreachable_Robust]) and the component comes to rest with no
      call of the interface, [cancel] included: the returns of the
      listeners and the completion the browser reports are enough
      ([eventually_idle]).  Without listeners [isBusy] is exact: busy
      exactly while a transition rule is set ([busy_exact]).  With them it
      is not: a listener of the move event that cancels leaves the
      transition running on a component that is not busy
      ([cancel_from_listener]), and one that moves again overtakes the
      move that called it ([inner_move_first]).
    - Dispatch: every result of [call] is a run of turns ([call_turns])
      and does not depend on the fuel ([call_deterministic]), so every
      world the component serves is sound whatever the listeners are
      ([served_Sound]); without listeners [call] is [perform]
      ([call_mute]); the moves that listeners request of a move that
      waits are dropped ([moves_dropped]); when the move does not wait, a
      listener that answers its event with the same move never returns
      ([echo_diverges]).
    - Sessions: the invariants survive any change of geometry with the
      same options ([session_Sound]), and a resize writes the position of
      [Splide.index] in the new geometry without touching the
      orchestration ([resize_repositions]).

    ** Bounds and fuel

    The only loop of Move.ts is the bounded [for] of [toIndex] over the
    slide registry, modelled by structural recursion on the list; runs are
    finite lists of labels or turns.  Components that call back
    ([Transition.start]) are modelled by storing the callback as data
    ([Done]) and running it at a later label.  Three functions take fuel.
    [go_under] of [Navigation] counts the requests to go on in a row: a
    move the Controller makes may be absorbed and ask the Controller
    again.  The recursion is that of the JavaScript; it ends when the
    Controller makes progress, with any fuel above the number of slides
    between the index and the end of the slider ([room],
    [go_under_terminates]), and more fuel never changes a result
    ([go_under_fuel]).
    [returns] of [Reentry] returns from the frames of a stack n times;
    [drain] gives it the weight of the stack (2 for a move that has still
    to start its transition, 1 for a completion that has still to finish),
    and [drain_run] with [rrun_returns_bounded] proves that this is
    enough and that no sequence of returns is longer.  [call] of [Dispatch] counts the events
    in handling, one nested in the other; the recursion is that of the
    JavaScript and need not end, so [None] is a possible result: three are
    enough without listeners ([call_mute]) and when the nested moves are
    dropped ([moves_dropped]), more fuel never changes a result
    ([call_fuel]), and no fuel is enough for [echo] ([echo_diverges]).

    ** Not modelled

    The Layout, Direction, Controller, Scroll, Transition and Style
    components are other files of the repository, not under [src/]: they
    are modelled from their interface (marked spec_modelled in the map),
    the Transition component as the Slide and Fade transitions of the same
    version.  [Scroll.cancel] is only logged as an effect.
    [Controller.go] is logged by [Motion] and run by [Navigation], where
    the Controller is the decision which index a control leads to: how
    it parses a control, rewinds, pages by [perMove] or scrolls is
    decided outside Move.ts, and the theorems of [Navigation] hold for
    every such decision or for every one of a stated class.  The follow-up
    is run without listeners; with listeners it is a call like any other
    of [Reentry].  The listeners of the events Move.ts emits are code of other
    components: [Reentry] lets them call the interface of the component
    in any order while the handler that emitted waits, [Dispatch] takes
    them as scripts of requests; what they do to the rest of the slider is
    outside the model.  [Controller.go] and the callback of a move are
    the last statements of the completion (lines 104 and 106), so what
    they call of the component runs as later calls; [Scroll.cancel], the
    first statement of [reposition], is assumed not to call back into the
    component.  Registration of
    listeners is the flag [listening]; priorities and removal are not
    modelled.  The transform rule is its axis and number; its text is
    written for whole numbers of pixels only ([Render]), since the digits
    of a fraction are those of its double; the text of the transition
    rule (speed and easing) belongs to the Transition component.  The
    slide registry is the list of its indices; building slides and
    clones from the DOM is not modelled.  [Splide.state] has the two
    states Move.ts sets, IDLE and MOVING; the states a slider is in
    before it is mounted and after it is destroyed are not told apart
    from IDLE: Move.ts sets the state and never reads it.  The labels of the transition system are the calls of the
    interface of lines 22-33 together with what happens between them:
    the events of the browser the Transition component listens to, and
    the Controller setting [Splide.index].  Changes of the options themselves (a different
    type or direction on update) are outside the sessions of [Session],
    which keep the options fixed. *)

From Stdlib Require Export QArith Qabs Qround Qminmax Lqa Lia ZArith List Bool.
From Stdlib Require Export Setoid Morphisms Sorted.
Export ListNotations.

(** ** Boolean comparisons on rationals

    Move.ts branches on [<], [>] and [===] of numbers; the model needs them
    as [bool].  They get notations in a scope of their own. *)

Definition Qltb (x y : Q) : bool := negb (Qle_bool y x).
Definition Qleb (x y : Q) : bool := Qle_bool x y.
Definition Qeqb (x y : Q) : bool := Qeq_bool x y.

Declare Scope js_scope.
Delimit Scope js_scope with js.
Notation "x <? y" := (Qltb x y) (at level 70, no associativity) : js_scope.
Notation "x >? y" := (Qltb y x) (at level 70, no associativity) : js_scope.
Notation "x <=? y" := (Qleb x y) (at level 70, no associativity) : js_scope.
Notation "x =? y" := (Qeqb x y) (at level 70, no associativity) : js_scope.

Local Open Scope Q_scope.

Lemma Qltb_spec (x y : Q) : BoolSpec (x < y) (y <= x) (Qltb x y).
Proof.
  unfold Qltb. destruct (Qle_bool y x) eqn:E; constructor.
  - now apply Qle_bool_iff.
  - apply Qnot_le_lt. intro H. apply Qle_bool_iff in H. congruence.
Qed.

Lemma Qleb_spec (x y : Q) : BoolSpec (x <= y) (y < x) (Qleb x y).
Proof.
  unfold Qleb. destruct (Qle_bool x y) eqn:E; constructor.
  - now apply Qle_bool_iff.
  - apply Qnot_le_lt. intro H. apply Qle_bool_iff in H. congruence.
Qed.

Lemma Qeqb_spec (x y : Q) : BoolSpec (x == y) (~ x == y) (Qeqb x y).
Proof.
  unfold Qeqb. destruct (Qeq_bool x y) eqn:E; constructor.
  - now apply Qeq_bool_iff.
  - intro H. apply Qeq_bool_iff in H. congruence.
Qed.

Lemma Qltb_true (x y : Q) : Qltb x y = true <-> x < y.
Proof. destruct (Qltb_spec x y); split; intros; try easy; lra. Qed.

Lemma Qltb_false (x y : Q) : Qltb x y = false <-> y <= x.
Proof. destruct (Qltb_spec x y); split; intros; try easy; lra. Qed.

Lemma Qleb_true (x y : Q) : Qleb x y = true <-> x <= y.
Proof. destruct (Qleb_spec x y); split; intros; try easy; lra. Qed.

Lemma Qeqb_true (x y : Q) : Qeqb x y = true <-> x == y.
Proof. destruct (Qeqb_spec x y); split; intros; try easy; lra. Qed.

Lemma Qeqb_false (x y : Q) : Qeqb x y = false <-> ~ x == y.
Proof. destruct (Qeqb_spec x y); split; intros; try easy; lra. Qed.

#[export] Instance Qltb_Proper : Proper (Qeq ==> Qeq ==> eq) Qltb.
Proof.
  intros x x' Hx y y' Hy.
  destruct (Qltb_spec x y), (Qltb_spec x' y'); try reflexivity; lra.
Qed.

#[export] Instance Qleb_Proper : Proper (Qeq ==> Qeq ==> eq) Qleb.
Proof.
  intros x x' Hx y y' Hy.
  destruct (Qleb_spec x y), (Qleb_spec x' y'); try reflexivity; lra.
Qed.

#[export] Instance Qeqb_Proper : Proper (Qeq ==> Qeq ==> eq) Qeqb.
Proof.
  intros x x' Hx y y' Hy.
  destruct (Qeqb_spec x y), (Qeqb_spec x' y'); try reflexivity; lra.
Qed.

(** ** Tactics

    [qbool] replaces every boolean comparison by the proposition it decides,
    splitting the goal; [qauto] then closes linear goals. *)

Ltac qbool_step :=
  match goal with
  | |- context [Qltb ?x ?y] => destruct (Qltb_spec x y)
  | |- context [Qleb ?x ?y] => destruct (Qleb_spec x y)
  | |- context [Qeqb ?x ?y] => destruct (Qeqb_spec x y)
  | H : context [Qltb ?x ?y] |- _ => destruct (Qltb_spec x y)
  | H : context [Qleb ?x ?y] |- _ => destruct (Qleb_spec x y)
  | H : context [Qeqb ?x ?y] |- _ => destruct (Qeqb_spec x y)
  end.

Ltac qbool := repeat qbool_step.

Ltac qauto :=
  qbool; simpl in *;
  try solve [ reflexivity | discriminate | assumption | lra | lia
            | exfalso; lra | intuition (try lra; try congruence) ].

(** [qcompute] decides a closed comparison of rationals by evaluation. *)
Ltac qcompute :=
  vm_compute;
  first [ reflexivity | discriminate | intro; discriminate
        | repeat split; first [ reflexivity | discriminate | intro; discriminate ] ].

Create HintDb jsnum discriminated.
Create Rewrite HintDb jsnum.

#[export] Hint Rewrite Qltb_true Qltb_false Qleb_true Qeqb_true Qeqb_false : jsnum.

(** ** Ceilings of quotients

    [loop] folds an excess back by [ceil (abs excess / size)] sizes; these
    are the two bounds on that multiple. *)

Lemma Qdiv_mult_cancel (e s : Q) : ~ s == 0 -> s * (e / s) == e.
Proof. intros Hs. field. exact Hs. Qed.

Lemma ceil_div_upper (e s : Q) :
  0 < s -> e <= s * inject_Z (Qceiling (e / s)).
Proof.
  intros Hs. pose proof (Qle_ceiling (e / s)) as Hc.
  pose proof (Qdiv_mult_cancel e s ltac:(lra)) as He. nra.
Qed.

Lemma ceil_div_lower (e s : Q) :
  0 < s -> s * inject_Z (Qceiling (e / s)) < e + s.
Proof.
  intros Hs. pose proof (Qceiling_lt (e / s)) as Hc.
  pose proof (Qdiv_mult_cancel e s ltac:(lra)) as He.
  unfold Z.sub in Hc. rewrite inject_Z_plus, inject_Z_opp in Hc.
  change (inject_Z 1) with 1 in Hc. nra.
Qed.

Lemma ceil_div_small (e s : Q) :
  0 < e -> e <= s -> Qceiling (e / s) = 1%Z.
Proof.
  intros He Hs.
  pose proof (ceil_div_upper e s ltac:(lra)) as Hu.
  pose proof (ceil_div_lower e s ltac:(lra)) as Hl.
  set (k := Qceiling (e / s)) in *.
  assert (0 < inject_Z k) as H0 by nra.
  assert (inject_Z k < 2) as H2 by nra.
  change 0 with (inject_Z 0) in H0. change 2 with (inject_Z 2) in H2.
  rewrite <- Zlt_Qlt in H0, H2. lia.
Qed.

#[export] Hint Resolve ceil_div_upper ceil_div_lower : jsnum.

(** ** Lists *)

(** A list of consecutive images is sorted when the images of any two
    numbers in order are related. *)
Lemma StronglySorted_map_seq {A : Type} (R : A -> A -> Prop) (f : nat -> A) :
  forall (n a : nat),
  (forall j k, (a <= j < k)%nat -> (k < a + n)%nat -> R (f j) (f k)) ->
  Sorted.StronglySorted R (map f (seq a n)).
Proof.
  induction n as [|n IH]; intros a H; cbn [seq map]; constructor.
  - apply IH. intros j k Hjk Hk. apply H; lia.
  - apply Forall_forall. intros x Hx.
    apply in_map_iff in Hx as (k & <- & Hk). apply in_seq in Hk.
    apply H; lia.
Qed.

Lemma inject_Z_lt (a b : Z) : (a < b)%Z -> inject_Z a < inject_Z b.
Proof. intros H. now rewrite <- Zlt_Qlt. Qed.

Lemma inject_Z_le (a b : Z) : (a <= b)%Z -> inject_Z a <= inject_Z b.
Proof. intros H. now rewrite <- Zle_Qle. Qed.
