(* ===== verification/Utils.v ===== *)
(** * Utils: the numeric helpers Move.ts imports

    [abs], [ceil], [sign] and [clamp] of the repository's [utils] module
    (Move.ts line 14), which wrap [Math.abs], [Math.ceil], [Math.sign] and
    [min (max (min x y) n) (max x y)].  Each comes with the laws the
    position model and the loop wrapper rely on and with its [Proper]
    instance for the equality [==] of rationals. *)

From S2P Require Import Prelude.

Local Open Scope Q_scope.
Local Open Scope js_scope.

(** [Math.abs]. *)
Definition abs (x : Q) : Q := Qabs x.

(** [Math.ceil]; the result is a number again. *)
Definition ceil (x : Q) : Q := inject_Z (Qceiling x).

(** [Math.sign]: -1, 0 or 1. *)
Definition sign (x : Q) : Q :=
  if x <? 0 then -1 else if 0 <? x then 1 else 0.

(** [clamp( number, x, y )]: the bounds may come in either order. *)
Definition clamp (number x y : Q) : Q :=
  let minimum := Qmin x y in
  let maximum := Qmax x y in
  Qmin (Qmax minimum number) maximum.

(** ** Laws *)

Lemma Qmin_cases (x y : Q) : (x <= y /\ Qmin x y == x) \/ (y <= x /\ Qmin x y == y).
Proof.
  destruct (Q.min_spec x y) as [[H E]|[H E]]; [left|right]; split; try lra; exact E.
Qed.

Lemma Qmax_cases (x y : Q) : (x <= y /\ Qmax x y == y) \/ (y <= x /\ Qmax x y == x).
Proof.
  destruct (Q.max_spec x y) as [[H E]|[H E]]; [left|right]; split; try lra; exact E.
Qed.

(** [qminmax] eliminates every [Qmin] and [Qmax] of the goal by cases. *)
Ltac qminmax_at x y cases op :=
  let m := fresh "m" in
  let H := fresh "Hm" in
  destruct (cases x y) as [[? H]|[? H]];
  set (m := op x y) in *; clearbody m.

Ltac qminmax :=
  repeat match goal with
  | |- context [Qmin ?x ?y] => qminmax_at x y Qmin_cases Qmin
  | |- context [Qmax ?x ?y] => qminmax_at x y Qmax_cases Qmax
  | _ : context [Qmin ?x ?y] |- _ => qminmax_at x y Qmin_cases Qmin
  | _ : context [Qmax ?x ?y] |- _ => qminmax_at x y Qmax_cases Qmax
  end.

Lemma abs_nonneg (x : Q) : 0 <= abs x.
Proof. apply Qabs_nonneg. Qed.

Lemma abs_cases (x : Q) : (0 <= x /\ abs x == x) \/ (x < 0 /\ abs x == - x).
Proof.
  destruct (Qlt_le_dec x 0) as [H|H]; [right|left]; split; try assumption.
  - apply Qabs_neg. lra.
  - now apply Qabs_pos.
Qed.

(** [qabs x] splits on the sign of [x] and rewrites [abs x] away. *)
Ltac qabs x :=
  let H := fresh "Habs" in
  let a := fresh "a" in
  destruct (abs_cases x) as [[? H]|[? H]];
  set (a := abs x) in *; clearbody a.

Lemma sign_cases (x : Q) :
  (x < 0 /\ sign x = -1) \/ (x == 0 /\ sign x = 0) \/ (0 < x /\ sign x = 1).
Proof. unfold sign. qbool; [left|right;right|right;left]; split; auto; lra. Qed.

Lemma sign_abs (x : Q) : sign x * abs x == x.
Proof.
  destruct (sign_cases x) as [[H ->]|[[H ->]|[H ->]]]; qabs x; lra.
Qed.

Lemma clamp_lower (n x y : Q) : Qmin x y <= clamp n x y.
Proof. unfold clamp. qminmax; lra. Qed.

Lemma clamp_upper (n x y : Q) : clamp n x y <= Qmax x y.
Proof. unfold clamp. qminmax; lra. Qed.

Lemma clamp_id (n x y : Q) : Qmin x y <= n <= Qmax x y -> clamp n x y == n.
Proof. unfold clamp. intros [H1 H2]. revert H1 H2. qminmax; lra. Qed.

Lemma clamp_idem (n x y : Q) : clamp (clamp n x y) x y == clamp n x y.
Proof. apply clamp_id. split; [apply clamp_lower | apply clamp_upper]. Qed.

Lemma clamp_below (n x y : Q) : n <= Qmin x y -> clamp n x y == Qmin x y.
Proof. unfold clamp. qminmax; lra. Qed.

Lemma clamp_above (n x y : Q) : Qmax x y <= n -> clamp n x y == Qmax x y.
Proof. unfold clamp. qminmax; lra. Qed.

Lemma clamp_mono (n n' x y : Q) : n <= n' -> clamp n x y <= clamp n' x y.
Proof. unfold clamp. qminmax; lra. Qed.

Lemma clamp_comm (n x y : Q) : clamp n x y == clamp n y x.
Proof. unfold clamp. qminmax; lra. Qed.

(** ** Compatibility with [==] *)

#[export] Instance abs_Proper : Proper (Qeq ==> Qeq) abs.
Proof. intros x y H. unfold abs. now rewrite H. Qed.

#[export] Instance ceil_Proper : Proper (Qeq ==> Qeq) ceil.
Proof. intros x y H. unfold ceil. now rewrite H. Qed.

#[export] Instance sign_Proper_eq : Proper (Qeq ==> eq) sign.
Proof. intros x y H. unfold sign. qbool; try reflexivity; lra. Qed.

#[export] Instance sign_Proper : Proper (Qeq ==> Qeq) sign.
Proof. intros x y H. now rewrite (sign_Proper_eq x y H). Qed.

#[export] Instance clamp_Proper : Proper (Qeq ==> Qeq ==> Qeq ==> Qeq) clamp.
Proof. intros n n' Hn x x' Hx y y' Hy. unfold clamp. now rewrite Hn, Hx, Hy. Qed.

#[export] Hint Resolve abs_nonneg clamp_lower clamp_upper : jsnum.
#[export] Hint Rewrite clamp_idem sign_abs : jsnum.
