(* ===== verification/Env.v ===== *)
(** * Env: what the Move component reads and never writes

    The options Move.ts consults, the Direction component ([resolve],
    [orient]), the measurements of the Layout component as a record with
    the laws a measured slider satisfies, the slide registry and the
    Controller's last reachable index.  [Uniform] is the layout of [n]
    slides of one width, the fixture of the test suite. *)

From S2P Require Import Prelude Utils.

Local Open Scope Q_scope.
Local Open Scope js_scope.

(** ** Options *)

(** The slider types of [constants/types] (Move.ts line 10). *)
Inductive SliderType : Set := SLIDE | LOOP | FADE.

(** [options.trimSpace]: [false], [true] or ['move'] (Move.ts lines 103, 224, 249). *)
Inductive TrimSpace : Set := TrimFalse | TrimTrue | TrimMove.

(** [options.focus]: ['center'], a number, or left undefined (Move.ts line 237). *)
Inductive Focus : Set := FocusCenter | FocusNumber (f : Q) | FocusUndefined.

(** [options.direction], read by the Direction component. *)
Inductive Direction : Set := LTR | RTL | TTB.

Record Options : Set := {
  type : SliderType;
  waitForTransition : bool;
  trimSpace : TrimSpace;
  focus : Focus;
  direction : Direction;
  speed : Q
}.

Definition SliderType_eqb (a b : SliderType) : bool :=
  match a, b with
  | SLIDE, SLIDE | LOOP, LOOP | FADE, FADE => true
  | _, _ => false
  end.

(** [Splide.is( type )]. *)
Definition Splide_is (o : Options) (t : SliderType) : bool :=
  SliderType_eqb (type o) t.

(** Truthiness of [options.trimSpace], as in [options.trimSpace && ...]. *)
Definition trimSpace_truthy (o : Options) : bool :=
  match trimSpace o with TrimFalse => false | _ => true end.

(** [options.trimSpace === 'move']. *)
Definition trimSpace_is_move (o : Options) : bool :=
  match trimSpace o with TrimMove => true | _ => false end.

(** ** The Direction component *)

Inductive Axis : Set := X | Y.
Inductive Edge : Set := EdgeLeft | EdgeRight | EdgeTop.

(** [resolve( 'X' )]: the axis of the transform. *)
Definition resolveX (o : Options) : Axis :=
  match direction o with TTB => Y | _ => X end.

(** [resolve( 'left' )]: the edge positions are measured from. *)
Definition resolveLeft (o : Options) : Edge :=
  match direction o with LTR => EdgeLeft | RTL => EdgeRight | TTB => EdgeTop end.

(** [orient( value )]: the sign of "toward higher indices". *)
Definition orient (o : Options) (value : Q) : Q :=
  value * (match direction o with RTL => 1 | _ => -1 end).

(** ** The Layout component, by its interface *)

Record Layout : Type := {
  slideSize : Z -> bool -> Q;      (* slideSize( index, withoutGap ) *)
  totalSize : Z -> Q;              (* totalSize( index ) *)
  listSize : Q;
  sliderSize : Q;
  getPadding : bool -> Q           (* getPadding( right ) *)
}.

(** What a slider with content measures. *)
Class LayoutLaws (L : Layout) : Prop := {
  slideSize_nonneg : forall i g, 0 <= slideSize L i g;
  totalSize_nonneg : forall i, 0 <= totalSize L i;
  listSize_nonneg : 0 <= listSize L;
  sliderSize_pos : 0 < sliderSize L
}.

(** ** The environment of one call *)

Record Env : Type := {
  options : Options;
  layout : Layout;
  Slides : list Z;                 (* Components.Slides.get(), by index *)
  getEnd : Z                       (* Components.Controller.getEnd() *)
}.

(** ** Laws of the Direction component *)

Lemma orient_cases (o : Options) (v : Q) :
  (direction o = RTL /\ orient o v == v) \/ (direction o <> RTL /\ orient o v == - v).
Proof.
  unfold orient. destruct (direction o); [right|left|right]; split;
    try congruence; lra.
Qed.

Lemma orient_involutive (o : Options) (v : Q) : orient o (orient o v) == v.
Proof. unfold orient. destruct (direction o); lra. Qed.

Lemma orient_sub (o : Options) (a b : Q) : orient o (a - b) == orient o a - orient o b.
Proof. unfold orient. destruct (direction o); lra. Qed.

Lemma orient_0 (o : Options) : orient o 0 == 0.
Proof. unfold orient. destruct (direction o); lra. Qed.

Lemma orient_lt (o : Options) (a b : Q) :
  orient o a < orient o b <-> (match direction o with RTL => a < b | _ => b < a end).
Proof. unfold orient. destruct (direction o); split; intros; lra. Qed.

#[export] Instance orient_Proper (o : Options) : Proper (Qeq ==> Qeq) (orient o).
Proof. intros a b H. unfold orient. now rewrite H. Qed.

Lemma Splide_is_true (o : Options) (t : SliderType) :
  Splide_is o t = true <-> type o = t.
Proof. unfold Splide_is. destruct (type o), t; simpl; split; congruence. Qed.

Lemma not_FADE (env : Env) :
  type (options env) <> FADE -> Splide_is (options env) FADE = false.
Proof.
  intros H. destruct (Splide_is (options env) FADE) eqn:E; [|reflexivity].
  apply Splide_is_true in E. contradiction.
Qed.

#[export] Hint Rewrite orient_involutive orient_0 : jsnum.

Lemma orient_inj (o : Options) (a b : Q) : orient o a == orient o b -> a == b.
Proof. unfold orient. destruct (direction o); lra. Qed.

Lemma orient_clamp (o : Options) (n x y : Q) :
  orient o (clamp n x y) == clamp (orient o n) (orient o x) (orient o y).
Proof. unfold orient, clamp. destruct (direction o); qminmax; lra. Qed.

Lemma orient_abs (o : Options) (a b : Q) :
  abs (orient o a - orient o b) == abs (a - b).
Proof.
  unfold orient. destruct (direction o);
    qabs (a - b); match goal with |- abs ?t == _ => qabs t end; lra.
Qed.

(** ** The uniform layout

    [n] slides of width [w] separated by [gap], [c] clones with dimensions
    on each side, a viewport of [view] and a padding of [pad]: what the
    Layout component measures on such a slider.  A slide exists for the
    indices from [-c] to [n + c - 1]; a missing slide measures 0. *)

Section Uniform.
Variables (n c : Z) (w gap view pad : Q).

Definition uniform_has (i : Z) : bool := ((- c <=? i) && (i <? n + c))%Z.

(** Distance of the far edge of slide [i] from the near edge of the list. *)
Definition uniform_edge (i : Z) : Q := inject_Z (i + c) * (w + gap) + w.

Definition uniform_slideSize (i : Z) (withoutGap : bool) : Q :=
  if uniform_has i then w + (if withoutGap then 0 else gap) else 0.

Definition uniform_totalSize (i : Z) (withoutGap : bool) : Q :=
  if uniform_has i then abs (uniform_edge i) + (if withoutGap then 0 else gap)
  else 0.

Definition uniform_sliderSize : Q :=
  uniform_totalSize (n - 1) true - uniform_totalSize (-1) true.

Definition uniform : Layout := {|
  slideSize := uniform_slideSize;
  totalSize := fun i => uniform_totalSize i false;
  listSize := view;
  sliderSize := uniform_sliderSize;
  getPadding := fun _ => pad
|}.

Hypothesis n_pos : (0 < n)%Z.
Hypothesis c_nonneg : (0 <= c)%Z.
Hypothesis w_pos : 0 < w.
Hypothesis gap_nonneg : 0 <= gap.
Hypothesis view_nonneg : 0 <= view.

Lemma uniform_edge_pos (i : Z) : uniform_has i = true -> 0 < uniform_edge i.
Proof.
  unfold uniform_has, uniform_edge. intros H.
  apply andb_true_iff in H as [H1 H2].
  apply Z.leb_le in H1. apply Z.ltb_lt in H2.
  assert (0 <= inject_Z (i + c)) as H0.
  { change 0 with (inject_Z 0). rewrite <- Zle_Qle. lia. }
  nra.
Qed.

Lemma uniform_totalSize_has (i : Z) (g : bool) :
  uniform_has i = true ->
  uniform_totalSize i g == uniform_edge i + (if g then 0 else gap).
Proof.
  intros H. unfold uniform_totalSize. rewrite H.
  pose proof (uniform_edge_pos i H). qabs (uniform_edge i); lra.
Qed.

Lemma uniform_sliderSize_pos : 0 < uniform_sliderSize.
Proof.
  unfold uniform_sliderSize.
  rewrite uniform_totalSize_has
    by (unfold uniform_has; apply andb_true_iff; split;
        [apply Z.leb_le | apply Z.ltb_lt]; lia).
  unfold uniform_totalSize. destruct (uniform_has (-1)) eqn:E.
  - pose proof (uniform_edge_pos _ E) as Hp.
    qabs (uniform_edge (-1)); try lra. unfold uniform_edge in *.
    replace (n - 1 + c)%Z with ((-1 + c) + n)%Z by lia.
    rewrite inject_Z_plus.
    assert (0 < inject_Z n) by (change 0 with (inject_Z 0); now rewrite <- Zlt_Qlt).
    nra.
  - unfold uniform_edge.
    assert (0 <= inject_Z (n - 1 + c))
      by (change 0 with (inject_Z 0); rewrite <- Zle_Qle; lia).
    nra.
Qed.

Lemma uniform_LayoutLaws : LayoutLaws uniform.
Proof.
  split; simpl.
  - intros i g. unfold uniform_slideSize. destruct (uniform_has i), g; lra.
  - intros i. unfold uniform_totalSize. destruct (uniform_has i); [|lra].
    pose proof (abs_nonneg (uniform_edge i)). lra.
  - exact view_nonneg.
  - exact uniform_sliderSize_pos.
Qed.

End Uniform.

(** ** The sliders of the test suite

    [init( { width: 200, height: 100 } )] builds a slider of slides 200
    wide in a viewport of 200, with the library's defaults; in loop mode
    the registry also holds clones, which have no dimensions in the test
    environment. *)

(** The indices [from], [from + 1], ... ([count] of them). *)
Definition indices (from : Z) (count : nat) : list Z :=
  map (fun k => (from + Z.of_nat k)%Z) (seq 0 count).

Lemma indices_S (from : Z) (count : nat) :
  indices from (S count) = indices from count ++ [(from + Z.of_nat count)%Z].
Proof. unfold indices. now rewrite seq_S, map_app. Qed.

Lemma indices_split (from : Z) (count i : nat) :
  (i < count)%nat ->
  exists post,
    indices from count = indices from i ++ (from + Z.of_nat i)%Z :: post.
Proof.
  intros H. unfold indices.
  replace count with (i + S (count - S i))%nat by lia.
  rewrite seq_app, map_app. cbn [seq map Nat.add]. eauto.
Qed.

Definition defaults : Options := {|
  type := SLIDE;
  waitForTransition := true;
  trimSpace := TrimTrue;
  focus := FocusUndefined;
  direction := LTR;
  speed := 400
|}.

Definition init (o : Options) (length clones : nat) : Env := {|
  options := o;
  layout := uniform (Z.of_nat length) 0 200 0 200 0;
  Slides := indices (- Z.of_nat clones) (length + 2 * clones);
  getEnd := Z.of_nat length - 1
|}.

Definition with_type (t : SliderType) (o : Options) : Options := {|
  type := t;
  waitForTransition := waitForTransition o;
  trimSpace := trimSpace o;
  focus := focus o;
  direction := direction o;
  speed := speed o
|}.

Definition with_focus (f : Focus) (o : Options) : Options := {|
  type := type o;
  waitForTransition := waitForTransition o;
  trimSpace := trimSpace o;
  focus := f;
  direction := direction o;
  speed := speed o
|}.

Definition with_waitForTransition (b : bool) (o : Options) : Options := {|
  type := type o;
  waitForTransition := b;
  trimSpace := trimSpace o;
  focus := focus o;
  direction := direction o;
  speed := speed o
|}.

Definition with_trimSpace (t : TrimSpace) (o : Options) : Options := {|
  type := type o;
  waitForTransition := waitForTransition o;
  trimSpace := t;
  focus := focus o;
  direction := direction o;
  speed := speed o
|}.

(** A slider as a browser lays it out: [length] slides of width [w]
    separated by [gap], with [clones] clones on each side that have
    dimensions like the slides, all of them registered. *)
Definition laid_out (o : Options) (length clones : nat) (w gap view : Q) (last : Z) : Env := {|
  options := o;
  layout := uniform (Z.of_nat length) (Z.of_nat clones) w gap view 0;
  Slides := indices (- Z.of_nat clones) (length + 2 * clones);
  getEnd := last
|}.

(** The slider of most tests, and the slider of the loop tests. *)
Definition slider : Env := init defaults 5 0.
Definition looped : Env := init (with_type LOOP defaults) 5 2.

#[export] Instance slider_LayoutLaws : LayoutLaws (layout slider).
Proof. apply uniform_LayoutLaws; [lia | lia | lra | lra | lra]. Qed.

#[export] Instance looped_LayoutLaws : LayoutLaws (layout looped).
Proof. apply uniform_LayoutLaws; [lia | lia | lra | lra | lra]. Qed.
