(* ===== verification/Position.v ===== *)
(** * Position: the position model and the limits of Move.ts

    [offset], [trim], [toPosition], [getPosition], [getLimit],
    [exceededLimit] and [toIndex] (Move.ts lines 172-274), each taking the
    environment it reads, with the DOM of list and track that
    [getPosition] measures.  [closest] is the exhaustive search that the
    early-exit scan of [toIndex] is compared against. *)

From Stdlib Require Import Sorted.
From S2P Require Import Prelude Utils Env.

Local Open Scope Q_scope.
Local Open Scope js_scope.

(** ** The DOM of list and track

    [trackEdge] is [rect( track )[ resolve( 'left' ) ]]; [rendered] is the
    translation the list is displayed at, which lags behind the rule
    written to [transformRule] while a CSS transition is running
    ([transitionRule]).  The list starts where the track's padding ends,
    moved by its translation. *)

Record Dom : Type := {
  trackEdge : Q;
  rendered : Q;
  transformRule : option (Axis * Q);
  transitionRule : bool
}.

(** The DOM before any rule is written: the list rests at translation 0. *)
Definition initial_dom : Dom := {|
  trackEdge := 0;
  rendered := 0;
  transformRule := None;
  transitionRule := false
|}.

Definition rect_track (d : Dom) : Q := trackEdge d.

Definition rect_list (env : Env) (d : Dom) : Q :=
  trackEdge d - orient (options env) (getPadding (layout env) false) + rendered d.

(** ** Operations *)

(** Move.ts [offset]: the alignment offset of slide [index]. *)
Definition offset (env : Env) (index : Z) : Q :=
  match focus (options env) with
  | FocusCenter =>
      (listSize (layout env) - slideSize (layout env) index true) / 2
  | FocusNumber f => f * slideSize (layout env) index false
  | FocusUndefined => 0
  end.

(** Move.ts [trim]. *)
Definition trim (env : Env) (position : Q) : Q :=
  if trimSpace_truthy (options env) && Splide_is (options env) SLIDE
  then clamp position 0
         (orient (options env) (sliderSize (layout env) - listSize (layout env)))
  else position.

(** Move.ts [toPosition]. *)
Definition toPosition (env : Env) (index : Z) (trimming : bool) : Q :=
  let position :=
    orient (options env) (totalSize (layout env) (index - 1) - offset env index) in
  if trimming then trim env position else position.

(** Move.ts [getPosition]. *)
Definition getPosition (env : Env) (d : Dom) : Q :=
  rect_list env d - rect_track d
  + orient (options env) (getPadding (layout env) false).

(** Move.ts [getLimit]. *)
Definition getLimit (env : Env) (max : bool) : Q :=
  toPosition env (if max then getEnd env else 0%Z) (trimSpace_truthy (options env)).

(** Move.ts [exceededLimit]; both arguments are optional. *)
Definition exceededLimit (env : Env) (d : Dom)
    (max : option bool) (position : option Q) : bool :=
  let position := match position with None => getPosition env d | Some p => p end in
  let exceededMin :=
    negb (match max with Some true => true | _ => false end)
    && (orient (options env) position <? orient (options env) (getLimit env false)) in
  let exceededMax :=
    negb (match max with Some false => true | _ => false end)
    && (orient (options env) position >? orient (options env) (getLimit env true)) in
  exceededMin || exceededMax.

(** [distance < minDistance], where [None] is [Infinity]. *)
Definition lt_minDistance (distance : Q) (minDistance : option Q) : bool :=
  match minDistance with
  | None => true
  | Some m => distance <? m
  end.

#[global] Arguments lt_minDistance : simpl never.

(** The [for] loop of [toIndex] over the remaining slides: [index] and
    [minDistance] are the loop's variables, leaving the recursion is its
    [break]. *)
Fixpoint toIndex_scan (P : Z -> Q) (position : Q) (slides : list Z)
    (index : Z) (minDistance : option Q) : Z :=
  match slides with
  | [] => index
  | slideIndex :: rest =>
      let distance := abs (P slideIndex - position) in
      if lt_minDistance distance minDistance
      then toIndex_scan P position rest slideIndex (Some distance)
      else index
  end.

(** Move.ts [toIndex]. *)
Definition toIndex (env : Env) (position : Q) : Z :=
  toIndex_scan (fun i => toPosition env i true) position (Slides env) 0%Z None.

(** ** Reference: the first slide of minimal distance, by exhaustive search *)

Fixpoint closest_from (P : Z -> Q) (position : Q) (slides : list Z)
    (best : Z) (bestDistance : option Q) : Z :=
  match slides with
  | [] => best
  | slideIndex :: rest =>
      let distance := abs (P slideIndex - position) in
      if lt_minDistance distance bestDistance
      then closest_from P position rest slideIndex (Some distance)
      else closest_from P position rest best bestDistance
  end.

Definition closest (env : Env) (position : Q) : Z :=
  closest_from (fun i => toPosition env i true) position (Slides env) 0%Z None.

(** Slide positions advance strictly with the index, in the direction of
    travel. *)
Definition advances (env : Env) (i j : Z) : Prop :=
  orient (options env) (toPosition env i true)
  < orient (options env) (toPosition env j true).

Definition Monotone (env : Env) : Prop := StronglySorted (advances env) (Slides env).

(** ** Compatibility with [==] *)

#[export] Instance trim_Proper (env : Env) : Proper (Qeq ==> Qeq) (trim env).
Proof.
  intros p q H. unfold trim.
  destruct (trimSpace_truthy (options env) && Splide_is (options env) SLIDE);
    now rewrite H.
Qed.

#[export] Instance lt_minDistance_Proper :
  Proper (Qeq ==> eq ==> eq) lt_minDistance.
Proof.
  intros d d' H m m' <-. unfold lt_minDistance.
  destruct m; [now rewrite H | reflexivity].
Qed.

Lemma exceededLimit_ext (env : Env) (d : Dom) (max : option bool) (p q : Q) :
  p == q -> exceededLimit env d max (Some p) = exceededLimit env d max (Some q).
Proof. intros H. unfold exceededLimit. now rewrite H. Qed.

(** ** The current position *)

Lemma getPosition_rendered (env : Env) (d : Dom) : getPosition env d == rendered d.
Proof. unfold getPosition, rect_list, rect_track. lra. Qed.

Lemma exceededLimit_default (env : Env) (d : Dom) (max : option bool) :
  exceededLimit env d max None = exceededLimit env d max (Some (rendered d)).
Proof. unfold exceededLimit. now rewrite getPosition_rendered. Qed.

(** ** Trimming *)

Definition trims (env : Env) : bool :=
  trimSpace_truthy (options env) && Splide_is (options env) SLIDE.

Lemma trim_off (env : Env) (p : Q) : trims env = false -> trim env p = p.
Proof. unfold trims, trim. now intros ->. Qed.

Lemma trim_on (env : Env) (p : Q) :
  trims env = true ->
  trim env p
  = clamp p 0 (orient (options env) (sliderSize (layout env) - listSize (layout env))).
Proof. unfold trims, trim. now intros ->. Qed.

Lemma trim_idem (env : Env) (p : Q) : trim env (trim env p) == trim env p.
Proof.
  destruct (trims env) eqn:E.
  - rewrite !(trim_on env _ E). apply clamp_idem.
  - now rewrite !(trim_off env _ E).
Qed.

(** When trimming applies (a truthy [trimSpace] in slide mode), a
    trimmed position lies between 0 and the oriented difference of slider
    size and list size, whichever order the two come in. *)
Theorem trim_bounds (env : Env) (p : Q) :
  trims env = true ->
  let edge := orient (options env) (sliderSize (layout env) - listSize (layout env)) in
  Qmin 0 edge <= trim env p <= Qmax 0 edge.
Proof.
  intros E edge. rewrite (trim_on env _ E). split; auto with jsnum.
Qed.

Lemma trim_mono (env : Env) (p q : Q) : p <= q -> trim env p <= trim env q.
Proof.
  intros H. destruct (trims env) eqn:E.
  - rewrite !(trim_on env _ E). now apply clamp_mono.
  - now rewrite !(trim_off env _ E).
Qed.

Lemma toPosition_trimmed (env : Env) (i : Z) :
  toPosition env i true = trim env (toPosition env i false).
Proof. reflexivity. Qed.

#[export] Hint Rewrite getPosition_rendered trim_idem : jsnum.

(** ** The scan of [toIndex] against the exhaustive search

    The lemmas of this section are about any position function [P] whose
    values advance strictly along the list, in the direction [o] gives. *)

Section Scan.
Variables (o : Options) (P : Z -> Q) (x : Q).

Definition dist (i : Z) : Q := abs (P i - x).

Definition adv (i j : Z) : Prop := orient o (P i) < orient o (P j).

(** One iteration of either loop, at slide [s]. *)
Ltac scan_step s := cbn [toIndex_scan closest_from]; fold (dist s).

Lemma dist_orient (i : Z) : dist i == abs (orient o (P i) - orient o x).
Proof. unfold dist. now rewrite orient_abs. Qed.

(** Once the target lies at or before a slide, every later slide is
    strictly farther. *)
Lemma dist_rising (a t : Z) :
  orient o x <= orient o (P a) -> adv a t -> dist a < dist t.
Proof.
  unfold adv. rewrite !dist_orient. intros Hx Hat.
  qabs (orient o (P a) - orient o x); qabs (orient o (P t) - orient o x); lra.
Qed.

(** A slide that is not nearer than its predecessor lies past the target. *)
Lemma dist_turn (a b : Z) :
  adv a b -> dist a <= dist b -> orient o x <= orient o (P b).
Proof.
  unfold adv. rewrite !dist_orient. intros Hab.
  qabs (orient o (P a) - orient o x); qabs (orient o (P b) - orient o x); lra.
Qed.

Lemma dist_after_turn (a b : Z) (rest : list Z) :
  StronglySorted adv (a :: b :: rest) -> dist a <= dist b ->
  Forall (fun t => dist a <= dist t) (b :: rest).
Proof.
  intros HS Hab. inversion HS as [|? ? HS' Ha]; subst.
  inversion Ha as [|? ? Hadv _]; subst.
  inversion HS' as [|? ? _ Hb]; subst.
  constructor; [exact Hab|].
  pose proof (dist_turn a b Hadv Hab) as Hx.
  eapply Forall_impl; [|exact Hb]. intros t Ht. simpl in Ht.
  pose proof (dist_rising b t Hx Ht). lra.
Qed.

Lemma lt_minDistance_spec (d m : Q) :
  BoolSpec (d < m) (m <= d) (lt_minDistance d (Some m)).
Proof. unfold lt_minDistance. apply Qltb_spec. Qed.

Lemma lt_minDistance_false (d m : Q) : m <= d -> lt_minDistance d (Some m) = false.
Proof. intros H. destruct (lt_minDistance_spec d m); [lra | reflexivity]. Qed.

Lemma lt_minDistance_true (d m : Q) : d < m -> lt_minDistance d (Some m) = true.
Proof. intros H. destruct (lt_minDistance_spec d m); [reflexivity | lra]. Qed.

Lemma closest_from_keep (slides : list Z) (best : Z) :
  Forall (fun t => dist best <= dist t) slides ->
  closest_from P x slides best (Some (dist best)) = best.
Proof.
  induction 1 as [|t rest Ht _ IH]; [reflexivity|]. scan_step t.
  now rewrite lt_minDistance_false.
Qed.

Lemma scan_closest (slides : list Z) : forall index,
  StronglySorted adv (index :: slides) ->
  toIndex_scan P x slides index (Some (dist index))
  = closest_from P x slides index (Some (dist index)).
Proof.
  induction slides as [|s rest IH]; intros index HS; [reflexivity|].
  scan_step s.
  destruct (lt_minDistance_spec (dist s) (dist index)) as [Hlt|Hge].
  - apply IH. now inversion HS.
  - symmetry. apply closest_from_keep.
    pose proof (dist_after_turn _ _ _ HS Hge) as HF.
    inversion HF; subst. assumption.
Qed.

(** What the exhaustive search returns. *)
Lemma closest_from_In (slides : list Z) : forall best m,
  In (closest_from P x slides best m) (best :: slides).
Proof.
  induction slides as [|s rest IH]; intros best m; [now left|].
  scan_step s. destruct (lt_minDistance _ m).
  - right. apply IH.
  - destruct (IH best m) as [H|H]; [left | right; right]; exact H.
Qed.

Lemma closest_from_min (slides : list Z) : forall best,
  Forall (fun t => dist (closest_from P x slides best (Some (dist best))) <= dist t)
         (best :: slides).
Proof.
  induction slides as [|s rest IH]; intros best.
  - constructor; [simpl; lra | constructor].
  - scan_step s.
    destruct (lt_minDistance_spec (dist s) (dist best)) as [Hlt|Hge].
    + specialize (IH s). inversion IH as [|? ? Hs Hrest]; subst.
      constructor; [lra | now constructor].
    + specialize (IH best). inversion IH as [|? ? Hb Hrest]; subst.
      constructor; [exact Hb | constructor; [lra | exact Hrest]].
Qed.

(** Strictly advancing positions are pairwise distinct. *)
Lemma adv_apart (l : list Z) (i t : Z) :
  StronglySorted adv l -> In i l -> In t l -> t <> i -> ~ P t == P i.
Proof.
  unfold adv. induction 1 as [|a l HS IH Ha]; intros Hi Ht Hne E; [easy|].
  rewrite Forall_forall in Ha.
  destruct Hi as [->|Hi], Ht as [->|Ht]; try congruence.
  - specialize (Ha _ Ht). rewrite E in Ha. lra.
  - specialize (Ha _ Hi). rewrite E in Ha. lra.
  - now apply IH.
Qed.

(** The exhaustive search finds a slide that is strictly nearer than all
    others. *)
Lemma closest_from_unique (slides : list Z) (best i : Z) :
  In i (best :: slides) ->
  (forall t, In t (best :: slides) -> t <> i -> dist i < dist t) ->
  closest_from P x slides best (Some (dist best)) = i.
Proof.
  intros Hi Hnear.
  pose proof (closest_from_In slides best (Some (dist best))) as Hin.
  pose proof (closest_from_min slides best) as Hmin.
  rewrite Forall_forall in Hmin. specialize (Hmin i Hi).
  destruct (Z.eq_dec (closest_from P x slides best (Some (dist best))) i)
    as [E|Hne]; [exact E|].
  specialize (Hnear _ Hin Hne). lra.
Qed.

End Scan.

Arguments dist P x i /.

(** ** [toIndex]

    Both loops take the first slide unconditionally ([distance < Infinity]);
    from there the lemmas of the section apply. *)

Lemma toIndex_cons (env : Env) (x : Q) (s : Z) (rest : list Z) :
  Slides env = s :: rest ->
  toIndex env x
  = toIndex_scan (fun i => toPosition env i true) x rest s
      (Some (dist (fun i => toPosition env i true) x s)).
Proof. unfold toIndex. now intros ->. Qed.

Lemma closest_cons (env : Env) (x : Q) (s : Z) (rest : list Z) :
  Slides env = s :: rest ->
  closest env x
  = closest_from (fun i => toPosition env i true) x rest s
      (Some (dist (fun i => toPosition env i true) x s)).
Proof. unfold closest. now intros ->. Qed.

Lemma toIndex_scans_all (env : Env) (x : Q) :
  StronglySorted (advances env) (Slides env) -> toIndex env x = closest env x.
Proof.
  intros HS. destruct (Slides env) as [|s rest] eqn:E.
  - unfold toIndex, closest. now rewrite E.
  - rewrite (toIndex_cons env x s rest E), (closest_cons env x s rest E).
    now apply scan_closest with (o := options env).
Qed.

(** On slide positions that advance strictly with the index, the
    early-exit scan of [toIndex] returns what the exhaustive search for the
    first slide of minimal distance returns. *)
Theorem toIndex_closest (env : Env) (x : Q) :
  Monotone env -> toIndex env x = closest env x.
Proof. exact (toIndex_scans_all env x). Qed.

(** The exhaustive search returns a slide no farther from [x] than any
    registered slide. *)
Lemma closest_minimal (env : Env) (x : Q) (s : Z) :
  In s (Slides env) ->
  abs (toPosition env (closest env x) true - x) <= abs (toPosition env s true - x).
Proof.
  intros Hs. destruct (Slides env) as [|s0 rest] eqn:E; [easy|].
  rewrite (closest_cons env x s0 rest E).
  pose proof (closest_from_min (fun i => toPosition env i true) x rest s0) as H.
  rewrite Forall_forall in H. exact (H s Hs).
Qed.

(** On strictly advancing slide positions [toIndex] returns a slide
    that is at least as close to the position as every registered slide. *)
Theorem toIndex_minimal (env : Env) (x : Q) (s : Z) :
  Monotone env -> In s (Slides env) ->
  abs (toPosition env (toIndex env x) true - x) <= abs (toPosition env s true - x).
Proof. intros HM Hs. rewrite (toIndex_scans_all env x HM). now apply closest_minimal. Qed.

(** On strictly advancing slide positions, the index of the trimmed
    position of a registered slide is that slide. *)
Corollary toIndex_toPosition_Monotone (env : Env) (i : Z) :
  Monotone env -> In i (Slides env) ->
  toIndex env (toPosition env i true) = i.
Proof.
  intros HM Hi. rewrite (toIndex_scans_all env _ HM).
  destruct (Slides env) as [|s rest] eqn:E; [easy|].
  rewrite (closest_cons env _ s rest E). unfold Monotone in HM. rewrite E in HM.
  apply closest_from_unique; [exact Hi|]. intros t Ht Hne.
  pose proof (adv_apart (options env) _ _ i t HM Hi Ht Hne) as Hap.
  unfold dist. cbv beta in *.
  qabs (toPosition env i true - toPosition env i true);
    qabs (toPosition env t true - toPosition env i true); lra.
Qed.

(** [toIndex] returns the index of a registered slide, or 0 when there is
    none. *)
Lemma toIndex_scan_In (P : Z -> Q) (x : Q) (slides : list Z) : forall index m,
  In (toIndex_scan P x slides index m) (index :: slides).
Proof.
  induction slides as [|s rest IH]; intros index m; [now left|].
  cbn [toIndex_scan]. destruct (lt_minDistance _ m); [|now left].
  right. apply IH.
Qed.

Lemma toIndex_In (env : Env) (x : Q) :
  In (toIndex env x) (Slides env) \/ (Slides env = [] /\ toIndex env x = 0%Z).
Proof.
  destruct (Slides env) as [|s rest] eqn:E.
  - right. split; [reflexivity|]. unfold toIndex. now rewrite E.
  - left. rewrite (toIndex_cons env x s rest E). apply toIndex_scan_In.
Qed.

(** When the first two registered slides have the same trimmed
    position, the scan leaves at the second slide: [toIndex] returns the
    first slide whatever the position is. *)
Theorem toIndex_plateau (env : Env) (x : Q) (a b : Z) (rest : list Z) :
  Slides env = a :: b :: rest ->
  toPosition env a true == toPosition env b true ->
  toIndex env x = a.
Proof.
  intros E Hab. rewrite (toIndex_cons env x a _ E). cbn [toIndex_scan].
  rewrite lt_minDistance_false; [reflexivity|]. unfold dist. rewrite Hab. lra.
Qed.

(** Round trip on a strictly advancing prefix: the slides after [i] do not
    matter, because the scan leaves right after the distance 0. *)
Section Prefix.
Variables (o : Options) (P : Z -> Q) (i : Z) (post : list Z).

Lemma scan_at_target (index : Z) (m : Q) :
  0 < m -> toIndex_scan P (P i) (i :: post) index (Some m) = i.
Proof.
  intros Hm. cbn [toIndex_scan].
  assert (abs (P i - P i) == 0) as E by (qabs (P i - P i); lra).
  rewrite E. destruct (lt_minDistance_spec 0 m); [|lra].
  destruct post as [|s rest]; [reflexivity|]. cbn [toIndex_scan].
  rewrite lt_minDistance_false; [reflexivity|]. rewrite E. apply abs_nonneg.
Qed.

Lemma scan_prefix (pre : list Z) : forall index,
  StronglySorted (adv o P) ((index :: pre) ++ [i]) ->
  toIndex_scan P (P i) (pre ++ i :: post) index (Some (dist P (P i) index)) = i.
Proof.
  induction pre as [|s pre' IH]; intros index HS;
    inversion HS as [|? ? HS' Hall]; subst; rewrite Forall_forall in Hall.
  - apply scan_at_target. rewrite (dist_orient o).
    pose proof (Hall i (or_introl eq_refl)) as Hi. unfold adv in Hi.
    qabs (orient o (P index) - orient o (P i)); lra.
  - cbn [app toIndex_scan]. fold (dist P (P i) s).
    assert (In i ((s :: pre') ++ [i])) as Hin by (apply in_or_app; right; now left).
    pose proof (Hall s (or_introl eq_refl)) as Hs. pose proof (Hall i Hin) as Hi.
    inversion HS' as [|? ? _ Hall']; subst. rewrite Forall_forall in Hall'.
    assert (adv o P s i) as Hsi by (apply Hall'; apply in_or_app; right; now left).
    unfold adv in *. rewrite lt_minDistance_true; [now apply IH|].
    rewrite !(dist_orient o).
    qabs (orient o (P s) - orient o (P i));
      qabs (orient o (P index) - orient o (P i)); lra.
Qed.

End Prefix.

Lemma toIndex_prefix (env : Env) (i : Z) (pre post : list Z) :
  Slides env = pre ++ i :: post ->
  StronglySorted (advances env) (pre ++ [i]) ->
  toIndex env (toPosition env i true) = i.
Proof.
  intros E HS. destruct pre as [|s pre'].
  - rewrite (toIndex_cons env _ i post E).
    destruct post as [|t rest]; [reflexivity|]. cbn [toIndex_scan].
    rewrite lt_minDistance_false; [reflexivity|]. unfold dist.
    qabs (toPosition env i true - toPosition env i true);
      qabs (toPosition env t true - toPosition env i true); lra.
  - rewrite (toIndex_cons env _ s _ E).
    exact (scan_prefix (options env) (fun k => toPosition env k true) i post pre' s HS).
Qed.

(** C4. Round trip: when the trimmed positions of the slides up to and
    including [i] advance strictly with the index, the index of the trimmed
    position of slide [i] is [i]. *)
Theorem toIndex_toPosition (env : Env) (i : Z) (pre post : list Z) :
  Slides env = pre ++ i :: post ->
  StronglySorted (advances env) (pre ++ [i]) ->
  toIndex env (toPosition env i true) = i.
Proof. apply toIndex_prefix. Qed.

(** ** [toIndex] up to [==] *)

Definition minDistance_eq (m m' : option Q) : Prop :=
  match m, m' with
  | Some d, Some d' => d == d'
  | None, None => True
  | _, _ => False
  end.

Lemma lt_minDistance_ext (d d' : Q) (m m' : option Q) :
  d == d' -> minDistance_eq m m' -> lt_minDistance d m = lt_minDistance d' m'.
Proof.
  intros Hd Hm. unfold lt_minDistance.
  destruct m, m'; simpl in Hm; try easy. now rewrite Hd, Hm.
Qed.

Lemma toIndex_scan_ext (P : Z -> Q) (x x' : Q) (slides : list Z) :
  x == x' -> forall index m m', minDistance_eq m m' ->
  toIndex_scan P x slides index m = toIndex_scan P x' slides index m'.
Proof.
  intros Hx. induction slides as [|s rest IH]; intros index m m' Hm; [reflexivity|].
  cbn [toIndex_scan].
  assert (abs (P s - x) == abs (P s - x')) as E by now rewrite Hx.
  rewrite (lt_minDistance_ext _ _ m m' E Hm).
  destruct (lt_minDistance _ m'); [|reflexivity]. now apply IH.
Qed.

#[export] Instance toIndex_Proper (env : Env) : Proper (Qeq ==> eq) (toIndex env).
Proof. intros x x' H. unfold toIndex. now apply toIndex_scan_ext. Qed.

(** ** Sliders laid out uniformly

    Without trimming, the positions of a uniformly laid out slider advance
    by one slide and gap per index, whatever the focus: the hypothesis of
    the theorems above holds for every such slider. *)

Section LaidOut.
Variables (o : Options) (length clones : nat) (w gap view : Q) (last : Z).
Hypothesis w_pos : 0 < w.
Hypothesis gap_nonneg : 0 <= gap.
Hypothesis untrimmed : trimSpace_truthy o && Splide_is o SLIDE = false.

Let env := laid_out o length clones w gap view last.

(** The offset of every slide that exists. *)
Definition laid_out_offset : Q :=
  match focus o with
  | FocusCenter => (view - w) / 2
  | FocusNumber f => f * (w + gap)
  | FocusUndefined => 0
  end.

Lemma laid_out_has (k : nat) :
  (k < length + 2 * clones)%nat ->
  uniform_has (Z.of_nat length) (Z.of_nat clones) (- Z.of_nat clones + Z.of_nat k) = true.
Proof.
  intros Hk. unfold uniform_has. apply andb_true_iff.
  split; [apply Z.leb_le | apply Z.ltb_lt]; lia.
Qed.

Lemma laid_out_totalSize (k : nat) :
  (k < length + 2 * clones)%nat ->
  totalSize (layout env) (- Z.of_nat clones + Z.of_nat k - 1)
  == inject_Z (Z.of_nat k) * (w + gap).
Proof.
  intros Hk. cbn [env laid_out layout totalSize uniform]. unfold uniform_totalSize.
  destruct (uniform_has _ _ _) eqn:E.
  - pose proof (uniform_edge_pos _ _ w gap w_pos gap_nonneg _ E) as Hp.
    unfold uniform_has in E. apply andb_true_iff in E as [E1 _]. apply Z.leb_le in E1.
    qabs (uniform_edge (Z.of_nat clones) w gap (- Z.of_nat clones + Z.of_nat k - 1));
      [|lra]. unfold uniform_edge in *.
    replace (- Z.of_nat clones + Z.of_nat k - 1 + Z.of_nat clones)%Z
      with (Z.of_nat k + -1)%Z in * by lia.
    rewrite inject_Z_plus in *. change (inject_Z (-1)) with (-1) in *. lra.
  - unfold uniform_has in E. apply andb_false_iff in E.
    assert (k = 0%nat) as -> by (destruct E as [E|E];
      [apply Z.leb_gt in E | apply Z.ltb_ge in E]; lia).
    change (inject_Z (Z.of_nat 0)) with 0. lra.
Qed.

Lemma laid_out_position (k : nat) :
  (k < length + 2 * clones)%nat ->
  orient o (toPosition env (- Z.of_nat clones + Z.of_nat k) true)
  == inject_Z (Z.of_nat k) * (w + gap) - laid_out_offset.
Proof.
  intros Hk. unfold toPosition, trim. cbn [options env laid_out]. rewrite untrimmed.
  rewrite orient_involutive. fold env. rewrite (laid_out_totalSize k Hk).
  unfold offset, laid_out_offset. cbn [env laid_out layout options slideSize listSize uniform].
  unfold uniform_slideSize. rewrite (laid_out_has k Hk). destruct (focus o); field.
Qed.

Lemma laid_out_advances : StronglySorted (advances env) (Slides env).
Proof.
  cbn [Slides env laid_out]. unfold indices.
  apply StronglySorted_map_seq. intros j k Hjk Hk. unfold advances.
  change (options env) with o. rewrite !laid_out_position by lia.
  assert (inject_Z (Z.of_nat j) < inject_Z (Z.of_nat k)) by (apply inject_Z_lt; lia).
  nra.
Qed.

(** Without trimming, the slide positions of every uniformly laid
    out slider advance strictly with the index, and [toIndex] is the
    exhaustive search for the closest slide. *)
Theorem laid_out_Monotone :
  Monotone env /\ forall x, toIndex env x = closest env x.
Proof.
  split; [exact laid_out_advances |].
  intros x. apply toIndex_scans_all. exact laid_out_advances.
Qed.

End LaidOut.

(** A looped slider of five slides 200 wide with a gap of 10, two clones
    on each side, focused on the centre of a viewport of 300. *)
Definition spaced : Env :=
  laid_out (with_focus FocusCenter (with_type LOOP defaults)) 5 2 200 10 300 4.

Lemma laid_out_Monotone_witness :
  Monotone spaced /\ forall x, toIndex spaced x = closest spaced x.
Proof. apply laid_out_Monotone; [lra | lra | reflexivity]. Defined.

(** ** Trimmed sliders

    The default slider: slide mode with [trimSpace], no focus, no clones.
    The positions advance by one slide and gap per index until the last
    slides are held at the end of the list, [excess] before the end of the
    content: from the slide [held] on, all slides have the same
    position. *)

Section Trimmed.
Variables (o : Options) (length : nat) (w gap view : Q) (last : Z).
Hypothesis w_pos : 0 < w.
Hypothesis gap_nonneg : 0 <= gap.
Hypothesis slide_mode : type o = SLIDE.
Hypothesis trimming : trimSpace_truthy o = true.
Hypothesis no_focus : focus o = FocusUndefined.

Let env := laid_out o length 0 w gap view last.

(** How far the content exceeds the viewport. *)
Definition excess : Q := sliderSize (layout env) - listSize (layout env).

Hypothesis overflows : 0 <= excess.

(** The first slide that is held at the end. *)
Definition held : nat := Z.to_nat (Qceiling (excess / (w + gap))).

Lemma held_reached : excess <= inject_Z (Z.of_nat held) * (w + gap).
Proof.
  unfold held. pose proof (ceil_div_upper excess (w + gap) ltac:(lra)) as H.
  destruct (Qceiling (excess / (w + gap))) as [|p|p] eqn:E.
  - cbn in *. lra.
  - rewrite Z2Nat.id by lia. lra.
  - cbn. assert (inject_Z (Z.neg p) < 0) by (apply (inject_Z_lt (Z.neg p) 0); lia). nra.
Qed.

Lemma held_first (k : nat) :
  (k < held)%nat -> inject_Z (Z.of_nat k) * (w + gap) < excess.
Proof.
  unfold held. intros Hk.
  pose proof (ceil_div_lower excess (w + gap) ltac:(lra)) as H.
  assert (inject_Z (Z.of_nat k) <= inject_Z (Qceiling (excess / (w + gap))) - 1) as Hle.
  { change 1 with (inject_Z 1). unfold Qminus. rewrite <- inject_Z_opp, <- inject_Z_plus.
    apply inject_Z_le. lia. }
  nra.
Qed.

Lemma trimmed_position (k : nat) :
  (k < length)%nat ->
  orient o (toPosition env (Z.of_nat k) true)
  == Qmin (inject_Z (Z.of_nat k) * (w + gap)) excess.
Proof.
  intros Hk. unfold toPosition, trim. cbn [options env laid_out].
  rewrite trimming, (proj2 (Splide_is_true o SLIDE) slide_mode). cbn [andb].
  rewrite orient_clamp, !orient_involutive, orient_0. fold env.
  pose proof (laid_out_totalSize o length 0 w gap view last w_pos gap_nonneg k
                ltac:(lia)) as Ht.
  change (- Z.of_nat 0 + Z.of_nat k - 1)%Z with (Z.of_nat k - 1)%Z in Ht.
  fold env in Ht. rewrite Ht.
  unfold offset. cbn [options env laid_out]. rewrite no_focus.
  fold env. fold excess.
  assert (0 <= inject_Z (Z.of_nat k))
    by (apply (inject_Z_le 0); lia).
  unfold clamp. qminmax; nra.
Qed.

Lemma trimmed_advances (i : nat) :
  (i < length)%nat -> (i <= held)%nat ->
  StronglySorted (advances env) (indices 0 (S i)).
Proof.
  intros Hi Hh. unfold indices. apply StronglySorted_map_seq.
  intros j k Hjk Hk. unfold advances. change (options env) with o.
  change (0 + Z.of_nat j)%Z with (Z.of_nat j).
  change (0 + Z.of_nat k)%Z with (Z.of_nat k).
  rewrite !trimmed_position by lia.
  pose proof (held_first j ltac:(lia)) as Hj.
  assert (inject_Z (Z.of_nat j) < inject_Z (Z.of_nat k)) by (apply inject_Z_lt; lia).
  qminmax; nra.
Qed.

Lemma trimmed_held (i : nat) :
  (i < length)%nat -> (held <= i)%nat ->
  toPosition env (Z.of_nat i) true == toPosition env (Z.of_nat held) true.
Proof.
  intros Hi Hh. apply (orient_inj o). rewrite !trimmed_position by lia.
  pose proof held_reached as Hr.
  assert (inject_Z (Z.of_nat held) <= inject_Z (Z.of_nat i)) by (apply inject_Z_le; lia).
  qminmax; nra.
Qed.

Lemma trimmed_round_trip (i : nat) :
  (i < length)%nat -> (i <= held)%nat ->
  toIndex env (toPosition env (Z.of_nat i) true) = Z.of_nat i.
Proof.
  intros Hi Hh. destruct (indices_split 0 length i Hi) as [post E].
  apply (toIndex_prefix env (Z.of_nat i) (indices 0 i) post).
  - cbn [Slides env laid_out]. cbn [Nat.mul Nat.add]. rewrite Nat.add_0_r. exact E.
  - change (Z.of_nat i) with (0 + Z.of_nat i)%Z. rewrite <- indices_S.
    now apply trimmed_advances.
Qed.

Lemma trimmed_index (i : nat) :
  (i < length)%nat ->
  toIndex env (toPosition env (Z.of_nat i) true) = Z.of_nat (Nat.min i held).
Proof.
  intros Hi. destruct (Nat.le_gt_cases i held) as [H|H].
  - rewrite Nat.min_l by exact H. now apply trimmed_round_trip.
  - rewrite Nat.min_r by lia. rewrite (trimmed_held i Hi) by lia.
    apply trimmed_round_trip; lia.
Qed.

(** C36. On the default slider (slide mode, trimmed, no focus, content at
    least as long as the viewport), reading back the position of slide
    [i] gives [i] up to the first slide held at the end of the list, and
    that slide for every slide after it. *)
Theorem trimmed_toIndex (i : nat) :
  (i < length)%nat ->
  toIndex env (toPosition env (Z.of_nat i) true) = Z.of_nat (Nat.min i held).
Proof. apply trimmed_index. Qed.

(** Two slides have the same position exactly when they are the same
    slide or both held. *)
Lemma trimmed_same (i j : nat) :
  (i < length)%nat -> (j < length)%nat ->
  toPosition env (Z.of_nat i) true == toPosition env (Z.of_nat j) true
  <-> Nat.min i held = Nat.min j held.
Proof.
  intros Hi Hj. split.
  - intros E. apply Nat2Z.inj. rewrite <- !trimmed_index by assumption.
    now rewrite E.
  - intros E. assert (forall k, (k < length)%nat ->
      toPosition env (Z.of_nat k) true
      == toPosition env (Z.of_nat (Nat.min k held)) true) as Hmin.
    { intros k Hk. destruct (Nat.le_gt_cases k held) as [H|H].
      - now rewrite Nat.min_l by exact H.
      - rewrite Nat.min_r by lia. apply trimmed_held; [exact Hk | lia]. }
    now rewrite (Hmin i Hi), (Hmin j Hj), E.
Qed.

End Trimmed.

(** Five slides 100 wide, three to a page: the slides from the third on
    are held at the end, and the position of the last reads back as the
    third. *)
Definition paged : Env := laid_out defaults 5 0 100 0 300 2.

Lemma trimmed_toIndex_witness :
  toIndex paged (toPosition paged 4 true)
  = Z.of_nat (Nat.min 4 (held defaults 5 100 0 300 2)).
Proof.
  refine (trimmed_toIndex defaults 5 100 0 300 2 _ _ _ _ _ _ 4%nat _);
    [lra | lra | reflexivity | reflexivity | reflexivity | | lia].
  vm_compute. discriminate.
Defined.

Example paged_toIndex :
  held defaults 5 100 0 300 2 = 2%nat
  /\ map (fun i => toIndex paged (toPosition paged i true)) [0; 1; 2; 3; 4]%Z
     = [0; 1; 2; 2; 2]%Z.
Proof. split; vm_compute; reflexivity. Qed.

Example spaced_toIndex :
  map (toIndex spaced) [50; -160; -370; -475; -1630]%Q = [-2; -1; 0; 0; 6]%Z.
Proof. vm_compute. reflexivity. Qed.

(** ** Limits *)

Lemma exceededLimit_min (env : Env) (d : Dom) (p : Q) :
  exceededLimit env d (Some false) (Some p) = true
  <-> orient (options env) p < orient (options env) (getLimit env false).
Proof.
  unfold exceededLimit. cbn [negb andb]. rewrite orb_false_r. apply Qltb_true.
Qed.

Lemma exceededLimit_max (env : Env) (d : Dom) (p : Q) :
  exceededLimit env d (Some true) (Some p) = true
  <-> orient (options env) (getLimit env true) < orient (options env) p.
Proof. unfold exceededLimit. cbn [negb andb orb]. apply Qltb_true. Qed.

(** Without [max], both bounds are tested. *)
Lemma exceededLimit_both (env : Env) (d : Dom) (p : option Q) :
  exceededLimit env d None p
  = exceededLimit env d (Some false) p || exceededLimit env d (Some true) p.
Proof. unfold exceededLimit. cbn [negb andb orb]. now rewrite orb_false_r. Qed.

(** The minimum limit is inclusive: the limit itself does not exceed
    it, and any position short of it in the direction of travel does. *)
Theorem exceededLimit_min_boundary (env : Env) (d : Dom) (eps : Q) :
  0 < eps ->
  exceededLimit env d (Some false) (Some (getLimit env false)) = false
  /\ exceededLimit env d (Some false)
       (Some (getLimit env false - orient (options env) eps)) = true.
Proof.
  intros Heps. split.
  - apply not_true_is_false. rewrite exceededLimit_min. lra.
  - apply exceededLimit_min. rewrite orient_sub, orient_involutive. lra.
Qed.

(** A position exceeds no limit exactly when it lies between the two
    limits, in the direction of travel. *)
Lemma exceededLimit_within (env : Env) (d : Dom) (p : Q) :
  exceededLimit env d None (Some p) = false
  <-> orient (options env) (getLimit env false) <= orient (options env) p
      /\ orient (options env) p <= orient (options env) (getLimit env true).
Proof.
  rewrite exceededLimit_both, orb_false_iff.
  rewrite <- !not_true_iff_false, exceededLimit_min, exceededLimit_max.
  split; intros [H1 H2]; split; lra.
Qed.

(** ** The theorems at the sliders of the test suite *)

(** [sorted_by_eval] proves [StronglySorted] of a concrete list of slides
    by evaluating the positions. *)
Ltac sorted_by_eval :=
  repeat (apply SSorted_cons; [| repeat (apply Forall_cons; [qcompute|]); apply Forall_nil]);
  apply SSorted_nil.

Lemma slider_Monotone : Monotone slider.
Proof. unfold Monotone, advances. cbn [Slides slider init indices seq map]. sorted_by_eval. Qed.

Lemma trim_bounds_witness :
  Qmin 0 (orient (options slider) (sliderSize (layout slider) - listSize (layout slider)))
  <= trim slider (-5000)
  <= Qmax 0 (orient (options slider)
               (sliderSize (layout slider) - listSize (layout slider))).
Proof. apply (trim_bounds slider (-5000)). reflexivity. Defined.

Lemma toIndex_closest_witness : toIndex slider (-301) = closest slider (-301).
Proof. apply toIndex_closest. exact slider_Monotone. Defined.

Lemma toIndex_minimal_witness :
  abs (toPosition slider (toIndex slider (-301)) true - (-301))
  <= abs (toPosition slider 1 true - (-301)).
Proof.
  apply toIndex_minimal; [exact slider_Monotone | vm_compute; tauto].
Defined.

Lemma toIndex_toPosition_witness : toIndex slider (toPosition slider 3 true) = 3%Z.
Proof.
  apply (toIndex_toPosition slider 3 [0; 1; 2]%Z [4%Z]); [reflexivity|].
  unfold advances. sorted_by_eval.
Defined.

(** A slider of five slides 100 wide in a viewport of 300, centred: the
    first two slides are both trimmed to position 0. *)
Definition centred : Env := {|
  options := with_focus FocusCenter defaults;
  layout := uniform 5 0 100 0 300 0;
  Slides := indices 0 5;
  getEnd := 4
|}.

Lemma toIndex_plateau_witness : toIndex centred (-200) = 0%Z.
Proof. apply (toIndex_plateau centred (-200) 0 1 [2; 3; 4]%Z); [reflexivity | qcompute]. Defined.

Lemma exceededLimit_min_boundary_witness :
  exceededLimit slider {| trackEdge := 0; rendered := 0;
                          transformRule := None; transitionRule := false |}
    (Some false) (Some (getLimit slider false)) = false
  /\ exceededLimit slider {| trackEdge := 0; rendered := 0;
                             transformRule := None; transitionRule := false |}
       (Some false) (Some (getLimit slider false - orient (options slider) 10)) = true.
Proof. apply exceededLimit_min_boundary. lra. Defined.

(** On the centred slider the slide nearest to position -200 is slide
    3, at distance 0, yet [toIndex] answers 0, at distance 200: without
    strictly advancing positions [toIndex] is not the closest index. *)
Theorem toIndex_not_closest :
  toIndex centred (-200) = 0%Z /\ closest centred (-200) = 3%Z
  /\ abs (toPosition centred 3 true - (-200)) == 0
  /\ abs (toPosition centred 0 true - (-200)) == 200.
Proof. repeat split; vm_compute; reflexivity. Qed.

(** The offsets the test suite expects of [toPosition] and [toIndex]. *)
Example toPosition_test :
  toPosition slider 0 false == 0 /\ toPosition slider 1 false == -200
  /\ toPosition slider 2 false == -400 /\ toPosition slider 3 false == -600.
Proof. qcompute. Qed.

Example toIndex_test :
  toIndex slider 0 = 0%Z /\ toIndex slider (-100) = 0%Z
  /\ toIndex slider (-101) = 1%Z /\ toIndex slider (-200) = 1%Z
  /\ toIndex slider (-300) = 1%Z /\ toIndex slider (-301) = 2%Z.
Proof. qcompute. Qed.
