(* ===== verification/Nearest.v ===== *)
(** * Nearest: when the scan of [toIndex] finds the closest slide

    [toIndex] (Move.ts lines 263-274) leaves its loop at the first slide
    that is not strictly closer than the one before.  [Position] shows
    that this is the exhaustive search [closest] when the slide positions
    advance strictly.  Trimming breaks strictness: the last slides of a
    trimmed slider are held at the end of the list and share a position.

    This file gives the condition the loop really needs: the positions
    advance strictly and then stay, [Settled].  Under it the scan is the
    exhaustive search for every position ([toIndex_nearest]).  Strictly
    advancing sliders are settled, and so is the default trimmed slider
    ([trimmed_Settling]).  On positions that never go back the condition
    is also necessary ([settled_exact]): a plateau before the end of the
    list, which the scan cannot pass ([toIndex_plateau] of [Position]),
    makes [toIndex] wrong at the position of a later slide.  On such
    positions the limits of [getLimit] are in order
    ([limits_in_order]). *)

From S2P Require Import Prelude Utils Env Position.

Local Open Scope Q_scope.
Local Open Scope js_scope.

(** ** Positions that advance and then stay *)

Section Settled.
Variables (o : Options) (P : Z -> Q).

(** The slides of [l] are where [a] is. *)
Definition level (a : Z) (l : list Z) : Prop := Forall (fun t => P t == P a) l.

Inductive Settled : list Z -> Prop :=
| Settled_nil : Settled []
| Settled_level (a : Z) (l : list Z) : level a l -> Settled (a :: l)
| Settled_cons (a : Z) (l : list Z) :
    Forall (adv o P a) l -> Settled l -> Settled (a :: l).

(** The decision procedure, for sliders given by their numbers. *)
Fixpoint settled (l : list Z) : bool :=
  match l with
  | [] => true
  | a :: rest =>
      forallb (fun t => P t =? P a) rest
      || (forallb (fun t => orient o (P a) <? orient o (P t)) rest && settled rest)
  end.

Lemma settled_Settled (l : list Z) : settled l = true -> Settled l.
Proof.
  induction l as [|a rest IH]; [constructor|]. cbn [settled].
  rewrite orb_true_iff, andb_true_iff, !forallb_forall.
  intros [H|[H1 H2]].
  - apply Settled_level. apply Forall_forall. intros t Ht. now apply Qeqb_true, H.
  - apply Settled_cons; [|now apply IH].
    apply Forall_forall. intros t Ht. now apply Qltb_true, H1.
Qed.

Lemma sorted_Settled (l : list Z) : StronglySorted (adv o P) l -> Settled l.
Proof. induction 1; [constructor | now apply Settled_cons]. Qed.

(** No slide lies before the first. *)
Lemma Settled_weak (a : Z) (l : list Z) :
  Settled (a :: l) -> Forall (fun t => orient o (P a) <= orient o (P t)) l.
Proof.
  intros H. inversion H as [|? ? Hl|? ? Ha _]; subst.
  - eapply Forall_impl; [|exact Hl]. intros t E. cbv beta in E. rewrite E. lra.
  - eapply Forall_impl; [|exact Ha]. unfold adv. intros t Ht. lra.
Qed.

(** Consecutive images: strict up to [h], the same from [h] on. *)
Lemma Settled_map_seq (f : nat -> Z) (h : nat) : forall (n a : nat),
  (forall j k, (a <= j < k)%nat -> (k < a + n)%nat -> (j < h)%nat -> adv o P (f j) (f k)) ->
  (forall j k, (a <= j < k)%nat -> (k < a + n)%nat -> (h <= j)%nat -> P (f k) == P (f j)) ->
  Settled (map f (seq a n)).
Proof.
  induction n as [|n IH]; intros a Hadv Hlev; cbn [seq map]; [constructor|].
  destruct (Nat.lt_ge_cases a h) as [Ha|Ha].
  - apply Settled_cons.
    + apply Forall_forall. intros t Ht.
      apply in_map_iff in Ht as (k & <- & Hk). apply in_seq in Hk. apply Hadv; lia.
    + apply IH; intros j k Hjk Hk Hj; [apply Hadv | apply Hlev]; lia.
  - apply Settled_level. apply Forall_forall. intros t Ht.
    apply in_map_iff in Ht as (k & <- & Hk). apply in_seq in Hk. apply Hlev; lia.
Qed.

(** ** The scan on settled positions *)

Section At.
Variable x : Q.

Lemma level_dist (a : Z) (l : list Z) :
  level a l -> Forall (fun t => dist P x t == dist P x a) l.
Proof.
  intros H. eapply Forall_impl; [|exact H]. intros t E. cbv beta in E.
  unfold dist. now rewrite E.
Qed.

(** Once the position lies at or before a slide, no later slide of a
    settled list is closer. *)
Lemma dist_settled (a : Z) (l : list Z) :
  orient o x <= orient o (P a) -> Settled (a :: l) ->
  Forall (fun t => dist P x a <= dist P x t) l.
Proof.
  intros Hx HS. eapply Forall_impl; [|exact (Settled_weak a l HS)].
  intros t Ht. cbv beta in Ht. rewrite !(dist_orient o).
  qabs (orient o (P a) - orient o x); qabs (orient o (P t) - orient o x); lra.
Qed.

(** Where the scan leaves, the search finds nothing closer. *)
Lemma scan_leaves (index s : Z) (rest : list Z) :
  Settled (index :: s :: rest) -> dist P x index <= dist P x s ->
  Forall (fun t => dist P x index <= dist P x t) rest.
Proof.
  intros HS Hge. inversion HS as [|? ? Hl|? ? Ha HS']; subst.
  - inversion Hl as [|? ? _ Hl']; subst.
    eapply Forall_impl; [|exact (level_dist index rest Hl')].
    intros t E. cbv beta in E. rewrite E. lra.
  - inversion Ha as [|? ? Has _]; subst.
    pose proof (dist_turn o P x index s Has Hge) as Hx.
    eapply Forall_impl; [|exact (dist_settled s rest Hx HS')].
    intros t Ht. cbv beta in Ht. lra.
Qed.

(** Where the scan goes on, the rest is settled. *)
Lemma scan_goes_on (index s : Z) (rest : list Z) :
  Settled (index :: s :: rest) -> dist P x s < dist P x index -> Settled (s :: rest).
Proof.
  intros HS Hlt. inversion HS as [|? ? Hl|? ? _ HS']; subst; [|exact HS'].
  inversion Hl as [|? ? E _]; subst. unfold dist in Hlt. rewrite E in Hlt. lra.
Qed.

Lemma scan_settled (slides : list Z) : forall index,
  Settled (index :: slides) ->
  toIndex_scan P x slides index (Some (dist P x index))
  = closest_from P x slides index (Some (dist P x index)).
Proof.
  induction slides as [|s rest IH]; intros index HS; [reflexivity|].
  cbn [toIndex_scan closest_from]. fold (dist P x s).
  destruct (lt_minDistance_spec (dist P x s) (dist P x index)) as [Hlt|Hge].
  - apply IH. exact (scan_goes_on index s rest HS Hlt).
  - symmetry. apply closest_from_keep. exact (scan_leaves index s rest HS Hge).
Qed.

End At.

(** ** Settled is what the scan needs

    On positions that never go back, the scan agrees with the search at
    every position only if the positions are settled: a slide that shares
    its position with the one before it, with a slide farther on, stops
    the scan short of that slide. *)

(** Positions that never go back. *)
Definition wadv (i j : Z) : Prop := orient o (P i) <= orient o (P j).

(** The scan and the search agree at [x], from the first slide on. *)
Definition agree (x : Q) (l : list Z) : Prop :=
  match l with
  | [] => True
  | a :: rest =>
      toIndex_scan P x rest a (Some (dist P x a))
      = closest_from P x rest a (Some (dist P x a))
  end.

Lemma wadv_adv (a b : Z) : wadv a b -> ~ P b == P a -> adv o P a b.
Proof.
  unfold wadv, adv. intros Hle Hne.
  destruct (Qlt_le_dec (orient o (P a)) (orient o (P b))) as [H|H]; [exact H|].
  destruct Hne. apply (orient_inj o). lra.
Qed.

(** At or before the first slide, scan and search return the first slide. *)
Lemma scan_at_head (x : Q) (a : Z) (rest : list Z) :
  StronglySorted wadv (a :: rest) -> orient o x <= orient o (P a) ->
  toIndex_scan P x rest a (Some (dist P x a)) = a
  /\ closest_from P x rest a (Some (dist P x a)) = a.
Proof.
  intros HS Hx. inversion HS as [|? ? _ Ha]; subst.
  assert (Forall (fun t => dist P x a <= dist P x t) rest) as HF.
  { eapply Forall_impl; [|exact Ha]. unfold wadv. intros t Ht.
    rewrite !(dist_orient o).
    qabs (orient o (P a) - orient o x); qabs (orient o (P t) - orient o x); lra. }
  split; [|now apply closest_from_keep].
  destruct rest as [|s rest']; [reflexivity|]. cbn [toIndex_scan].
  inversion HF; subst. now rewrite lt_minDistance_false.
Qed.

(** A slide where the one before it is, and a slide elsewhere after it:
    at the position of that slide the scan stops at the first of the
    three and the search does not. *)
Lemma plateau_misses (a r t : Z) (rest : list Z) :
  P r == P a -> In t (r :: rest) -> ~ P t == P a ->
  ~ agree (P t) (a :: r :: rest).
Proof.
  intros E Ht Hne. cbn [agree toIndex_scan].
  rewrite lt_minDistance_false by (unfold dist; rewrite E; lra).
  intros Heq.
  pose proof (closest_from_min P (P t) (r :: rest) a) as Hmin.
  rewrite Forall_forall in Hmin. specialize (Hmin t (or_intror Ht)).
  rewrite <- Heq in Hmin. unfold dist in Hmin. destruct Hne.
  qabs (P a - P t); qabs (P t - P t); lra.
Qed.

(** Agreement on the list is agreement on its tail, when the first slide
    lies strictly before the second. *)
Lemma agree_tail (x : Q) (a r : Z) (rest : list Z) :
  StronglySorted wadv (r :: rest) -> adv o P a r ->
  agree x (a :: r :: rest) -> agree x (r :: rest).
Proof.
  intros HW Hadv HA. cbn [agree toIndex_scan closest_from] in *.
  fold (dist P x r) in HA.
  destruct (lt_minDistance_spec (dist P x r) (dist P x a)) as [Hlt|Hge]; [exact HA|].
  pose proof (dist_turn o P x a r Hadv Hge) as Hx.
  destruct (scan_at_head x r rest HW Hx) as [-> ->]. reflexivity.
Qed.

Lemma agree_Settled (l : list Z) :
  StronglySorted wadv l -> (forall x, agree x l) -> Settled l.
Proof.
  induction l as [|a rest IH]; intros HW HA; [constructor|].
  destruct (Forall_Exists_dec (fun t => P t == P a) (fun t => Qeq_dec (P t) (P a)) rest)
    as [Hl|Hn]; [now apply Settled_level|].
  apply Exists_exists in Hn as (t & Ht & Hne).
  destruct rest as [|r rest']; [easy|].
  inversion HW as [|? ? HW' Ha]; subst. inversion Ha as [|? ? Har _]; subst.
  assert (adv o P a r) as Hadv.
  { apply wadv_adv; [exact Har|]. intros E.
    exact (plateau_misses a r t rest' E Ht Hne (HA (P t))). }
  apply Settled_cons.
  - inversion HW' as [|? ? _ Hr]; subst. constructor; [exact Hadv|].
    eapply Forall_impl; [|exact Hr]. unfold adv, wadv in *. intros s Hs. lra.
  - apply IH; [exact HW'|]. intros x. exact (agree_tail x a r rest' HW' Hadv (HA x)).
Qed.

End Settled.

(** ** [toIndex] *)

(** The trimmed positions of the registered slides advance, then stay. *)
Definition Settling (env : Env) : Prop :=
  Settled (options env) (fun i => toPosition env i true) (Slides env).

Definition settling (env : Env) : bool :=
  settled (options env) (fun i => toPosition env i true) (Slides env).

Lemma settling_Settling (env : Env) : settling env = true -> Settling env.
Proof. apply settled_Settled. Qed.

Lemma Monotone_Settling (env : Env) : Monotone env -> Settling env.
Proof. apply sorted_Settled. Qed.

Lemma toIndex_settled (env : Env) (x : Q) : Settling env -> toIndex env x = closest env x.
Proof.
  unfold Settling. intros HS. destruct (Slides env) as [|s rest] eqn:E.
  - unfold toIndex, closest. now rewrite E.
  - rewrite (toIndex_cons env x s rest E), (closest_cons env x s rest E).
    now apply scan_settled with (o := options env).
Qed.

(** The trimmed positions of the registered slides never go back. *)
Definition Advancing (env : Env) : Prop :=
  StronglySorted (wadv (options env) (fun i => toPosition env i true)) (Slides env).

Lemma agree_toIndex (env : Env) (x : Q) :
  agree (fun i => toPosition env i true) x (Slides env)
  <-> toIndex env x = closest env x.
Proof.
  destruct (Slides env) as [|s rest] eqn:E.
  - unfold toIndex, closest. rewrite E. cbn. tauto.
  - now rewrite (toIndex_cons env x s rest E), (closest_cons env x s rest E).
Qed.

Lemma closest_Settling (env : Env) :
  Advancing env -> (forall x, toIndex env x = closest env x) -> Settling env.
Proof.
  intros HW HA. apply agree_Settled; [exact HW|]. intros x. now apply agree_toIndex.
Qed.

(** ** The limits are in order

    [getLimit] is the position of slide 0 and of the last slide the
    Controller can reach.  On positions that never go back the minimum
    limit is not past the maximum, so no position exceeds both and
    [exceededLimit] without [max] tests an interval that is not empty. *)

(** Slide 0 is registered before the end slide, or is the end slide. *)
Definition Ended (env : Env) : Prop :=
  getEnd env = 0%Z
  \/ exists l1 l2 l3, Slides env = l1 ++ 0%Z :: l2 ++ getEnd env :: l3.

Lemma getLimit_trimmed (env : Env) (max : bool) :
  getLimit env max = toPosition env (if max then getEnd env else 0%Z) true.
Proof.
  unfold getLimit, toPosition, trim.
  now destruct (trimSpace_truthy (options env)).
Qed.

Lemma sorted_precedes {A : Type} (R : A -> A -> Prop) (a b : A) (l1 l2 l3 : list A) :
  StronglySorted R (l1 ++ a :: l2 ++ b :: l3) -> R a b.
Proof.
  induction l1 as [|c l1 IH]; cbn [app]; intros HS;
    inversion HS as [|? ? HS' Ha]; subst; [|now apply IH].
  rewrite Forall_forall in Ha. apply Ha. apply in_or_app. right. now left.
Qed.

Lemma limits_in_order (env : Env) :
  Advancing env -> Ended env ->
  orient (options env) (getLimit env false) <= orient (options env) (getLimit env true).
Proof.
  intros HA [E|(l1 & l2 & l3 & E)]; rewrite !getLimit_trimmed.
  - rewrite E. lra.
  - unfold Advancing in HA. rewrite E in HA. exact (sorted_precedes _ _ _ _ _ _ HA).
Qed.

(** No position exceeds both limits. *)
Lemma exceededLimit_one (env : Env) (d : Dom) (p : Q) :
  Advancing env -> Ended env ->
  exceededLimit env d (Some false) (Some p) && exceededLimit env d (Some true) (Some p)
  = false.
Proof.
  intros HA HE. pose proof (limits_in_order env HA HE) as Hl.
  apply not_true_is_false. rewrite andb_true_iff, exceededLimit_min, exceededLimit_max.
  intros [H1 H2]. lra.
Qed.

(** Both limits are within the limits. *)
Lemma limits_within (env : Env) (d : Dom) (max : bool) :
  Advancing env -> Ended env -> exceededLimit env d None (Some (getLimit env max)) = false.
Proof.
  intros HA HE. pose proof (limits_in_order env HA HE) as Hl.
  apply exceededLimit_within. destruct max; split; lra.
Qed.

(** ** The default trimmed slider is settled *)

Section Trimmed.
Variables (o : Options) (length : nat) (w gap view : Q) (last : Z).
Hypothesis w_pos : 0 < w.
Hypothesis gap_nonneg : 0 <= gap.
Hypothesis slide_mode : type o = SLIDE.
Hypothesis trimming : trimSpace_truthy o = true.
Hypothesis no_focus : focus o = FocusUndefined.
Hypothesis overflows : 0 <= excess o length w gap view last.

Let env := laid_out o length 0 w gap view last.
Let h := held o length w gap view last.

Lemma trimmed_position_at (k : nat) :
  (k < length)%nat ->
  orient o (toPosition env (0 + Z.of_nat k) true)
  == Qmin (inject_Z (Z.of_nat k) * (w + gap)) (excess o length w gap view last).
Proof. now apply trimmed_position. Qed.

(** A slide before the first held slide lies before every later slide. *)
Lemma trimmed_strict (j k : nat) :
  (j < k)%nat -> (k < length)%nat -> (j < h)%nat ->
  adv o (fun i => toPosition env i true) (0 + Z.of_nat j) (0 + Z.of_nat k).
Proof.
  intros Hjk Hk Hj. unfold adv. rewrite !trimmed_position_at by lia.
  pose proof (held_first o length w gap view last w_pos gap_nonneg j Hj) as Hf.
  assert (inject_Z (Z.of_nat j) < inject_Z (Z.of_nat k)) by (apply inject_Z_lt; lia).
  qminmax; nra.
Qed.

(** The held slides share a position. *)
Lemma trimmed_level (j k : nat) :
  (j < k)%nat -> (k < length)%nat -> (h <= j)%nat ->
  toPosition env (0 + Z.of_nat k) true == toPosition env (0 + Z.of_nat j) true.
Proof.
  intros Hjk Hk Hj. cbn [Z.add].
  transitivity (toPosition env (Z.of_nat h) true); [|symmetry];
    apply trimmed_held; assumption || (unfold h in Hj; lia).
Qed.

Lemma trimmed_Settling : Settling env.
Proof.
  unfold Settling. cbn [Slides env laid_out Z.of_nat Z.opp]. unfold indices.
  apply Settled_map_seq with (h := h); intros j k Hjk Hk Hj.
  - apply trimmed_strict; lia.
  - apply trimmed_level; lia.
Qed.

Lemma trimmed_closest (x : Q) : toIndex env x = closest env x.
Proof. apply toIndex_settled, trimmed_Settling. Qed.

End Trimmed.

(** ** Theorems *)

(** C3. On slide positions that advance strictly with the index and then
    stay, as they do on strictly advancing sliders and on the default
    trimmed slider, whose last slides are held at the end of the list,
    the early-exit scan of [toIndex] returns what the exhaustive search
    for the first slide of minimal distance returns, for every
    position. *)
Theorem toIndex_nearest (env : Env) (x : Q) :
  Settling env -> toIndex env x = closest env x.
Proof. apply toIndex_settled. Qed.

(** On settled positions [toIndex] returns a slide at least as close to
    the position as every registered slide. *)
Theorem toIndex_least (env : Env) (x : Q) (s : Z) :
  Settling env -> In s (Slides env) ->
  abs (toPosition env (toIndex env x) true - x) <= abs (toPosition env s true - x).
Proof. intros HS Hs. rewrite (toIndex_settled env x HS). now apply closest_minimal. Qed.

(** On the default slider (slide mode, trimmed, no focus, content at
    least as long as the viewport) [toIndex] is the exhaustive search. *)
Theorem trimmed_nearest (o : Options) (length : nat) (w gap view : Q) (last : Z) (x : Q) :
  0 < w -> 0 <= gap -> type o = SLIDE -> trimSpace_truthy o = true ->
  focus o = FocusUndefined -> 0 <= excess o length w gap view last ->
  let env := laid_out o length 0 w gap view last in
  toIndex env x = closest env x.
Proof. intros. now apply trimmed_closest. Qed.

(** C12. The scan of [toIndex] is right exactly on settled positions:
    when the trimmed positions of the slides never go back, [toIndex]
    returns the first slide of minimal distance for every position if and
    only if the positions advance strictly and then stay.  A slide that
    shares its position with the one before it while a later slide lies
    elsewhere makes [toIndex] wrong at the position of that slide. *)
Theorem settled_exact (env : Env) :
  Advancing env -> (Settling env <-> forall x, toIndex env x = closest env x).
Proof.
  intros HW. split; [intros HS x; now apply toIndex_settled | now apply closest_Settling].
Qed.

(** ** The theorems at the sliders of the test suite *)

Lemma centred_Advancing : Advancing centred.
Proof.
  unfold Advancing, wadv. cbn [Slides centred indices seq map]. sorted_by_eval.
Qed.

(** The limits of the centred slider, whose first two slides and last two
    slides are held: 0 and -200, in this order in the direction of
    travel. *)
Example centred_limits :
  getLimit centred false == 0 /\ getLimit centred true == -200
  /\ orient (options centred) (getLimit centred false)
     <= orient (options centred) (getLimit centred true).
Proof.
  split; [vm_compute; reflexivity | split; [vm_compute; reflexivity|]].
  apply limits_in_order; [exact centred_Advancing|].
  right. now exists [], [1; 2; 3]%Z, [].
Qed.

Lemma settled_exact_witness :
  Settling centred <-> forall x, toIndex centred x = closest centred x.
Proof. apply settled_exact. exact centred_Advancing. Defined.

(** The centred slider is not settled: its first two slides are at 0. *)
Example centred_not_Settling : ~ Settling centred.
Proof.
  intros H. pose proof (toIndex_settled centred (-200) H) as E.
  vm_compute in E. discriminate.
Qed.

Lemma paged_Settling : Settling paged.
Proof. apply settling_Settling. vm_compute. reflexivity. Qed.

Example paged_not_Monotone : ~ Monotone paged.
Proof.
  intros H.
  apply (adv_apart (options paged) (fun i => toPosition paged i true)
           (Slides paged) 2 3 H); [| | discriminate |];
    vm_compute; auto 10.
Qed.

Lemma toIndex_nearest_witness : toIndex paged (-150) = closest paged (-150).
Proof. apply toIndex_nearest. exact paged_Settling. Defined.

(** The slider with the focus on the centre, whose first slides share
    the position 0, is not settled. *)
Example centred_not_settling : settling centred = false.
Proof. vm_compute. reflexivity. Qed.
