(* ===== verification/Loop.v ===== *)
(** * Loop: the loop wrapper of Move.ts

    [loop] (Move.ts lines 140-154) folds a position that runs past a limit
    in the direction of travel back by whole slider sizes.  It reads the
    [waiting] flag, the slider type, the current position and the limits.
    [congruent] is the equivalence "equal up to a whole number of slider
    sizes" that a loop preserves.

    Line 149 divides by [sliderSize()].  With a size of 0 JavaScript
    yields NaN, which the rationals do not have: what [loop] returns is
    stated for layouts of positive size ([LayoutLaws]) only.  There the
    wrap is the one position equal to the requested one up to slider
    sizes within a slider size of the limit it passed ([loop_min_unique],
    [loop_max_unique]); since that window is wider than the distance
    between the limits, a second [loop] can wrap back
    ([loop_not_idempotent]). *)

From S2P Require Import Prelude Utils Env Position.

Local Open Scope Q_scope.
Local Open Scope js_scope.

(** Move.ts [loop]. *)
Definition loop (env : Env) (waiting : bool) (d : Dom) (position : Q) : Q :=
  if negb waiting && Splide_is (options env) LOOP then
    let diff := orient (options env) (position - getPosition env d) in
    let exceededMin :=
      exceededLimit env d (Some false) (Some position) && (diff <? 0) in
    let exceededMax :=
      exceededLimit env d (Some true) (Some position) && (diff >? 0) in
    if exceededMin || exceededMax then
      let excess := position - getLimit env exceededMax in
      let size := sliderSize (layout env) in
      position - sign excess * size * ceil (abs excess / size)
    else position
  else position.

(** ** Equality up to whole slider sizes *)

Definition congruent (size a b : Q) : Prop :=
  exists k : Z, a - b == inject_Z k * size.

#[export] Instance congruent_Reflexive (size : Q) : Reflexive (congruent size).
Proof. intros a. exists 0%Z. change (inject_Z 0) with 0. lra. Qed.

#[export] Instance congruent_Symmetric (size : Q) : Symmetric (congruent size).
Proof. intros a b [k H]. exists (- k)%Z. rewrite inject_Z_opp. lra. Qed.

#[export] Instance congruent_Transitive (size : Q) : Transitive (congruent size).
Proof.
  intros a b c [k H] [l H']. exists (k + l)%Z. rewrite inject_Z_plus. lra.
Qed.

#[export] Instance congruent_Proper (size : Q) :
  Proper (Qeq ==> Qeq ==> iff) (congruent size).
Proof.
  intros a a' Ha b b' Hb. unfold congruent.
  split; intros [k H]; exists k; lra.
Qed.

(** Two numbers less than a slider size apart that are equal up to whole
    slider sizes are equal. *)
Lemma congruent_near (size a b : Q) :
  0 < size -> congruent size a b -> - size < a - b < size -> a == b.
Proof.
  intros Hs [k H] Hb.
  assert (-1 < inject_Z k) as H1 by nra. assert (inject_Z k < 1) as H2 by nra.
  change (-1) with (inject_Z (-1)) in H1. change 1 with (inject_Z 1) in H2.
  rewrite <- Zlt_Qlt in H1, H2. assert (k = 0%Z) as -> by lia.
  change (inject_Z 0) with 0 in H. lra.
Qed.

Lemma congruent_orient (o : Options) (size a b : Q) :
  congruent size a b -> congruent size (orient o a) (orient o b).
Proof.
  intros [k H]. unfold orient.
  destruct (direction o); [exists (- k)%Z | exists k | exists (- k)%Z];
    rewrite ?inject_Z_opp; lra.
Qed.

(** ** The branches of [loop] *)

Section Branches.
Variables (env : Env) (waiting : bool) (d : Dom) (position : Q).

(** The wrapped position, past the limit [max]. *)
Definition folded (max : bool) : Q :=
  let excess := position - getLimit env max in
  let size := sliderSize (layout env) in
  position - sign excess * size * ceil (abs excess / size).

(** [loop] wraps at the minimum, wraps at the maximum, or does nothing. *)
Inductive loop_case : Q -> Prop :=
| loop_min :
    waiting = false -> type (options env) = LOOP ->
    orient (options env) position < orient (options env) (getLimit env false) ->
    orient (options env) position < orient (options env) (rendered d) ->
    loop_case (folded false)
| loop_max :
    waiting = false -> type (options env) = LOOP ->
    orient (options env) (getLimit env true) < orient (options env) position ->
    orient (options env) (rendered d) < orient (options env) position ->
    loop_case (folded true)
| loop_none :
    (waiting = true \/ type (options env) <> LOOP
     \/ (~ (orient (options env) position < orient (options env) (getLimit env false)
            /\ orient (options env) position < orient (options env) (rendered d))
         /\ ~ (orient (options env) (getLimit env true) < orient (options env) position
               /\ orient (options env) (rendered d) < orient (options env) position))) ->
    loop_case position.

Lemma diff_neg :
  orient (options env) (position - getPosition env d) < 0
  <-> orient (options env) position < orient (options env) (rendered d).
Proof. rewrite orient_sub, getPosition_rendered. split; lra. Qed.

Lemma diff_pos :
  0 < orient (options env) (position - getPosition env d)
  <-> orient (options env) (rendered d) < orient (options env) position.
Proof. rewrite orient_sub, getPosition_rendered. split; lra. Qed.

Lemma loop_cases : loop_case (loop env waiting d position).
Proof.
  unfold loop. destruct waiting eqn:Ew; cbn [negb andb];
    [apply loop_none; now left|].
  destruct (Splide_is (options env) LOOP) eqn:El;
    [apply Splide_is_true in El
    | apply loop_none; right; left; rewrite <- Splide_is_true; congruence].
  destruct (exceededLimit env d (Some true) (Some position)
            && (orient (options env) (position - getPosition env d) >? 0)) eqn:Emax.
  - rewrite orb_true_r. apply andb_true_iff in Emax as [E1 E2].
    apply exceededLimit_max in E1. apply Qltb_true, diff_pos in E2.
    now apply loop_max.
  - rewrite orb_false_r.
    destruct (exceededLimit env d (Some false) (Some position)
              && (orient (options env) (position - getPosition env d) <? 0)) eqn:Emin.
    + apply andb_true_iff in Emin as [E1 E2].
      apply exceededLimit_min in E1. apply Qltb_true, diff_neg in E2.
      now apply loop_min.
    + apply loop_none. right; right. split; intros [H1 H2].
      * apply (exceededLimit_min env d) in H1. apply diff_neg, Qltb_true in H2.
        rewrite H1, H2 in Emin. discriminate.
      * apply (exceededLimit_max env d) in H1. apply diff_pos, Qltb_true in H2.
        rewrite H1, H2 in Emax. discriminate.
Qed.

End Branches.

(** ** What a wrap achieves *)

Section Wrap.
Variables (env : Env) (position : Q).
Context {laws : LayoutLaws (layout env)}.

Let size := sliderSize (layout env).
Let o := options env.

(** The number of slider sizes a wrap past [max] moves by, signed. *)
Definition turns (max : bool) : Z :=
  let excess := position - getLimit env max in
  let direction : Z :=
    if excess <? 0 then (-1)%Z else if 0 <? excess then 1%Z else 0%Z in
  (direction * Qceiling (abs excess / sliderSize (layout env)))%Z.

Lemma sign_turns (max : bool) :
  sign (position - getLimit env max) * size
  * ceil (abs (position - getLimit env max) / size)
  == inject_Z (turns max) * size.
Proof.
  unfold turns. fold size. set (e := position - getLimit env max).
  unfold ceil. rewrite inject_Z_mult. set (k := inject_Z (Qceiling (abs e / size))).
  unfold sign. destruct (Qltb_spec e 0); [|destruct (Qltb_spec 0 e)].
  - change (inject_Z (-1)) with (-1). lra.
  - change (inject_Z 1) with 1. lra.
  - change (inject_Z 0) with 0. lra.
Qed.

Lemma folded_turns (max : bool) :
  position - folded env position max == inject_Z (turns max) * size.
Proof. unfold folded. fold size. rewrite sign_turns. lra. Qed.

Lemma folded_congruent (max : bool) : congruent size position (folded env position max).
Proof. exists (turns max). apply folded_turns. Qed.

(** A position that is not at the limit is folded by at least one slider
    size. *)
Lemma turns_nonzero (max : bool) :
  ~ position == getLimit env max -> turns max <> 0%Z.
Proof.
  intros Hne. unfold turns. set (e := position - getLimit env max).
  pose proof (@sliderSize_pos _ laws) as Hs.
  assert (0 < abs e) as Ha by (subst e; qabs (position - getLimit env max); lra).
  pose proof (ceil_div_upper (abs e) _ Hs) as Hu.
  assert (0 < Qceiling (abs e / sliderSize (layout env)))%Z as Hc
    by (rewrite Zlt_Qlt; change (inject_Z 0) with 0; nra).
  destruct (Qltb_spec e 0); [lia|]. destruct (Qltb_spec 0 e); [lia|].
  subst e. exfalso. apply Hne. lra.
Qed.

(** Past the minimum, the fold lands at or after the minimum limit and
    less than one slider size after it. *)
Lemma folded_min :
  orient o position < orient o (getLimit env false) ->
  orient o (getLimit env false) <= orient o (folded env position false)
  /\ orient o (folded env position false) < orient o (getLimit env false) + size.
Proof.
  intros Hex. unfold folded. fold size. set (e := position - getLimit env false).
  pose proof (@sliderSize_pos _ laws) as Hs. fold size in Hs.
  pose proof (ceil_div_upper (abs e) size Hs) as Hu.
  pose proof (ceil_div_lower (abs e) size Hs) as Hl. unfold ceil.
  set (k := inject_Z (Qceiling (abs e / size))) in *.
  subst e o. unfold orient in *.
  destruct (sign_cases (position - getLimit env false)) as [[H ->]|[[H ->]|[H ->]]];
    qabs (position - getLimit env false); destruct (direction (options env)); lra.
Qed.

(** Past the maximum, the fold lands at or before the maximum limit and
    less than one slider size before it. *)
Lemma folded_max :
  orient o (getLimit env true) < orient o position ->
  orient o (getLimit env true) - size < orient o (folded env position true)
  /\ orient o (folded env position true) <= orient o (getLimit env true).
Proof.
  intros Hex. unfold folded. fold size. set (e := position - getLimit env true).
  pose proof (@sliderSize_pos _ laws) as Hs. fold size in Hs.
  pose proof (ceil_div_upper (abs e) size Hs) as Hu.
  pose proof (ceil_div_lower (abs e) size Hs) as Hl. unfold ceil.
  set (k := inject_Z (Qceiling (abs e / size))) in *.
  subst e o. unfold orient in *.
  destruct (sign_cases (position - getLimit env true)) as [[H ->]|[[H ->]|[H ->]]];
    qabs (position - getLimit env true); destruct (direction (options env)); lra.
Qed.

End Wrap.

(** ** Theorems on [loop] *)

#[export] Instance folded_Proper (env : Env) :
  Proper (Qeq ==> eq ==> Qeq) (folded env).
Proof. intros p q H b b' <-. unfold folded. cbv zeta. now rewrite H. Qed.

#[export] Instance loop_Proper (env : Env) (waiting : bool) (d : Dom) :
  Proper (Qeq ==> Qeq) (loop env waiting d).
Proof.
  intros p q H. unfold loop.
  destruct (negb waiting && Splide_is (options env) LOOP); [|exact H].
  assert (exceededLimit env d (Some true) (Some p)
            && (orient (options env) (p - getPosition env d) >? 0)
          = exceededLimit env d (Some true) (Some q)
            && (orient (options env) (q - getPosition env d) >? 0)) as ->
    by now rewrite (exceededLimit_ext env d (Some true) p q H), H.
  assert (exceededLimit env d (Some false) (Some p)
            && (orient (options env) (p - getPosition env d) <? 0)
          = exceededLimit env d (Some false) (Some q)
            && (orient (options env) (q - getPosition env d) <? 0)) as ->
    by now rewrite (exceededLimit_ext env d (Some false) p q H), H.
  destruct (exceededLimit env d (Some true) (Some q)
            && (orient (options env) (q - getPosition env d) >? 0));
    [rewrite orb_true_r | rewrite orb_false_r].
  - exact (folded_Proper env p q H true true eq_refl).
  - destruct (exceededLimit env d (Some false) (Some q)
              && (orient (options env) (q - getPosition env d) <? 0)); [|exact H].
    exact (folded_Proper env p q H false false eq_refl).
Qed.

Lemma loop_folds (env : Env) (waiting : bool) (d : Dom) (position : Q) :
  congruent (sliderSize (layout env)) position (loop env waiting d position).
Proof.
  destruct (loop_cases env waiting d position);
    [apply folded_congruent | apply folded_congruent | reflexivity].
Qed.

(** [loop] wraps: no move is waiting, the slider loops, and the position
    is past a limit on the side it moves to from where the list is. *)
Definition wraps (env : Env) (waiting : bool) (d : Dom) (position : Q) : Prop :=
  let o := options env in
  waiting = false /\ type o = LOOP
  /\ ((orient o position < orient o (getLimit env false)
       /\ orient o position < orient o (rendered d))
      \/ (orient o (getLimit env true) < orient o position
          /\ orient o (rendered d) < orient o position)).

(** C5. On a slider of positive size the wrapped position differs from
    the requested one by a whole number of slider sizes, so the same
    slides are shown at the same places, and that number is not zero
    exactly when [loop] has to wrap: no move is waiting, the slider loops,
    and the position is past a limit on the side it moves to. *)
Theorem loop_congruent (env : Env) `{!LayoutLaws (layout env)} (waiting : bool)
    (d : Dom) (position : Q) :
  exists k : Z,
    position - loop env waiting d position == inject_Z k * sliderSize (layout env)
    /\ (k <> 0%Z <-> wraps env waiting d position).
Proof.
  unfold wraps. cbv zeta.
  destruct (loop_cases env waiting d position) as [Hw Ht H1 H2|Hw Ht H1 H2|H].
  - exists (turns env position false). split; [apply folded_turns|].
    split; [tauto|]. intros _. apply turns_nonzero; [assumption|]. intros E. rewrite E in H1. lra.
  - exists (turns env position true). split; [apply folded_turns|].
    split; [tauto|]. intros _. apply turns_nonzero; [assumption|]. intros E. rewrite E in H1. lra.
  - exists 0%Z. split; [change (inject_Z 0) with 0; lra|]. split; [congruence|].
    intros (Hw & Ht & Hp). exfalso. destruct H as [H|[H|[H H']]]; [congruence..|tauto].
Qed.

Lemma loop_waiting (env : Env) (d : Dom) (position : Q) :
  loop env true d position = position.
Proof. reflexivity. Qed.

Lemma loop_other_type (env : Env) (waiting : bool) (d : Dom) (position : Q) :
  type (options env) <> LOOP -> loop env waiting d position = position.
Proof.
  intros H. unfold loop. destruct (Splide_is (options env) LOOP) eqn:E;
    [apply Splide_is_true in E; contradiction | now rewrite andb_false_r].
Qed.

(** While a move is waiting, and outside loop mode, [loop] returns the
    position as it is. *)
Theorem loop_identity (env : Env) (waiting : bool) (d : Dom) (position : Q) :
  waiting = true \/ type (options env) <> LOOP ->
  loop env waiting d position = position.
Proof. intros [-> | H]; [apply loop_waiting | now apply loop_other_type]. Qed.

(** The current position is never wrapped: the difference to it is 0. *)
Lemma loop_current (env : Env) (waiting : bool) (d : Dom) (position : Q) :
  position == rendered d -> loop env waiting d position == position.
Proof.
  intros E. destruct (loop_cases env waiting d position) as [? ? ? H|? ? ? H|?];
    try reflexivity; rewrite E in H; lra.
Qed.

Section Settle.
Variables (env : Env) (d : Dom) (position : Q).
Context {laws : LayoutLaws (layout env)}.
Hypothesis looping : type (options env) = LOOP.

Let o := options env.

Lemma loop_min_window :
  orient o position < orient o (getLimit env false) ->
  orient o position < orient o (rendered d) ->
  orient o (getLimit env false) <= orient o (loop env false d position)
  /\ orient o (loop env false d position)
     < orient o (getLimit env false) + sliderSize (layout env).
Proof.
  intros Hlim Hcur. subst o.
  destruct (loop_cases env false d position) as [_ _ _ _|_ _ _ H|[H|[H|[H _]]]];
    try congruence; try lra; try (exfalso; apply H; now split).
  exact (folded_min env position Hlim).
Qed.

Lemma loop_max_window :
  orient o (getLimit env true) < orient o position ->
  orient o (rendered d) < orient o position ->
  orient o (getLimit env true) - sliderSize (layout env)
  < orient o (loop env false d position)
  /\ orient o (loop env false d position) <= orient o (getLimit env true).
Proof.
  intros Hlim Hcur. subst o.
  destruct (loop_cases env false d position) as [_ _ _ H|_ _ _ _|[H|[H|[_ H]]]];
    try congruence; try lra; try (exfalso; apply H; now split).
  exact (folded_max env position Hlim).
Qed.

(** C6. In loop mode, a position past the minimum limit that moves away
    from the current position is wrapped to at most one slider size after
    the minimum limit, which it no longer exceeds. *)
Theorem loop_past_min :
  orient o position < orient o (getLimit env false) ->
  orient o position < orient o (rendered d) ->
  orient o (getLimit env false) <= orient o (loop env false d position)
  /\ orient o (loop env false d position)
     < orient o (getLimit env false) + sliderSize (layout env)
  /\ exceededLimit env d (Some false) (Some (loop env false d position)) = false.
Proof.
  intros Hlim Hcur. destruct (loop_min_window Hlim Hcur) as [H1 H2].
  repeat split; try assumption.
  apply not_true_is_false. rewrite exceededLimit_min. subst o. lra.
Qed.

(** In loop mode, a position past the maximum limit that moves away
    from the current position is wrapped to at most one slider size before
    the maximum limit, which it no longer exceeds. *)
Theorem loop_past_max :
  orient o (getLimit env true) < orient o position ->
  orient o (rendered d) < orient o position ->
  orient o (getLimit env true) - sliderSize (layout env)
  < orient o (loop env false d position)
  /\ orient o (loop env false d position) <= orient o (getLimit env true)
  /\ exceededLimit env d (Some true) (Some (loop env false d position)) = false.
Proof.
  intros Hlim Hcur. destruct (loop_max_window Hlim Hcur) as [H1 H2].
  repeat split; try assumption.
  apply not_true_is_false. rewrite exceededLimit_max. subst o. lra.
Qed.

(** The wrap is the one position equal to the requested one up to whole
    slider sizes that lies in the slider size after the minimum limit, or
    before the maximum limit. *)
Lemma loop_min_unique (q : Q) :
  orient o position < orient o (getLimit env false) ->
  orient o position < orient o (rendered d) ->
  congruent (sliderSize (layout env)) position q ->
  orient o (getLimit env false) <= orient o q
    < orient o (getLimit env false) + sliderSize (layout env) ->
  loop env false d position == q.
Proof.
  intros Hlim Hcur Hc Hq. destruct (loop_min_window Hlim Hcur) as [H1 H2].
  apply (orient_inj o), (congruent_near (sliderSize (layout env)));
    [apply sliderSize_pos | apply congruent_orient | lra].
  now rewrite <- (loop_folds env false d position).
Qed.

Lemma loop_max_unique (q : Q) :
  orient o (getLimit env true) < orient o position ->
  orient o (rendered d) < orient o position ->
  congruent (sliderSize (layout env)) position q ->
  orient o (getLimit env true) - sliderSize (layout env) < orient o q
    <= orient o (getLimit env true) ->
  loop env false d position == q.
Proof.
  intros Hlim Hcur Hc Hq. destruct (loop_max_window Hlim Hcur) as [H1 H2].
  apply (orient_inj o), (congruent_near (sliderSize (layout env)));
    [apply sliderSize_pos | apply congruent_orient | lra].
  now rewrite <- (loop_folds env false d position).
Qed.

End Settle.

(** A wrapped position that exceeds no limit is left alone by a second
    wrap. *)
Lemma loop_idempotent_within (env : Env) (waiting : bool) (d : Dom) (position : Q) :
  exceededLimit env d None (Some (loop env waiting d position)) = false ->
  loop env waiting d (loop env waiting d position) == loop env waiting d position.
Proof.
  intros H. apply exceededLimit_within in H as [H1 H2].
  destruct (loop_cases env waiting d (loop env waiting d position));
    try reflexivity; lra.
Qed.

(** ** Wrapping twice *)

Section Twice.
Variables (env : Env) (d : Dom) (position : Q).
Context {laws : LayoutLaws (layout env)}.
Hypothesis looping : type (options env) = LOOP.

Let o := options env.
Let size := sliderSize (layout env).

(** The position one slider size on. *)
Lemma orient_on (p : Q) : orient o (p + orient o size) == orient o p + size.
Proof. subst o. unfold orient. destruct (direction (options env)); lra. Qed.

Lemma congruent_on (p : Q) : congruent size p (p + orient o size).
Proof.
  subst o. unfold orient.
  destruct (direction (options env)); [exists 1%Z | exists (-1)%Z | exists 1%Z];
    [change (inject_Z 1) with 1 | change (inject_Z (-1)) with (-1)
    | change (inject_Z 1) with 1]; lra.
Qed.

(** C15. [loop] is not idempotent.  The slider size is more than the
    distance between the limits, so a wrap past the minimum can land past
    the maximum: in loop mode, a position less than a slider size before
    the minimum limit, moving away from where the list is, whose wrap lies
    past the maximum limit and past the list, is wrapped one slider size
    on, and a second [loop] wraps it back to where it was. *)
Theorem loop_not_idempotent :
  orient o (getLimit env false) - size <= orient o position ->
  orient o position < orient o (getLimit env false) ->
  orient o position < orient o (rendered d) ->
  orient o (getLimit env true) < orient o position + size ->
  orient o (rendered d) < orient o position + size ->
  orient o (getLimit env false) <= orient o (getLimit env true) ->
  loop env false d position == position + orient o size
  /\ loop env false d (loop env false d position) == position
  /\ ~ loop env false d (loop env false d position) == loop env false d position.
Proof.
  intros Hnear Hmin Hcur Hmax Hcur' Hlim.
  pose proof (@sliderSize_pos _ laws) as Hs. fold size in Hs.
  pose proof (orient_on position) as Eo.
  assert (loop env false d position == position + orient o size) as E1.
  { apply loop_min_unique; try assumption; [apply congruent_on|].
    fold o size. lra. }
  assert (loop env false d (loop env false d position) == position) as E2.
  { rewrite E1. apply loop_max_unique; try assumption; fold o size; try lra.
    symmetry. apply congruent_on. }
  repeat split; [exact E1 | exact E2|].
  rewrite E2, E1. intros E. rewrite <- E in Eo. lra.
Qed.

End Twice.

(** ** The theorems at the looped slider of the test suite *)

(** On the looped slider at rest, 50 is wrapped past the minimum to -950,
    which lies past the maximum limit -800 and is wrapped back to 50. *)
Example loop_there_and_back :
  loop looped false initial_dom 50 == -950
  /\ loop looped false initial_dom (loop looped false initial_dom 50) == 50.
Proof. split; vm_compute; reflexivity. Qed.

Lemma loop_not_idempotent_witness :
  loop looped false initial_dom 50
  == 50 + orient (options looped) (sliderSize (layout looped))
  /\ loop looped false initial_dom (loop looped false initial_dom 50) == 50
  /\ ~ loop looped false initial_dom (loop looped false initial_dom 50)
       == loop looped false initial_dom 50.
Proof.
  apply (loop_not_idempotent looped initial_dom 50); [reflexivity | qcompute..].
Defined.

Lemma loop_congruent_witness :
  exists k : Z,
    200 - loop looped false initial_dom 200
    == inject_Z k * sliderSize (layout looped)
    /\ (k <> 0%Z <-> wraps looped false initial_dom 200).
Proof. exact (loop_congruent looped false initial_dom 200). Defined.

(** The looped slider of the test suite: [translate( 200 )] at rest is
    wrapped to [-200 * (length - 1)]. *)
Example loop_test : loop looped false initial_dom 200 == -800.
Proof. vm_compute. reflexivity. Qed.

Lemma loop_identity_witness : loop looped true initial_dom 200 = 200.
Proof. apply loop_identity. left. reflexivity. Defined.

Lemma loop_past_min_witness :
  orient (options looped) (getLimit looped false)
  <= orient (options looped) (loop looped false initial_dom 200)
  /\ orient (options looped) (loop looped false initial_dom 200)
     < orient (options looped) (getLimit looped false) + sliderSize (layout looped)
  /\ exceededLimit looped initial_dom (Some false)
       (Some (loop looped false initial_dom 200)) = false.
Proof. apply (loop_past_min looped initial_dom 200); [reflexivity | qcompute | qcompute]. Defined.

Lemma loop_past_max_witness :
  orient (options looped) (getLimit looped true) - sliderSize (layout looped)
  < orient (options looped) (loop looped false initial_dom (-1200))
  /\ orient (options looped) (loop looped false initial_dom (-1200))
     <= orient (options looped) (getLimit looped true)
  /\ exceededLimit looped initial_dom (Some true)
       (Some (loop looped false initial_dom (-1200))) = false.
Proof. apply (loop_past_max looped initial_dom (-1200)); [reflexivity | qcompute | qcompute]. Defined.
