(* ===== verification/Motion.v ===== *)
(** * Motion: the move orchestrator of Move.ts

    The mutable world of the component and its handlers: [mount],
    [reposition], [move] with the completion closure it hands to the
    Transition component, [jump], [translate], [cancel] and [isBusy]
    (Move.ts lines 60-163 and 257-259).  The world holds the [waiting] flag
    of the component, [Splide.state] and [Splide.index], the DOM of list
    and track, what the Transition component keeps pending, and a log of
    the events emitted and of the calls made to other components, oldest
    first.  [step] is the transition system of the world: calls of the
    component's interface and what the browser does in between.
    [MoveComponent.t] is the interface of lines 22-33 and [Move] the object
    the constructor returns (lines 276-288). *)

From S2P Require Import Prelude Utils Env Position Loop.

Local Open Scope Q_scope.
Local Open Scope js_scope.

(** ** Data *)

(** The states of [constants/states] that Move.ts sets (line 9).  The
    other states of a slider (created, mounted, destroyed) are not told
    apart from IDLE: Move.ts never reads the state. *)
Inductive State : Set := IDLE | MOVING.

(** An optional [callback] is an opaque function, known by a number. *)
Definition Callback : Set := nat.

(** The events Move.ts emits (lines 3-5). *)
Inductive Event : Type :=
| EVENT_MOVE (index prev dest : Z)
| EVENT_MOVED (index prev dest : Z)
| EVENT_REPOSITIONED.

(** The control characters ['>'] and ['<'] given to [Controller.go]. *)
Inductive Control : Set := Next | Prev.

(** What the component does to the others, as logged. *)
Inductive Effect : Type :=
| Emit (e : Event)
| Listen                            (* on( [ mounted, resized, ... ], reposition ) *)
| ScrollCancel                      (* Components.Scroll.cancel() *)
| TransitionStart (dest : Z)        (* Components.Transition.start( dest, ... ) *)
| TransitionCancel                  (* Components.Transition.cancel() *)
| ControllerGo (control : Control) (allowSameIndex : bool) (callback : option Callback)
| Call (callback : Callback).       (* callback() *)

(** The closure [move] passes to [Transition.start]: the variables it
    captures. *)
Record Done : Type := {
  done_dest : Z;
  done_index : Z;
  done_prev : Z;
  done_position : Q;
  done_callback : option Callback
}.

Record World : Type := {
  waiting : bool;                   (* let waiting: boolean *)
  state : State;                    (* Splide.state *)
  index : Z;                        (* Splide.index *)
  dom : Dom;
  endCallback : option Done;        (* pending in the Slide transition *)
  ticks : list Done;                (* pending in the Fade transition *)
  listening : bool;                 (* reposition is bound to the events *)
  log : list Effect
}.

(** A slider that was just created: nothing set, nothing pending.  The
    undefined [waiting] is falsy, as [false] is. *)
Definition created : World := {|
  waiting := false; state := IDLE; index := 0; dom := initial_dom;
  endCallback := None; ticks := []; listening := false; log := []
|}.

(** ** Updates of single fields *)

Definition set_waiting (b : bool) (w : World) : World := {|
  waiting := b; state := state w; index := index w; dom := dom w;
  endCallback := endCallback w; ticks := ticks w; listening := listening w;
  log := log w
|}.

Definition set_state (s : State) (w : World) : World := {|
  waiting := waiting w; state := s; index := index w; dom := dom w;
  endCallback := endCallback w; ticks := ticks w; listening := listening w;
  log := log w
|}.

Definition set_index (i : Z) (w : World) : World := {|
  waiting := waiting w; state := state w; index := i; dom := dom w;
  endCallback := endCallback w; ticks := ticks w; listening := listening w;
  log := log w
|}.

Definition set_dom (d : Dom) (w : World) : World := {|
  waiting := waiting w; state := state w; index := index w; dom := d;
  endCallback := endCallback w; ticks := ticks w; listening := listening w;
  log := log w
|}.

Definition set_endCallback (c : option Done) (w : World) : World := {|
  waiting := waiting w; state := state w; index := index w; dom := dom w;
  endCallback := c; ticks := ticks w; listening := listening w;
  log := log w
|}.

Definition set_ticks (l : list Done) (w : World) : World := {|
  waiting := waiting w; state := state w; index := index w; dom := dom w;
  endCallback := endCallback w; ticks := l; listening := listening w;
  log := log w
|}.

Definition set_listening (b : bool) (w : World) : World := {|
  waiting := waiting w; state := state w; index := index w; dom := dom w;
  endCallback := endCallback w; ticks := ticks w; listening := b;
  log := log w
|}.

Definition logged (e : Effect) (w : World) : World := {|
  waiting := waiting w; state := state w; index := index w; dom := dom w;
  endCallback := endCallback w; ticks := ticks w; listening := listening w;
  log := log w ++ [e]
|}.

Definition emit (e : Event) (w : World) : World := logged (Emit e) w.

(** ** The Style component and the browser

    [ruleBy( list, 'transform', ... )] writes the rule; the list is
    displayed at the new translation at once unless a transition rule is
    set, in which case it starts to animate from where it is.  Setting the
    transition rule to [''] ends a running animation at its target. *)

Definition ruleBy_transform (env : Env) (position : Q) (d : Dom) : Dom := {|
  trackEdge := trackEdge d;
  rendered := if transitionRule d then rendered d else position;
  transformRule := Some (resolveX (options env), position);
  transitionRule := transitionRule d
|}.

Definition ruleBy_transition (on : bool) (d : Dom) : Dom := {|
  trackEdge := trackEdge d;
  rendered :=
    match on, transformRule d with
    | false, Some (_, target) => target
    | _, _ => rendered d
    end;
  transformRule := transformRule d;
  transitionRule := on
|}.

(** A frame of a running animation: the list is displayed at [q]. *)
Definition paint (q : Q) (d : Dom) : Dom := {|
  trackEdge := trackEdge d;
  rendered := q;
  transformRule := transformRule d;
  transitionRule := transitionRule d
|}.

(** ** The handlers of Move.ts *)

(** Move.ts [isBusy]: [true] while a move is waiting, when the slider
    cannot move.  Its JSDoc (line 255) says the opposite; line 88 and the
    tests (part_000 lines 113-119) agree with the code. *)
Definition isBusy (w : World) : bool := waiting w.

(** Move.ts [translate]. *)
Definition translate (env : Env) (position : Q) (preventLoop : bool) (w : World) : World :=
  set_dom
    (ruleBy_transform env
       (if preventLoop then position else loop env (waiting w) (dom w) position)
       (dom w))
    w.

(** Move.ts [jump]. *)
Definition jump (env : Env) (index : Z) (w : World) : World :=
  translate env (toPosition env index true) false w.

(** The function [move] passes to [Transition.start] (Move.ts lines 97-108). *)
Definition move_done (env : Env) (c : Done) (w : World) : World :=
  let looping := negb (done_dest c =? done_index c)%Z in
  let w := if looping then jump env (done_index c) w else w in
  let w := set_waiting false w in
  let w := set_state IDLE w in
  let w := emit (EVENT_MOVED (done_index c) (done_prev c) (done_dest c)) w in
  if trimSpace_is_move (options env)
     && negb (done_dest c =? done_prev c)%Z
     && (done_position c =? getPosition env (dom w))
  then
    logged (ControllerGo (if (done_dest c >? done_prev c)%Z then Next else Prev)
              false (done_callback c)) w
  else
    match done_callback c with
    | Some callback => logged (Call callback) w
    | None => w
    end.

(** ** The Transition component

    The Slide transition animates when the destination is at least a pixel
    away and the speed at least a millisecond: it sets the transition rule,
    translates to the destination without looping and keeps the callback
    until the browser reports [transitionend].  Otherwise it jumps and
    calls back at once.  The Fade transition calls back on the next tick.
    [cancel] of the Slide transition clears the transition rule; the Fade
    transition has nothing to cancel. *)

Definition Transition_cancel (env : Env) (w : World) : World :=
  if Splide_is (options env) FADE then w
  else set_dom (ruleBy_transition false (dom w)) w.

Definition Transition_start (env : Env) (dest : Z) (done : Done) (w : World) : World :=
  if Splide_is (options env) FADE then set_ticks (ticks w ++ [done]) w
  else
    let destination := toPosition env dest true in
    let position := getPosition env (dom w) in
    if (1 <=? abs (destination - position)) && (1 <=? speed (options env))
    then
      let w := set_dom (ruleBy_transition true (dom w)) w in
      let w := translate env destination true w in
      set_endCallback (Some done) w
    else
      move_done env done (jump env dest w).

(** The listener the Slide transition binds to [transitionend]. *)
Definition transitionend (env : Env) (w : World) : World :=
  match endCallback w with
  | Some done => move_done env done (Transition_cancel env w)
  | None => w
  end.

(** The next tick of the Fade transition. *)
Definition tick (env : Env) (w : World) : World :=
  match ticks w with
  | done :: rest => move_done env done (set_ticks rest w)
  | [] => w
  end.

(** ** The handlers of Move.ts, continued *)

(** Move.ts [move]. *)
Definition move (env : Env) (dest index prev : Z) (callback : option Callback)
    (w : World) : World :=
  if negb (isBusy w) then
    let position := getPosition env (dom w) in
    let looping := negb (dest =? index)%Z in
    let w := set_waiting (looping || waitForTransition (options env)) w in
    let w := set_state MOVING w in
    let w := emit (EVENT_MOVE index prev dest) w in
    Transition_start env dest
      {| done_dest := dest; done_index := index; done_prev := prev;
         done_position := position; done_callback := callback |}
      (logged (TransitionStart dest) w)
  else w.

(** Move.ts [cancel]. *)
Definition cancel (env : Env) (w : World) : World :=
  let w := set_waiting false w in
  let w := Transition_cancel env (logged TransitionCancel w) in
  translate env (getPosition env (dom w)) false w.

(** Move.ts [reposition]. *)
Definition reposition (env : Env) (w : World) : World :=
  let w := logged ScrollCancel w in
  let w := jump env (index w) w in
  emit EVENT_REPOSITIONED w.

(** Move.ts [mount]. *)
Definition mount (env : Env) (w : World) : World :=
  if negb (Splide_is (options env) FADE)
  then set_listening true (logged Listen w)
  else emit EVENT_REPOSITIONED w.

(** ** The component as the other components see it

    [MoveComponent.t] is the interface [MoveComponent] of Move.ts and
    [Move] the object its constructor returns: the handlers above closed
    over the environment.  What reads the DOM takes the world. *)

Module MoveComponent.
Record t : Type := {
  mount : World -> World;
  move : Z -> Z -> Z -> option Callback -> World -> World;
  jump : Z -> World -> World;
  translate : Q -> bool -> World -> World;
  cancel : World -> World;
  toIndex : Q -> Z;
  toPosition : Z -> bool -> Q;
  getPosition : World -> Q;
  getLimit : bool -> Q;
  isBusy : World -> bool;
  exceededLimit : option bool -> option Q -> World -> bool
}.
End MoveComponent.

Definition Move (env : Env) : MoveComponent.t := {|
  MoveComponent.mount := mount env;
  MoveComponent.move := move env;
  MoveComponent.jump := jump env;
  MoveComponent.translate := translate env;
  MoveComponent.cancel := cancel env;
  MoveComponent.toIndex := toIndex env;
  MoveComponent.toPosition := toPosition env;
  MoveComponent.getPosition := fun w => getPosition env (dom w);
  MoveComponent.getLimit := getLimit env;
  MoveComponent.isBusy := isBusy;
  MoveComponent.exceededLimit := fun max position w => exceededLimit env (dom w) max position
|}.

(** ** The transition system

    A label is a call of the component's interface by another component,
    one of the events [reposition] is bound to, or something the browser
    does: a frame of a running animation, the end of one, a tick.  The
    Controller may also change [Splide.index]. *)

Inductive Label : Type :=
| LMount
| LReposition                       (* mounted, resized, updated or refresh *)
| LMove (dest index prev : Z) (callback : option Callback)
| LJump (index : Z)
| LTranslate (position : Q) (preventLoop : bool)
| LCancel
| LFrame (q : Q)
| LTransitionEnd
| LTick
| LSetIndex (i : Z).

(** Whether the label can happen in the world. *)
Definition enabled (env : Env) (l : Label) (w : World) : bool :=
  match l with
  | LReposition => listening w
  | LFrame _ => transitionRule (dom w)
  | LTransitionEnd => transitionRule (dom w)
  | LTick => match ticks w with [] => false | _ => true end
  | _ => true
  end.

Definition perform (env : Env) (l : Label) (w : World) : World :=
  match l with
  | LMount => mount env w
  | LReposition => reposition env w
  | LMove dest index prev callback => move env dest index prev callback w
  | LJump i => jump env i w
  | LTranslate p preventLoop => translate env p preventLoop w
  | LCancel => cancel env w
  | LFrame q => set_dom (paint q (dom w)) w
  | LTransitionEnd => transitionend env w
  | LTick => tick env w
  | LSetIndex i => set_index i w
  end.

Inductive step (env : Env) : World -> Label -> World -> Prop :=
| step_apply (w : World) (l : Label) :
    enabled env l w = true -> step env w l (perform env l w).

(** A run from [w] along the labels, one step each. *)
Inductive run (env : Env) : World -> list Label -> World -> Prop :=
| run_nil (w : World) : run env w [] w
| run_cons (w w' w'' : World) (l : Label) (ls : list Label) :
    step env w l w' -> run env w' ls w'' -> run env w (l :: ls) w''.

Definition reachable (env : Env) (w : World) : Prop :=
  exists ls, run env created ls w.

(** The run as a function: [None] when a label is not enabled. *)
Fixpoint exec (env : Env) (ls : list Label) (w : World) : option World :=
  match ls with
  | [] => Some w
  | l :: rest => if enabled env l w then exec env rest (perform env l w) else None
  end.

(** ** What each handler leaves alone *)

(** [wsimpl] evaluates field reads through the updates of single fields. *)
Ltac wsimpl :=
  cbn [waiting state index dom endCallback ticks listening log
       set_waiting set_state set_index set_dom set_endCallback set_ticks
       set_listening logged emit
       trackEdge rendered transformRule transitionRule
       ruleBy_transform ruleBy_transition paint] in *.

Section Frames.
Variable env : Env.

(** [translate] writes the DOM and nothing else; of the DOM it leaves the
    track and the transition rule. *)
Lemma translate_frame (p : Q) (b : bool) (w : World) :
  waiting (translate env p b w) = waiting w
  /\ state (translate env p b w) = state w
  /\ index (translate env p b w) = index w
  /\ endCallback (translate env p b w) = endCallback w
  /\ ticks (translate env p b w) = ticks w
  /\ listening (translate env p b w) = listening w
  /\ log (translate env p b w) = log w
  /\ transitionRule (dom (translate env p b w)) = transitionRule (dom w)
  /\ trackEdge (dom (translate env p b w)) = trackEdge (dom w).
Proof. repeat split. Qed.

Lemma translate_transformRule (p : Q) (w : World) :
  transformRule (dom (translate env p true w)) = Some (resolveX (options env), p).
Proof. reflexivity. Qed.

Lemma translate_rendered (p : Q) (b : bool) (w : World) :
  transitionRule (dom w) = false ->
  rendered (dom (translate env p b w))
  = if b then p else loop env (waiting w) (dom w) p.
Proof. unfold translate. wsimpl. now intros ->. Qed.

(** [move_done] ends the move: not waiting, IDLE, the event logged. *)
Lemma move_done_settled (c : Done) (w : World) :
  waiting (move_done env c w) = false
  /\ state (move_done env c w) = IDLE
  /\ endCallback (move_done env c w) = endCallback w
  /\ ticks (move_done env c w) = ticks w
  /\ listening (move_done env c w) = listening w
  /\ index (move_done env c w) = index w
  /\ transitionRule (dom (move_done env c w)) = transitionRule (dom w).
Proof.
  unfold move_done.
  destruct (trimSpace_is_move (options env) && _ && _), (done_callback c),
    (negb (done_dest c =? done_index c)%Z); repeat split.
Qed.

(** The log of [move_done]: the event, then the follow-up request or the
    callback. *)
Definition follow_up (c : Done) (w : World) : bool :=
  trimSpace_is_move (options env)
  && negb (done_dest c =? done_prev c)%Z
  && (done_position c
      =? getPosition env
           (dom (if negb (done_dest c =? done_index c)%Z
                 then jump env (done_index c) w else w))).

Lemma move_done_log (c : Done) (w : World) :
  log (move_done env c w)
  = log w
    ++ Emit (EVENT_MOVED (done_index c) (done_prev c) (done_dest c))
    :: (if follow_up c w
        then [ControllerGo (if (done_dest c >? done_prev c)%Z then Next else Prev)
                false (done_callback c)]
        else match done_callback c with
             | Some callback => [Call callback]
             | None => []
             end).
Proof.
  unfold move_done, follow_up.
  destruct (negb (done_dest c =? done_index c)%Z); wsimpl;
    destruct (trimSpace_is_move (options env) && _ && _), (done_callback c);
    wsimpl; rewrite <- ?app_assoc; reflexivity.
Qed.

(** Not in fade mode, [Transition.cancel] clears the transition rule and
    the list is displayed at the target of the last rule written. *)
Lemma Transition_cancel_log (w : World) : log (Transition_cancel env w) = log w.
Proof. unfold Transition_cancel. now destruct (Splide_is (options env) FADE). Qed.

Lemma Transition_cancel_dom (w : World) :
  Splide_is (options env) FADE = false ->
  dom (Transition_cancel env w) = ruleBy_transition false (dom w).
Proof. unfold Transition_cancel. now intros ->. Qed.

End Frames.

(** ** Theorems on the handlers *)

(** C16. Round trip: with no transition running, the position read right
    after [translate( position, true )] is [position]. *)
Theorem translate_getPosition (env : Env) (position : Q) (w : World) :
  transitionRule (dom w) = false ->
  getPosition env (dom (translate env position true w)) == position.
Proof. intros H. now rewrite getPosition_rendered, translate_rendered. Qed.

(** With no transition running and outside loop mode, [jump] displays the
    slide at its trimmed position. *)
Lemma jump_getPosition (env : Env) (i : Z) (w : World) :
  transitionRule (dom w) = false -> type (options env) <> LOOP ->
  getPosition env (dom (jump env i w)) == toPosition env i true.
Proof.
  intros H Ht. unfold jump.
  rewrite getPosition_rendered, translate_rendered, loop_other_type by auto.
  reflexivity.
Qed.

(** C8. A [move] requested while the component is busy is dropped: the
    world does not change. *)
Theorem move_busy (env : Env) (dest i prev : Z) (cb : option Callback) (w : World) :
  isBusy w = true -> move env dest i prev cb w = w.
Proof. unfold move. now intros ->. Qed.

(** Whether the Slide transition animates towards [dest] from the world. *)
Definition animates (env : Env) (dest : Z) (w : World) : bool :=
  (1 <=? abs (toPosition env dest true - getPosition env (dom w)))
  && (1 <=? speed (options env)).

Lemma move_animated (env : Env) (dest i prev : Z) (cb : option Callback) (w : World) :
  isBusy w = false -> type (options env) <> FADE -> animates env dest w = true ->
  let w' := move env dest i prev cb w in
  waiting w' = negb (dest =? i)%Z || waitForTransition (options env)
  /\ state w' = MOVING
  /\ log w' = log w ++ [Emit (EVENT_MOVE i prev dest); TransitionStart dest]
  /\ endCallback w'
     = Some {| done_dest := dest; done_index := i; done_prev := prev;
               done_position := getPosition env (dom w); done_callback := cb |}
  /\ transitionRule (dom w') = true
  /\ transformRule (dom w') = Some (resolveX (options env), toPosition env dest true).
Proof.
  intros Hb Ht Ha w'. subst w'. unfold move, Transition_start. rewrite Hb.
  cbn [negb]. rewrite (not_FADE env Ht).
  unfold animates in Ha. wsimpl. rewrite Ha. unfold translate. wsimpl.
  repeat split. now rewrite <- app_assoc.
Qed.

(** C9. An accepted [move] that animates sets [waiting] to "looping or
    wait for transition", sets the state to MOVING, emits the move event
    before it starts the transition, and leaves its completion pending
    with the transform rule at the destination. *)
Theorem move_accepted (env : Env) (dest i prev : Z) (cb : option Callback) (w : World) :
  isBusy w = false -> type (options env) <> FADE -> animates env dest w = true ->
  let w' := move env dest i prev cb w in
  waiting w' = negb (dest =? i)%Z || waitForTransition (options env)
  /\ state w' = MOVING
  /\ log w' = log w ++ [Emit (EVENT_MOVE i prev dest); TransitionStart dest]
  /\ endCallback w'
     = Some {| done_dest := dest; done_index := i; done_prev := prev;
               done_position := getPosition env (dom w); done_callback := cb |}
  /\ transitionRule (dom w') = true
  /\ transformRule (dom w') = Some (resolveX (options env), toPosition env dest true).
Proof. apply move_animated. Qed.

(** When the browser reports the end of the transition, the pending
    completion runs: the transition rule is cleared, the component is no
    longer busy, the state is IDLE and the moved event is logged. *)
Theorem transitionend_completes (env : Env) (c : Done) (w : World) :
  type (options env) <> FADE -> endCallback w = Some c ->
  let w' := transitionend env w in
  isBusy w' = false /\ state w' = IDLE /\ transitionRule (dom w') = false
  /\ exists rest,
       log w' = log w
                ++ Emit (EVENT_MOVED (done_index c) (done_prev c) (done_dest c))
                :: rest.
Proof.
  intros Ht Hc w'. subst w'. unfold transitionend, isBusy. rewrite Hc.
  destruct (move_done_settled env c (Transition_cancel env w))
    as (Hw & Hs & _ & _ & _ & _ & Hr).
  rewrite Hw, Hs, Hr, move_done_log. repeat split.
  - rewrite Transition_cancel_dom; [reflexivity|].
    destruct (Splide_is (options env) FADE) eqn:E; [|reflexivity].
    apply Splide_is_true in E. contradiction.
  - unfold Transition_cancel. destruct (Splide_is (options env) FADE); eauto.
Qed.

(** C11. [cancel] leaves the component not busy, with no transition rule,
    and does not move the list: it is displayed where the browser puts it
    once the rule is cleared, at the target of the last transform rule. *)
Theorem cancel_settles (env : Env) (w : World) :
  type (options env) <> FADE ->
  let w' := cancel env w in
  isBusy w' = false /\ transitionRule (dom w') = false
  /\ rendered (dom w') == rendered (ruleBy_transition false (dom w))
  /\ state w' = state w /\ endCallback w' = endCallback w
  /\ log w' = log w ++ [TransitionCancel].
Proof.
  intros Ht w'. subst w'. unfold cancel, isBusy.
  assert (Splide_is (options env) FADE = false) as E.
  { destruct (Splide_is (options env) FADE) eqn:E; [|reflexivity].
    apply Splide_is_true in E. contradiction. }
  unfold Transition_cancel. rewrite E. repeat split.
  rewrite translate_rendered by reflexivity.
  rewrite loop_current by apply getPosition_rendered.
  now rewrite getPosition_rendered.
Qed.

(** ** Invariants of the transition system *)

(** What the orchestration keeps true: a busy component is MOVING and its
    completion is pending where the browser will find it; a transition
    rule is only set together with a callback. *)
Record Inv (env : Env) (w : World) : Prop := {
  inv_moving : waiting w = true -> state w = MOVING;
  inv_pending :
    waiting w = true ->
    if Splide_is (options env) FADE then ticks w <> []
    else transitionRule (dom w) = true;
  inv_callback : transitionRule (dom w) = true -> endCallback w <> None
}.

(** The part of the world the invariant reads. *)
Definition control (w : World) : bool * State * bool * bool * bool :=
  (waiting w, state w, transitionRule (dom w),
   match endCallback w with Some _ => true | None => false end,
   match ticks w with [] => false | _ => true end).

Lemma Inv_control (env : Env) (w w' : World) :
  control w = control w' -> Inv env w -> Inv env w'.
Proof.
  unfold control. intros E [H1 H2 H3]. injection E as Ew Es Et Ec Ek.
  split; rewrite <- ?Ew, <- ?Es, <- ?Et.
  - exact H1.
  - intros Hw. specialize (H2 Hw). destruct (Splide_is (options env) FADE);
      [|exact H2]. destruct (ticks w), (ticks w'); congruence.
  - intros Ht. specialize (H3 Ht). destruct (endCallback w), (endCallback w');
      congruence.
Qed.

(** A world that is not busy satisfies the invariant as soon as its
    transition rule has a callback. *)
Lemma Inv_idle (env : Env) (w : World) :
  waiting w = false -> (transitionRule (dom w) = true -> endCallback w <> None) ->
  Inv env w.
Proof. intros Hw Hc. split; [congruence | congruence | exact Hc]. Qed.

Lemma Inv_created (env : Env) : Inv env created.
Proof. apply Inv_idle; [reflexivity | discriminate]. Qed.

Lemma Inv_move_done (env : Env) (c : Done) (w : World) :
  (transitionRule (dom w) = true -> endCallback w <> None) ->
  Inv env (move_done env c w).
Proof.
  intros H. destruct (move_done_settled env c w) as (Hw & _ & Hc & _ & _ & _ & Hr).
  apply Inv_idle; [exact Hw | now rewrite Hr, Hc].
Qed.

Lemma Inv_move (env : Env) (dest i prev : Z) (cb : option Callback) (w : World) :
  Inv env w -> Inv env (move env dest i prev cb w).
Proof.
  intros HI. unfold move. destruct (isBusy w); [exact HI|]. cbn [negb].
  unfold Transition_start. destruct (Splide_is (options env) FADE) eqn:Ef.
  - split; wsimpl; [reflexivity | | exact (inv_callback _ _ HI)].
    rewrite Ef. intros _ E. now destruct (ticks w).
  - destruct (_ && _).
    + split; unfold translate; wsimpl; [reflexivity | now rewrite Ef | discriminate].
    + apply Inv_move_done. exact (inv_callback _ _ HI).
Qed.

Lemma Inv_cancel (env : Env) (w : World) : Inv env w -> Inv env (cancel env w).
Proof.
  intros HI. unfold cancel, translate, Transition_cancel.
  destruct (Splide_is (options env) FADE); apply Inv_idle; wsimpl;
    [reflexivity | exact (inv_callback _ _ HI) | reflexivity | discriminate].
Qed.

Lemma Inv_transitionend (env : Env) (w : World) :
  Inv env w -> Inv env (transitionend env w).
Proof.
  intros HI. unfold transitionend. destruct (endCallback w) eqn:E; [|exact HI].
  apply Inv_move_done. unfold Transition_cancel.
  destruct (Splide_is (options env) FADE); wsimpl;
    [rewrite E; discriminate | discriminate].
Qed.

Lemma Inv_tick (env : Env) (w : World) : Inv env w -> Inv env (tick env w).
Proof.
  intros HI. unfold tick. destruct (ticks w); [exact HI|].
  apply Inv_move_done. exact (inv_callback _ _ HI).
Qed.

Lemma Inv_step (env : Env) (w w' : World) (l : Label) :
  Inv env w -> step env w l w' -> Inv env w'.
Proof.
  intros HI Hs. destruct Hs as [w l _].
  destruct l; cbn [perform];
    auto using Inv_move, Inv_cancel, Inv_transitionend, Inv_tick;
    apply (Inv_control env w); try exact HI;
    unfold mount; try destruct (negb _); reflexivity.
Qed.

Lemma Inv_run (env : Env) (w w' : World) (ls : list Label) :
  run env w ls w' -> Inv env w -> Inv env w'.
Proof. induction 1; eauto using Inv_step. Qed.

Lemma Inv_reachable (env : Env) (w : World) : reachable env w -> Inv env w.
Proof. intros [ls Hr]. exact (Inv_run env _ _ _ Hr (Inv_created env)). Qed.

(** C1. Along every run from the created slider, a busy component is in
    the state MOVING, its completion is pending (a running transition, or
    a tick in fade mode), and a transition rule is never set without a
    callback to end it. *)
Theorem reachable_Inv (env : Env) (w : World) :
  reachable env w ->
  (waiting w = true -> state w = MOVING)
  /\ (waiting w = true ->
      if Splide_is (options env) FADE then ticks w <> []
      else transitionRule (dom w) = true)
  /\ (transitionRule (dom w) = true -> endCallback w <> None).
Proof. intros Hr. destruct (Inv_reachable env w Hr) as [H1 H2 H3]. auto. Qed.

(** The label by which the Transition component reports completion. *)
Definition completion (env : Env) : Label :=
  if Splide_is (options env) FADE then LTick else LTransitionEnd.

(** C2. A busy component is never stuck: along every run, when
    [isBusy] holds the completion of the transition is enabled, and it
    leaves the component not busy and IDLE. *)
Theorem busy_completes (env : Env) (w : World) :
  reachable env w -> isBusy w = true ->
  enabled env (completion env) w = true
  /\ isBusy (perform env (completion env) w) = false
  /\ state (perform env (completion env) w) = IDLE.
Proof.
  intros Hr Hb. destruct (Inv_reachable env w Hr) as [_ Hp Hc].
  specialize (Hp Hb). unfold completion, isBusy.
  destruct (Splide_is (options env) FADE); cbn [enabled perform].
  - unfold tick. destruct (ticks w) as [|c rest]; [contradiction|].
    destruct (move_done_settled env c (set_ticks rest w)) as (H1 & H2 & _). auto.
  - specialize (Hc Hp). unfold transitionend.
    destruct (endCallback w) as [c|]; [|contradiction].
    destruct (move_done_settled env c (Transition_cancel env w)) as (H1 & H2 & _).
    auto.
Qed.

(** When the completion of a move finds the position unchanged, with
    [trimSpace: 'move'] and a destination other than the previous index,
    it asks the Controller to go on in the direction of the move and hands
    it the callback of the move, which is not called; otherwise it calls
    the callback, if there is one. *)
Theorem move_done_follow_up (env : Env) (c : Done) (w : World) :
  log (move_done env c w)
  = log w
    ++ [Emit (EVENT_MOVED (done_index c) (done_prev c) (done_dest c))]
    ++ (if follow_up env c w
        then [ControllerGo (if (done_dest c >? done_prev c)%Z then Next else Prev)
                false (done_callback c)]
        else match done_callback c with
             | Some callback => [Call callback]
             | None => []
             end).
Proof. apply move_done_log. Qed.

(** [move] is gated by [waiting] alone: whenever the component is not
    busy, whatever the state is (MOVING included), the move is accepted,
    its event emitted and the transition started. *)
Theorem move_not_busy (env : Env) (dest i prev : Z) (cb : option Callback) (w : World) :
  isBusy w = false ->
  exists rest,
    log (move env dest i prev cb w)
    = log w ++ Emit (EVENT_MOVE i prev dest) :: TransitionStart dest :: rest.
Proof.
  intros Hb. unfold move, Transition_start. rewrite Hb. cbn [negb].
  destruct (Splide_is (options env) FADE); [|destruct (_ && _)].
  - exists []. wsimpl. now rewrite <- app_assoc.
  - exists []. unfold translate. wsimpl. now rewrite <- app_assoc.
  - rewrite move_done_log. unfold jump, translate. wsimpl.
    rewrite <- !app_assoc. cbn [app]. eauto.
Qed.

(** [reposition] cancels the scroll, jumps to [Splide.index] and emits
    the event; it touches neither [waiting] nor the state. *)
Lemma reposition_effect (env : Env) (w : World) :
  let w' := reposition env w in
  log w' = log w ++ [ScrollCancel; Emit EVENT_REPOSITIONED]
  /\ transformRule (dom w')
     = Some (resolveX (options env),
             loop env (waiting w) (dom w) (toPosition env (index w) true))
  /\ waiting w' = waiting w /\ state w' = state w.
Proof.
  unfold reposition, jump, translate. wsimpl. repeat split.
  now rewrite <- app_assoc.
Qed.

(** In fade mode [mount] emits the repositioned event and binds nothing;
    otherwise it binds [reposition] and emits nothing. *)
Lemma mount_effect (env : Env) (w : World) :
  let w' := mount env w in
  if Splide_is (options env) FADE
  then listening w' = listening w /\ log w' = log w ++ [Emit EVENT_REPOSITIONED]
  else listening w' = true /\ log w' = log w ++ [Listen].
Proof. unfold mount. destruct (Splide_is (options env) FADE); split; reflexivity. Qed.

Lemma listening_step (env : Env) (w w' : World) (l : Label) :
  type (options env) = FADE -> step env w l w' ->
  listening w = false -> listening w' = false.
Proof.
  intros Hf Hs Hl. apply Splide_is_true in Hf. destruct Hs as [w l _].
  destruct l; cbn [perform]; try exact Hl.
  - unfold mount. now rewrite Hf.
  - unfold move, Transition_start. rewrite Hf. now destruct (negb (isBusy w)).
  - unfold cancel, Transition_cancel. now rewrite Hf.
  - unfold transitionend. destruct (endCallback w) as [c|]; [|exact Hl].
    destruct (move_done_settled env c (Transition_cancel env w))
      as (_ & _ & _ & _ & -> & _).
    unfold Transition_cancel. now rewrite Hf.
  - unfold tick. destruct (ticks w) as [|c rest]; [exact Hl|].
    now destruct (move_done_settled env c (set_ticks rest w))
      as (_ & _ & _ & _ & -> & _).
Qed.

(** In fade mode the component never repositions: along every run
    [reposition] is bound to no event, so geometry never moves the list
    on mount, resize, update or refresh. *)
Theorem fade_never_listens (env : Env) (w : World) :
  type (options env) = FADE -> reachable env w ->
  listening w = false /\ enabled env LReposition w = false.
Proof.
  intros Hf [ls Hr]. cut (listening w = false); [now split|].
  remember created as w0 eqn:E0.
  assert (listening w0 = false) as H0 by now subst.
  clear E0. induction Hr; eauto using listening_step.
Qed.

(** ** The order of the events *)

(** Every moved event of the log comes after a move event of the same
    indices. *)
Definition moved_preceded (l : list Effect) : Prop :=
  forall l1 l2 i p d,
    l = l1 ++ Emit (EVENT_MOVED i p d) :: l2 ->
    In (Emit (EVENT_MOVE i p d)) l1.

(** The move event of a completion is in the log. *)
Definition announced (l : list Effect) (c : Done) : Prop :=
  In (Emit (EVENT_MOVE (done_index c) (done_prev c) (done_dest c))) l.

Lemma moved_preceded_snoc (l : list Effect) (e : Effect) :
  moved_preceded l ->
  (forall i p d, e = Emit (EVENT_MOVED i p d) -> In (Emit (EVENT_MOVE i p d)) l) ->
  moved_preceded (l ++ [e]).
Proof.
  intros Hl He l1 l2 i p d E.
  destruct l2 as [|x l2' _] using rev_ind.
  - apply app_inj_tail in E as [-> ->]. now apply He.
  - rewrite app_comm_cons, app_assoc in E. apply app_inj_tail in E as [E _].
    exact (Hl _ _ _ _ _ E).
Qed.

Record Ordered (w : World) : Prop := {
  ord_log : moved_preceded (log w);
  ord_callback : forall c, endCallback w = Some c -> announced (log w) c;
  ord_ticks : forall c, In c (ticks w) -> announced (log w) c
}.

(** Logging anything but a moved event keeps the order. *)
Lemma Ordered_logged (e : Effect) (w : World) :
  (forall i p d, e <> Emit (EVENT_MOVED i p d)) ->
  Ordered w -> Ordered (logged e w).
Proof.
  intros He [H1 H2 H3]. split; wsimpl.
  - apply moved_preceded_snoc; [exact H1|]. intros i p d E. now apply He in E.
  - intros c Hc. apply in_or_app. left. first [now apply H2 | now apply H3].
  - intros c Hc. apply in_or_app. left. first [now apply H2 | now apply H3].
Qed.

(** Worlds with the same log and the same pending completions. *)
Lemma Ordered_same (w w' : World) :
  log w' = log w -> endCallback w' = endCallback w -> ticks w' = ticks w ->
  Ordered w -> Ordered w'.
Proof. intros El Ec Et [H1 H2 H3]. split; rewrite ?El, ?Ec, ?Et; assumption. Qed.

Lemma Ordered_move_done (env : Env) (c : Done) (w : World) :
  announced (log w) c -> Ordered w -> Ordered (move_done env c w).
Proof.
  intros Ha Ho. unfold move_done.
  set (w1 := if negb (done_dest c =? done_index c)%Z then _ else w).
  assert (Ordered w1 /\ announced (log w1) c) as [Ho1 Ha1].
  { subst w1. destruct (negb (done_dest c =? done_index c)%Z); split; auto.
    eapply Ordered_same; [| | |exact Ho]; reflexivity. }
  assert (Ordered (emit (EVENT_MOVED (done_index c) (done_prev c) (done_dest c))
                     (set_state IDLE (set_waiting false w1)))) as Ho2.
  { destruct Ho1 as [H1 H2 H3]. split; wsimpl.
    - apply moved_preceded_snoc; [exact H1|]. intros i p d E.
      injection E as <- <- <-. exact Ha1.
    - intros c' Hc. apply in_or_app. left. first [now apply H2 | now apply H3].
    - intros c' Hc. apply in_or_app. left. first [now apply H2 | now apply H3]. }
  destruct (_ && _ && _); [|destruct (done_callback c); [|exact Ho2]];
    (apply Ordered_logged; [discriminate | exact Ho2]).
Qed.

Lemma Ordered_move (env : Env) (dest i prev : Z) (cb : option Callback) (w : World) :
  Ordered w -> Ordered (move env dest i prev cb w).
Proof.
  intros Ho. unfold move. destruct (negb (isBusy w)); [|exact Ho].
  set (c := {| done_dest := dest |}).
  set (w1 := logged (TransitionStart dest) _).
  assert (Ordered w1) as Ho1.
  { subst w1. apply Ordered_logged; [discriminate|].
    apply Ordered_logged; [discriminate|].
    eapply Ordered_same; [| | |exact Ho]; reflexivity. }
  assert (announced (log w1) c) as Ha1.
  { subst w1. unfold announced. wsimpl. rewrite <- app_assoc.
    apply in_or_app. right. now left. }
  unfold Transition_start.
  destruct (Splide_is (options env) FADE); [|destruct (_ && _)].
  - destruct Ho1 as [H1 H2 H3]. split; wsimpl; auto.
    intros c' [Hc|[<-|[]]]%in_app_or; [auto | exact Ha1].
  - destruct Ho1 as [H1 H2 H3]. split; unfold translate; wsimpl; auto.
    intros c' [= <-]. exact Ha1.
  - apply Ordered_move_done; [exact Ha1|].
    eapply Ordered_same; [| | |exact Ho1]; reflexivity.
Qed.

Lemma Ordered_step (env : Env) (w w' : World) (l : Label) :
  Ordered w -> step env w l w' -> Ordered w'.
Proof.
  intros Ho Hs. destruct Hs as [w l _].
  assert (forall e, (forall i p d, e <> Emit (EVENT_MOVED i p d)) ->
                    Ordered (logged e w)) as Hlog
    by (intros e He; now apply Ordered_logged).
  destruct l; cbn [perform].
  - unfold mount, emit. destruct (negb _); [|now apply Hlog].
    apply (Ordered_same (logged Listen w)); try reflexivity. now apply Hlog.
  - unfold reposition, emit. apply Ordered_logged; [discriminate|].
    apply (Ordered_same (logged ScrollCancel w)); try reflexivity. now apply Hlog.
  - now apply Ordered_move.
  - now apply (Ordered_same w).
  - now apply (Ordered_same w).
  - apply (Ordered_same (logged TransitionCancel w)); [..|now apply Hlog];
      unfold cancel, Transition_cancel;
      now destruct (Splide_is (options env) FADE).
  - now apply (Ordered_same w).
  - unfold transitionend. destruct (endCallback w) as [c|] eqn:E; [|exact Ho].
    assert (Ordered (Transition_cancel env w)
            /\ log (Transition_cancel env w) = log w) as [Ho' El]
      by (unfold Transition_cancel; destruct (Splide_is (options env) FADE);
          split; try reflexivity; now apply (Ordered_same w)).
    apply Ordered_move_done; [|exact Ho'].
    rewrite El. exact (ord_callback w Ho c E).
  - unfold tick. destruct (ticks w) as [|c rest] eqn:E; [exact Ho|].
    apply Ordered_move_done; [apply (ord_ticks w Ho); rewrite E; now left|].
    destruct Ho as [H1 H2 H3]. split; wsimpl; auto.
    intros c' Hc. apply H3. rewrite E. now right.
  - now apply (Ordered_same w).
Qed.

Lemma Ordered_created : Ordered created.
Proof. split; cbn; try easy. intros [|? ?] ? ? ? ? ?; discriminate. Qed.

Lemma Ordered_run (env : Env) (w w' : World) (ls : list Label) :
  run env w ls w' -> Ordered w -> Ordered w'.
Proof. induction 1; eauto using Ordered_step. Qed.

(** C7. Along every run from the created slider, every moved event in
    the log is preceded by the move event of the same indices, and every
    pending completion has had its move event emitted. *)
Theorem reachable_Ordered (env : Env) (w : World) : reachable env w -> Ordered w.
Proof. intros [ls Hr]. exact (Ordered_run env _ _ _ Hr Ordered_created). Qed.

(** ** The theorems at the sliders of the test suite *)

(** The slider of the tests after [Move.move( 1, 1, -1 )]. *)
Definition moving : World := move slider 1 1 (-1) None created.

Lemma translate_getPosition_witness :
  getPosition slider (dom (translate slider 100 true created)) == 100.
Proof. apply translate_getPosition. reflexivity. Defined.

Lemma move_busy_witness : move slider 2 2 1 None moving = moving.
Proof. apply move_busy. reflexivity. Defined.

Lemma move_accepted_witness :
  let w' := move slider 1 1 (-1) None created in
  waiting w' = negb (1 =? 1)%Z || waitForTransition (options slider)
  /\ state w' = MOVING
  /\ log w' = log created ++ [Emit (EVENT_MOVE 1 (-1) 1); TransitionStart 1]
  /\ endCallback w'
     = Some {| done_dest := 1; done_index := 1; done_prev := -1;
               done_position := getPosition slider (dom created);
               done_callback := None |}
  /\ transitionRule (dom w') = true
  /\ transformRule (dom w')
     = Some (resolveX (options slider), toPosition slider 1 true).
Proof.
  apply (move_accepted slider 1 1 (-1) None created);
    [reflexivity | discriminate | reflexivity].
Defined.

Lemma transitionend_completes_witness :
  let w' := transitionend slider moving in
  isBusy w' = false /\ state w' = IDLE /\ transitionRule (dom w') = false
  /\ exists rest, log w' = log moving ++ Emit (EVENT_MOVED 1 (-1) 1) :: rest.
Proof.
  apply (transitionend_completes slider
           {| done_dest := 1; done_index := 1; done_prev := -1;
              done_position := getPosition slider (dom created);
              done_callback := None |} moving);
    [discriminate | reflexivity].
Defined.

Lemma cancel_settles_witness :
  let w' := cancel slider moving in
  isBusy w' = false /\ transitionRule (dom w') = false
  /\ rendered (dom w') == rendered (ruleBy_transition false (dom moving))
  /\ state w' = state moving /\ endCallback w' = endCallback moving
  /\ log w' = log moving ++ [TransitionCancel].
Proof. apply (cancel_settles slider moving). discriminate. Defined.

Lemma moving_reachable : reachable slider moving.
Proof.
  exists [LMove 1 1 (-1) None]. eapply run_cons; [|apply run_nil].
  exact (step_apply slider created (LMove 1 1 (-1) None) eq_refl).
Qed.

Lemma reachable_Inv_witness :
  (waiting moving = true -> state moving = MOVING)
  /\ (waiting moving = true -> transitionRule (dom moving) = true)
  /\ (transitionRule (dom moving) = true -> endCallback moving <> None).
Proof. apply (reachable_Inv slider moving). exact moving_reachable. Defined.

Lemma reachable_Ordered_witness : Ordered moving.
Proof. apply (reachable_Ordered slider). exact moving_reachable. Defined.

(** A slider that does not wait for transitions, after a move to the next
    slide: MOVING, yet not busy. *)
Definition eager : Env := init (with_waitForTransition false defaults) 5 0.
Definition eager_moving : World := move eager 1 1 0 None created.

Lemma move_not_busy_witness :
  state eager_moving = MOVING
  /\ exists rest,
       log (move eager 2 2 1 None eager_moving)
       = log eager_moving ++ Emit (EVENT_MOVE 2 1 2) :: TransitionStart 2 :: rest.
Proof. split; [reflexivity | apply move_not_busy; reflexivity]. Defined.

(** A slider in fade mode, mounted. *)
Definition faded : Env := init (with_type FADE defaults) 5 0.

Lemma faded_mounted_reachable : reachable faded (mount faded created).
Proof.
  exists [LMount]. eapply run_cons; [|apply run_nil].
  exact (step_apply faded created LMount eq_refl).
Qed.

Lemma fade_never_listens_witness :
  listening (mount faded created) = false
  /\ enabled faded LReposition (mount faded created) = false.
Proof. apply fade_never_listens; [reflexivity | exact faded_mounted_reachable]. Defined.

Lemma busy_completes_witness :
  enabled slider (completion slider) moving = true
  /\ isBusy (perform slider (completion slider) moving) = false
  /\ state (perform slider (completion slider) moving) = IDLE.
Proof. apply busy_completes; [exact moving_reachable | reflexivity]. Defined.
