(* ===== verification/Transition.v ===== *)
(** * Transition: the contract with the Transition component

    Move.ts hands [Components.Transition] a destination and a completion
    and asks it to cancel; which component that is depends on the slider
    type (Slide or Fade), and a slider can be mounted with a transition of
    its own.  [TransitionComponent.t] is the interface, [Contract] what the
    orchestrator relies on: a transition does not touch the variables of
    the Move component; it may only repaint the list and run the
    completion it was given.  [move_with] and [cancel_with] are [move] and
    [cancel] over any transition; their theorems are proved from the
    contract, and [Slide], [Fade] and the choice between them satisfy
    it. *)

From S2P Require Import Prelude Utils Env Position Loop Motion.

Local Open Scope Q_scope.
Local Open Scope js_scope.

(** ** The interface *)

Module TransitionComponent.
Record t : Type := {
  start : Z -> Done -> World -> World;      (* start( index, done ) *)
  cancel : World -> World                   (* cancel() *)
}.
End TransitionComponent.

(** The variables of the Move component and of the slider that a
    transition has no business with. *)
Definition orchestration (w : World) : bool * State * Z * bool * list Effect :=
  (waiting w, state w, index w, listening w, log w).

Class Contract (env : Env) (T : TransitionComponent.t) : Prop := {
  (** [start] keeps the completion for later, or runs it before it
      returns, on a world it has only repainted. *)
  start_frame : forall dest done w,
    orchestration (TransitionComponent.start T dest done w) = orchestration w
    \/ exists w1, orchestration w1 = orchestration w
                  /\ TransitionComponent.start T dest done w = move_done env done w1;
  cancel_frame : forall w,
    orchestration (TransitionComponent.cancel T w) = orchestration w
}.

(** ** The transitions of the library *)

Definition Slide (env : Env) : TransitionComponent.t := {|
  TransitionComponent.start := fun dest done w =>
    let destination := toPosition env dest true in
    let position := getPosition env (dom w) in
    if (1 <=? abs (destination - position)) && (1 <=? speed (options env))
    then
      let w := set_dom (ruleBy_transition true (dom w)) w in
      let w := translate env destination true w in
      set_endCallback (Some done) w
    else
      move_done env done (jump env dest w);
  TransitionComponent.cancel := fun w => set_dom (ruleBy_transition false (dom w)) w
|}.

Definition Fade (env : Env) : TransitionComponent.t := {|
  TransitionComponent.start := fun dest done w => set_ticks (ticks w ++ [done]) w;
  TransitionComponent.cancel := fun w => w
|}.

(** The transition a slider is mounted with by default. *)
Definition Transition (env : Env) : TransitionComponent.t :=
  if Splide_is (options env) FADE then Fade env else Slide env.

Lemma Transition_start_Transition (env : Env) (dest : Z) (done : Done) (w : World) :
  Transition_start env dest done w = TransitionComponent.start (Transition env) dest done w.
Proof. unfold Transition_start, Transition. now destruct (Splide_is (options env) FADE). Qed.

Lemma Transition_cancel_Transition (env : Env) (w : World) :
  Transition_cancel env w = TransitionComponent.cancel (Transition env) w.
Proof. unfold Transition_cancel, Transition. now destruct (Splide_is (options env) FADE). Qed.

#[export] Instance Slide_Contract (env : Env) : Contract env (Slide env).
Proof.
  split; [|reflexivity]. intros dest done w. cbn.
  destruct (_ && _); [now left | right].
  exists (jump env dest w). now split.
Qed.

#[export] Instance Fade_Contract (env : Env) : Contract env (Fade env).
Proof. split; [now left | reflexivity]. Qed.

#[export] Instance Transition_Contract (env : Env) : Contract env (Transition env).
Proof. unfold Transition. destruct (Splide_is (options env) FADE); exact _. Qed.

(** ** The orchestrator over any transition *)

Section Orchestrator.
Context (env : Env) (T : TransitionComponent.t).

(** Move.ts [move], with [Components.Transition] as a parameter. *)
Definition move_with (dest index prev : Z) (callback : option Callback)
    (w : World) : World :=
  if negb (isBusy w) then
    let position := getPosition env (dom w) in
    let looping := negb (dest =? index)%Z in
    let w := set_waiting (looping || waitForTransition (options env)) w in
    let w := set_state MOVING w in
    let w := emit (EVENT_MOVE index prev dest) w in
    TransitionComponent.start T dest
      {| done_dest := dest; done_index := index; done_prev := prev;
         done_position := position; done_callback := callback |}
      (logged (TransitionStart dest) w)
  else w.

(** Move.ts [cancel], with [Components.Transition] as a parameter. *)
Definition cancel_with (w : World) : World :=
  let w := set_waiting false w in
  let w := TransitionComponent.cancel T (logged TransitionCancel w) in
  translate env (getPosition env (dom w)) false w.

Context {contract : Contract env T}.

(** The two ways an accepted move can go. *)
Definition under_way (dest i prev : Z) (w w' : World) : Prop :=
  waiting w' = negb (dest =? i)%Z || waitForTransition (options env)
  /\ state w' = MOVING
  /\ log w' = log w ++ [Emit (EVENT_MOVE i prev dest); TransitionStart dest].

Definition over (dest i prev : Z) (w w' : World) : Prop :=
  waiting w' = false /\ state w' = IDLE
  /\ exists rest,
       log w' = log w ++ Emit (EVENT_MOVE i prev dest) :: TransitionStart dest
                      :: Emit (EVENT_MOVED i prev dest) :: rest.

Lemma move_with_cases (dest i prev : Z) (cb : option Callback) (w : World) :
  isBusy w = false ->
  under_way dest i prev w (move_with dest i prev cb w)
  \/ over dest i prev w (move_with dest i prev cb w).
Proof.
  unfold under_way, over.
  intros Hb. unfold move_with. rewrite Hb. cbn [negb].
  set (c := {| done_dest := dest |}). set (w0 := logged _ _).
  destruct (start_frame dest c w0) as [E|(w1 & E1 & ->)]; [left|right].
  - unfold orchestration in E. injection E as -> -> _ _ ->.
    subst w0. wsimpl. repeat split. now rewrite <- app_assoc.
  - destruct (move_done_settled env c w1) as (H1 & H2 & _).
    rewrite move_done_log. unfold orchestration in E1. injection E1 as _ _ _ _ ->.
    subst w0. wsimpl. repeat split; try assumption.
    rewrite <- !app_assoc. cbn [app]. eauto.
Qed.

(** C25. Whatever the transition, as long as it honours the contract: an
    accepted move has emitted its move event and asked for the transition
    in that order; then either it is under way ([waiting] as requested,
    MOVING, nothing more logged), or it is over (not waiting, IDLE, its
    moved event logged next). *)
Theorem move_with_contract (dest i prev : Z) (cb : option Callback) (w : World) :
  isBusy w = false ->
  let w' := move_with dest i prev cb w in
  (waiting w' = negb (dest =? i)%Z || waitForTransition (options env)
   /\ state w' = MOVING
   /\ log w' = log w ++ [Emit (EVENT_MOVE i prev dest); TransitionStart dest])
  \/ (waiting w' = false /\ state w' = IDLE
      /\ exists rest,
           log w' = log w ++ Emit (EVENT_MOVE i prev dest) :: TransitionStart dest
                          :: Emit (EVENT_MOVED i prev dest) :: rest).
Proof. intros Hb. exact (move_with_cases dest i prev cb w Hb). Qed.

(** Whatever the transition, a waiting component is MOVING after
    [move]. *)
Lemma move_with_moving (dest i prev : Z) (cb : option Callback) (w : World) :
  (waiting w = true -> state w = MOVING) ->
  waiting (move_with dest i prev cb w) = true ->
  state (move_with dest i prev cb w) = MOVING.
Proof.
  intros H. destruct (isBusy w) eqn:Hb.
  - unfold move_with. rewrite Hb. exact H.
  - destruct (move_with_cases dest i prev cb w Hb) as [(_ & Hs & _)|(Hw & _)];
      [auto | congruence].
Qed.

(** Whatever the transition, [cancel] leaves the component not busy and
    logs nothing but its call. *)
Theorem cancel_with_contract (w : World) :
  isBusy (cancel_with w) = false
  /\ state (cancel_with w) = state w
  /\ log (cancel_with w) = log w ++ [TransitionCancel].
Proof.
  unfold cancel_with, isBusy.
  set (w0 := logged TransitionCancel (set_waiting false w)).
  pose proof (cancel_frame (T := T) w0) as E. unfold orchestration in E.
  injection E as Ew Es _ _ El. unfold translate. wsimpl. now rewrite Ew, Es, El.
Qed.

End Orchestrator.

(** ** The component of Move.ts is the orchestrator over [Transition] *)

Lemma move_with_Transition (env : Env) (dest i prev : Z) (cb : option Callback)
    (w : World) :
  move env dest i prev cb w = move_with env (Transition env) dest i prev cb w.
Proof. unfold move, move_with. now rewrite Transition_start_Transition. Qed.

Lemma cancel_with_Transition (env : Env) (w : World) :
  cancel env w = cancel_with env (Transition env) w.
Proof. unfold cancel, cancel_with. now rewrite Transition_cancel_Transition. Qed.

(** ** The theorems at the slider of the test suite *)

Lemma move_with_contract_witness :
  let w' := move_with slider (Transition slider) 1 1 (-1) None created in
  (waiting w' = negb (1 =? 1)%Z || waitForTransition (options slider)
   /\ state w' = MOVING
   /\ log w' = log created ++ [Emit (EVENT_MOVE 1 (-1) 1); TransitionStart 1])
  \/ (waiting w' = false /\ state w' = IDLE
      /\ exists rest,
           log w' = log created ++ Emit (EVENT_MOVE 1 (-1) 1) :: TransitionStart 1
                                :: Emit (EVENT_MOVED 1 (-1) 1) :: rest).
Proof.
  apply (move_with_contract slider (Transition slider) 1 1 (-1) None created).
  reflexivity.
Defined.

(** A transition of one's own that completes at once without moving the
    list honours the contract too. *)
Definition Instant (env : Env) : TransitionComponent.t := {|
  TransitionComponent.start := fun dest done w => move_done env done w;
  TransitionComponent.cancel := fun w => w
|}.

#[export] Instance Instant_Contract (env : Env) : Contract env (Instant env).
Proof. split; [|reflexivity]. intros dest done w. right. now exists w. Qed.
