(* ===== verification/Equiv.v ===== *)
(** * Equiv: worlds up to the representation of numbers

    Positions are rationals compared with [==]: two worlds that differ
    only in how a number is written (1/2 or 2/4, [p] or [p - 0]) are the
    same slider.  [World_eq] is that equivalence; every handler is
    compatible with it ([Proper]), so it is a bisimulation of the
    transition system, and no observation of the component tells
    equivalent worlds apart. *)

From S2P Require Import Prelude Utils Env Position Loop Motion.

Local Open Scope Q_scope.
Local Open Scope js_scope.

(** ** The equivalences *)

Definition rule_eq (r r' : option (Axis * Q)) : Prop :=
  match r, r' with
  | Some (a, q), Some (a', q') => a = a' /\ q == q'
  | None, None => True
  | _, _ => False
  end.

Record Dom_eq (d d' : Dom) : Prop := {
  eq_trackEdge : trackEdge d == trackEdge d';
  eq_rendered : rendered d == rendered d';
  eq_transformRule : rule_eq (transformRule d) (transformRule d');
  eq_transitionRule : transitionRule d = transitionRule d'
}.

Record Done_eq (c c' : Done) : Prop := {
  eq_done_dest : done_dest c = done_dest c';
  eq_done_index : done_index c = done_index c';
  eq_done_prev : done_prev c = done_prev c';
  eq_done_position : done_position c == done_position c';
  eq_done_callback : done_callback c = done_callback c'
}.

Definition pending_eq (c c' : option Done) : Prop :=
  match c, c' with
  | Some c, Some c' => Done_eq c c'
  | None, None => True
  | _, _ => False
  end.

Record World_eq (w w' : World) : Prop := {
  eq_waiting : waiting w = waiting w';
  eq_state : state w = state w';
  eq_index : index w = index w';
  eq_dom : Dom_eq (dom w) (dom w');
  eq_endCallback : pending_eq (endCallback w) (endCallback w');
  eq_ticks : Forall2 Done_eq (ticks w) (ticks w');
  eq_listening : listening w = listening w';
  eq_log : log w = log w'
}.

Declare Scope world_scope.
Delimit Scope world_scope with world.
Infix "=~=" := World_eq (at level 70, no associativity) : world_scope.
Local Open Scope world_scope.

#[export] Instance rule_eq_Equivalence : Equivalence rule_eq.
Proof.
  split.
  - intros [[a q]|]; simpl; [split; reflexivity | exact I].
  - intros [[a q]|] [[a' q']|]; simpl; try easy; intros [-> H]; now split.
  - intros [[a q]|] [[a' q']|] [[a'' q'']|]; simpl; try easy;
      intros [-> H] [-> H']; split; [reflexivity | now rewrite H].
Qed.

#[export] Instance Dom_eq_Equivalence : Equivalence Dom_eq.
Proof.
  split.
  - intros d. split; reflexivity.
  - intros d d' [H1 H2 H3 H4]. split; now symmetry.
  - intros d d' d'' [H1 H2 H3 H4] [H1' H2' H3' H4']. split; etransitivity; eassumption.
Qed.

#[export] Instance Done_eq_Equivalence : Equivalence Done_eq.
Proof.
  split.
  - intros c. split; reflexivity.
  - intros c c' [H1 H2 H3 H4 H5]. split; now symmetry.
  - intros c c' c'' [H1 H2 H3 H4 H5] [H1' H2' H3' H4' H5'].
    split; etransitivity; eassumption.
Qed.

#[export] Instance pending_eq_Equivalence : Equivalence pending_eq.
Proof.
  split.
  - intros [c|]; simpl; [reflexivity | exact I].
  - intros [c|] [c'|]; simpl; try easy; intros H; now symmetry.
  - intros [c|] [c'|] [c''|]; simpl; try easy; intros H H'; now rewrite H.
Qed.

#[export] Instance ticks_eq_Equivalence : Equivalence (Forall2 Done_eq).
Proof.
  split.
  - intros l. induction l; constructor; [reflexivity | assumption].
  - intros l l' H. induction H; constructor; [now symmetry | assumption].
  - intros l l' l'' H. revert l''. induction H; intros l'' H'; inversion H'; subst;
      constructor; [etransitivity; eassumption | auto].
Qed.

#[export] Instance World_eq_Equivalence : Equivalence World_eq.
Proof.
  split.
  - intros w. split; reflexivity.
  - intros w w' [H1 H2 H3 H4 H5 H6 H7 H8]. split; now symmetry.
  - intros w w' w'' [H1 H2 H3 H4 H5 H6 H7 H8] [H1' H2' H3' H4' H5' H6' H7' H8'].
    split; etransitivity; eassumption.
Qed.

(** ** Reading the DOM *)

#[export] Instance getPosition_Proper (env : Env) :
  Proper (Dom_eq ==> Qeq) (getPosition env).
Proof. intros d d' H. rewrite !getPosition_rendered. apply H. Qed.

(** With a position given, [exceededLimit] does not read the DOM. *)
Lemma exceededLimit_given (env : Env) (d d' : Dom) (max : option bool) (p : Q) :
  exceededLimit env d max (Some p) = exceededLimit env d' max (Some p).
Proof. reflexivity. Qed.

(** [loop] reads the DOM through [getPosition] only. *)
Lemma loop_dom (env : Env) (waiting : bool) (d d' : Dom) (p : Q) :
  Dom_eq d d' -> loop env waiting d p == loop env waiting d' p.
Proof.
  intros H. unfold loop.
  destruct (negb waiting && Splide_is (options env) LOOP); [|reflexivity].
  cbv zeta.
  rewrite (exceededLimit_given env d d' (Some false)),
          (exceededLimit_given env d d' (Some true)).
  assert (orient (options env) (p - getPosition env d)
          == orient (options env) (p - getPosition env d')) as E by now rewrite H.
  assert ((orient (options env) (p - getPosition env d) <? 0)
          = (orient (options env) (p - getPosition env d') <? 0)) as -> by now rewrite E.
  assert ((orient (options env) (p - getPosition env d) >? 0)
          = (orient (options env) (p - getPosition env d') >? 0)) as -> by now rewrite E.
  reflexivity.
Qed.

#[export] Instance loop_Proper_dom (env : Env) :
  Proper (eq ==> Dom_eq ==> Qeq ==> Qeq) (loop env).
Proof.
  intros b ? <- d d' Hd p p' Hp. rewrite (loop_dom env b d d' p Hd).
  now apply loop_Proper.
Qed.

(** ** Writing the DOM *)

#[export] Instance ruleBy_transform_Proper (env : Env) :
  Proper (Qeq ==> Dom_eq ==> Dom_eq) (ruleBy_transform env).
Proof.
  intros p p' Hp d d' [H1 H2 H3 H4]. split; cbn; auto.
  rewrite H4. now destruct (transitionRule d').
Qed.

#[export] Instance ruleBy_transition_Proper (on : bool) :
  Proper (Dom_eq ==> Dom_eq) (ruleBy_transition on).
Proof.
  intros d d' [H1 H2 H3 H4]. split; cbn; auto.
  destruct on; [exact H2|].
  destruct (transformRule d) as [[a q]|], (transformRule d') as [[a' q']|];
    simpl in H3; try easy; apply H3.
Qed.

#[export] Instance paint_Proper : Proper (Qeq ==> Dom_eq ==> Dom_eq) paint.
Proof. intros p p' Hp d d' [H1 H2 H3 H4]. split; cbn; auto. Qed.

(** ** Updates of single fields *)

#[export] Instance set_waiting_Proper : Proper (eq ==> World_eq ==> World_eq) set_waiting.
Proof. intros b ? <- w w' []. split; cbn; auto. Qed.

#[export] Instance set_state_Proper : Proper (eq ==> World_eq ==> World_eq) set_state.
Proof. intros b ? <- w w' []. split; cbn; auto. Qed.

#[export] Instance set_index_Proper : Proper (eq ==> World_eq ==> World_eq) set_index.
Proof. intros b ? <- w w' []. split; cbn; auto. Qed.

#[export] Instance set_dom_Proper : Proper (Dom_eq ==> World_eq ==> World_eq) set_dom.
Proof. intros d d' Hd w w' []. split; cbn; auto. Qed.

#[export] Instance set_endCallback_Proper :
  Proper (pending_eq ==> World_eq ==> World_eq) set_endCallback.
Proof. intros c c' Hc w w' []. split; cbn; auto. Qed.

#[export] Instance set_ticks_Proper :
  Proper (Forall2 Done_eq ==> World_eq ==> World_eq) set_ticks.
Proof. intros c c' Hc w w' []. split; cbn; auto. Qed.

#[export] Instance set_listening_Proper :
  Proper (eq ==> World_eq ==> World_eq) set_listening.
Proof. intros b ? <- w w' []. split; cbn; auto. Qed.

#[export] Instance logged_Proper : Proper (eq ==> World_eq ==> World_eq) logged.
Proof. intros e ? <- w w' []. split; cbn; auto. now f_equal. Qed.

#[export] Instance emit_Proper : Proper (eq ==> World_eq ==> World_eq) emit.
Proof. intros e ? <- w w' H. unfold emit. now rewrite H. Qed.

(** ** The handlers *)

Section Handlers.
Variable env : Env.

#[export] Instance isBusy_Proper : Proper (World_eq ==> eq) isBusy.
Proof. intros w w' H. apply H. Qed.

#[export] Instance translate_Proper :
  Proper (Qeq ==> eq ==> World_eq ==> World_eq) (translate env).
Proof.
  intros p p' Hp b ? <- w w' Hw. unfold translate.
  apply set_dom_Proper; [|exact Hw].
  apply ruleBy_transform_Proper; [|apply Hw].
  destruct b; [exact Hp|].
  apply loop_Proper_dom; [apply Hw | apply Hw | exact Hp].
Qed.

#[export] Instance jump_Proper : Proper (eq ==> World_eq ==> World_eq) (jump env).
Proof. intros i ? <- w w' Hw. unfold jump. now apply translate_Proper. Qed.

#[export] Instance move_done_Proper :
  Proper (Done_eq ==> World_eq ==> World_eq) (move_done env).
Proof.
  intros c c' [H1 H2 H3 H4 H5] w w' Hw. unfold move_done.
  rewrite <- H1, <- H2, <- H3, <- H5.
  set (w1 := if negb _ then _ else w). set (w1' := if negb _ then _ else w').
  assert (w1 =~= w1') as Hw1
    by (subst w1 w1'; destruct (negb _); [now apply jump_Proper | exact Hw]).
  set (w2 := emit _ _). set (w2' := emit _ _).
  assert (w2 =~= w2') as Hw2 by (subst w2 w2'; now rewrite Hw1).
  assert ((done_position c =? getPosition env (dom w2))
          = (done_position c' =? getPosition env (dom w2'))) as ->
    by (rewrite H4; now rewrite (eq_dom _ _ Hw2)).
  destruct (_ && _ && _); [now rewrite Hw2|].
  destruct (done_callback c); [now rewrite Hw2 | exact Hw2].
Qed.

#[export] Instance Transition_cancel_Proper :
  Proper (World_eq ==> World_eq) (Transition_cancel env).
Proof.
  intros w w' Hw. unfold Transition_cancel.
  destruct (Splide_is (options env) FADE); [exact Hw|].
  apply set_dom_Proper; [|exact Hw]. apply ruleBy_transition_Proper. apply Hw.
Qed.

#[export] Instance Transition_start_Proper :
  Proper (eq ==> Done_eq ==> World_eq ==> World_eq) (Transition_start env).
Proof.
  intros dest ? <- c c' Hc w w' Hw. unfold Transition_start.
  destruct (Splide_is (options env) FADE).
  - apply set_ticks_Proper; [|exact Hw].
    apply Forall2_app; [apply Hw | now constructor].
  - assert ((1 <=? abs (toPosition env dest true - getPosition env (dom w)))
            = (1 <=? abs (toPosition env dest true - getPosition env (dom w')))) as ->
      by now rewrite (eq_dom _ _ Hw).
    destruct (_ && _).
    + apply set_endCallback_Proper; [exact Hc|].
      apply translate_Proper; [reflexivity | reflexivity |].
      apply set_dom_Proper; [|exact Hw]. apply ruleBy_transition_Proper. apply Hw.
    + apply move_done_Proper; [exact Hc|]. now apply jump_Proper.
Qed.

#[export] Instance transitionend_Proper :
  Proper (World_eq ==> World_eq) (transitionend env).
Proof.
  intros w w' Hw. unfold transitionend. pose proof (eq_endCallback _ _ Hw) as Hc.
  destruct (endCallback w), (endCallback w'); simpl in Hc; try easy.
  apply move_done_Proper; [exact Hc | now apply Transition_cancel_Proper].
Qed.

#[export] Instance tick_Proper : Proper (World_eq ==> World_eq) (tick env).
Proof.
  intros w w' Hw. unfold tick. pose proof (eq_ticks _ _ Hw) as Ht.
  destruct Ht as [|c c' rest rest' Hc Hrest]; [exact Hw|].
  apply move_done_Proper; [exact Hc|]. now apply set_ticks_Proper.
Qed.

#[export] Instance move_Proper (dest i prev : Z) (cb : option Callback) :
  Proper (World_eq ==> World_eq) (move env dest i prev cb).
Proof.
  intros w w' Hw. unfold move. rewrite (isBusy_Proper _ _ Hw).
  destruct (negb (isBusy w')); [|exact Hw].
  apply Transition_start_Proper; [reflexivity | |].
  - split; cbn; try reflexivity. now rewrite (eq_dom _ _ Hw).
  - now rewrite Hw.
Qed.

#[export] Instance cancel_Proper : Proper (World_eq ==> World_eq) (cancel env).
Proof.
  intros w w' Hw. unfold cancel.
  set (w1 := Transition_cancel env _). set (w1' := Transition_cancel env _).
  assert (w1 =~= w1') as H1 by (subst w1 w1'; now rewrite Hw).
  apply translate_Proper; [now rewrite (eq_dom _ _ H1) | reflexivity | exact H1].
Qed.

#[export] Instance reposition_Proper : Proper (World_eq ==> World_eq) (reposition env).
Proof.
  intros w w' Hw. unfold reposition. cbn [index logged].
  rewrite (eq_index _ _ Hw). now rewrite Hw.
Qed.

#[export] Instance mount_Proper : Proper (World_eq ==> World_eq) (mount env).
Proof. intros w w' Hw. unfold mount. destruct (negb _); now rewrite Hw. Qed.

#[export] Instance perform_Proper : Proper (eq ==> World_eq ==> World_eq) (perform env).
Proof.
  intros l ? <- w w' Hw. destruct l; cbn [perform]; try now rewrite Hw.
  apply set_dom_Proper; [|exact Hw]. apply paint_Proper; [reflexivity | apply Hw].
Qed.

#[export] Instance enabled_Proper : Proper (eq ==> World_eq ==> eq) (enabled env).
Proof.
  intros l ? <- w w' Hw. destruct l; cbn [enabled]; try reflexivity;
    try apply Hw; try apply (eq_dom _ _ Hw).
  pose proof (eq_ticks _ _ Hw) as Ht. now destruct Ht.
Qed.

End Handlers.

(** ** Theorems *)

Lemma step_Proper (env : Env) (w1 w2 w1' : World) (l : Label) :
  w1 =~= w2 -> step env w1 l w1' ->
  step env w2 l (perform env l w2) /\ w1' =~= perform env l w2.
Proof.
  intros Hw Hs. destruct Hs as [w1 l He]. split.
  - constructor. now rewrite <- Hw.
  - now rewrite Hw.
Qed.

(** [World_eq] is a bisimulation: from equivalent worlds the same
    labels are enabled and lead to equivalent worlds, so no run tells two
    writings of the same numbers apart. *)
Theorem World_eq_bisimulation (env : Env) (w1 w2 w1' : World) (ls : list Label) :
  w1 =~= w2 -> run env w1 ls w1' ->
  exists w2', run env w2 ls w2' /\ w1' =~= w2'.
Proof.
  intros Hw Hr. revert w2 Hw.
  induction Hr as [w|w w' w'' l ls Hs _ IH]; intros w2 Hw.
  - exists w2. split; [constructor | exact Hw].
  - destruct (step_Proper env w w2 w' l Hw Hs) as [Hs2 Hw'].
    destruct (IH _ Hw') as (w2' & Hr2 & Hw'').
    exists w2'. split; [econstructor; eassumption | exact Hw''].
Qed.

(** ** [cancel] as a settle *)

(** Re-asserting the current position writes a rule with the position
    displayed as its target, and displays the list there. *)
Lemma settle_dom (env : Env) (w : World) :
  let d := dom (translate env (getPosition env (dom w)) false w) in
  trackEdge d = trackEdge (dom w)
  /\ rendered d == rendered (dom w)
  /\ (exists v, transformRule d = Some (resolveX (options env), v)
                 /\ v == rendered (dom w))
  /\ transitionRule d = transitionRule (dom w).
Proof.
  assert (loop env (waiting w) (dom w) (getPosition env (dom w)) == rendered (dom w)) as E.
  { rewrite loop_current by apply getPosition_rendered. apply getPosition_rendered. }
  unfold translate. cbn. repeat split; eauto.
  now destruct (transitionRule (dom w)).
Qed.

(** The world [cancel] re-asserts the position in. *)
Definition cancelling (env : Env) (w : World) : World :=
  Transition_cancel env (logged TransitionCancel (set_waiting false w)).

Lemma cancel_cancelling (env : Env) (w : World) :
  cancel env w
  = translate env (getPosition env (dom (cancelling env w))) false (cancelling env w).
Proof. reflexivity. Qed.

(** After a settle the Transition component has nothing left to cancel. *)
Lemma cancelling_settled (env : Env) (w : World) (v : Q) :
  transformRule (dom w) = Some (resolveX (options env), v) ->
  v == rendered (dom w) ->
  (Splide_is (options env) FADE = false -> transitionRule (dom w) = false) ->
  Dom_eq (dom (cancelling env w)) (dom w).
Proof.
  intros Hr Hv Ht. unfold cancelling, Transition_cancel.
  destruct (Splide_is (options env) FADE); [reflexivity|].
  split; cbn; rewrite ?Hr; try reflexivity; [exact Hv | symmetry; now apply Ht].
Qed.

Lemma cancel_settled (env : Env) (w : World) :
  Dom_eq (dom (cancel env (cancel env w))) (dom (cancel env w)).
Proof.
  rewrite (cancel_cancelling env (cancel env w)).
  destruct (settle_dom env (cancelling env (cancel env w)))
    as (H1 & H2 & (v & H3 & Hv) & H4).
  destruct (settle_dom env (cancelling env w)) as (G1 & G2 & (u & G3 & Gu) & G4).
  rewrite <- cancel_cancelling in G1, G2, G3, G4.
  assert (Dom_eq (dom (cancelling env (cancel env w))) (dom (cancel env w))) as E.
  { apply (cancelling_settled env (cancel env w) u G3); [now rewrite Gu, G2|].
    intros Hf. rewrite G4. unfold cancelling, Transition_cancel. now rewrite Hf. }
  split.
  - rewrite H1. apply E.
  - rewrite H2. apply E.
  - rewrite H3, G3. split; [reflexivity|]. rewrite Hv, Gu, <- G2. apply E.
  - rewrite H4. apply E.
Qed.

(** [cancel] is an idempotent settle: a second [cancel] changes
    nothing but the log, in which the call of the Transition component is
    recorded again. *)
Theorem cancel_idempotent (env : Env) (w : World) :
  cancel env (cancel env w) =~= logged TransitionCancel (cancel env w).
Proof.
  split; try exact (cancel_settled env w);
    unfold cancel, Transition_cancel, translate;
    destruct (Splide_is (options env) FADE); cbn; try reflexivity;
    match goal with
    | |- pending_eq ?c ?c => reflexivity
    | |- Forall2 Done_eq ?l ?l => reflexivity
    end.
Qed.

(** ** The theorems at the sliders of the test suite *)

(** The moving slider of the tests at a frame halfway through the first
    pixel, the position written in two ways. *)
Definition halfway (q : Q) : World := set_dom (paint q (dom moving)) moving.

Lemma halfway_equiv : halfway (-1 # 2) =~= halfway (-2 # 4).
Proof. split; try reflexivity. split; reflexivity. Qed.

Lemma World_eq_bisimulation_witness :
  exists w2', run slider (halfway (-2 # 4)) [LCancel] w2'
              /\ cancel slider (halfway (-1 # 2)) =~= w2'.
Proof.
  apply (World_eq_bisimulation slider _ _ _ [LCancel] halfway_equiv).
  eapply run_cons; [|apply run_nil].
  exact (step_apply slider (halfway (-1 # 2)) LCancel eq_refl).
Defined.

(** The two are different worlds. *)
Example halfway_differ : halfway (-1 # 2) <> halfway (-2 # 4).
Proof. intros H. apply (f_equal (fun w => Qden (rendered (dom w)))) in H. discriminate. Qed.
