(* ===== verification/Directions.v ===== *)
(** * Directions: the same slider in another direction

    Move.ts is written once for all directions: every offset goes through
    [orient], which turns "towards higher indices" into a sign, and every
    rule through [resolve], which names the axis.  This file shows that
    the two are used consistently.  The slider with the direction [dir]
    is the image of the same slider with [direction: 'ltr']: its
    positions are those of the left-to-right slider times the sign
    [sgn dir] (-1 for right-to-left, 1 for top-to-bottom) on the axis
    [axis_of dir] ([toPosition_toward], [getLimit_toward],
    [loop_toward]); indices, limit tests and the busy flag are the same
    ([toIndex_toward], [exceededLimit_toward]); every handler commutes
    with the map [image] of the world ([perform_toward]), so the runs of
    one slider are the images of the runs of the other
    ([directions_agree]).  What is proved of one direction holds of the
    others. *)

From S2P Require Import Prelude Utils Env Position Loop Motion Equiv.

Local Open Scope Q_scope.
Local Open Scope js_scope.
Local Open Scope world_scope.

(** ** The slider in another direction and the image of a world *)

Definition with_direction (dir : Direction) (o : Options) : Options := {|
  type := type o; waitForTransition := waitForTransition o;
  trimSpace := trimSpace o; focus := focus o; direction := dir; speed := speed o
|}.

(** The same slider with [direction: dir]. *)
Definition toward (dir : Direction) (env : Env) : Env := {|
  options := with_direction dir (options env);
  layout := layout env;
  Slides := Slides env;
  getEnd := getEnd env
|}.

(** The same slider with [direction: 'rtl']. *)
Definition rtl (env : Env) : Env := toward RTL env.

(** The sign of a direction against left-to-right, and its axis. *)
Definition sgn (dir : Direction) : Q := match dir with RTL => -1 | _ => 1 end.

Definition axis_of (dir : Direction) : Axis := match dir with TTB => Y | _ => X end.

Section Image.
Variable dir : Direction.

Definition image_rule (r : option (Axis * Q)) : option (Axis * Q) :=
  option_map (fun r => (axis_of dir, sgn dir * snd r)) r.

Definition image_dom (d : Dom) : Dom := {|
  trackEdge := trackEdge d;
  rendered := sgn dir * rendered d;
  transformRule := image_rule (transformRule d);
  transitionRule := transitionRule d
|}.

Definition image_done (c : Done) : Done := {|
  done_dest := done_dest c; done_index := done_index c; done_prev := done_prev c;
  done_position := sgn dir * done_position c; done_callback := done_callback c
|}.

(** The world in the other direction: every position is multiplied by
    the sign and every rule is on the axis of the direction. *)
Definition image (w : World) : World := {|
  waiting := waiting w; state := state w; index := index w;
  dom := image_dom (dom w);
  endCallback := option_map image_done (endCallback w);
  ticks := map image_done (ticks w);
  listening := listening w;
  log := log w
|}.

(** A call in the other direction. *)
Definition image_label (l : Label) : Label :=
  match l with
  | LTranslate position preventLoop => LTranslate (sgn dir * position) preventLoop
  | LFrame q => LFrame (sgn dir * q)
  | _ => l
  end.

(** ** Numbers *)

Lemma sgn_cases : sgn dir = 1 \/ sgn dir = -1.
Proof. destruct dir; auto. Qed.

Lemma sgn_sgn (x : Q) : sgn dir * (sgn dir * x) == x.
Proof. destruct sgn_cases as [-> | ->]; ring. Qed.

Lemma sign_sgn (x : Q) : sign (sgn dir * x) == sgn dir * sign x.
Proof.
  destruct sgn_cases as [-> | ->].
  - now rewrite !Qmult_1_l.
  - destruct (sign_cases x) as [[H ->]|[[H ->]|[H ->]]],
             (sign_cases (-1 * x)) as [[H' ->]|[[H' ->]|[H' ->]]]; lra.
Qed.

Lemma abs_sgn (x : Q) : abs (sgn dir * x) == abs x.
Proof.
  destruct sgn_cases as [-> | ->]; [now rewrite Qmult_1_l|].
  unfold abs. rewrite <- (Qabs_opp x). apply Qabs_wd. ring.
Qed.

Lemma clamp_sgn (n y : Q) : clamp (sgn dir * n) 0 (sgn dir * y) == sgn dir * clamp n 0 y.
Proof. destruct sgn_cases as [-> | ->]; unfold clamp; qminmax; lra. Qed.

Lemma Qeqb_sgn (x y : Q) : (sgn dir * x =? sgn dir * y) = (x =? y).
Proof.
  destruct (Qeqb_spec (sgn dir * x) (sgn dir * y)) as [H|H], (Qeqb_spec x y) as [H'|H'];
    auto; exfalso; destruct sgn_cases as [E | E]; rewrite E in H; lra.
Qed.

(** ** The image respects the equivalence of worlds *)

Lemma image_rule_eq (r r' : option (Axis * Q)) :
  rule_eq r r' -> rule_eq (image_rule r) (image_rule r').
Proof.
  destruct r as [[a q]|], r' as [[a' q']|]; cbn; try easy.
  intros [_ H]. split; [reflexivity | now rewrite H].
Qed.

#[export] Instance image_dom_Proper : Proper (Dom_eq ==> Dom_eq) image_dom.
Proof.
  intros d d' [H1 H2 H3 H4]. split; cbn; auto using image_rule_eq. now rewrite H2.
Qed.

#[export] Instance image_done_Proper : Proper (Done_eq ==> Done_eq) image_done.
Proof. intros c c' [H1 H2 H3 H4 H5]. split; cbn; auto. now rewrite H4. Qed.

#[export] Instance image_Proper : Proper (World_eq ==> World_eq) image.
Proof.
  intros w w' [H1 H2 H3 H4 H5 H6 H7 H8]. split; cbn; auto.
  - now apply image_dom_Proper.
  - destruct (endCallback w), (endCallback w'); cbn in *; try easy.
    now apply image_done_Proper.
  - induction H6; constructor; [now apply image_done_Proper | assumption].
Qed.

Lemma image_created : created =~= image created.
Proof.
  split; cbn; try reflexivity. split; cbn; try reflexivity.
  destruct sgn_cases as [-> | ->]; reflexivity.
Qed.

(** ** Positions *)

Section Positions.
Variable env : Env.
Hypothesis Hltr : direction (options env) = LTR.

Let env' : Env := toward dir env.

Lemma orient_toward (v : Q) : orient (options env') v == sgn dir * orient (options env) v.
Proof. unfold orient. cbn. rewrite Hltr. destruct dir; cbn; ring. Qed.

(** The orientation of an image is the orientation of what it is the
    image of. *)
Lemma orient_image (v : Q) : orient (options env') (sgn dir * v) == orient (options env) v.
Proof.
  rewrite orient_toward. unfold orient. rewrite Hltr.
  destruct sgn_cases as [-> | ->]; ring.
Qed.

Lemma trim_toward (p : Q) : trim env' (sgn dir * p) == sgn dir * trim env p.
Proof.
  unfold trim.
  change (trimSpace_truthy (options env') && Splide_is (options env') SLIDE)
    with (trimSpace_truthy (options env) && Splide_is (options env) SLIDE).
  destruct (trimSpace_truthy (options env) && Splide_is (options env) SLIDE); [|reflexivity].
  rewrite orient_toward. change (layout env') with (layout env). apply clamp_sgn.
Qed.

Lemma toPosition_toward (i : Z) (trimming : bool) :
  toPosition env' i trimming == sgn dir * toPosition env i trimming.
Proof.
  unfold toPosition. change (offset env' i) with (offset env i).
  change (layout env') with (layout env).
  destruct trimming; rewrite orient_toward; [apply trim_toward | reflexivity].
Qed.

Lemma getPosition_toward (d : Dom) :
  getPosition env' (image_dom d) == sgn dir * getPosition env d.
Proof. rewrite !getPosition_rendered. reflexivity. Qed.

Lemma getLimit_toward (max : bool) : getLimit env' max == sgn dir * getLimit env max.
Proof. unfold getLimit. apply toPosition_toward. Qed.

Lemma exceededLimit_given_toward (d d' : Dom) (max : option bool) (p : Q) :
  exceededLimit env' d' max (Some (sgn dir * p)) = exceededLimit env d max (Some p).
Proof.
  unfold exceededLimit. now rewrite !getLimit_toward, !orient_image.
Qed.

Lemma exceededLimit_toward (d : Dom) (max : option bool) :
  exceededLimit env' (image_dom d) max None = exceededLimit env d max None.
Proof. rewrite !exceededLimit_default. apply exceededLimit_given_toward. Qed.

Lemma distance_toward (i : Z) (x : Q) :
  abs (toPosition env' i true - sgn dir * x) == abs (toPosition env i true - x).
Proof.
  rewrite toPosition_toward, <- (abs_sgn (toPosition env i true - x)).
  apply abs_Proper. ring.
Qed.

Lemma toIndex_scan_toward (x : Q) (slides : list Z) : forall index m,
  toIndex_scan (fun i => toPosition env' i true) (sgn dir * x) slides index m
  = toIndex_scan (fun i => toPosition env i true) x slides index m.
Proof.
  induction slides as [|s rest IH]; intros index m; [reflexivity|]. cbn [toIndex_scan].
  pose proof (distance_toward s x) as E. rewrite E.
  destruct (lt_minDistance _ m); [|reflexivity].
  etransitivity; [apply (toIndex_scan_ext _ (sgn dir * x) (sgn dir * x))|apply IH];
    [reflexivity | exact E].
Qed.

Lemma toIndex_toward (x : Q) : toIndex env' (sgn dir * x) = toIndex env x.
Proof. apply toIndex_scan_toward. Qed.

Lemma loop_toward (waiting : bool) (d : Dom) (p : Q) :
  loop env' waiting (image_dom d) (sgn dir * p) == sgn dir * loop env waiting d p.
Proof.
  unfold loop.
  change (Splide_is (options env') LOOP) with (Splide_is (options env) LOOP).
  destruct (negb waiting && Splide_is (options env) LOOP); [|reflexivity].
  cbv zeta. rewrite !(exceededLimit_given_toward d (image_dom d)).
  assert (Ed : orient (options env') (sgn dir * p - getPosition env' (image_dom d))
               == orient (options env) (p - getPosition env d)).
  { rewrite <- orient_image, getPosition_toward. apply orient_Proper. ring. }
  assert ((orient (options env') (sgn dir * p - getPosition env' (image_dom d)) <? 0)
          = (orient (options env) (p - getPosition env d) <? 0)) as -> by now rewrite Ed.
  assert ((orient (options env') (sgn dir * p - getPosition env' (image_dom d)) >? 0)
          = (orient (options env) (p - getPosition env d) >? 0)) as -> by now rewrite Ed.
  destruct (_ && _ || _ && _); [|reflexivity].
  change (layout env') with (layout env). rewrite getLimit_toward.
  set (limit := getLimit env _).
  assert (Ee : sgn dir * p - sgn dir * limit == sgn dir * (p - limit)) by ring.
  rewrite Ee, sign_sgn, abs_sgn. ring.
Qed.

End Positions.

End Image.

(** ** The handlers commute with the image *)

Section Handlers.
Variable dir : Direction.
Variable env : Env.
Hypothesis Hltr : direction (options env) = LTR.

Local Abbreviation env' := (toward dir env).
Local Abbreviation s := (sgn dir).
Local Abbreviation img := (image dir).

Lemma ruleBy_transform_toward (p : Q) (d : Dom) :
  Dom_eq (ruleBy_transform env' (s * p) (image_dom dir d))
         (image_dom dir (ruleBy_transform env p d)).
Proof.
  split; cbn; try reflexivity.
  - now destruct (transitionRule d).
  - split; [now destruct dir | reflexivity].
Qed.

Lemma ruleBy_transition_toward (on : bool) (d : Dom) :
  Dom_eq (ruleBy_transition on (image_dom dir d)) (image_dom dir (ruleBy_transition on d)).
Proof.
  split; cbn; try reflexivity.
  destruct on, (transformRule d) as [[a q]|]; reflexivity.
Qed.

Lemma translate_toward (p : Q) (b : bool) (w : World) :
  translate env' (s * p) b (img w) =~= img (translate env p b w).
Proof.
  unfold translate. split; cbn [waiting state index dom endCallback ticks listening log
                                set_dom img image]; try reflexivity.
  etransitivity; [|apply ruleBy_transform_toward].
  apply ruleBy_transform_Proper; [|reflexivity].
  destruct b; [reflexivity | now apply loop_toward].
Qed.

Lemma jump_toward (i : Z) (w : World) : jump env' i (img w) =~= img (jump env i w).
Proof. unfold jump. rewrite (toPosition_toward dir env Hltr). apply translate_toward. Qed.

(** [image] goes through the updates of the other fields as it is. *)
Lemma image_ended (e : Event) (w1 w1' : World) :
  w1' =~= img w1 ->
  emit e (set_state IDLE (set_waiting false w1'))
  =~= img (emit e (set_state IDLE (set_waiting false w1))).
Proof. intros H. rewrite H. split; reflexivity. Qed.

Lemma move_done_toward (c : Done) (w : World) :
  move_done env' (image_done dir c) (img w) =~= img (move_done env c w).
Proof.
  unfold move_done.
  cbn [done_dest done_index done_prev done_callback done_position image_done].
  change (trimSpace_is_move (options env')) with (trimSpace_is_move (options env)).
  set (w1 := if negb _ then jump env _ w else w).
  set (w1' := if negb _ then jump env' _ (img w) else img w).
  assert (H1 : w1' =~= img w1)
    by (subst w1 w1'; destruct (negb _); [apply jump_toward | reflexivity]).
  pose proof (image_ended (EVENT_MOVED (done_index c) (done_prev c) (done_dest c)) _ _ H1)
    as H2.
  set (w2 := emit _ (set_state IDLE (set_waiting false w1))) in *.
  set (w2' := emit _ (set_state IDLE (set_waiting false w1'))) in *.
  assert ((sgn dir * done_position c =? getPosition env' (dom w2'))
          = (done_position c =? getPosition env (dom w2))) as ->.
  { rewrite (eq_dom _ _ H2). cbn [dom img image].
    rewrite (getPosition_toward dir env). apply Qeqb_sgn. }
  destruct (_ && _ && _); [rewrite H2; split; reflexivity|].
  destruct (done_callback c); [rewrite H2; split; reflexivity | exact H2].
Qed.

Lemma Transition_cancel_toward (w : World) :
  Transition_cancel env' (img w) =~= img (Transition_cancel env w).
Proof.
  unfold Transition_cancel.
  change (Splide_is (options env') FADE) with (Splide_is (options env) FADE).
  destruct (Splide_is (options env) FADE); [reflexivity|].
  split; cbn [waiting state index dom endCallback ticks listening log set_dom img image];
    try reflexivity.
  apply ruleBy_transition_toward.
Qed.

Lemma animates_toward (dest : Z) (w : World) :
  (1 <=? abs (toPosition env' dest true - getPosition env' (dom (img w))))
  = (1 <=? abs (toPosition env dest true - getPosition env (dom w))).
Proof.
  cbn [dom img image]. rewrite (getPosition_toward dir env).
  now rewrite (distance_toward dir env Hltr).
Qed.

Lemma Transition_start_toward (dest : Z) (c : Done) (w : World) :
  Transition_start env' dest (image_done dir c) (img w)
  =~= img (Transition_start env dest c w).
Proof.
  unfold Transition_start.
  change (Splide_is (options env') FADE) with (Splide_is (options env) FADE).
  change (speed (options env')) with (speed (options env)).
  destruct (Splide_is (options env) FADE).
  - split; cbn; try reflexivity. rewrite map_app. reflexivity.
  - rewrite animates_toward. destruct (_ && _).
    + rewrite (toPosition_toward dir env Hltr).
      assert (E : set_dom (ruleBy_transition true (dom (img w))) (img w)
                  =~= img (set_dom (ruleBy_transition true (dom w)) w))
        by (split; cbn; try reflexivity; apply ruleBy_transition_toward).
      rewrite E, translate_toward. split; reflexivity.
    + rewrite jump_toward. apply move_done_toward.
Qed.

Lemma transitionend_toward (w : World) :
  transitionend env' (img w) =~= img (transitionend env w).
Proof.
  unfold transitionend. cbn [endCallback img image].
  destruct (endCallback w) as [c|]; cbn [option_map]; [|reflexivity].
  rewrite Transition_cancel_toward. apply move_done_toward.
Qed.

Lemma tick_toward (w : World) : tick env' (img w) =~= img (tick env w).
Proof.
  unfold tick. cbn [ticks img image].
  destruct (ticks w) as [|c rest]; cbn [map]; [reflexivity|].
  exact (move_done_toward c (set_ticks rest w)).
Qed.

Lemma move_toward (dest i prev : Z) (cb : option Callback) (w : World) :
  move env' dest i prev cb (img w) =~= img (move env dest i prev cb w).
Proof.
  unfold move. change (isBusy (img w)) with (isBusy w).
  destruct (negb (isBusy w)); [|reflexivity].
  change (waitForTransition (options env')) with (waitForTransition (options env)).
  etransitivity; [|apply Transition_start_toward].
  apply Transition_start_Proper; [reflexivity | | split; reflexivity].
  split; cbn; try reflexivity. apply (getPosition_toward dir env).
Qed.

Lemma cancel_toward (w : World) : cancel env' (img w) =~= img (cancel env w).
Proof.
  unfold cancel.
  set (w1 := Transition_cancel env (logged TransitionCancel (set_waiting false w))).
  set (w1' := Transition_cancel env' _).
  assert (H1 : w1' =~= img w1)
    by exact (Transition_cancel_toward (logged TransitionCancel (set_waiting false w))).
  rewrite H1 at 2. rewrite (eq_dom _ _ H1). cbn [dom img image].
  rewrite (getPosition_toward dir env). apply translate_toward.
Qed.

Lemma reposition_toward (w : World) :
  reposition env' (img w) =~= img (reposition env w).
Proof.
  unfold reposition. cbn [index img image logged].
  rewrite (jump_toward (index w) (logged ScrollCancel w)). split; reflexivity.
Qed.

Lemma mount_toward (w : World) : mount env' (img w) =~= img (mount env w).
Proof.
  unfold mount.
  change (Splide_is (options env') FADE) with (Splide_is (options env) FADE).
  destruct (negb _); split; reflexivity.
Qed.

Lemma perform_toward (l : Label) (w : World) :
  perform env' (image_label dir l) (img w) =~= img (perform env l w).
Proof.
  destruct l; cbn [perform image_label];
    auto using mount_toward, reposition_toward, move_toward, jump_toward, translate_toward,
      cancel_toward, transitionend_toward, tick_toward;
    split; reflexivity.
Qed.

Lemma enabled_toward (l : Label) (w : World) :
  enabled env' (image_label dir l) (img w) = enabled env l w.
Proof. destruct l; cbn; try reflexivity. now destruct (ticks w). Qed.

(** ** Runs *)

Lemma step_toward (w w' w1 : World) (l : Label) :
  w' =~= img w -> step env w l w1 ->
  step env' w' (image_label dir l) (perform env' (image_label dir l) w')
  /\ perform env' (image_label dir l) w' =~= img w1.
Proof.
  intros Hw Hs. destruct Hs as [w l He]. split.
  - constructor. now rewrite Hw, enabled_toward.
  - rewrite Hw. apply perform_toward.
Qed.

Lemma run_toward (w w1 : World) (ls : list Label) :
  run env w ls w1 -> forall w', w' =~= img w ->
  exists w1', run env' w' (map (image_label dir) ls) w1' /\ w1' =~= img w1.
Proof.
  induction 1 as [w|w w2 w3 l ls Hs _ IH]; intros w' Hw.
  - exists w'. split; [constructor | exact Hw].
  - destruct (step_toward w w' w2 l Hw Hs) as [Hs' Hw2].
    destruct (IH _ Hw2) as (w3' & Hr & Hw3).
    exists w3'. split; [econstructor; eassumption | exact Hw3].
Qed.

(** What is seen of an image. *)
Lemma image_observed (w w' : World) :
  w' =~= img w ->
  isBusy w' = isBusy w /\ state w' = state w /\ index w' = index w /\ log w' = log w
  /\ getPosition env' (dom w') == sgn dir * getPosition env (dom w)
  /\ rule_eq (transformRule (dom w')) (image_rule dir (transformRule (dom w))).
Proof.
  intros H. pose proof (eq_dom _ _ H) as Hd.
  repeat split; try apply H. rewrite Hd. apply (getPosition_toward dir env).
Qed.

End Handlers.

(** ** Theorems *)

(** C10. The slider in any direction is the image of the left-to-right
    slider: along the same calls, with the positions of [translate] and of
    the frames of the browser multiplied by the sign of the direction (-1
    for right-to-left, 1 for top-to-bottom), it is busy when the other is,
    in the same state and at the same index, has logged the same events
    and calls, and displays the list at the position of the other times
    the sign, under the rule of the other times the sign on the axis of
    the direction. *)
Theorem directions_agree (dir : Direction) (env : Env) (w : World) (ls : list Label) :
  direction (options env) = LTR -> run env created ls w ->
  exists w', run (toward dir env) created (map (image_label dir) ls) w'
             /\ isBusy w' = isBusy w /\ state w' = state w /\ index w' = index w
             /\ log w' = log w
             /\ getPosition (toward dir env) (dom w') == sgn dir * getPosition env (dom w)
             /\ rule_eq (transformRule (dom w')) (image_rule dir (transformRule (dom w))).
Proof.
  intros Hltr Hr.
  destruct (run_toward dir env Hltr created w ls Hr created (image_created dir))
    as (w' & Hr' & Hw).
  exists w'. split; [exact Hr' | exact (image_observed dir env w w' Hw)].
Qed.

(** C39. In any direction every position is the position of the
    left-to-right slider times the sign of the direction: the positions
    of the slides with and without trimming, the limits and what [loop]
    makes of a position; the index of a position, and whether it exceeds
    a limit, are those of the left-to-right slider. *)
Theorem positions_agree (dir : Direction) (env : Env) (i : Z) (trimming max : bool)
    (x : Q) (d : Dom) (waiting : bool) (which : option bool) :
  direction (options env) = LTR ->
  toPosition (toward dir env) i trimming == sgn dir * toPosition env i trimming
  /\ getLimit (toward dir env) max == sgn dir * getLimit env max
  /\ toIndex (toward dir env) (sgn dir * x) = toIndex env x
  /\ exceededLimit (toward dir env) (image_dom dir d) which (Some (sgn dir * x))
     = exceededLimit env d which (Some x)
  /\ loop (toward dir env) waiting (image_dom dir d) (sgn dir * x)
     == sgn dir * loop env waiting d x.
Proof.
  intros Hltr.
  exact (conj (toPosition_toward dir env Hltr i trimming)
          (conj (getLimit_toward dir env Hltr max)
             (conj (toIndex_toward dir env Hltr x)
                (conj (exceededLimit_given_toward dir env Hltr d (image_dom dir d) which x)
                   (loop_toward dir env Hltr waiting d x))))).
Qed.

(** ** The theorems at the slider of the tests, right to left *)

Lemma halfway_run :
  run slider created [LMove 1 1 (-1) None; LFrame (-100)] (halfway (-100)).
Proof.
  eapply run_cons; [apply step_apply; reflexivity|].
  eapply run_cons; [apply step_apply; reflexivity | apply run_nil].
Qed.

Lemma directions_agree_witness :
  exists w', run (rtl slider) created
               (map (image_label RTL) [LMove 1 1 (-1) None; LFrame (-100)]) w'
             /\ isBusy w' = isBusy (halfway (-100)) /\ state w' = state (halfway (-100))
             /\ index w' = index (halfway (-100)) /\ log w' = log (halfway (-100))
             /\ getPosition (rtl slider) (dom w')
                == sgn RTL * getPosition slider (dom (halfway (-100)))
             /\ rule_eq (transformRule (dom w'))
                  (image_rule RTL (transformRule (dom (halfway (-100))))).
Proof. exact (directions_agree RTL slider (halfway (-100)) _ eq_refl halfway_run). Defined.

Lemma positions_agree_witness :
  toPosition (rtl slider) 2 true == sgn RTL * toPosition slider 2 true
  /\ getLimit (rtl slider) true == sgn RTL * getLimit slider true
  /\ toIndex (rtl slider) (sgn RTL * (-301)) = toIndex slider (-301)
  /\ exceededLimit (rtl slider) (image_dom RTL initial_dom) None (Some (sgn RTL * (-301)))
     = exceededLimit slider initial_dom None (Some (-301))
  /\ loop (rtl slider) false (image_dom RTL initial_dom) (sgn RTL * (-301))
     == sgn RTL * loop slider false initial_dom (-301).
Proof.
  exact (positions_agree RTL slider 2 true true (-301) initial_dom false None eq_refl).
Defined.

(** The move of the tests on the right-to-left slider, halfway: the list
    is displayed at 100 on its way to 200. *)
Example rtl_halfway :
  let w := perform (rtl slider) (LFrame 100) (move (rtl slider) 1 1 (-1) None created) in
  isBusy w = true /\ Qred (getPosition (rtl slider) (dom w)) = 100
  /\ option_map (fun r => (fst r, Qred (snd r))) (transformRule (dom w)) = Some (X, 200).
Proof. cbv zeta. repeat split; vm_compute; reflexivity. Qed.

(** The slides of the right-to-left slider lie at positive positions;
    the top-to-bottom slider has the positions of the left-to-right one
    on the other axis. *)
Example rtl_slider :
  map (fun i => Qred (toPosition (rtl slider) i true)) [0; 1; 2; 3; 4]%Z
  = [0; 200; 400; 600; 800]
  /\ map (toIndex (rtl slider)) [0; 100; 101; 200; 300; 301] = [0; 0; 1; 1; 1; 2]%Z
  /\ option_map (fun r => (fst r, Qred (snd r)))
       (transformRule (dom (jump (rtl slider) 2 created)))
     = Some (X, 400).
Proof. repeat split; vm_compute; reflexivity. Qed.

Example ttb_slider :
  map (fun i => Qred (toPosition (toward TTB slider) i true)) [0; 1; 2; 3; 4]%Z
  = [0; -200; -400; -600; -800]
  /\ option_map (fun r => (fst r, Qred (snd r)))
       (transformRule (dom (jump (toward TTB slider) 2 created)))
     = Some (Y, -400).
Proof. repeat split; vm_compute; reflexivity. Qed.
