(* ===== verification/Machine.v ===== *)
(** * Machine: the control skeleton of the orchestrator, and its refinement

    What the orchestration of Move.ts promises once geometry and the DOM
    are forgotten: an abstract machine over the [waiting] flag, the state,
    the number of completions the Transition component can still deliver
    and the numbers of move and moved events emitted.  [abstraction] maps a
    world of [Motion] to a state of the machine, [action] a label to an
    action; every step of [Motion.step] is a step of the machine
    (a forward simulation), so the invariant of the machine, proved by
    cases on its six rules, holds of every reachable world. *)

From S2P Require Import Prelude Utils Env Position Loop Motion.

(** ** The abstract machine *)

Record Abstract : Set := {
  a_waiting : bool;
  a_state : State;
  a_armed : nat;                    (* completions that can still be delivered *)
  a_started : nat;                  (* move events emitted *)
  a_completed : nat                 (* moved events emitted *)
}.

Inductive Action : Set :=
| AMove (looping : bool)
| AComplete
| ACancel
| AQuiet.

Section Abstract.
Variables (fade wait : bool).

(** A move that is accepted and left to the Transition component: the
    Fade transition queues its completion, the Slide transition keeps only
    the last one. *)
Definition deferred (looping : bool) (a : Abstract) : Abstract := {|
  a_waiting := looping || wait;
  a_state := MOVING;
  a_armed := if fade then S (a_armed a) else 1;
  a_started := S (a_started a);
  a_completed := a_completed a
|}.

(** A move that is accepted and completed before [move] returns. *)
Definition instant (a : Abstract) : Abstract := {|
  a_waiting := false;
  a_state := IDLE;
  a_armed := a_armed a;
  a_started := S (a_started a);
  a_completed := S (a_completed a)
|}.

(** A completion delivered by the Transition component. *)
Definition delivered (a : Abstract) : Abstract := {|
  a_waiting := false;
  a_state := IDLE;
  a_armed := if fade then pred (a_armed a) else 0;
  a_started := a_started a;
  a_completed := S (a_completed a)
|}.

Definition cancelled (a : Abstract) : Abstract := {|
  a_waiting := false;
  a_state := a_state a;
  a_armed := if fade then a_armed a else 0;
  a_started := a_started a;
  a_completed := a_completed a
|}.

Inductive astep : Abstract -> Action -> Abstract -> Prop :=
| astep_dropped (a : Abstract) (looping : bool) :
    a_waiting a = true -> astep a (AMove looping) a
| astep_deferred (a : Abstract) (looping : bool) :
    a_waiting a = false -> astep a (AMove looping) (deferred looping a)
| astep_instant (a : Abstract) (looping : bool) :
    a_waiting a = false -> fade = false -> astep a (AMove looping) (instant a)
| astep_delivered (a : Abstract) :
    a_armed a <> 0%nat -> astep a AComplete (delivered a)
| astep_cancelled (a : Abstract) : astep a ACancel (cancelled a)
| astep_quiet (a : Abstract) : astep a AQuiet a.

Inductive aruns : Abstract -> list Action -> Abstract -> Prop :=
| aruns_nil (a : Abstract) : aruns a [] a
| aruns_cons (a a' a'' : Abstract) (l : Action) (ls : list Action) :
    astep a l a' -> aruns a' ls a'' -> aruns a (l :: ls) a''.

(** The machine when the slider is created. *)
Definition a_created : Abstract := {|
  a_waiting := false; a_state := IDLE; a_armed := 0; a_started := 0; a_completed := 0
|}.

(** What the machine keeps true: a waiting machine is MOVING and a
    completion can be delivered; the completions delivered and those that
    can still be delivered never outnumber the moves started. *)
Record AInv (a : Abstract) : Prop := {
  ainv_moving : a_waiting a = true -> a_state a = MOVING;
  ainv_armed : a_waiting a = true -> a_armed a <> 0%nat;
  ainv_count : (a_completed a + a_armed a <= a_started a)%nat
}.

Lemma AInv_created : AInv a_created.
Proof. split; cbn; [discriminate | discriminate | lia]. Qed.

Lemma AInv_astep (a a' : Abstract) (l : Action) :
  AInv a -> astep a l a' -> AInv a'.
Proof.
  intros [H1 H2 H3] Hs. destruct Hs; split; cbn; try assumption;
    try discriminate; try reflexivity; try (destruct fade; lia); try lia.
Qed.

Lemma AInv_aruns (a a' : Abstract) (ls : list Action) :
  aruns a ls a' -> AInv a -> AInv a'.
Proof. induction 1; eauto using AInv_astep. Qed.

End Abstract.

(** ** The abstraction *)

Definition is_move (e : Effect) : bool :=
  match e with Emit (EVENT_MOVE _ _ _) => true | _ => false end.

Definition is_moved (e : Effect) : bool :=
  match e with Emit (EVENT_MOVED _ _ _) => true | _ => false end.

Definition count (p : Effect -> bool) (l : list Effect) : nat := length (filter p l).

(** The completions the Transition component can deliver: the ticks of
    the Fade transition; the callback of the Slide transition while the
    transition rule is set. *)
Definition armed (env : Env) (w : World) : nat :=
  if Splide_is (options env) FADE then length (ticks w)
  else if transitionRule (dom w)
          && match endCallback w with Some _ => true | None => false end
       then 1 else 0.

Definition abstraction (env : Env) (w : World) : Abstract := {|
  a_waiting := waiting w;
  a_state := state w;
  a_armed := armed env w;
  a_started := count is_move (log w);
  a_completed := count is_moved (log w)
|}.

Definition action (l : Label) (w : World) : Action :=
  match l with
  | LMove dest index _ _ => AMove (negb (dest =? index)%Z)
  | LCancel => ACancel
  | LTransitionEnd =>
      match endCallback w with Some _ => AComplete | None => AQuiet end
  | LTick => AComplete
  | _ => AQuiet
  end.

(** Each Transition keeps to its own means: the Fade transition sets no
    transition rule, the Slide transition queues no tick. *)
Definition Shaped (env : Env) (w : World) : Prop :=
  if Splide_is (options env) FADE then transitionRule (dom w) = false
  else ticks w = [].

(** The steps of the machine of a slider. *)
Definition machine (env : Env) : Abstract -> Action -> Abstract -> Prop :=
  astep (Splide_is (options env) FADE) (waitForTransition (options env)).

(** The labels that leave the control skeleton alone. *)
Definition quiet (l : Label) : bool :=
  match l with
  | LMove _ _ _ _ | LCancel | LTransitionEnd | LTick => false
  | _ => true
  end.

(** The actions of a run. *)
Fixpoint actions (env : Env) (ls : list Label) (w : World) : list Action :=
  match ls with
  | [] => []
  | l :: rest => action l w :: actions env rest (perform env l w)
  end.

(** ** Counting events *)

Lemma count_app (p : Effect -> bool) (l l' : list Effect) :
  count p (l ++ l') = (count p l + count p l')%nat.
Proof. unfold count. now rewrite filter_app, length_app. Qed.

Lemma count_snoc (p : Effect -> bool) (l : list Effect) (e : Effect) :
  count p (l ++ [e]) = (count p l + if p e then 1 else 0)%nat.
Proof. rewrite count_app. unfold count. cbn [filter]. now destruct (p e). Qed.

(** ** The abstraction of each handler *)

Lemma armed_same (env : Env) (w w' : World) :
  transitionRule (dom w') = transitionRule (dom w) ->
  endCallback w' = endCallback w -> ticks w' = ticks w ->
  armed env w' = armed env w.
Proof. unfold armed. now intros -> -> ->. Qed.

Lemma abstraction_move_done (env : Env) (c : Done) (w : World) :
  abstraction env (move_done env c w)
  = {| a_waiting := false; a_state := IDLE; a_armed := armed env w;
       a_started := count is_move (log w);
       a_completed := S (count is_moved (log w)) |}.
Proof.
  destruct (move_done_settled env c w) as (Hw & Hs & Hc & Ht & _ & _ & Hr).
  unfold abstraction. rewrite Hw, Hs, (armed_same env w _ Hr Hc Ht), move_done_log.
  rewrite !count_app. f_equal.
  - destruct (follow_up env c w), (done_callback c); cbn; lia.
  - destruct (follow_up env c w), (done_callback c); cbn; lia.
Qed.

(** [fade_cases] splits on the Transition in use. *)
Ltac fade_cases env :=
  unfold machine, Shaped, armed in *;
  destruct (Splide_is (options env) FADE) eqn:Efade.

(** [becomes a] takes the step of the machine to [a] and leaves its
    guard, if there is one, and that the abstraction of the new world is
    [a]. *)
Ltac becomes a :=
  match goal with
  | |- astep _ _ _ _ ?a' => replace a' with a; [constructor; auto|]
  end.

Lemma simulates_move (env : Env) (dest i prev : Z) (cb : option Callback) (w : World) :
  Shaped env w ->
  machine env (abstraction env w) (AMove (negb (dest =? i)%Z))
    (abstraction env (move env dest i prev cb w))
  /\ Shaped env (move env dest i prev cb w).
Proof.
  intros HS. unfold move, isBusy. destruct (waiting w) eqn:Hw; cbn [negb].
  { split; [now apply astep_dropped | exact HS]. }
  unfold Transition_start. fade_cases env; [|destruct (_ && _)].
  - split; [|exact HS].
    becomes (deferred true (waitForTransition (options env))
               (negb (dest =? i)%Z) (abstraction env w)).
    unfold abstraction, deferred, armed. rewrite Efade. wsimpl.
    rewrite !count_snoc, length_app. cbn. f_equal; lia.
  - split; [|exact HS].
    becomes (deferred false (waitForTransition (options env))
               (negb (dest =? i)%Z) (abstraction env w)).
    unfold abstraction, deferred, armed, translate. rewrite Efade. wsimpl.
    rewrite !count_snoc. cbn. f_equal; lia.
  - rewrite abstraction_move_done. split.
    + becomes (instant (abstraction env w)).
      unfold instant, abstraction, jump, translate, armed. rewrite Efade. wsimpl.
      rewrite !count_snoc. cbn. f_equal; lia.
    + match goal with |- ticks (move_done env ?c ?w') = [] =>
        destruct (move_done_settled env c w') as (_ & _ & _ & -> & _) end.
      exact HS.
Qed.

Lemma simulates_cancel (env : Env) (w : World) :
  Shaped env w ->
  machine env (abstraction env w) ACancel (abstraction env (cancel env w))
  /\ Shaped env (cancel env w).
Proof.
  intros HS. unfold cancel, Transition_cancel, translate. fade_cases env.
  - split; [|exact HS].
    becomes (cancelled true (abstraction env w)).
    unfold abstraction, cancelled, armed. rewrite Efade. wsimpl.
    rewrite !count_snoc. cbn. f_equal; lia.
  - split; [|exact HS].
    becomes (cancelled false (abstraction env w)).
    unfold abstraction, cancelled, armed. rewrite Efade. wsimpl.
    rewrite !count_snoc. cbn. f_equal; lia.
Qed.

Lemma simulates_transitionend (env : Env) (w : World) :
  Shaped env w -> enabled env LTransitionEnd w = true ->
  machine env (abstraction env w) (action LTransitionEnd w)
    (abstraction env (transitionend env w))
  /\ Shaped env (transitionend env w).
Proof.
  intros HS He. cbn [enabled] in He. unfold transitionend, action.
  destruct (endCallback w) as [c|] eqn:Ec; [|split; [apply astep_quiet | exact HS]].
  rewrite abstraction_move_done.
  destruct (move_done_settled env c (Transition_cancel env w))
    as (_ & _ & _ & Ht & _ & _ & Hr).
  unfold Transition_cancel in *. fade_cases env; [congruence|]. split.
  - becomes (delivered false (abstraction env w)).
    + unfold abstraction, armed. cbn. rewrite Efade, He, Ec. discriminate.
    + unfold delivered, abstraction, armed. now rewrite Efade.
  - now rewrite Ht.
Qed.

Lemma simulates_tick (env : Env) (w : World) :
  Shaped env w -> enabled env LTick w = true ->
  machine env (abstraction env w) AComplete (abstraction env (tick env w))
  /\ Shaped env (tick env w).
Proof.
  intros HS He. cbn [enabled] in He. unfold tick.
  destruct (ticks w) as [|c rest] eqn:Et; [discriminate|].
  rewrite abstraction_move_done.
  destruct (move_done_settled env c (set_ticks rest w))
    as (_ & _ & _ & Ht & _ & _ & Hr).
  fade_cases env; [|congruence]. split.
  - becomes (delivered true (abstraction env w)).
    + unfold abstraction, armed. cbn. rewrite Efade, Et. discriminate.
    + unfold delivered, abstraction, armed. rewrite Efade, Et. reflexivity.
  - now rewrite Hr.
Qed.

Lemma simulates_quiet (env : Env) (l : Label) (w : World) :
  quiet l = true -> Shaped env w ->
  abstraction env (perform env l w) = abstraction env w
  /\ Shaped env (perform env l w).
Proof.
  intros Hq HS. destruct l; try discriminate; cbn [perform];
    unfold mount, reposition, jump, translate, emit;
    try destruct (negb _); (split; [|exact HS]);
    unfold abstraction, armed; wsimpl; rewrite ?count_snoc;
    cbn [is_move is_moved]; rewrite ?Nat.add_0_r; reflexivity.
Qed.

Lemma step_machine (env : Env) (w w' : World) (l : Label) :
  Shaped env w -> step env w l w' ->
  machine env (abstraction env w) (action l w) (abstraction env w')
  /\ Shaped env w'.
Proof.
  intros HS Hs. destruct Hs as [w l He].
  destruct (quiet l) eqn:Hq.
  - destruct (simulates_quiet env l w Hq HS) as [-> HS'].
    split; [|exact HS']. destruct l; try discriminate; apply astep_quiet.
  - destruct l; try discriminate; cbn [perform].
    + now apply simulates_move.
    + now apply simulates_cancel.
    + now apply simulates_transitionend.
    + now apply simulates_tick.
Qed.

Lemma Shaped_created (env : Env) : Shaped env created.
Proof. unfold Shaped. now destruct (Splide_is (options env) FADE). Qed.

Lemma abstraction_created (env : Env) : abstraction env created = a_created.
Proof.
  unfold abstraction, armed, a_created. cbn.
  now destruct (Splide_is (options env) FADE).
Qed.

Lemma run_machine (env : Env) (w w' : World) (ls : list Label) :
  run env w ls w' -> Shaped env w ->
  aruns (Splide_is (options env) FADE) (waitForTransition (options env))
    (abstraction env w) (actions env ls w) (abstraction env w')
  /\ Shaped env w'.
Proof.
  induction 1 as [w|w w' w'' l ls Hs Hr IH]; intros HS; cbn [actions].
  - split; [constructor | exact HS].
  - destruct (step_machine env w w' l HS Hs) as [Ha HS'].
    destruct (IH HS') as [Hrest HS'']. inversion Hs; subst.
    split; [econstructor; eassumption | exact HS''].
Qed.

Lemma Shaped_reachable (env : Env) (w : World) : reachable env w -> Shaped env w.
Proof. intros [ls Hr]. exact (proj2 (run_machine env _ _ _ Hr (Shaped_created env))). Qed.

Lemma AInv_reachable (env : Env) (w : World) :
  reachable env w -> AInv (abstraction env w).
Proof.
  intros [ls Hr]. destruct (run_machine env _ _ _ Hr (Shaped_created env)) as [Ha _].
  rewrite abstraction_created in Ha. exact (AInv_aruns _ _ _ _ _ Ha AInv_created).
Qed.

(** ** Refinement *)

(** The diagram of the forward simulation: on worlds in which each
    Transition keeps to its own means, every step of the component is a
    step of the abstract machine between the abstractions of its worlds,
    and the new world is such a world again. *)
Theorem step_simulates (env : Env) (w w' : World) (l : Label) :
  Shaped env w -> step env w l w' ->
  machine env (abstraction env w) (action l w) (abstraction env w')
  /\ Shaped env w'.
Proof. apply step_machine. Qed.

(** C26. Every run of the component from the created slider is a run of
    the abstract machine from its initial state. *)
Theorem run_simulates (env : Env) (w : World) (ls : list Label) :
  run env created ls w ->
  aruns (Splide_is (options env) FADE) (waitForTransition (options env))
    a_created (actions env ls created) (abstraction env w).
Proof.
  intros Hr. rewrite <- (abstraction_created env).
  exact (proj1 (run_machine env _ _ _ Hr (Shaped_created env))).
Qed.

(** C27. Along every run, the moved events emitted and the completions
    the Transition component can still deliver never outnumber the move
    events emitted, and a busy component has a completion that can be
    delivered. *)
Theorem reachable_counts (env : Env) (w : World) :
  reachable env w ->
  (count is_moved (log w) + armed env w <= count is_move (log w))%nat
  /\ (isBusy w = true -> armed env w <> 0%nat).
Proof.
  intros Hr. destruct (AInv_reachable env w Hr) as [_ H2 H3]. split; assumption.
Qed.

(** ** Completions run out *)

Definition is_AMove (l : Action) : bool :=
  match l with AMove _ => true | _ => false end.

Definition is_AComplete (l : Action) : bool :=
  match l with AComplete => true | _ => false end.

Definition is_LMove (l : Label) : bool :=
  match l with LMove _ _ _ _ => true | _ => false end.

(** The completions delivered along a list of actions. *)
Definition deliveries (ls : list Action) : nat := length (filter is_AComplete ls).

Lemma astep_delivery (fade wait : bool) (a a' : Abstract) (l : Action) :
  astep fade wait a l a' -> is_AMove l = false ->
  a_completed a' = (a_completed a + if is_AComplete l then 1 else 0)%nat
  /\ ((if is_AComplete l then 1 else 0) + a_armed a' <= a_armed a)%nat.
Proof.
  intros Hs Hl. destruct Hs; try discriminate; cbn; split; try lia;
    destruct fade; lia.
Qed.

Lemma aruns_deliveries (fade wait : bool) (a a' : Abstract) (ls : list Action) :
  aruns fade wait a ls a' -> forallb (fun l => negb (is_AMove l)) ls = true ->
  a_completed a' = (a_completed a + deliveries ls)%nat
  /\ (deliveries ls + a_armed a' <= a_armed a)%nat.
Proof.
  induction 1 as [a|a a' a'' l ls Hs _ IH]; cbn [forallb]; intros Hl.
  - cbn. lia.
  - apply andb_true_iff in Hl as [Hl Hls]. apply negb_true_iff in Hl.
    destruct (astep_delivery _ _ _ _ _ Hs Hl) as [H1 H2].
    destruct (IH Hls) as [H3 H4]. unfold deliveries in *. cbn [filter].
    destruct (is_AComplete l); cbn [length]; lia.
Qed.

Lemma actions_no_move (env : Env) (ls : list Label) : forall w,
  forallb (fun l => negb (is_LMove l)) ls = true ->
  forallb (fun l => negb (is_AMove l)) (actions env ls w) = true.
Proof.
  induction ls as [|l ls IH]; intros w; cbn [forallb actions]; [reflexivity|].
  intros [Hl Hls]%andb_true_iff. rewrite (IH _ Hls), andb_true_r.
  destruct l; try discriminate; try reflexivity. cbn. now destruct (endCallback w).
Qed.

(** Completions run out: along a run in which no move is requested,
    the moved events emitted are exactly the completions delivered, and
    there are at most as many as the Transition component could deliver
    when the run began. *)
Theorem completions_bounded (env : Env) (w w' : World) (ls : list Label) :
  Shaped env w -> run env w ls w' ->
  forallb (fun l => negb (is_LMove l)) ls = true ->
  count is_moved (log w')
  = (count is_moved (log w) + deliveries (actions env ls w))%nat
  /\ (deliveries (actions env ls w) + armed env w' <= armed env w)%nat.
Proof.
  intros HS Hr Hl. destruct (run_machine env _ _ _ Hr HS) as [Ha _].
  exact (aruns_deliveries _ _ _ _ _ Ha (actions_no_move env ls w Hl)).
Qed.

(** The queue of the Fade transition drains: from any world, as many
    ticks as there are completions queued are enabled one after the
    other, empty the queue and emit a moved event each; if there was one,
    the component is not busy afterwards. *)
Theorem fade_drains (env : Env) (w : World) :
  exists w',
    exec env (repeat LTick (length (ticks w))) w = Some w'
    /\ ticks w' = []
    /\ isBusy w' = waiting w && match ticks w with [] => true | _ => false end
    /\ count is_moved (log w') = (count is_moved (log w) + length (ticks w))%nat.
Proof.
  remember (ticks w) as q eqn:Eq. revert w Eq.
  induction q as [|c rest IH]; intros w Eq.
  - exists w. cbn. rewrite andb_true_r. repeat split; try easy; lia.
  - cbn [length repeat exec enabled perform]. rewrite <- Eq. unfold tick. rewrite <- Eq.
    destruct (move_done_settled env c (set_ticks rest w)) as (Hw & _ & _ & Ht & _).
    destruct (IH (move_done env c (set_ticks rest w)) (eq_sym Ht))
      as (w' & He & Ht' & Hb & Hc).
    exists w'. rewrite He, Ht', Hc. repeat split.
    + rewrite Hb, Hw. now rewrite andb_false_r.
    + pose proof (abstraction_move_done env c (set_ticks rest w)) as Ha.
      apply (f_equal a_completed) in Ha. cbn in Ha. rewrite Ha. unfold count. lia.
Qed.

(** ** A move that never completes *)

Section Overlapping.
Variable env : Env.
Hypothesis slides : type (options env) <> FADE.
Hypothesis eagerly : waitForTransition (options env) = false.
Variables (i1 p1 i2 p2 : Z) (cb1 cb2 : option Callback) (w : World).
Hypothesis idle : isBusy w = false.

Let w1 := move env i1 i1 p1 cb1 w.
Let w2 := move env i2 i2 p2 cb2 w1.

(** What the second move hands to the Transition component. *)
Definition overtaking : Done :=
  {| done_dest := i2; done_index := i2; done_prev := p2;
     done_position := getPosition env (dom (move env i1 i1 p1 cb1 w));
     done_callback := cb2 |}.

Lemma first_not_busy :
  animates env i1 w = true ->
  isBusy w1 = false /\ state w1 = MOVING
  /\ log w1 = log w ++ [Emit (EVENT_MOVE i1 p1 i1); TransitionStart i1].
Proof.
  intros Ha. destruct (move_animated env i1 i1 p1 cb1 w idle slides Ha)
    as (Hw & Hs & Hl & _). fold w1 in Hw, Hs, Hl.
  rewrite Z.eqb_refl, eagerly in Hw. auto.
Qed.

(** C28. With [waitForTransition] off, a move to a slide requested
    while another is animating is accepted and replaces its completion:
    the first move leaves the component MOVING and not busy, the
    Transition component keeps the completion of the second move only,
    and when the transition ends the log holds both move events, the
    moved event of the second move and what its completion asks for;
    nothing is left to deliver, so the moved event of the first move is
    never emitted and its callback never called. *)
Theorem overlapping_move_lost :
  animates env i1 w = true -> animates env i2 (move env i1 i1 p1 cb1 w) = true ->
  let w1 := move env i1 i1 p1 cb1 w in
  let w2 := move env i2 i2 p2 cb2 w1 in
  let w3 := transitionend env w2 in
  isBusy w1 = false /\ state w1 = MOVING
  /\ endCallback w2 = Some overtaking
  /\ enabled env (completion env) w3 = false
  /\ log w3
     = log w
       ++ [Emit (EVENT_MOVE i1 p1 i1); TransitionStart i1;
           Emit (EVENT_MOVE i2 p2 i2); TransitionStart i2;
           Emit (EVENT_MOVED i2 p2 i2)]
       ++ (if follow_up env overtaking (Transition_cancel env w2)
           then [ControllerGo (if (i2 >? p2)%Z then Next else Prev) false cb2]
           else match cb2 with Some callback => [Call callback] | None => [] end).
Proof.
  intros Ha1 Ha2. cbv zeta. fold w1 w2.
  destruct (first_not_busy Ha1) as (Hb1 & Hs1 & Hl1).
  destruct (move_animated env i2 i2 p2 cb2 w1 Hb1 slides Ha2)
    as (_ & _ & Hl2 & Hc2 & _). fold w2 in Hl2, Hc2.
  change (endCallback w2 = Some overtaking) in Hc2.
  unfold transitionend. rewrite Hc2.
  destruct (move_done_settled env overtaking (Transition_cancel env w2))
    as (_ & _ & _ & _ & _ & _ & Hr).
  repeat split; [exact Hb1 | exact Hs1 | |].
  - unfold completion. rewrite (not_FADE env slides). cbn [enabled].
    now rewrite Hr, Transition_cancel_dom by exact (not_FADE env slides).
  - rewrite move_done_log, Transition_cancel_log, Hl2, Hl1, <- !app_assoc.
    reflexivity.
Qed.

End Overlapping.

(** The slider that does not wait for transitions accepts a second move
    while the first is animating. *)
Definition overlapping : list Label :=
  [LMove 1 1 0 None; LMove 2 2 1 None; LTransitionEnd].

Example overlapping_run :
  let w := transitionend eager (move eager 2 2 1 None (move eager 1 1 0 None created)) in
  exec eager overlapping created = Some w
  /\ abstraction eager w
     = {| a_waiting := false; a_state := IDLE; a_armed := 0;
          a_started := 2; a_completed := 1 |}
  /\ ~ In (Emit (EVENT_MOVED 1 0 1)) (log w).
Proof.
  intros w. do 2 (split; [vm_compute; reflexivity|]).
  vm_compute. intros H. repeat (destruct H as [H|H]; [discriminate|]). exact H.
Qed.

(** ** The theorems at the sliders of the test suite *)

Lemma step_simulates_witness :
  machine slider (abstraction slider created) (AMove false) (abstraction slider moving)
  /\ Shaped slider moving.
Proof.
  apply (step_simulates slider created moving (LMove 1 1 (-1) None));
    [reflexivity | exact (step_apply slider created (LMove 1 1 (-1) None) eq_refl)].
Defined.

Lemma run_simulates_witness :
  aruns false true a_created [AMove false] (abstraction slider moving).
Proof.
  apply (run_simulates slider moving [LMove 1 1 (-1) None]).
  eapply run_cons; [|apply run_nil].
  exact (step_apply slider created (LMove 1 1 (-1) None) eq_refl).
Defined.

Lemma completions_bounded_witness :
  count is_moved (log (transitionend slider moving))
  = (count is_moved (log moving) + deliveries (actions slider [LTransitionEnd] moving))%nat
  /\ (deliveries (actions slider [LTransitionEnd] moving)
      + armed slider (transitionend slider moving) <= armed slider moving)%nat.
Proof.
  apply (completions_bounded slider moving _ [LTransitionEnd]);
    [reflexivity | | reflexivity].
  eapply run_cons; [|apply run_nil].
  exact (step_apply slider moving LTransitionEnd eq_refl).
Defined.

Lemma reachable_counts_witness :
  (count is_moved (log moving) + armed slider moving <= count is_move (log moving))%nat
  /\ (isBusy moving = true -> armed slider moving <> 0%nat).
Proof. apply reachable_counts. exact moving_reachable. Defined.

Lemma overlapping_move_lost_witness :
  let w1 := move eager 1 1 0 None created in
  let w2 := move eager 2 2 1 None w1 in
  let w3 := transitionend eager w2 in
  isBusy w1 = false /\ state w1 = MOVING
  /\ endCallback w2 = Some (overtaking eager 1 0 2 1 None None created)
  /\ enabled eager (completion eager) w3 = false
  /\ log w3
     = log created
       ++ [Emit (EVENT_MOVE 1 0 1); TransitionStart 1;
           Emit (EVENT_MOVE 2 1 2); TransitionStart 2;
           Emit (EVENT_MOVED 2 1 2)]
       ++ (if follow_up eager (overtaking eager 1 0 2 1 None None created)
                (Transition_cancel eager w2)
           then [ControllerGo (if (2 >? 1)%Z then Next else Prev) false None]
           else match @None Callback with
                | Some callback => [Call callback] | None => [] end).
Proof.
  apply (overlapping_move_lost eager); [discriminate | reflexivity..].
Defined.
