(* ===== verification/Display.v ===== *)
(** * Display: what the list displays

    The DOM of the list is written only through [translate] and the
    Transition component.  [Coherent] is the well-formedness of the DOM
    that these writes maintain: the axis of the transform rule is the one
    the direction resolves to, a transition rule is only set over a
    transform rule, and while no transition is running the list is
    displayed where the transform rule puts it.  Every handler preserves
    it, so on every reachable world at rest [getPosition] reads the
    position last written. *)

From S2P Require Import Prelude Utils Env Position Loop Motion Machine.

Local Open Scope Q_scope.
Local Open Scope js_scope.

(** ** Well-formed DOMs *)

Definition Axis_eqb (a b : Axis) : bool :=
  match a, b with X, X | Y, Y => true | _, _ => false end.

(** Where the rule in force puts the list: its target, or 0 when no rule
    was written. *)
Definition target (d : Dom) : Q :=
  match transformRule d with Some (_, q) => q | None => 0 end.

(** The decision procedure. *)
Definition coherent (env : Env) (d : Dom) : bool :=
  match transformRule d with
  | Some (a, _) => Axis_eqb a (resolveX (options env))
  | None => negb (transitionRule d)
  end
  && (transitionRule d || (rendered d =? target d))
  && (trackEdge d =? 0).

Record Coherent (env : Env) (d : Dom) : Prop := {
  coh_axis : forall a q, transformRule d = Some (a, q) -> a = resolveX (options env);
  coh_ruled : transitionRule d = true -> transformRule d <> None;
  coh_settled : transitionRule d = false -> rendered d == target d;
  coh_track : trackEdge d == 0
}.

Lemma Axis_eqb_eq (a b : Axis) : Axis_eqb a b = true <-> a = b.
Proof. destruct a, b; simpl; split; congruence. Qed.

Lemma coherent_Coherent (env : Env) (d : Dom) :
  coherent env d = true <-> Coherent env d.
Proof.
  unfold coherent. rewrite !andb_true_iff, orb_true_iff, !Qeqb_true. split.
  - intros [[H1 H2] H3]. split; [| | |exact H3].
    + intros a q E. rewrite E in H1. now apply Axis_eqb_eq.
    + intros Ht E. rewrite E, Ht in H1. discriminate.
    + intros Ht. destruct H2 as [H2|H2]; [congruence | exact H2].
  - intros [H1 H2 H3 H4]. repeat split; [| |exact H4].
    + destruct (transformRule d) as [[a q]|] eqn:E.
      * apply Axis_eqb_eq. now apply (H1 a q).
      * destruct (transitionRule d); [|reflexivity]. now destruct H2.
    + destruct (transitionRule d); [now left | right; now apply H3].
Qed.

(** ** The writes *)

Section Writes.
Variable env : Env.

Lemma Coherent_initial : Coherent env initial_dom.
Proof. apply coherent_Coherent. reflexivity. Qed.

Lemma Coherent_transform (p : Q) (d : Dom) :
  Coherent env d -> Coherent env (ruleBy_transform env p d).
Proof.
  intros [H1 H2 H3 H4]. split; unfold target; cbn.
  - now intros a q [= <- _].
  - discriminate.
  - intros ->. reflexivity.
  - exact H4.
Qed.

Lemma Coherent_transition_off (d : Dom) :
  Coherent env d -> Coherent env (ruleBy_transition false d).
Proof.
  intros [H1 H2 H3 H4]. split; unfold target in *; cbn.
  - exact H1.
  - discriminate.
  - intros _. destruct (transformRule d) as [[a q]|] eqn:E; [reflexivity|].
    apply H3. destruct (transitionRule d); [now destruct H2 | reflexivity].
  - exact H4.
Qed.

(** The Slide transition sets its rule and writes the destination. *)
Lemma Coherent_animate (p : Q) (d : Dom) :
  Coherent env d -> Coherent env (ruleBy_transform env p (ruleBy_transition true d)).
Proof.
  intros [H1 H2 H3 H4]. split; cbn.
  - now intros a q [= <- _].
  - discriminate.
  - discriminate.
  - exact H4.
Qed.

(** A frame of a running animation. *)
Lemma Coherent_paint (q : Q) (d : Dom) :
  transitionRule d = true -> Coherent env d -> Coherent env (paint q d).
Proof.
  intros Ht [H1 H2 H3 H4]. split; cbn; [exact H1 | exact H2 | congruence | exact H4].
Qed.

End Writes.

(** ** The handlers *)

Section Handlers.
Variable env : Env.

Lemma Coherent_translate (p : Q) (b : bool) (w : World) :
  Coherent env (dom w) -> Coherent env (dom (translate env p b w)).
Proof. intros H. now apply Coherent_transform. Qed.

Lemma dom_move_done (c : Done) (w : World) :
  dom (move_done env c w)
  = dom (if negb (done_dest c =? done_index c)%Z then jump env (done_index c) w else w).
Proof.
  unfold move_done.
  destruct (trimSpace_is_move (options env) && _ && _), (done_callback c),
    (negb (done_dest c =? done_index c)%Z); reflexivity.
Qed.

Lemma Coherent_move_done (c : Done) (w : World) :
  Coherent env (dom w) -> Coherent env (dom (move_done env c w)).
Proof.
  intros H. rewrite dom_move_done.
  destruct (negb _); [now apply Coherent_translate | exact H].
Qed.

Lemma Coherent_Transition_cancel (w : World) :
  Coherent env (dom w) -> Coherent env (dom (Transition_cancel env w)).
Proof.
  intros H. unfold Transition_cancel.
  destruct (Splide_is (options env) FADE); [exact H | now apply Coherent_transition_off].
Qed.

Lemma Coherent_move (dest i prev : Z) (cb : option Callback) (w : World) :
  Coherent env (dom w) -> Coherent env (dom (move env dest i prev cb w)).
Proof.
  intros H. unfold move. destruct (negb (isBusy w)); [|exact H].
  unfold Transition_start. destruct (Splide_is (options env) FADE); [exact H|].
  destruct (_ && _).
  - now apply Coherent_animate.
  - apply Coherent_move_done. now apply Coherent_translate.
Qed.

Lemma Coherent_cancel (w : World) : Coherent env (dom w) -> Coherent env (dom (cancel env w)).
Proof.
  intros H. unfold cancel. apply Coherent_translate.
  now apply Coherent_Transition_cancel.
Qed.

Lemma Coherent_perform (l : Label) (w : World) :
  enabled env l w = true -> Coherent env (dom w) -> Coherent env (dom (perform env l w)).
Proof.
  intros He H. destruct l; cbn [perform enabled] in *.
  - unfold mount. now destruct (negb _).
  - now apply Coherent_translate.
  - now apply Coherent_move.
  - now apply Coherent_translate.
  - now apply Coherent_translate.
  - now apply Coherent_cancel.
  - now apply Coherent_paint.
  - unfold transitionend. destruct (endCallback w); [|exact H].
    apply Coherent_move_done. now apply Coherent_Transition_cancel.
  - unfold tick. destruct (ticks w); [exact H|]. now apply Coherent_move_done.
  - exact H.
Qed.

Lemma Coherent_run (w w' : World) (ls : list Label) :
  run env w ls w' -> Coherent env (dom w) -> Coherent env (dom w').
Proof.
  induction 1 as [|w w' w'' l ls Hs _ IH]; [auto|]. intros H. apply IH.
  destruct Hs. now apply Coherent_perform.
Qed.

Lemma Coherent_reachable (w : World) : reachable env w -> Coherent env (dom w).
Proof. intros [ls Hr]. exact (Coherent_run _ _ _ Hr (Coherent_initial env)). Qed.

End Handlers.

(** ** Theorems *)

(** Along every run from the created slider the DOM of the list is
    well formed: the transform rule is on the axis of the direction, a
    transition rule is only set over a transform rule, the track does not
    move, and while no transition runs the list is displayed where the
    transform rule puts it. *)
Theorem reachable_Coherent (env : Env) (w : World) :
  reachable env w -> Coherent env (dom w).
Proof. apply Coherent_reachable. Qed.

(** On every reachable world at rest, [getPosition] reads the
    position of the transform rule last written (0 before the first). *)
Theorem getPosition_settled (env : Env) (w : World) :
  reachable env w -> transitionRule (dom w) = false ->
  getPosition env (dom w) == target (dom w).
Proof.
  intros Hr Ht. rewrite getPosition_rendered.
  exact (coh_settled _ _ (Coherent_reachable env w Hr) Ht).
Qed.

(** Where the list is displayed once the Transition component has
    cancelled. *)
Lemma Transition_cancel_rendered (env : Env) (w : World) :
  Coherent env (dom w) -> Shaped env w ->
  rendered (dom (Transition_cancel env w)) == target (dom w)
  /\ transitionRule (dom (Transition_cancel env w)) = false.
Proof.
  intros HC HS. unfold Transition_cancel, Shaped in *.
  destruct (Splide_is (options env) FADE).
  - split; [exact (coh_settled _ _ HC HS) | exact HS].
  - split; [|reflexivity]. unfold target. cbn.
    destruct (transformRule (dom w)) as [[a q]|] eqn:E; [reflexivity|].
    pose proof (coh_settled _ _ HC) as H. unfold target in H. rewrite E in H.
    apply H. destruct (transitionRule (dom w)) eqn:Et; [|reflexivity].
    now destruct (coh_ruled _ _ HC Et).
Qed.

(** What [cancel] leaves on a well-formed DOM. *)
Lemma cancel_target (env : Env) (w : World) :
  Coherent env (dom w) -> Shaped env w ->
  transitionRule (dom (cancel env w)) = false
  /\ getPosition env (dom (cancel env w)) == target (dom w)
  /\ target (dom (cancel env w)) == target (dom w).
Proof.
  intros HC HS. unfold cancel.
  set (w1 := Transition_cancel env _).
  destruct (Transition_cancel_rendered env
              (logged TransitionCancel (set_waiting false w)))
    as [H1 H2]; [exact HC | exact HS |].
  fold w1 in H1, H2. cbn [dom logged set_waiting] in H1.
  assert (loop env (waiting w1) (dom w1) (getPosition env (dom w1)) == target (dom w)) as E.
  { rewrite loop_current by apply getPosition_rendered.
    now rewrite getPosition_rendered. }
  split; [exact H2|]. split.
  - now rewrite getPosition_rendered, translate_rendered.
  - exact E.
Qed.

(** [cancel] ends the move where it was going: on every reachable
    world, after [cancel] no transition runs, the list is displayed at the
    target of the rule that was in force, and the rule written again has
    that target: the position is not wrapped. *)
Theorem cancel_keeps_target (env : Env) (w : World) :
  reachable env w ->
  let w' := cancel env w in
  transitionRule (dom w') = false
  /\ getPosition env (dom w') == target (dom w)
  /\ target (dom w') == target (dom w).
Proof.
  intros Hr. cbv zeta.
  exact (cancel_target env w (Coherent_reachable env w Hr) (Shaped_reachable env w Hr)).
Qed.

(** ** The theorems at the sliders of the test suite *)

Lemma reachable_Coherent_witness : Coherent slider (dom moving).
Proof. apply reachable_Coherent. exact moving_reachable. Defined.

Lemma created_reachable (env : Env) : reachable env created.
Proof. exists []. constructor. Qed.

Lemma getPosition_settled_witness :
  getPosition slider (dom created) == target (dom created).
Proof.
  apply getPosition_settled; [exact (created_reachable slider) | reflexivity].
Defined.

Lemma cancel_keeps_target_witness :
  let w' := cancel slider moving in
  transitionRule (dom w') = false
  /\ getPosition slider (dom w') == target (dom moving)
  /\ target (dom w') == target (dom moving).
Proof. apply (cancel_keeps_target slider moving). exact moving_reachable. Defined.

(** The move of the tests is cancelled at its destination, -200. *)
Example cancel_at_destination :
  target (dom moving) == -200 /\ rendered (dom moving) == 0
  /\ rendered (dom (cancel slider moving)) == -200.
Proof. repeat split; vm_compute; reflexivity. Qed.
