(* ===== verification/Offsets.v ===== *)
(** * Offsets: where the component puts the list

    The transform rule of the list is written only by [translate].  The
    handlers of Move.ts call it with the position of a slide
    ([toPosition] of [jump] and of the Slide transition), wrapped by
    [loop] or not, and [cancel] writes back the position it reads.  So as
    long as no other component calls [translate] with a position of its
    own, the list is always sent to the place of a registered slide, or
    left where it was created: [Derived].

    [same_place] is equality of positions outside loop mode and equality
    up to whole slider sizes in loop mode, where the same slides are shown
    at places one slider size apart. *)

From S2P Require Import Prelude Utils Env Position Loop Motion Machine Display.

Local Open Scope Q_scope.
Local Open Scope js_scope.

(** ** Places *)

Definition same_place (env : Env) (p q : Q) : Prop :=
  if Splide_is (options env) LOOP
  then congruent (sliderSize (layout env)) p q
  else p == q.

(** [i] is the index of a slide of the registry. *)
Definition registered (env : Env) (i : Z) : bool := existsb (Z.eqb i) (Slides env).

(** The place of a registered slide, or the place the list is created at. *)
Definition placed (env : Env) (q : Q) : Prop :=
  same_place env 0 q
  \/ exists i, registered env i = true /\ same_place env (toPosition env i true) q.

(** The indices a completion will use are registered. *)
Definition known (env : Env) (c : Done) : bool :=
  registered env (done_dest c) && registered env (done_index c).

(** The calls the other components make with registered indices, and
    without a position of their own. *)
Definition proper (env : Env) (l : Label) : bool :=
  match l with
  | LMove dest index _ _ => registered env dest && registered env index
  | LJump i | LSetIndex i => registered env i
  | LTranslate _ _ => false
  | _ => true
  end.

Record Derived (env : Env) (w : World) : Prop := {
  der_target : placed env (target (dom w));
  der_index : registered env (index w) = true;
  der_callback : forall c, endCallback w = Some c -> known env c = true;
  der_ticks : forall c, In c (ticks w) -> known env c = true
}.

(** ** [same_place] is an equivalence that [loop] respects *)

#[export] Instance same_place_Equivalence (env : Env) : Equivalence (same_place env).
Proof.
  unfold same_place. destruct (Splide_is (options env) LOOP); split.
  - intros p. reflexivity.
  - intros p q H. now symmetry.
  - intros p q r H1 H2. now transitivity q.
  - intros p. reflexivity.
  - intros p q H. now symmetry.
  - intros p q r H1 H2. now transitivity q.
Qed.

#[export] Instance same_place_Proper (env : Env) :
  Proper (Qeq ==> Qeq ==> iff) (same_place env).
Proof.
  unfold same_place. destruct (Splide_is (options env) LOOP);
    intros p p' Hp q q' Hq; now rewrite Hp, Hq.
Qed.

#[export] Instance placed_Proper (env : Env) : Proper (Qeq ==> iff) (placed env).
Proof.
  intros q q' E. unfold placed. setoid_rewrite E. reflexivity.
Qed.

Lemma loop_same_place (env : Env) (waiting : bool) (d : Dom) (p : Q) :
  same_place env p (loop env waiting d p).
Proof.
  unfold same_place. destruct (Splide_is (options env) LOOP) eqn:E.
  - apply loop_folds.
  - rewrite loop_other_type; [reflexivity|].
    intros H. apply Splide_is_true in H. congruence.
Qed.

Lemma placed_loop (env : Env) (waiting : bool) (d : Dom) (p : Q) :
  placed env p -> placed env (loop env waiting d p).
Proof.
  pose proof (loop_same_place env waiting d p) as Hl.
  intros [H|(i & Hi & H)]; [left | right; exists i; split; [exact Hi|]];
    now transitivity p.
Qed.

Lemma placed_slide (env : Env) (i : Z) :
  registered env i = true -> placed env (toPosition env i true).
Proof. intros Hi. right. exists i. split; [exact Hi | reflexivity]. Qed.

(** ** The handlers *)

Section Handlers.
Variable env : Env.

(** [Derived] reads the target, the index and the pending completions. *)
Lemma Derived_ext (w w' : World) :
  target (dom w') == target (dom w) -> index w' = index w ->
  endCallback w' = endCallback w -> ticks w' = ticks w ->
  Derived env w -> Derived env w'.
Proof.
  intros Ht Hi Hc Hk [H1 H2 H3 H4]. split.
  - now rewrite Ht.
  - now rewrite Hi.
  - now rewrite Hc.
  - now rewrite Hk.
Qed.

Lemma target_translate (p : Q) (b : bool) (w : World) :
  target (dom (translate env p b w))
  = if b then p else loop env (waiting w) (dom w) p.
Proof. reflexivity. Qed.

Lemma Derived_translate (p : Q) (b : bool) (w : World) :
  placed env p -> Derived env w -> Derived env (translate env p b w).
Proof.
  intros Hp [H1 H2 H3 H4]. split; try assumption.
  rewrite target_translate. destruct b; [exact Hp | now apply placed_loop].
Qed.

Lemma Derived_jump (i : Z) (w : World) :
  registered env i = true -> Derived env w -> Derived env (jump env i w).
Proof. intros Hi. apply Derived_translate. now apply placed_slide. Qed.

Lemma Derived_move_done (c : Done) (w : World) :
  known env c = true -> Derived env w -> Derived env (move_done env c w).
Proof.
  intros Hc HD. apply andb_true_iff in Hc as [_ Hi].
  destruct (move_done_settled env c w) as (_ & _ & E1 & E2 & _ & E3 & _).
  assert (Derived env (if negb (done_dest c =? done_index c)%Z
                       then jump env (done_index c) w else w)) as HD'
    by (destruct (negb _); [now apply Derived_jump | exact HD]).
  destruct HD' as [H1 H2 H3 H4].
  split; rewrite ?dom_move_done, ?E1, ?E2, ?E3; try assumption.
  - now destruct (negb _).
  - intros c0 E. apply H3. rewrite <- E. now destruct (negb _).
  - intros c0 E. apply H4. now destruct (negb _).
Qed.

Lemma Derived_Transition_cancel (w : World) :
  Derived env w -> Derived env (Transition_cancel env w).
Proof.
  unfold Transition_cancel. destruct (Splide_is (options env) FADE); [auto|].
  now apply Derived_ext.
Qed.

Lemma Derived_Transition_start (dest : Z) (c : Done) (w : World) :
  registered env dest = true -> known env c = true ->
  Derived env w -> Derived env (Transition_start env dest c w).
Proof.
  intros Hd Hc HD. unfold Transition_start.
  destruct (Splide_is (options env) FADE).
  - destruct HD as [H1 H2 H3 H4]. split; try assumption. wsimpl.
    intros c0 [H|[<-|[]]]%in_app_or; [now apply H4 | exact Hc].
  - destruct (_ && _).
    + assert (Derived env (translate env (toPosition env dest true) true
                             (set_dom (ruleBy_transition true (dom w)) w))) as [H1 H2 H3 H4]
        by (apply Derived_translate; [now apply placed_slide | now apply (Derived_ext w)]).
      split; try assumption. wsimpl. now intros c0 [= <-].
    + now apply Derived_move_done, Derived_jump.
Qed.

Lemma Derived_move (dest i prev : Z) (cb : option Callback) (w : World) :
  registered env dest && registered env i = true ->
  Derived env w -> Derived env (move env dest i prev cb w).
Proof.
  intros Hr HD. unfold move. destruct (negb (isBusy w)); [|exact HD].
  apply Derived_Transition_start; [now apply andb_true_iff in Hr | exact Hr |].
  now apply (Derived_ext w).
Qed.

Lemma Derived_cancel (w : World) :
  Coherent env (dom w) -> Shaped env w -> Derived env w -> Derived env (cancel env w).
Proof.
  intros HC HS HD. destruct (cancel_target env w HC HS) as (_ & _ & Ht).
  apply (Derived_ext w); try assumption; unfold cancel, Transition_cancel;
    now destruct (Splide_is (options env) FADE).
Qed.

Lemma Derived_perform (l : Label) (w : World) :
  proper env l = true -> Coherent env (dom w) -> Shaped env w ->
  Derived env w -> Derived env (perform env l w).
Proof.
  intros Hp HC HS HD. destruct l; cbn [perform proper] in *; try discriminate.
  - unfold mount. destruct (negb _); now apply (Derived_ext w).
  - unfold reposition. apply (Derived_ext (jump env (index w) (logged ScrollCancel w)));
      try reflexivity.
    apply Derived_jump; [exact (der_index _ _ HD) | now apply (Derived_ext w)].
  - now apply Derived_move.
  - now apply Derived_jump.
  - now apply Derived_cancel.
  - now apply (Derived_ext w).
  - unfold transitionend. destruct (endCallback w) as [c|] eqn:E; [|exact HD].
    apply Derived_move_done; [exact (der_callback _ _ HD c E)|].
    now apply Derived_Transition_cancel.
  - unfold tick. destruct (ticks w) as [|c rest] eqn:E; [exact HD|].
    apply Derived_move_done; [apply (der_ticks _ _ HD); rewrite E; now left|].
    destruct HD as [H1 H2 H3 H4]. split; try assumption. wsimpl.
    intros c0 Hc0. apply H4. rewrite E. now right.
  - destruct HD as [H1 H2 H3 H4]. split; assumption.
Qed.

Lemma Derived_created : registered env 0 = true -> Derived env created.
Proof.
  intros H0. split; [left; reflexivity | exact H0 | discriminate | intros c []].
Qed.

Lemma Derived_run (w w' : World) (ls : list Label) :
  run env w ls w' -> forallb (proper env) ls = true ->
  Coherent env (dom w) -> Shaped env w -> Derived env w -> Derived env w'.
Proof.
  induction 1 as [w|w w1 w2 l ls Hs _ IH]; intros Hp HC HS HD; [exact HD|].
  cbn [forallb] in Hp. apply andb_true_iff in Hp as [Hl Hp].
  destruct (step_machine env w w1 l HS Hs) as [_ HS1].
  destruct Hs as [w l He].
  apply IH; [exact Hp | now apply Coherent_perform | exact HS1 |].
  now apply Derived_perform.
Qed.

Lemma Derived_reached (w : World) (ls : list Label) :
  registered env 0 = true -> run env created ls w ->
  forallb (proper env) ls = true -> Derived env w.
Proof.
  intros H0 Hr Hp.
  exact (Derived_run created w ls Hr Hp (Coherent_initial env) (Shaped_created env)
           (Derived_created H0)).
Qed.

End Handlers.

(** ** Deciding [placed] outside loop mode *)

Definition placedb (env : Env) (q : Q) : bool :=
  (0 =? q) || existsb (fun i => toPosition env i true =? q) (Slides env).

Lemma registered_In (env : Env) (i : Z) : registered env i = true <-> In i (Slides env).
Proof.
  unfold registered. rewrite existsb_exists. split.
  - intros (j & Hj & E). apply Z.eqb_eq in E. now subst.
  - intros H. exists i. split; [exact H | apply Z.eqb_refl].
Qed.

Lemma placedb_placed (env : Env) (q : Q) :
  Splide_is (options env) LOOP = false -> (placedb env q = true <-> placed env q).
Proof.
  intros E. unfold placedb, placed, same_place. rewrite E.
  rewrite orb_true_iff, existsb_exists, Qeqb_true.
  setoid_rewrite registered_In. setoid_rewrite Qeqb_true. tauto.
Qed.

(** ** Theorems *)

(** The list is only ever sent to the place of a slide: along every
    run from the created slider in which the other components call with
    registered indices and none calls [translate] with a position of its
    own, the target of the transform rule is the position of a registered
    slide or the position 0 the list is created at (up to whole slider
    sizes in loop mode), and so is the position [getPosition] reads while
    no transition runs. *)
Theorem offsets_derived (env : Env) (w : World) (ls : list Label) :
  registered env 0 = true -> run env created ls w ->
  forallb (proper env) ls = true ->
  placed env (target (dom w))
  /\ (transitionRule (dom w) = false -> placed env (getPosition env (dom w))).
Proof.
  intros H0 Hr Hp. pose proof (der_target _ _ (Derived_reached env w ls H0 Hr Hp)) as Ht.
  split; [exact Ht|]. intros Hs. rewrite getPosition_rendered.
  assert (reachable env w) as Hw by (now exists ls).
  now rewrite (coh_settled _ _ (Coherent_reachable env w Hw) Hs).
Qed.

(** ** The theorems at the slider of the test suite *)

Lemma offsets_derived_witness :
  placed slider (target (dom moving))
  /\ (transitionRule (dom moving) = false -> placed slider (getPosition slider (dom moving))).
Proof.
  apply (offsets_derived slider moving [LMove 1 1 (-1) None]); [reflexivity | | reflexivity].
  eapply run_cons; [|apply run_nil].
  exact (step_apply slider created (LMove 1 1 (-1) None) eq_refl).
Defined.

(** [translate] called from outside puts the list anywhere: between
    slides, here. *)
Example translate_unplaced :
  ~ placed slider (target (dom (translate slider (-50) true created))).
Proof.
  intros H. apply (placedb_placed slider) in H; [|reflexivity].
  vm_compute in H. discriminate.
Qed.
