(* ===== verification/Arrival.v ===== *)
(** * Arrival: where a move ends

    The whole cycle of a move, from the request to the completion.
    [Awaited] is the invariant that makes the swap of a clone for its
    slide exact: a completion that will jump finds the component still
    waiting, so [loop] leaves the jump alone.  [move_arrives] says where
    the list is displayed when the move is over, [moved_log] what the
    cycle logs, and [trimmed_compensates] when, on the default slider with
    [trimSpace: 'move'], the completion asks the Controller to go on. *)

From S2P Require Import Prelude Utils Env Position Loop Motion Machine Display.

Local Open Scope Q_scope.
Local Open Scope js_scope.

(** ** Where a move ends *)

(** Whether the completion swaps a clone for its slide. *)
Definition looping (c : Done) : bool := negb (done_dest c =? done_index c)%Z.

(** A completion that will jump from a clone to its slide is awaited: the
    component stays busy until it runs, so the jump is not wrapped. *)
Definition Awaited (w : World) : Prop :=
  transitionRule (dom w) = true ->
  forall c, endCallback w = Some c -> looping c = true -> waiting w = true.

Lemma Awaited_idle (w : World) : transitionRule (dom w) = false -> Awaited w.
Proof. intros H Ht. congruence. Qed.

Lemma Awaited_same (w w' : World) :
  transitionRule (dom w') = transitionRule (dom w) ->
  endCallback w' = endCallback w -> waiting w' = waiting w ->
  Awaited w -> Awaited w'.
Proof. unfold Awaited. intros -> -> ->. auto. Qed.

Section Awaiting.
Variable env : Env.

(** The completion leaves the transition rule and the callback alone; it
    runs when no looping completion is awaited any more. *)
Lemma Awaited_move_done (c : Done) (w : World) :
  (transitionRule (dom w) = true ->
   forall c', endCallback w = Some c' -> looping c' = false) ->
  Awaited (move_done env c w).
Proof.
  intros H Ht c' Hc Hl.
  destruct (move_done_settled env c w) as (_ & _ & Ec & _ & _ & _ & Er).
  rewrite Er in Ht. rewrite Ec in Hc. specialize (H Ht c' Hc). congruence.
Qed.

Lemma Awaited_move (dest i prev : Z) (cb : option Callback) (w : World) :
  Shaped env w -> Awaited w -> Awaited (move env dest i prev cb w).
Proof.
  intros HS HA. unfold move, isBusy. destruct (waiting w) eqn:Hw; [exact HA|].
  cbn [negb]. unfold Transition_start, Shaped in *.
  destruct (Splide_is (options env) FADE); [apply Awaited_idle; exact HS|].
  destruct (_ && _).
  - intros _ c [= <-] Hl. unfold translate. cbn. unfold looping in Hl. cbn in Hl.
    now rewrite Hl.
  - apply Awaited_move_done. unfold jump, translate. cbn. intros Ht c' Hc.
    destruct (looping c') eqn:Hl; [|reflexivity].
    specialize (HA Ht c' Hc Hl). congruence.
Qed.

Lemma Awaited_perform (l : Label) (w : World) :
  enabled env l w = true -> Shaped env w -> Awaited w -> Awaited (perform env l w).
Proof.
  intros He HS HA. destruct l; cbn [perform enabled] in *;
    try (apply (Awaited_same w); [reflexivity.. | exact HA]).
  - unfold mount. destruct (negb _); exact HA.
  - now apply Awaited_move.
  - apply Awaited_idle. unfold cancel, Transition_cancel, translate, Shaped in *.
    destruct (Splide_is (options env) FADE); [exact HS | reflexivity].
  - unfold transitionend. destruct (endCallback w) as [c|]; [|exact HA].
    apply Awaited_move_done. unfold Transition_cancel, Shaped in *.
    destruct (Splide_is (options env) FADE); [congruence | discriminate].
  - unfold tick, Shaped in *. destruct (ticks w) as [|c rest] eqn:Et; [exact HA|].
    destruct (Splide_is (options env) FADE); [|discriminate].
    apply Awaited_move_done. cbn. congruence.
Qed.

Lemma Awaited_reachable (w : World) : reachable env w -> Awaited w.
Proof.
  intros [ls Hr]. cut (Shaped env w /\ Awaited w); [tauto|].
  assert (Shaped env created /\ Awaited created) as H0
    by (split; [apply Shaped_created | now apply Awaited_idle]).
  induction Hr as [|w0 w1 w2 l ls Hs _ IH]; [exact H0|]. apply IH.
  destruct H0 as [HS HA]. split.
  - exact (proj2 (step_machine env _ _ _ HS Hs)).
  - destruct Hs. now apply Awaited_perform.
Qed.

End Awaiting.

(** The completion of a looping move that finds the component still
    waiting puts the list at the slide, not wrapped. *)
Lemma move_done_swaps (env : Env) (c : Done) (w : World) :
  looping c = true -> waiting w = true -> transitionRule (dom w) = false ->
  rendered (dom (move_done env c w)) = toPosition env (done_index c) true
  /\ target (dom (move_done env c w)) = toPosition env (done_index c) true.
Proof.
  intros Hl Hw Ht. rewrite dom_move_done. unfold looping in Hl. rewrite Hl.
  unfold jump, translate, target. cbn. now rewrite Ht, Hw.
Qed.

(** C18. The swap of a clone for its slide is never wrapped: along every
    run, when the transition of a move to a clone ends, the component is
    still waiting (line 98 comes before line 99), so the jump to the
    slide of the move is written as it is; the list is displayed at the
    position of that slide and the component is no longer busy. *)
Theorem clone_swap_unwrapped (env : Env) (c : Done) (w : World) :
  reachable env w -> type (options env) <> FADE ->
  transitionRule (dom w) = true -> endCallback w = Some c -> looping c = true ->
  let w' := transitionend env w in
  getPosition env (dom w') == toPosition env (done_index c) true
  /\ target (dom w') = toPosition env (done_index c) true
  /\ isBusy w' = false /\ state w' = IDLE.
Proof.
  intros Hr Hf Ht Hc Hl w'. subst w'. unfold transitionend. rewrite Hc.
  pose proof (Awaited_reachable env w Hr Ht c Hc Hl) as Hw.
  destruct (move_done_settled env c (Transition_cancel env w)) as (H1 & H2 & _).
  destruct (move_done_swaps env c (Transition_cancel env w) Hl) as [H3 H4].
  - unfold Transition_cancel. now rewrite (not_FADE env Hf).
  - unfold Transition_cancel. now rewrite (not_FADE env Hf).
  - rewrite getPosition_rendered, H3, H4. repeat split; assumption.
Qed.

(** Where an accepted move ends: at the slide of the move when a clone
    was the destination, at the destination when the transition ran,
    and where [jump] put the list when there was nothing to animate. *)
Definition arrival (env : Env) (dest i : Z) (w : World) : Q :=
  if negb (dest =? i)%Z then toPosition env i true
  else if animates env dest w then toPosition env dest true
  else loop env (waitForTransition (options env)) (dom w) (toPosition env dest true).

(** The move and, if it animates, the end of its transition. *)
Definition moved (env : Env) (dest i prev : Z) (cb : option Callback) (w : World) : World :=
  let w' := move env dest i prev cb w in
  if animates env dest w then transitionend env w' else w'.

Lemma moved_settled (env : Env) (dest i prev : Z) (cb : option Callback) (w : World) :
  isBusy w = false -> type (options env) <> FADE -> transitionRule (dom w) = false ->
  let w' := moved env dest i prev cb w in
  isBusy w' = false /\ state w' = IDLE
  /\ getPosition env (dom w') == arrival env dest i w.
Proof.
  intros Hb Hf Ht w'. subst w'. unfold moved, arrival, move, Transition_start.
  rewrite Hb, (not_FADE env Hf). cbn [negb]. unfold animates.
  set (c := {| done_dest := dest |}).
  destruct (_ && _) eqn:Ha; rewrite getPosition_rendered.
  - unfold transitionend. cbn [endCallback set_endCallback].
    set (w1 := Transition_cancel env _).
    destruct (move_done_settled env c w1) as (H1 & H2 & _).
    split; [exact H1|]. split; [exact H2|]. rewrite dom_move_done.
    subst w1 c. unfold Transition_cancel. rewrite (not_FADE env Hf).
    cbn [done_dest done_index]. destruct (negb (dest =? i)%Z) eqn:Hl.
    + unfold jump, translate. cbn. rewrite ?orb_true_l. reflexivity.
    + unfold translate. cbn. reflexivity.
  - set (w1 := jump env dest _).
    destruct (move_done_settled env c w1) as (H1 & H2 & _).
    split; [exact H1|]. split; [exact H2|]. rewrite dom_move_done.
    subst w1 c. cbn [done_dest done_index]. destruct (negb (dest =? i)%Z) eqn:Hl.
    + unfold jump, translate. cbn. rewrite Ht. reflexivity.
    + unfold jump, translate. cbn. rewrite Ht. reflexivity.
Qed.

(** C40. A move arrives: a move accepted at rest, carried through the end
    of its transition if it has one, leaves the component not busy and
    IDLE with the list displayed at the position of the slide moved to;
    a clone is swapped for its slide without wrapping. *)
Theorem move_arrives (env : Env) (dest i prev : Z) (cb : option Callback) (w : World) :
  isBusy w = false -> type (options env) <> FADE -> transitionRule (dom w) = false ->
  let w' := moved env dest i prev cb w in
  isBusy w' = false /\ state w' = IDLE
  /\ getPosition env (dom w') == arrival env dest i w.
Proof. apply moved_settled. Qed.

(** ** The theorems at the looped slider of the test suite *)

(** The looped slider after [Move.move( 5, 0, -1 )]: on its way to the
    clone after the last slide. *)
Definition to_clone : World := move looped 5 0 (-1) None created.

Lemma to_clone_reachable : reachable looped to_clone.
Proof.
  exists [LMove 5 0 (-1) None]. eapply run_cons; [|apply run_nil].
  exact (step_apply looped created (LMove 5 0 (-1) None) eq_refl).
Qed.

Lemma clone_swap_unwrapped_witness :
  let c := {| done_dest := 5; done_index := 0; done_prev := -1;
              done_position := getPosition looped (dom created);
              done_callback := None |} in
  let w' := transitionend looped to_clone in
  getPosition looped (dom w') == toPosition looped (done_index c) true
  /\ target (dom w') = toPosition looped (done_index c) true
  /\ isBusy w' = false /\ state w' = IDLE.
Proof.
  refine (clone_swap_unwrapped looped _ to_clone to_clone_reachable _ _ _ _);
    [discriminate | reflexivity | reflexivity | reflexivity].
Defined.

Lemma move_arrives_witness :
  let w' := moved looped 5 0 (-1) None created in
  isBusy w' = false /\ state w' = IDLE
  /\ getPosition looped (dom w') == arrival looped 5 0 created.
Proof.
  apply (move_arrives looped 5 0 (-1) None created);
    [reflexivity | discriminate | reflexivity].
Defined.

(** The move goes to -1000, where the clone is, and ends at 0, where the
    first slide is. *)
Example to_clone_positions :
  target (dom to_clone) == -1000
  /\ getPosition looped (dom (moved looped 5 0 (-1) None created)) == 0.
Proof. split; vm_compute; reflexivity. Qed.

(** ** Edge-trim compensation *)

(** Whether the completion of the move asks the Controller to go on: the
    option is ['move'], the move left its slide, and the list is where it
    was before the move. *)
Definition compensates (env : Env) (dest i prev : Z) (w : World) : bool :=
  trimSpace_is_move (options env)
  && negb (dest =? prev)%Z
  && (getPosition env (dom w) =? arrival env dest i w).

(** What the completion of the move does last. *)
Definition outcome (env : Env) (dest i prev : Z) (cb : option Callback) (w : World)
    : list Effect :=
  if compensates env dest i prev w
  then [ControllerGo (if (dest >? prev)%Z then Next else Prev) false cb]
  else match cb with Some callback => [Call callback] | None => [] end.

Lemma follow_up_Proper (env : Env) (c : Done) (w : World) (q : Q) :
  getPosition env
    (dom (if negb (done_dest c =? done_index c)%Z
          then jump env (done_index c) w else w)) == q ->
  follow_up env c w
  = trimSpace_is_move (options env) && negb (done_dest c =? done_prev c)%Z
    && (done_position c =? q).
Proof. intros E. unfold follow_up. now rewrite E. Qed.

(** The world [move] hands to the Transition component, and the
    completion it hands over with it. *)
Definition requested (env : Env) (dest i prev : Z) (w : World) : World :=
  logged (TransitionStart dest)
    (emit (EVENT_MOVE i prev dest)
       (set_state MOVING
          (set_waiting (negb (dest =? i)%Z || waitForTransition (options env)) w))).

Definition completion_of (env : Env) (dest i prev : Z) (cb : option Callback)
    (w : World) : Done :=
  {| done_dest := dest; done_index := i; done_prev := prev;
     done_position := getPosition env (dom w); done_callback := cb |}.

Lemma moved_unfold (env : Env) (dest i prev : Z) (cb : option Callback) (w : World) :
  isBusy w = false -> type (options env) <> FADE ->
  moved env dest i prev cb w
  = move_done env (completion_of env dest i prev cb w)
      (if animates env dest w
       then Transition_cancel env
              (set_endCallback (Some (completion_of env dest i prev cb w))
                 (translate env (toPosition env dest true) true
                    (set_dom (ruleBy_transition true (dom w))
                       (requested env dest i prev w))))
       else jump env dest (requested env dest i prev w)).
Proof.
  intros Hb Hf. unfold moved, move, Transition_start.
  rewrite Hb, (not_FADE env Hf). cbn [negb].
  change (_ && (1 <=? speed (options env))) with (animates env dest w).
  now destruct (animates env dest w).
Qed.

(** C21. The whole cycle of a move accepted at rest: the move event, the
    start of the transition, the moved event, and then, if [trimSpace] is
    ['move'], the destination is not the previous index and the list is
    displayed where it was before the move, a request to the Controller
    to go on in the direction of the move, with the callback of the move
    handed over; otherwise the call of the callback, if there is one. *)
Theorem moved_log (env : Env) (dest i prev : Z) (cb : option Callback) (w : World) :
  isBusy w = false -> type (options env) <> FADE -> transitionRule (dom w) = false ->
  log (moved env dest i prev cb w)
  = log w
    ++ [Emit (EVENT_MOVE i prev dest); TransitionStart dest;
        Emit (EVENT_MOVED i prev dest)]
    ++ outcome env dest i prev cb w.
Proof.
  intros Hb Hf Ht.
  destruct (moved_settled env dest i prev cb w Hb Hf Ht) as (_ & _ & Ha).
  rewrite (moved_unfold env dest i prev cb w Hb Hf) in *.
  rewrite dom_move_done in Ha. rewrite move_done_log, (follow_up_Proper _ _ _ _ Ha).
  unfold outcome, compensates, Transition_cancel. rewrite (not_FADE env Hf).
  destruct (animates env dest w); unfold jump, translate, requested; wsimpl;
    cbn [completion_of done_dest done_prev done_position done_callback done_index];
    rewrite <- !app_assoc; reflexivity.
Qed.

(** ** Compensation on the trimmed slider

    On the default slider with [trimSpace: 'move'], the Controller is
    asked to go on exactly when the move is between two slides held at
    the end of the list. *)

Section TrimmedMove.
Variables (o : Options) (length : nat) (w gap view : Q) (last : Z).
Hypothesis w_pos : 0 < w.
Hypothesis gap_nonneg : 0 <= gap.
Hypothesis slide_mode : type o = SLIDE.
Hypothesis trim_move : trimSpace o = TrimMove.
Hypothesis no_focus : focus o = FocusUndefined.

Let env := laid_out o length 0 w gap view last.
Let held := held o length w gap view last.

Hypothesis overflows : 0 <= excess o length w gap view last.

Lemma trimming_on : trimSpace_truthy o = true.
Proof. unfold trimSpace_truthy. now rewrite trim_move. Qed.

Lemma trimmed_sameb (i j : nat) :
  (i < length)%nat -> (j < length)%nat ->
  (toPosition env (Z.of_nat i) true =? toPosition env (Z.of_nat j) true)
  = (Nat.min i held =? Nat.min j held)%nat.
Proof.
  intros Hi Hj.
  pose proof (trimmed_same o length w gap view last w_pos gap_nonneg slide_mode
                trimming_on no_focus overflows i j Hi Hj) as H.
  fold env held in H.
  destruct (Qeqb_spec (toPosition env (Z.of_nat i) true)
              (toPosition env (Z.of_nat j) true)),
           (Nat.eqb_spec (Nat.min i held) (Nat.min j held)); tauto.
Qed.

(** C35. On the default slider with [trimSpace: 'move'], for a move
    accepted at rest on slide [prev]: the completion asks the Controller
    to go on exactly when the destination is another slide with the same
    trimmed position, that is when both are held at the end of the
    list. *)
Theorem trimmed_compensates (prev dest : nat) (W : World) :
  (prev < length)%nat -> (dest < length)%nat ->
  transitionRule (dom W) = false ->
  rendered (dom W) == toPosition env (Z.of_nat prev) true ->
  compensates env (Z.of_nat dest) (Z.of_nat dest) (Z.of_nat prev) W
  = negb (dest =? prev)%nat && (Nat.min prev held =? Nat.min dest held)%nat.
Proof.
  intros Hp Hd Ht Hr. unfold compensates, arrival.
  cbn [options env laid_out]. unfold trimSpace_is_move. rewrite trim_move.
  rewrite Z.eqb_refl. cbn [negb andb]. fold env.
  rewrite loop_other_type by (cbn; rewrite slide_mode; discriminate).
  assert ((if animates env (Z.of_nat dest) W
           then toPosition env (Z.of_nat dest) true
           else toPosition env (Z.of_nat dest) true)
          = toPosition env (Z.of_nat dest) true) as -> by now destruct (animates _ _ _).
  rewrite getPosition_rendered, Hr, (trimmed_sameb prev dest Hp Hd).
  f_equal. f_equal. destruct (Nat.eqb_spec dest prev), (Z.eqb_spec (Z.of_nat dest) (Z.of_nat prev));
    try reflexivity; lia.
Qed.

End TrimmedMove.

(** ** The theorems at a paged slider *)

(** Five slides 100 wide, three to a page, with [trimSpace: 'move']; the
    slider at rest on its fourth slide, which is held at the end. *)
Definition paged_move : Env :=
  laid_out (with_trimSpace TrimMove defaults) 5 0 100 0 300 2.

Definition on_fourth : World := jump paged_move 3 created.

Lemma moved_log_witness :
  log (moved paged_move 4 4 3 (Some 7%nat) on_fourth)
  = log on_fourth
    ++ [Emit (EVENT_MOVE 4 3 4); TransitionStart 4; Emit (EVENT_MOVED 4 3 4)]
    ++ outcome paged_move 4 4 3 (Some 7%nat) on_fourth.
Proof.
  apply (moved_log paged_move 4 4 3 (Some 7%nat) on_fourth);
    [reflexivity | discriminate | reflexivity].
Defined.

Lemma trimmed_compensates_witness :
  compensates paged_move (Z.of_nat 4) (Z.of_nat 4) (Z.of_nat 3) on_fourth
  = negb (4 =? 3)%nat
    && (Nat.min 3 (held (with_trimSpace TrimMove defaults) 5 100 0 300 2)
        =? Nat.min 4 (held (with_trimSpace TrimMove defaults) 5 100 0 300 2))%nat.
Proof.
  refine (trimmed_compensates (with_trimSpace TrimMove defaults) 5 100 0 300 2
            _ _ _ _ _ _ 3%nat 4%nat on_fourth _ _ _ _);
    [lra | lra | reflexivity | reflexivity | reflexivity | | lia | lia | reflexivity | ].
  - vm_compute. discriminate.
  - vm_compute. reflexivity.
Defined.

(** The move from the fourth to the fifth slide does not move the list:
    the Controller is asked to go on and is handed the callback, which is
    not called. *)
Example absorbed_move :
  outcome paged_move 4 4 3 (Some 7%nat) on_fourth = [ControllerGo Next false (Some 7%nat)]
  /\ outcome paged_move 1 1 0 (Some 7%nat) created = [Call 7%nat].
Proof. split; vm_compute; reflexivity. Qed.
