(* ===== verification/Navigation.v ===== *)
(** * Navigation: the follow-up through the Controller

    When trimming has absorbed a move, the completion asks the Controller
    to go on in the direction of the move (Move.ts lines 103-104), and the
    Controller answers with a move of its own: it chooses the index, sets
    [Splide.index] and calls [Move.move], which may complete at once, ask
    again, and so on.  [Motion] logs the request and stops there.  This
    file runs it.

    The Controller is another file of the repository: here it is its
    interface [ControllerComponent.t], the decision which index a control
    leads to, and [go_under] is what [Controller.go] does with the
    decision.  [done_under] and [move_under] are the completion and
    [move] with the Controller at work; the recursion through the
    Controller is bounded by a fuel that counts the requests in a row.

    Whatever the Controller decides, a handler run with it is a run of the
    handlers of [Motion], index updates and moves ([serve_run]), so
    it keeps every invariant of theirs ([serve_Sound]), and what a request
    to go on logs is a chain of absorbed moves that ends at the
    Controller, in a move under way or in a move that called the callback
    ([go_under_chain]); the callback is lost in the first case only
    ([Fate]).  If the Controller makes progress towards an end
    of the slider, as the class [Progressive] says, the requests come to
    an end within the room that is left ([go_under_terminates]) and the
    index stays within the slider ([go_under_within]); if it goes to
    registered slides only, the list is only sent to their places
    ([serve_Derived]). *)

From S2P Require Import Prelude Utils Env Position Loop Motion Machine Display Offsets.
From S2P Require Import Arrival.

Local Open Scope Q_scope.
Local Open Scope js_scope.

(** ** The interface *)

Module ControllerComponent.
Record t : Type := {
  (** The destination and the index the Controller makes of a control,
      if it goes anywhere. *)
  plan : Control -> World -> option (Z * Z)
}.
End ControllerComponent.

(** What the orchestrator needs of a Controller for the follow-ups to
    end: there are no clones to go to, and a control leads strictly
    towards its end of the slider, within the slider. *)
Class Progressive (env : Env) (C : ControllerComponent.t) : Prop := {
  plan_slide : forall control w dest i,
    ControllerComponent.plan C control w = Some (dest, i) -> dest = i;
  plan_next : forall w dest i,
    ControllerComponent.plan C Next w = Some (dest, i) -> (index w < i <= getEnd env)%Z;
  plan_prev : forall w dest i,
    ControllerComponent.plan C Prev w = Some (dest, i) -> (0 <= i < index w)%Z
}.

(** The Controller of a slider that moves by one slide. *)
Definition stepper (env : Env) : ControllerComponent.t := {|
  ControllerComponent.plan control w :=
    match control with
    | Next => if (index w <? getEnd env)%Z then Some (index w + 1, index w + 1)%Z else None
    | Prev => if (0 <? index w)%Z then Some (index w - 1, index w - 1)%Z else None
    end
|}.

(** ** The handlers with the Controller at work *)

Section Under.
Variable env : Env.

(** [dest > prev ? '>' : '<'] *)
Definition onward (c : Done) : Control :=
  if (done_dest c >? done_prev c)%Z then Next else Prev.

(** What [go] of some Controller does: nothing the component sees, or a
    new world; [None] when its follow-ups do not come to an end. *)
Definition Go : Type := Control -> option Callback -> World -> option World.

(** The completion of [move], and then what the Controller does when it
    was asked to go on. *)
Definition done_under (go : Go) (c : Done) (w : World) : option World :=
  let w' := move_done env c w in
  if follow_up env c w then go (onward c) (done_callback c) w' else Some w'.

(** [Transition.start]: the completion runs at once when there is nothing
    to animate. *)
Definition start_under (go : Go) (dest : Z) (c : Done) (w : World) : option World :=
  if Splide_is (options env) FADE || animates env dest w
  then Some (Transition_start env dest c w)
  else done_under go c (jump env dest w).

(** Move.ts [move]. *)
Definition move_under (go : Go) (dest index prev : Z) (callback : option Callback)
    (w : World) : option World :=
  if negb (isBusy w)
  then start_under go dest (completion_of env dest index prev callback w)
         (requested env dest index prev w)
  else Some w.

(** The end of the transition and the tick of the Fade transition. *)
Definition transitionend_under (go : Go) (w : World) : option World :=
  match endCallback w with
  | Some done => done_under go done (Transition_cancel env w)
  | None => Some w
  end.

Definition tick_under (go : Go) (w : World) : option World :=
  match ticks w with
  | done :: rest => done_under go done (set_ticks rest w)
  | [] => Some w
  end.

(** Whether the Controller goes to the index it has decided on: the
    component is not busy, and the index is another than the current one,
    since Move.ts passes [false] for [allowSameIndex]. *)
Definition goes (i : Z) (w : World) : bool :=
  negb (isBusy w) && negb (i =? index w)%Z.

(** [Controller.go( control, false, callback )]: the index is set and the
    move requested, unless the Controller goes nowhere, the component is
    busy or the index is the current one. *)
Fixpoint go_under (C : ControllerComponent.t) (n : nat) : Go :=
  fun control callback w =>
  match n with
  | O => None
  | S n =>
      match ControllerComponent.plan C control w with
      | Some (dest, i) =>
          if goes i w
          then move_under (go_under C n) dest i (index w) callback (set_index i w)
          else Some w
      | None => Some w
      end
  end.

(** A handler of the component with the Controller [C] at work. *)
Definition serve (C : ControllerComponent.t) (n : nat) (l : Label) (w : World)
    : option World :=
  match l with
  | LMove dest index prev callback => move_under (go_under C n) dest index prev callback w
  | LTransitionEnd => transitionend_under (go_under C n) w
  | LTick => tick_under (go_under C n) w
  | _ => Some (perform env l w)
  end.

(** A Controller that never goes anywhere, and its [go]. *)
Definition still : ControllerComponent.t :=
  {| ControllerComponent.plan _ _ := None |}.

Definition still_go : Go := fun _ _ w => Some w.

(** How far the index is from the end the control leads to. *)
Definition room (control : Control) (w : World) : nat :=
  match control with
  | Next => Z.to_nat (getEnd env - index w)
  | Prev => Z.to_nat (index w)
  end.

(** [w'] is reached from [w] by handlers of [Motion] called as [P]
    allows. *)
Definition reaches (P : Label -> bool) (w w' : World) : Prop :=
  exists ls, forallb P ls = true /\ run env w ls w'.

(** Every answer of [go] is reached by such handlers. *)
Definition Reaching (P : Label -> bool) (go : Go) : Prop :=
  forall control callback w w', go control callback w = Some w' -> reaches P w w'.

(** The calls of a Controller are calls [P] allows. *)
Definition Planned (P : Label -> bool) (C : ControllerComponent.t) : Prop :=
  forall control callback w dest i,
    ControllerComponent.plan C control w = Some (dest, i) ->
    P (LSetIndex i) = true /\ P (LMove dest i (index w) callback) = true.

End Under.

(** Any call at all. *)
Definition any : Label -> bool := fun _ => true.

(** ** Runs *)

Lemma run_app (env : Env) (w w' w'' : World) (ls ls' : list Label) :
  run env w ls w' -> run env w' ls' w'' -> run env w (ls ++ ls') w''.
Proof. induction 1; cbn; eauto using run_cons. Qed.

#[export] Instance reaches_PreOrder (env : Env) (P : Label -> bool) :
  PreOrder (reaches env P).
Proof.
  split.
  - intros w. exists []. split; [reflexivity | constructor].
  - intros w1 w2 w3 (ls1 & P1 & H1) (ls2 & P2 & H2). exists (ls1 ++ ls2). split.
    + rewrite forallb_app, P1, P2. reflexivity.
    + eapply run_app; eassumption.
Qed.

Lemma reaches_perform (env : Env) (P : Label -> bool) (l : Label) (w : World) :
  P l = true -> enabled env l w = true -> reaches env P w (perform env l w).
Proof.
  intros Hp He. exists [l]. split; [cbn; now rewrite Hp|].
  eapply run_cons; [now apply step_apply | apply run_nil].
Qed.

Lemma reaches_run (env : Env) (P : Label -> bool) (w w' : World) :
  reaches env P w w' -> exists ls, run env w ls w'.
Proof. intros (ls & _ & H). now exists ls. Qed.

Lemma reaches_reachable (env : Env) (P : Label -> bool) (w w' : World) :
  reachable env w -> reaches env P w w' -> reachable env w'.
Proof.
  intros [ls1 H1] (ls2 & _ & H2). exists (ls1 ++ ls2). eapply run_app; eassumption.
Qed.

Lemma Planned_any (C : ControllerComponent.t) : Planned any C.
Proof. intros control callback w dest i _. split; reflexivity. Qed.

(** ** The handlers under a Controller, by cases *)

Section Cases.
Variable env : Env.

Lemma move_requested (dest i prev : Z) (cb : option Callback) (w : World) :
  move env dest i prev cb w
  = if negb (isBusy w)
    then Transition_start env dest (completion_of env dest i prev cb w)
           (requested env dest i prev w)
    else w.
Proof. reflexivity. Qed.

(** The completion that [Transition.start] runs at once. *)
Lemma Transition_start_at_once (dest : Z) (c : Done) (w : World) :
  Splide_is (options env) FADE || animates env dest w = false ->
  Transition_start env dest c w = move_done env c (jump env dest w).
Proof.
  intros H. apply orb_false_iff in H as [Hf Ha]. unfold Transition_start, animates in *.
  now rewrite Hf, Ha.
Qed.

(** Whether the completion of the move runs before [move] returns and
    asks the Controller to go on. *)
Definition chases (dest i prev : Z) (cb : option Callback) (w : World) : bool :=
  negb (isBusy w)
  && negb (Splide_is (options env) FADE || animates env dest (requested env dest i prev w))
  && follow_up env (completion_of env dest i prev cb w)
       (jump env dest (requested env dest i prev w)).

(** [move] under a Controller is [move], and then the Controller if the
    move was absorbed at once. *)
Lemma move_under_cases (go : Go) (dest i prev : Z) (cb : option Callback) (w : World) :
  move_under env go dest i prev cb w
  = if chases dest i prev cb w
    then go (if (dest >? prev)%Z then Next else Prev) cb (move env dest i prev cb w)
    else Some (move env dest i prev cb w).
Proof.
  unfold move_under, chases. rewrite move_requested.
  destruct (negb (isBusy w)); [|reflexivity]. cbn [andb].
  unfold start_under.
  destruct (Splide_is (options env) FADE || animates env dest _) eqn:E; [reflexivity|].
  cbn [negb andb]. rewrite (Transition_start_at_once _ _ _ E). unfold done_under.
  now destruct (follow_up env _ _).
Qed.

(** With a Controller that never goes anywhere the handlers are the
    handlers of [Motion]. *)
Lemma done_under_still (c : Done) (w : World) :
  done_under env still_go c w = Some (move_done env c w).
Proof. unfold done_under, still_go. now destruct (follow_up env c w). Qed.

Lemma move_under_still (dest i prev : Z) (cb : option Callback) (w : World) :
  move_under env still_go dest i prev cb w = Some (move env dest i prev cb w).
Proof. rewrite move_under_cases. unfold still_go. now destruct (chases _ _ _ _ _). Qed.

Lemma serve_still (n : nat) (l : Label) (w : World) :
  serve env still (S n) l w = Some (perform env l w).
Proof.
  destruct l; try reflexivity; cbn [serve perform go_under still ControllerComponent.plan];
    fold still_go.
  - apply move_under_still.
  - unfold transitionend_under, transitionend.
    destruct (endCallback w); [apply done_under_still | reflexivity].
  - unfold tick_under, tick. destruct (ticks w); [reflexivity | apply done_under_still].
Qed.

(** ** Every handler under a Controller is a run of [Motion] *)

Section Reached.
Variable P : Label -> bool.

Lemma done_under_reaches (go : Go) (c : Done) (w0 w w' : World) :
  Reaching env P go -> reaches env P w0 (move_done env c w) ->
  done_under env go c w = Some w' -> reaches env P w0 w'.
Proof.
  intros Hg H0. unfold done_under. destruct (follow_up env c w).
  - intros H. transitivity (move_done env c w); [exact H0 | exact (Hg _ _ _ _ H)].
  - now intros [= <-].
Qed.

Lemma move_under_reaches (go : Go) (dest i prev : Z) (cb : option Callback) (w w' : World) :
  Reaching env P go -> P (LMove dest i prev cb) = true ->
  move_under env go dest i prev cb w = Some w' -> reaches env P w w'.
Proof.
  intros Hg Hp. rewrite move_under_cases.
  pose proof (reaches_perform env P (LMove dest i prev cb) w Hp eq_refl) as Hm.
  cbn [perform] in Hm. destruct (chases _ _ _ _ _).
  - intros H. transitivity (move env dest i prev cb w); [exact Hm | exact (Hg _ _ _ _ H)].
  - now intros [= <-].
Qed.

Lemma go_under_Reaching (C : ControllerComponent.t) (n : nat) :
  Planned P C -> Reaching env P (go_under env C n).
Proof.
  intros HC.
  induction n as [|n IH]; intros control cb w w' H; cbn [go_under] in H; [discriminate|].
  destruct (ControllerComponent.plan C control w) as [[dest i]|] eqn:Ep;
    [|injection H as <-; reflexivity].
  destruct (goes i w); [|injection H as <-; reflexivity].
  destruct (HC control cb w dest i Ep) as [Hi Hm].
  transitivity (set_index i w).
  - exact (reaches_perform env P (LSetIndex i) w Hi eq_refl).
  - exact (move_under_reaches _ _ _ _ _ _ _ IH Hm H).
Qed.

Lemma serve_reaches (C : ControllerComponent.t) (n : nat) (l : Label) (w w' : World) :
  Planned P C -> P l = true ->
  enabled env l w = true -> serve env C n l w = Some w' -> reaches env P w w'.
Proof.
  intros HC Hl He. pose proof (go_under_Reaching C n HC) as Hg.
  pose proof (reaches_perform env P l w Hl He) as Hp.
  destruct l; cbn [serve perform] in *; try (now intros [= <-]).
  - now apply move_under_reaches.
  - unfold transitionend_under, transitionend in *.
    destruct (endCallback w); [now apply done_under_reaches | now intros [= <-]].
  - unfold tick_under, tick in *.
    destruct (ticks w); [now intros [= <-] | now apply done_under_reaches].
Qed.

End Reached.

(** ** More fuel, same result *)

Lemma go_under_S (C : ControllerComponent.t) (n : nat) :
  forall control cb w w',
    go_under env C n control cb w = Some w' -> go_under env C (S n) control cb w = Some w'.
Proof.
  induction n as [|n IH]; intros control cb w w' H; [discriminate|].
  cbn [go_under] in *.
  destruct (ControllerComponent.plan C control w) as [[dest i]|]; [|exact H].
  destruct (goes i w); [|exact H].
  rewrite move_under_cases in *. destruct (chases _ _ _ _ _); [now apply IH | exact H].
Qed.

Lemma go_under_fuel (C : ControllerComponent.t) (n m : nat) (control : Control)
    (cb : option Callback) (w w' : World) :
  (n <= m)%nat -> go_under env C n control cb w = Some w' ->
  go_under env C m control cb w = Some w'.
Proof. induction 1 as [|m _ IH]; [auto|]. intros H. now apply go_under_S, IH. Qed.

(** ** What a request to go on logs *)

(** [callback && callback()] *)
Definition called (cb : option Callback) : list Effect :=
  match cb with Some callback => [Call callback] | None => [] end.

(** What an accepted [move] logs before it returns. *)
Definition trail (dest i prev : Z) (cb : option Callback) (w : World) : list Effect :=
  Emit (EVENT_MOVE i prev dest) :: TransitionStart dest ::
  (if Splide_is (options env) FADE || animates env dest (requested env dest i prev w)
   then []
   else Emit (EVENT_MOVED i prev dest) ::
        (if follow_up env (completion_of env dest i prev cb w)
              (jump env dest (requested env dest i prev w))
         then [ControllerGo (if (dest >? prev)%Z then Next else Prev) false cb]
         else called cb)).

Lemma log_Transition_start_waits (dest : Z) (c : Done) (w : World) :
  Splide_is (options env) FADE || animates env dest w = true ->
  log (Transition_start env dest c w) = log w.
Proof.
  unfold Transition_start, animates.
  destruct (Splide_is (options env) FADE); [reflexivity|]. cbn [orb].
  intros ->. reflexivity.
Qed.

Lemma move_trail (dest i prev : Z) (cb : option Callback) (w : World) :
  isBusy w = false ->
  log (move env dest i prev cb w) = log w ++ trail dest i prev cb w.
Proof.
  intros Hb. rewrite move_requested, Hb. cbn [negb]. unfold trail.
  destruct (Splide_is (options env) FADE || animates env dest _) eqn:E.
  - rewrite (log_Transition_start_waits _ _ _ E). unfold requested. wsimpl.
    now rewrite <- app_assoc.
  - rewrite (Transition_start_at_once _ _ _ E), move_done_log.
    unfold jump, translate, requested. wsimpl. now rewrite <- !app_assoc.
Qed.

(** The logs of a request to go on: moves that were absorbed, each
    handing the callback on to the Controller, and then nothing more, a
    move under way, or a move that ended and called the callback. *)
Inductive Chain (cb : option Callback) : list Effect -> Prop :=
| chain_nowhere : Chain cb []
| chain_under_way (i prev dest : Z) :
    Chain cb [Emit (EVENT_MOVE i prev dest); TransitionStart dest]
| chain_ended (i prev dest : Z) :
    Chain cb (Emit (EVENT_MOVE i prev dest) :: TransitionStart dest
              :: Emit (EVENT_MOVED i prev dest) :: called cb)
| chain_absorbed (i prev dest : Z) (control : Control) (l : list Effect) :
    Chain cb l ->
    Chain cb (Emit (EVENT_MOVE i prev dest) :: TransitionStart dest
              :: Emit (EVENT_MOVED i prev dest) :: ControllerGo control false cb :: l).

(** The trail of a move that is not followed up ends a chain; the trail
    of one that is followed up goes on. *)
Lemma trail_Chain (dest i prev : Z) (cb : option Callback) (w : World) (l : list Effect) :
  isBusy w = false ->
  (if chases dest i prev cb w then Chain cb l else l = []) ->
  Chain cb (trail dest i prev cb w ++ l).
Proof.
  intros Hb. unfold chases, trail. rewrite Hb. cbn [negb andb].
  destruct (Splide_is (options env) FADE || animates env dest _); cbn [negb andb app].
  - intros ->. constructor.
  - destruct (follow_up env _ _); cbn [app].
    + now constructor.
    + intros ->. rewrite app_nil_r. constructor.
Qed.

Lemma go_under_Chain (C : ControllerComponent.t) (n : nat) : forall control cb w w',
  go_under env C n control cb w = Some w' ->
  exists l, log w' = log w ++ l /\ Chain cb l.
Proof.
  induction n as [|n IH]; intros control cb w w' H; [discriminate|].
  assert (Hnil : exists l, log w = log w ++ l /\ Chain cb l)
    by (exists []; split; [now rewrite app_nil_r | constructor]).
  cbn [go_under] in H.
  destruct (ControllerComponent.plan C control w) as [[dest i]|];
    [|now injection H as <-].
  destruct (goes i w) eqn:Hg; [|now injection H as <-].
  apply andb_true_iff in Hg as [Hb%negb_true_iff _].
  rewrite move_under_cases in H.
  pose proof (move_trail dest i (index w) cb (set_index i w) Hb) as Hm.
  pose proof (trail_Chain dest i (index w) cb (set_index i w)) as Ht.
  destruct (chases _ _ _ _ _).
  - destruct (IH _ _ _ _ H) as (l & El & Hl).
    exists (trail dest i (index w) cb (set_index i w) ++ l). split; [|now apply Ht].
    rewrite El, Hm. wsimpl. now rewrite app_assoc.
  - injection H as <-. exists (trail dest i (index w) cb (set_index i w)). split; [exact Hm|].
    rewrite <- (app_nil_r (trail _ _ _ _ _)). now apply Ht.
Qed.

(** In a chain the callback is called at most once, by the move that
    ended it. *)
Lemma Chain_calls (cb : option Callback) (l : list Effect) :
  Chain cb l ->
  exists pre, (l = pre \/ l = pre ++ called cb) /\ forall k, ~ In (Call k) pre.
Proof.
  induction 1 as [|i prev dest|i prev dest|i prev dest control l _ (pre & Hl & Hp)].
  - exists []. split; [now left | easy].
  - exists [Emit (EVENT_MOVE i prev dest); TransitionStart dest].
    split; [now left | intros k [|[|[]]]; discriminate].
  - exists [Emit (EVENT_MOVE i prev dest); TransitionStart dest; Emit (EVENT_MOVED i prev dest)].
    split; [now right | intros k [|[|[|[]]]]; discriminate].
  - exists (Emit (EVENT_MOVE i prev dest) :: TransitionStart dest
            :: Emit (EVENT_MOVED i prev dest) :: ControllerGo control false cb :: pre).
    split; [destruct Hl as [-> | ->]; [now left | now right]|].
    intros k [|[|[|[|Hk]]]]; try discriminate. exact (Hp k Hk).
Qed.

(** ** Where the callback of a request ends up *)

(** The Controller has nowhere to go from [w]. *)
Definition stays (C : ControllerComponent.t) (control : Control) (w : World) : bool :=
  match ControllerComponent.plan C control w with
  | Some (_, i) => negb (goes i w)
  | None => true
  end.

(** A completion waits with the callback. *)
Definition pending (cb : option Callback) (w : World) : Prop :=
  exists c, done_callback c = cb /\ (endCallback w = Some c \/ In c (ticks w)).

(** How a request to go on ends: the Controller had nowhere to go at
    all; or the chain ended at the Controller, which was handed the
    callback last and has nowhere to go; or a completion waits with the
    callback; or the last move ended and called the callback. *)
Definition Fate (C : ControllerComponent.t) (control : Control) (cb : option Callback)
    (w w' : World) : Prop :=
  (stays C control w' = true /\ w' = w)
  \/ (exists control', stays C control' w' = true
        /\ exists l, log w' = l ++ [ControllerGo control' false cb])
  \/ pending cb w'
  \/ exists l i prev dest, log w' = l ++ Emit (EVENT_MOVED i prev dest) :: called cb.

(** A transition that runs keeps the completion. *)
Lemma Transition_start_pending (dest : Z) (c : Done) (w : World) :
  Splide_is (options env) FADE || animates env dest w = true ->
  pending (done_callback c) (Transition_start env dest c w).
Proof.
  unfold Transition_start, animates. intros H. exists c. split; [reflexivity|].
  destruct (Splide_is (options env) FADE); cbn [orb] in H.
  - right. wsimpl. apply in_or_app. right. now left.
  - rewrite H. now left.
Qed.

(** A move that is not followed up leaves its completion pending or has
    called the callback. *)
Lemma move_settles (dest i prev : Z) (cb : option Callback) (w : World) :
  isBusy w = false -> chases dest i prev cb w = false ->
  pending cb (move env dest i prev cb w)
  \/ exists l, log (move env dest i prev cb w)
               = l ++ Emit (EVENT_MOVED i prev dest) :: called cb.
Proof.
  intros Hb Hc. unfold chases in Hc. rewrite Hb in Hc. cbn [negb andb] in Hc.
  rewrite move_requested, Hb. cbn [negb].
  destruct (Splide_is (options env) FADE || animates env dest _) eqn:E.
  - left. exact (Transition_start_pending dest (completion_of env dest i prev cb w) _ E).
  - right. cbn [negb andb] in Hc.
    rewrite (Transition_start_at_once _ _ _ E), move_done_log, Hc. eexists. reflexivity.
Qed.

(** The trail of a move that is followed up ends with the request. *)
Lemma move_hands_on (dest i prev : Z) (cb : option Callback) (w : World) :
  isBusy w = false -> chases dest i prev cb w = true ->
  exists l, log (move env dest i prev cb w)
            = l ++ [ControllerGo (if (dest >? prev)%Z then Next else Prev) false cb].
Proof.
  intros Hb Hc. rewrite (move_trail _ _ _ _ _ Hb). unfold trail.
  unfold chases in Hc. rewrite Hb in Hc. cbn [negb andb] in Hc.
  apply andb_true_iff in Hc as [Ha%negb_true_iff Hf]. rewrite Ha, Hf.
  exists (log w ++ [Emit (EVENT_MOVE i prev dest); TransitionStart dest;
                    Emit (EVENT_MOVED i prev dest)]).
  now rewrite <- app_assoc.
Qed.

Lemma go_under_fate (C : ControllerComponent.t) (n : nat) : forall control cb w w',
  go_under env C n control cb w = Some w' -> Fate C control cb w w'.
Proof.
  induction n as [|n IH]; intros control cb w w' H; [discriminate|].
  cbn [go_under] in H. unfold Fate, stays.
  destruct (ControllerComponent.plan C control w) as [[dest i]|] eqn:Ep;
    [|injection H as <-; left; now rewrite Ep].
  destruct (goes i w) eqn:Hg; [|injection H as <-; left; now rewrite Ep, Hg].
  apply andb_true_iff in Hg as [Hb%negb_true_iff _].
  rewrite move_under_cases in H. right.
  pose proof (move_settles dest i (index w) cb (set_index i w) Hb) as Hs.
  pose proof (move_hands_on dest i (index w) cb (set_index i w) Hb) as Hh.
  destruct (chases _ _ _ _ _).
  - destruct (IH _ _ _ _ H) as [[Hst ->]|Hrest]; [|exact Hrest].
    left. eexists. split; [exact Hst | now apply Hh].
  - injection H as <-. right.
    destruct (Hs eq_refl) as [Hp|[l Hl]]; [now left | right; eauto].
Qed.

(** ** The follow-ups of a Controller that makes progress come to an end *)

Lemma index_move (dest i prev : Z) (cb : option Callback) (w : World) :
  index (move env dest i prev cb w) = index w.
Proof.
  rewrite move_requested. destruct (negb (isBusy w)); [|reflexivity].
  unfold Transition_start. destruct (Splide_is (options env) FADE); [reflexivity|].
  destruct (_ && _); [reflexivity|].
  now destruct (move_done_settled env (completion_of env dest i prev cb w)
                  (jump env dest (requested env dest i prev w))) as (_ & _ & _ & _ & _ & E & _).
Qed.

Section Progress.
Context (C : ControllerComponent.t) {HP : Progressive env C}.

(** The follow-up of a move the Controller has made goes on in the
    direction of the control, with less room. *)
Lemma plan_room (control : Control) (cb : option Callback) (w : World) (dest i : Z) :
  ControllerComponent.plan C control w = Some (dest, i) ->
  (room env (if (dest >? index w)%Z then Next else Prev)
     (move env dest i (index w) cb (set_index i w))
   < room env control w)%nat.
Proof.
  intros Ep. pose proof (plan_slide _ _ _ _ Ep) as ->.
  unfold room. rewrite index_move. cbn [index set_index].
  destruct control.
  - apply plan_next in Ep. destruct (Z.gtb_spec i (index w)); lia.
  - apply plan_prev in Ep. destruct (Z.gtb_spec i (index w)); lia.
Qed.

Lemma go_under_total (n : nat) : forall control cb w,
  (room env control w < n)%nat -> exists w', go_under env C n control cb w = Some w'.
Proof.
  induction n as [|n IH]; intros control cb w Hr; [lia|]. cbn [go_under].
  destruct (ControllerComponent.plan C control w) as [[dest i]|] eqn:Ep; [|eauto].
  destruct (goes i w); [|eauto].
  rewrite move_under_cases. destruct (chases _ _ _ _ _); [|eauto].
  apply IH. pose proof (plan_room control cb w dest i Ep). lia.
Qed.

(** The index goes the way of the control and stays within the slider. *)
Definition towards (control : Control) (w w' : World) : Prop :=
  match control with
  | Next => (index w <= index w' <= Z.max (index w) (getEnd env))%Z
  | Prev => (Z.min 0 (index w) <= index w' <= index w)%Z
  end.

Lemma towards_refl (control : Control) (w : World) : towards control w w.
Proof. destruct control; cbn; lia. Qed.

Lemma towards_planned (control : Control) (w w1 w' : World) (dest i : Z) :
  ControllerComponent.plan C control w = Some (dest, i) ->
  index w1 = i ->
  towards (if (dest >? index w)%Z then Next else Prev) w1 w' ->
  towards control w w'.
Proof.
  intros Ep E1. pose proof (plan_slide _ _ _ _ Ep) as ->. destruct control.
  - apply plan_next in Ep. destruct (Z.gtb_spec i (index w)); [|lia]. cbn. lia.
  - apply plan_prev in Ep. destruct (Z.gtb_spec i (index w)); [lia|]. cbn. lia.
Qed.

Lemma go_under_towards (n : nat) : forall control cb w w',
  go_under env C n control cb w = Some w' -> towards control w w'.
Proof.
  induction n as [|n IH]; intros control cb w w' H; [discriminate|].
  cbn [go_under] in H.
  destruct (ControllerComponent.plan C control w) as [[dest i]|] eqn:Ep;
    [|injection H as <-; apply towards_refl].
  destruct (goes i w); [|injection H as <-; apply towards_refl].
  rewrite move_under_cases in H.
  apply (towards_planned control w (move env dest i (index w) cb (set_index i w)) w' dest i Ep);
    [now rewrite index_move|].
  destruct (chases _ _ _ _ _); [exact (IH _ _ _ _ H)|].
  injection H as <-. apply towards_refl.
Qed.

End Progress.

End Cases.

(** The Controller that moves by one slide makes progress. *)
#[export] Instance stepper_Progressive (env : Env) : Progressive env (stepper env).
Proof.
  split; cbn.
  - intros [] w dest i; destruct (_ <? _)%Z; now intros [= <- <-].
  - intros w dest i. destruct (Z.ltb_spec (index w) (getEnd env)); [|discriminate].
    intros [= _ <-]. lia.
  - intros w dest i. destruct (Z.ltb_spec 0 (index w)); [|discriminate].
    intros [= _ <-]. lia.
Qed.

(** The Controller that moves by one slide has nowhere to go exactly at
    the end of the slider its control names. *)
Lemma stepper_stays (env : Env) (control : Control) (w : World) :
  isBusy w = false ->
  stays (stepper env) control w
  = match control with
    | Next => (getEnd env <=? index w)%Z
    | Prev => (index w <=? 0)%Z
    end.
Proof.
  intros Hb. unfold stays, goes. rewrite Hb.
  destruct control; cbn [stepper ControllerComponent.plan negb andb].
  - destruct (Z.ltb_spec (index w) (getEnd env)), (Z.leb_spec (getEnd env) (index w));
      try (exfalso; lia); [|reflexivity].
    destruct (Z.eqb_spec (index w + 1) (index w)); [exfalso; lia | reflexivity].
  - destruct (Z.ltb_spec 0 (index w)), (Z.leb_spec (index w) 0);
      try (exfalso; lia); [|reflexivity].
    destruct (Z.eqb_spec (index w - 1) (index w)); [exfalso; lia | reflexivity].
Qed.

(** ** A Controller that goes to registered slides *)

Definition Registered (env : Env) (C : ControllerComponent.t) : Prop :=
  forall control w dest i,
    ControllerComponent.plan C control w = Some (dest, i) ->
    registered env dest = true /\ registered env i = true.

Lemma Registered_Planned (env : Env) (C : ControllerComponent.t) :
  Registered env C -> Planned (proper env) C.
Proof.
  intros H control cb w dest i Ep. destruct (H _ _ _ _ Ep) as [Hd Hi].
  cbn [proper]. now rewrite Hd, Hi.
Qed.

(** A Controller that checks where it goes: it goes nowhere rather than
    to an index that is not registered. *)
Definition guarded (env : Env) (C : ControllerComponent.t) : ControllerComponent.t := {|
  ControllerComponent.plan control w :=
    match ControllerComponent.plan C control w with
    | Some (dest, i) =>
        if registered env dest && registered env i then Some (dest, i) else None
    | None => None
    end
|}.

Lemma guarded_Registered (env : Env) (C : ControllerComponent.t) :
  Registered env (guarded env C).
Proof.
  intros control w dest i. cbn [guarded ControllerComponent.plan].
  destruct (ControllerComponent.plan C control w) as [[d j]|]; [|discriminate].
  destruct (registered env d && registered env j) eqn:E; [|discriminate].
  intros [= <- <-]. now apply andb_true_iff.
Qed.

#[export] Instance guarded_Progressive (env : Env) (C : ControllerComponent.t)
  `{!Progressive env C} : Progressive env (guarded env C).
Proof.
  split; intros *; cbn [guarded ControllerComponent.plan];
    destruct (ControllerComponent.plan C _ w) as [[d j]|] eqn:Ep; try discriminate;
    (destruct (registered env d && registered env j); [|discriminate]);
    intros [= <- <-];
    [exact (plan_slide _ _ _ _ Ep) | exact (plan_next _ _ _ Ep) | exact (plan_prev _ _ _ Ep)].
Qed.

(** ** Theorems *)

(** Whatever the Controller decides, a handler run with it is a run of
    the handlers of [Motion]: index updates and moves. *)
Theorem serve_run (env : Env) (C : ControllerComponent.t) (n : nat) (l : Label)
    (w w' : World) :
  enabled env l w = true -> serve env C n l w = Some w' ->
  exists ls, run env w ls w'.
Proof.
  intros He Hs. apply (reaches_run env any).
  exact (serve_reaches env any C n l w w' (Planned_any C) eq_refl He Hs).
Qed.

(** C13. Whatever the Controller decides, the component stays sound with
    the Controller at work: what a handler leaves of a reachable world
    satisfies the invariants of the orchestration, of the log, of the DOM
    and of the looping completions. *)
Theorem serve_Sound (env : Env) (C : ControllerComponent.t) (n : nat) (l : Label)
    (w w' : World) :
  reachable env w -> enabled env l w = true -> serve env C n l w = Some w' ->
  Inv env w' /\ Ordered w' /\ Coherent env (dom w') /\ Shaped env w' /\ Awaited w'.
Proof.
  intros Hr He Hs.
  pose proof (reaches_reachable env any w w' Hr
                (serve_reaches env any C n l w w' (Planned_any C) eq_refl He Hs)) as H.
  destruct H as [ls Hrun]. assert (Hw' : reachable env w') by now exists ls.
  exact (conj (Inv_reachable env w' Hw')
          (conj (Ordered_run env _ _ _ Hrun Ordered_created)
             (conj (Coherent_reachable env w' Hw')
                (conj (Shaped_reachable env w' Hw') (Awaited_reachable env w' Hw'))))).
Qed.

(** C19. With a Controller that goes to slides of the registry, a
    handler called with registered indices, run with all the follow-ups
    its completion asks of the Controller, sends the list to the place of
    a registered slide and nowhere else. *)
Theorem serve_Derived (env : Env) (C : ControllerComponent.t) (n : nat) (l : Label)
    (w w' : World) :
  Registered env C -> proper env l = true ->
  Coherent env (dom w) -> Shaped env w -> Derived env w ->
  enabled env l w = true -> serve env C n l w = Some w' ->
  Derived env w' /\ placed env (target (dom w')).
Proof.
  intros HC Hl Hc Hs Hd He H.
  destruct (serve_reaches env (proper env) C n l w w' (Registered_Planned env C HC) Hl He H)
    as (ls & Hp & Hr).
  pose proof (Derived_run env w w' ls Hr Hp Hc Hs Hd) as Hd'.
  split; [exact Hd' | exact (der_target _ _ Hd')].
Qed.

(** With a Controller that makes progress the index goes the way of the
    control and never leaves the slider. *)
Theorem go_under_within (env : Env) (C : ControllerComponent.t)
    `{!Progressive env C} (n : nat) (control : Control) (cb : option Callback)
    (w w' : World) :
  (0 <= index w <= getEnd env)%Z ->
  go_under env C n control cb w = Some w' ->
  (0 <= index w' <= getEnd env)%Z
  /\ match control with
     | Next => (index w <= index w')%Z
     | Prev => (index w' <= index w)%Z
     end.
Proof.
  intros Hi H. pose proof (go_under_towards env C n control cb w w' H) as Ht.
  destruct control; cbn in Ht; lia.
Qed.

(** C24. With a Controller that makes progress, the follow-ups of a request
    come to an end: [Controller.go] returns within the room between the
    index and the end of the slider the control leads to, whatever the
    fuel beyond that, and what it returns is reached by handlers of
    [Motion]. *)
Theorem go_under_terminates (env : Env) (C : ControllerComponent.t)
    `{!Progressive env C} (n : nat) (control : Control) (cb : option Callback)
    (w : World) :
  (room env control w < n)%nat ->
  exists w', go_under env C n control cb w = Some w' /\ (exists ls, run env w ls w').
Proof.
  intros Hr. destruct (go_under_total env C n control cb w Hr) as [w' H].
  exists w'. split; [exact H|]. apply (reaches_run env any).
  exact (go_under_Reaching env any C n (Planned_any C) _ _ _ _ H).
Qed.

(** C31. What [Controller.go] adds to the log is a chain: moves that
    trimming absorbed, each with its move event, the start of its
    transition, its moved event and the request to go on that hands the
    callback to the Controller, and then nothing more (the Controller has
    nowhere to go or the component is busy), a move under way, or a move
    that ended and called the callback.  So the callback is called at most
    once, last; and it is accounted for: when the request has returned, a
    completion waits with the callback, or the last move has ended and
    called it, or the chain ended at a Controller that has nowhere to go,
    and then the callback is never called. *)
Theorem go_under_chain (env : Env) (C : ControllerComponent.t) (n : nat)
    (control : Control) (cb : option Callback) (w w' : World) :
  go_under env C n control cb w = Some w' ->
  (exists l, log w' = log w ++ l /\ Chain cb l
             /\ exists pre, (l = pre \/ l = pre ++ called cb)
                            /\ forall k, ~ In (Call k) pre)
  /\ Fate C control cb w w'.
Proof.
  intros H. split; [|exact (go_under_fate env C n control cb w w' H)].
  destruct (go_under_Chain env C n control cb w w' H) as (l & El & Hl).
  exists l. repeat split; [exact El | exact Hl | exact (Chain_calls cb l Hl)].
Qed.

(** [move] with the Controller at work is [move], followed by
    [Controller.go] in the direction of the move exactly when the move was
    accepted, its transition had nothing to animate, and its completion
    found the list where it was before the move, with [trimSpace: 'move']
    and a destination other than the previous index. *)
Theorem move_under_follows (env : Env) (go : Go) (dest i prev : Z)
    (cb : option Callback) (w : World) :
  move_under env go dest i prev cb w
  = if chases env dest i prev cb w
    then go (if (dest >? prev)%Z then Next else Prev) cb (move env dest i prev cb w)
    else Some (move env dest i prev cb w).
Proof. apply move_under_cases. Qed.

(** ** The theorems at a centred slider *)

(** Five slides 100 wide in a viewport of 300, centred, with
    [trimSpace: 'move']: the first two slides are held at 0 and the last
    two at -200. *)
Definition centred_move : Env := {|
  options := with_trimSpace TrimMove (with_focus FocusCenter defaults);
  layout := uniform 5 0 100 0 300 0;
  Slides := indices 0 5;
  getEnd := 4
|}.

Example centred_move_positions :
  map (fun i => Qred (toPosition centred_move i true)) [0; 1; 2; 3; 4]%Z
  = [0; 0; -100; -200; -200].
Proof. vm_compute. reflexivity. Qed.

Lemma go_under_terminates_witness :
  exists w', go_under centred_move (stepper centred_move) 5 Next (Some 7%nat) created
             = Some w'
             /\ exists ls, run centred_move created ls w'.
Proof.
  apply (go_under_terminates centred_move (stepper centred_move) 5 Next (Some 7%nat) created).
  vm_compute. lia.
Defined.

(** The move from the first slide to the second, absorbed and followed
    up by the Controller. *)
Definition followed_up : World :=
  move centred_move 2 2 1 (Some 7%nat)
    (set_index 2 (move centred_move 1 1 0 (Some 7%nat) (set_index 1 created))).

Example followed_up_served :
  serve centred_move (stepper centred_move) 3 (LMove 1 1 0 (Some 7%nat))
    (set_index 1 created)
  = Some followed_up.
Proof. vm_compute. reflexivity. Qed.

Lemma index_set_reachable (env : Env) (i : Z) : reachable env (set_index i created).
Proof.
  apply (reaches_reachable env any created); [apply created_reachable|].
  exact (reaches_perform env any (LSetIndex i) created eq_refl eq_refl).
Qed.

Lemma serve_Sound_witness :
  Inv centred_move followed_up /\ Ordered followed_up
  /\ Coherent centred_move (dom followed_up)
  /\ Shaped centred_move followed_up /\ Awaited followed_up.
Proof.
  apply (serve_Sound centred_move (stepper centred_move) 3 (LMove 1 1 0 (Some 7%nat))
           (set_index 1 created) followed_up);
    [apply index_set_reachable | reflexivity | exact followed_up_served].
Defined.

Lemma serve_Derived_witness :
  Derived centred_move followed_up /\ placed centred_move (target (dom followed_up)).
Proof.
  apply (serve_Derived centred_move (guarded centred_move (stepper centred_move)) 3
           (LMove 1 1 0 (Some 7%nat)) (set_index 1 created) followed_up).
  - apply guarded_Registered.
  - vm_compute. reflexivity.
  - apply Coherent_initial.
  - apply Shaped_created.
  - apply (Derived_reached centred_move _ [LSetIndex 1]); [vm_compute; reflexivity | |].
    + eapply run_cons; [apply step_apply; reflexivity | apply run_nil].
    + vm_compute. reflexivity.
  - reflexivity.
  - vm_compute. reflexivity.
Defined.

(** One request to go on from the first slide: the move to the second
    slide is absorbed, the Controller is asked again and the move to the
    third slide animates.  The callback travels with the requests and is
    called when that move has ended. *)
Example held_slide_skipped :
  let went := go_under centred_move (stepper centred_move) 3 Next (Some 7%nat) created in
  let ended := match went with
               | Some w => serve centred_move (stepper centred_move) 3 LTransitionEnd w
               | None => None
               end in
  option_map (fun w => (index w, isBusy w, Qred (target (dom w)))) went
  = Some (2%Z, true, -100)
  /\ option_map log went
     = Some [Emit (EVENT_MOVE 1 0 1); TransitionStart 1; Emit (EVENT_MOVED 1 0 1);
             ControllerGo Next false (Some 7%nat);
             Emit (EVENT_MOVE 2 1 2); TransitionStart 2]
  /\ option_map (fun w => skipn 6 (log w)) ended
     = Some [Emit (EVENT_MOVED 2 1 2); Call 7%nat].
Proof. cbv zeta. repeat split; vm_compute; reflexivity. Qed.

(** The request to go on from the fourth slide, held at the end with the
    fifth. *)
Definition on_fourth_held : World := set_index 3 (jump centred_move 3 created).

Definition at_the_end : World :=
  move centred_move 4 4 3 (Some 7%nat) (set_index 4 on_fourth_held).

Example at_the_end_gone :
  go_under centred_move (stepper centred_move) 3 Next (Some 7%nat) on_fourth_held
  = Some at_the_end.
Proof. vm_compute. reflexivity. Qed.

Lemma go_under_chain_witness :
  (exists l, log at_the_end = log on_fourth_held ++ l /\ Chain (Some 7%nat) l
             /\ exists pre, (l = pre \/ l = pre ++ called (Some 7%nat))
                            /\ forall k, ~ In (Call k) pre)
  /\ Fate (stepper centred_move) Next (Some 7%nat) on_fourth_held at_the_end.
Proof.
  exact (go_under_chain centred_move (stepper centred_move) 3 Next (Some 7%nat)
           on_fourth_held at_the_end at_the_end_gone).
Defined.

(** From the fourth slide, held at the end with the fifth: the move to
    the fifth slide is absorbed, the Controller is asked to go on and has
    nowhere to go.  The callback of the move is never called. *)
Example callback_lost_at_the_end :
  let w := set_index 3 (jump centred_move 3 created) in
  let went := go_under centred_move (stepper centred_move) 3 Next (Some 7%nat) w in
  option_map (fun w => (index w, isBusy w)) went = Some (4%Z, false)
  /\ option_map log went
     = Some [Emit (EVENT_MOVE 4 3 4); TransitionStart 4; Emit (EVENT_MOVED 4 3 4);
             ControllerGo Next false (Some 7%nat)].
Proof. cbv zeta. split; vm_compute; reflexivity. Qed.
