(* ===== verification/Reentry.v ===== *)
(** * Reentry: the handlers of Move.ts between their events

    [emit] of the EventInterface runs the listeners of an event before it
    returns, and a listener is code of another component or of the page:
    it may call the interface of the Move component again, while the
    handler that emitted is still on the stack.  Move.ts emits in the
    middle of two of its functions: [move] emits the move event (line 95)
    before it starts the transition (line 97), and the completion emits
    the moved event (line 101) before it decides on the follow-up (lines
    103-107).

    This file cuts the handlers at these events.  A [Frame] is what
    remains of a handler once the listeners have returned; a
    configuration is a world with the stack of frames; a turn is a call of
    the interface, from outside or from a listener, or the return of the
    listeners to the frame on top.  What the browser does (a frame of an
    animation, the end of a transition, a tick) only happens on an empty
    stack, for JavaScript runs every handler to completion.

    The lemmas of this file tie the two models of the same lines
    together and say nothing of Move.ts that [Motion] does not: the
    handlers of [Motion] are these turns run without interruption
    ([drain_enter]), every stack is finished after at most its weight of
    returns ([rrun_returns_bounded], [drain_run]), and every run of
    [Motion] is a run of turns ([reachable_turns]).  What holds of all
    runs of turns, whatever the listeners call, is in [Listeners]. *)

From S2P Require Import Prelude Utils Env Position Loop Motion.

Local Open Scope Q_scope.
Local Open Scope js_scope.

(** ** The handlers, cut at their events *)

(** What remains of a handler after the listeners of its event. *)
Inductive Frame : Type :=
| FStart (dest : Z) (done : Done)   (* of move: Components.Transition.start( dest, ... ) *)
| FDone (c : Done).                 (* of the completion: the follow-up or the callback *)

(** Move.ts [move] up to and including [emit( EVENT_MOVE, ... )]. *)
Definition move_announce (env : Env) (dest index prev : Z)
    (callback : option Callback) (w : World) : World * option Frame :=
  if negb (isBusy w) then
    let position := getPosition env (dom w) in
    let looping := negb (dest =? index)%Z in
    let w := set_waiting (looping || waitForTransition (options env)) w in
    let w := set_state MOVING w in
    (emit (EVENT_MOVE index prev dest) w,
     Some (FStart dest
             {| done_dest := dest; done_index := index; done_prev := prev;
                done_position := position; done_callback := callback |}))
  else (w, None).

(** The completion up to and including [emit( EVENT_MOVED, ... )]
    (Move.ts lines 98-101). *)
Definition done_announce (env : Env) (c : Done) (w : World) : World :=
  let looping := negb (done_dest c =? done_index c)%Z in
  let w := if looping then jump env (done_index c) w else w in
  let w := set_waiting false w in
  let w := set_state IDLE w in
  emit (EVENT_MOVED (done_index c) (done_prev c) (done_dest c)) w.

(** The completion after the moved event (Move.ts lines 103-107). *)
Definition done_finish (env : Env) (c : Done) (w : World) : World :=
  if trimSpace_is_move (options env)
     && negb (done_dest c =? done_prev c)%Z
     && (done_position c =? getPosition env (dom w))
  then
    logged (ControllerGo (if (done_dest c >? done_prev c)%Z then Next else Prev)
              false (done_callback c)) w
  else
    match done_callback c with
    | Some callback => logged (Call callback) w
    | None => w
    end.

(** [Transition.start( dest, done )]: as [Transition_start], but a
    completion that runs at once stops at its event. *)
Definition start_announce (env : Env) (dest : Z) (done : Done) (w : World)
    : World * option Frame :=
  if Splide_is (options env) FADE then (set_ticks (ticks w ++ [done]) w, None)
  else
    let destination := toPosition env dest true in
    let position := getPosition env (dom w) in
    if (1 <=? abs (destination - position)) && (1 <=? speed (options env))
    then
      let w := set_dom (ruleBy_transition true (dom w)) w in
      let w := translate env destination true w in
      (set_endCallback (Some done) w, None)
    else
      (done_announce env done (jump env dest w), Some (FDone done)).

(** A call of the interface or an event of the browser, up to the first
    event the handler emits in its middle. *)
Definition enter (env : Env) (l : Label) (w : World) : World * option Frame :=
  match l with
  | LMove dest index prev callback => move_announce env dest index prev callback w
  | LTransitionEnd =>
      match endCallback w with
      | Some done => (done_announce env done (Transition_cancel env w), Some (FDone done))
      | None => (w, None)
      end
  | LTick =>
      match ticks w with
      | done :: rest => (done_announce env done (set_ticks rest w), Some (FDone done))
      | [] => (w, None)
      end
  | _ => (perform env l w, None)
  end.

(** The handler goes on when the listeners have returned. *)
Definition resume (env : Env) (f : Frame) (w : World) : World * option Frame :=
  match f with
  | FStart dest done => start_announce env dest done (logged (TransitionStart dest) w)
  | FDone c => (done_finish env c w, None)
  end.

(** ** Configurations and turns *)

Definition Config : Type := (World * list Frame)%type.

Definition push (p : World * option Frame) (stack : list Frame) : Config :=
  (fst p, match snd p with Some f => f :: stack | None => stack end).

Inductive Turn : Type :=
| Calls (l : Label)                 (* from outside, or from a listener *)
| Returns.                          (* the listeners of the last event have returned *)

(** What other code can call; the rest is the browser's to do. *)
Definition synchronous (l : Label) : bool :=
  match l with
  | LFrame _ | LTransitionEnd | LTick => false
  | _ => true
  end.

Definition idle (stack : list Frame) : bool :=
  match stack with [] => true | _ => false end.

Definition permitted (env : Env) (t : Turn) (c : Config) : bool :=
  match t with
  | Calls l => enabled env l (fst c) && (synchronous l || idle (snd c))
  | Returns => negb (idle (snd c))
  end.

Definition advance (env : Env) (t : Turn) (c : Config) : Config :=
  match t, c with
  | Calls l, (w, stack) => push (enter env l w) stack
  | Returns, (w, f :: stack) => push (resume env f w) stack
  | Returns, (w, []) => c
  end.

Inductive rstep (env : Env) : Config -> Turn -> Config -> Prop :=
| rstep_apply (c : Config) (t : Turn) :
    permitted env t c = true -> rstep env c t (advance env t c).

Inductive rrun (env : Env) : Config -> list Turn -> Config -> Prop :=
| rrun_nil (c : Config) : rrun env c [] c
| rrun_cons (c c' c'' : Config) (t : Turn) (ts : list Turn) :
    rstep env c t c' -> rrun env c' ts c'' -> rrun env c (t :: ts) c''.

Definition rreachable (env : Env) (c : Config) : Prop :=
  exists ts, rrun env (created, []) ts c.

(** The run as a function: [None] when a turn is not permitted. *)
Fixpoint rexec (env : Env) (ts : list Turn) (c : Config) : option Config :=
  match ts with
  | [] => Some c
  | t :: rest => if permitted env t c then rexec env rest (advance env t c) else None
  end.

(** The configuration after the turns, permitted or not. *)
Definition play (env : Env) (ts : list Turn) (c : Config) : Config :=
  fold_left (fun c t => advance env t c) ts c.

(** ** Finishing the handlers on the stack

    A frame of [move] can leave a frame of the completion behind, a frame
    of the completion leaves nothing: the [weight] of a stack bounds the
    returns it takes. *)

Definition rank (f : Frame) : nat :=
  match f with FStart _ _ => 2 | FDone _ => 1 end.

Definition weight (stack : list Frame) : nat := list_sum (map rank stack).

(** At most [n] returns, as long as there is a frame. *)
Fixpoint returns (env : Env) (n : nat) (c : Config) : Config :=
  match n with
  | O => c
  | S n' => if idle (snd c) then c else returns env n' (advance env Returns c)
  end.

(** The handlers on the stack run to their end with no listener calling. *)
Definition drain (env : Env) (c : Config) : Config := returns env (weight (snd c)) c.

(** A call that emits nothing in its middle. *)
Definition plain (l : Label) : bool :=
  match l with
  | LMove _ _ _ _ | LTransitionEnd | LTick => false
  | _ => true
  end.

(** ** The handlers of [Motion], uninterrupted *)

Lemma move_done_split (env : Env) (c : Done) (w : World) :
  move_done env c w = done_finish env c (done_announce env c w).
Proof. reflexivity. Qed.

Lemma returns_idle (env : Env) (n : nat) (w : World) : returns env n (w, []) = (w, []).
Proof. now destruct n. Qed.

Lemma returns_S (env : Env) (n : nat) (w : World) (f : Frame) (stack : list Frame) :
  returns env (S n) (w, f :: stack) = returns env n (push (resume env f w) stack).
Proof. reflexivity. Qed.

Lemma drain_done (env : Env) (c : Done) (w : World) :
  drain env (w, [FDone c]) = (done_finish env c w, []).
Proof. reflexivity. Qed.

Lemma drain_start (env : Env) (dest : Z) (c : Done) (w : World) :
  drain env (w, [FStart dest c])
  = (Transition_start env dest c (logged (TransitionStart dest) w), []).
Proof.
  unfold drain. cbn [snd weight map rank list_sum fold_right Nat.add].
  rewrite returns_S. cbn [resume]. unfold start_announce, Transition_start.
  destruct (Splide_is (options env) FADE); [reflexivity|].
  destruct (_ && _); reflexivity.
Qed.

Lemma drain_enter (env : Env) (l : Label) (w : World) :
  drain env (push (enter env l w) []) = (perform env l w, []).
Proof.
  destruct l; try reflexivity; cbn [enter perform].
  - unfold move_announce, move. destruct (negb (isBusy w)); [|reflexivity].
    apply drain_start.
  - unfold transitionend. destruct (endCallback w); reflexivity.
  - unfold tick. destruct (ticks w); reflexivity.
Qed.

Lemma enter_plain (env : Env) (l : Label) (w : World) :
  plain l = true -> enter env l w = (perform env l w, None).
Proof. now destruct l. Qed.

(** ** Termination *)

Lemma rank_pos (f : Frame) : (0 < rank f)%nat.
Proof. destruct f; cbn; lia. Qed.

Definition rank_of (p : World * option Frame) : nat :=
  match snd p with Some f => rank f | None => 0%nat end.

Lemma weight_cons (f : Frame) (stack : list Frame) :
  weight (f :: stack) = (rank f + weight stack)%nat.
Proof. reflexivity. Qed.

Lemma weight_push (p : World * option Frame) (stack : list Frame) :
  weight (snd (push p stack)) = (rank_of p + weight stack)%nat.
Proof. unfold push, rank_of. now destruct (snd p). Qed.

(** What a frame leaves behind ranks lower. *)
Lemma resume_rank (env : Env) (f : Frame) (w : World) :
  (rank_of (resume env f w) < rank f)%nat.
Proof.
  destruct f as [dest c|c]; cbn [resume rank]; [|cbn; lia].
  unfold start_announce. destruct (Splide_is (options env) FADE); [cbn; lia|].
  destruct (_ && _); cbn; lia.
Qed.

Lemma returns_lighter (env : Env) (c c' : Config) :
  rstep env c Returns c' -> (weight (snd c') < weight (snd c))%nat.
Proof.
  intros H. inversion H as [c0 t Hp]; subst.
  destruct c as [w [|f stack]]; [discriminate|].
  cbn [advance snd]. rewrite weight_push, weight_cons.
  pose proof (resume_rank env f w). lia.
Qed.

Lemma rrun_returns_bounded (env : Env) (c c' : Config) (ts : list Turn) :
  rrun env c ts c' -> Forall (eq Returns) ts ->
  (length ts + weight (snd c') <= weight (snd c))%nat.
Proof.
  induction 1 as [c|c c1 c2 t ts Hs _ IH]; intros HF; [cbn; lia|].
  inversion HF as [|? ? <- HF']; subst. specialize (IH HF').
  pose proof (returns_lighter env c c1 Hs). cbn [length]. lia.
Qed.

Lemma rrun_app (env : Env) (c c' c'' : Config) (ts ts' : list Turn) :
  rrun env c ts c' -> rrun env c' ts' c'' -> rrun env c (ts ++ ts') c''.
Proof. induction 1; cbn; eauto using rrun_cons. Qed.

(** Returning while there is a frame, at most [n] times, is a run of
    returns; it empties the stack when [n] is at least the weight. *)
Lemma returns_run (env : Env) (n : nat) : forall c,
  (weight (snd c) <= n)%nat ->
  exists k, (k <= weight (snd c))%nat
            /\ rrun env c (repeat Returns k) (returns env n c)
            /\ snd (returns env n c) = [].
Proof.
  induction n as [|n IH]; intros [w [|f stack]] Hn; cbn [snd] in *;
    try (exists 0%nat; rewrite ?returns_idle; repeat split;
         [lia | apply rrun_nil]).
  - pose proof (rank_pos f). rewrite weight_cons in Hn. lia.
  - rewrite returns_S.
    assert (rstep env (w, f :: stack) Returns (push (resume env f w) stack)) as Hs
      by exact (rstep_apply env (w, f :: stack) Returns eq_refl).
    pose proof (returns_lighter env _ _ Hs) as Hl. cbn [snd] in Hl.
    destruct (IH (push (resume env f w) stack) ltac:(lia)) as (k & Hk & Hr & Hi).
    exists (S k). repeat split; [lia | | exact Hi].
    cbn [repeat]. eapply rrun_cons; eassumption.
Qed.

Lemma drain_run (env : Env) (c : Config) :
  exists k, (k <= weight (snd c))%nat /\ rrun env c (repeat Returns k) (drain env c).
Proof.
  destruct (returns_run env (weight (snd c)) c (le_n _)) as (k & H1 & H2 & _). eauto.
Qed.

Lemma drain_idle (env : Env) (c : Config) : snd (drain env c) = [].
Proof. now destruct (returns_run env (weight (snd c)) c (le_n _)) as (k & _ & _ & H). Qed.

(** ** The runs of [Motion] are runs of turns *)

(** One step of [Motion] is a call and the returns of its handler. *)
Lemma step_rrun (env : Env) (w w' : World) (l : Label) :
  step env w l w' ->
  exists k, (k <= 2)%nat /\ rrun env (w, []) (Calls l :: repeat Returns k) (w', []).
Proof.
  intros [w0 l0 He].
  destruct (drain_run env (push (enter env l0 w0) [])) as (k & Hk & Hr).
  rewrite drain_enter in Hr. exists k. split.
  - rewrite weight_push in Hk. unfold rank_of in Hk.
    destruct (snd (enter env l0 w0)) as [[? ?|?]|]; cbn in Hk; lia.
  - eapply rrun_cons; [|exact Hr].
    apply (rstep_apply env (w0, []) (Calls l0)). cbn [permitted fst snd idle].
    now rewrite He, orb_true_r.
Qed.

Lemma run_rrun (env : Env) (w w' : World) (ls : list Label) :
  run env w ls w' -> exists ts, rrun env (w, []) ts (w', []).
Proof.
  induction 1 as [w|w w1 w2 l ls Hs _ [ts IH]]; [exists []; apply rrun_nil|].
  destruct (step_rrun env w w1 l Hs) as (k & _ & Hr).
  eexists. eapply rrun_app; eassumption.
Qed.

Lemma reachable_turns (env : Env) (w : World) :
  reachable env w -> rreachable env (w, []).
Proof. intros [ls Hr]. exact (run_rrun env created w ls Hr). Qed.

(** ** Running turns *)

Lemma rexec_cons (env : Env) (t : Turn) (ts : list Turn) (c : Config) :
  permitted env t c = true -> rexec env (t :: ts) c = rexec env ts (advance env t c).
Proof. cbn [rexec]. now intros ->. Qed.

Lemma rexec_play (env : Env) (ts : list Turn) : forall c c',
  rexec env ts c = Some c' -> play env ts c = c' /\ rrun env c ts c'.
Proof.
  induction ts as [|t ts IH]; intros c c' H; cbn [rexec play fold_left] in *.
  - injection H as <-. split; [reflexivity | apply rrun_nil].
  - destruct (permitted env t c) eqn:Hp; [|discriminate].
    destruct (IH _ _ H) as [H1 H2]. split; [exact H1|].
    eapply rrun_cons; [now apply rstep_apply | exact H2].
Qed.

Lemma rexec_rreachable (env : Env) (ts : list Turn) (c : Config) :
  rexec env ts (created, []) = Some c -> rreachable env c.
Proof. intros H. exists ts. now apply rexec_play. Qed.

Section Turns.
Variable env : Env.

Lemma advance_plain (l : Label) (w : World) (stack : list Frame) :
  plain l = true -> advance env (Calls l) (w, stack) = (perform env l w, stack).
Proof. intros H. cbn [advance]. now rewrite (enter_plain env l w H). Qed.

(** An accepted move waits for the listeners of its event. *)
Lemma advance_move (dest i prev : Z) (cb : option Callback) (w : World)
    (stack : list Frame) :
  isBusy w = false ->
  advance env (Calls (LMove dest i prev cb)) (w, stack)
  = (emit (EVENT_MOVE i prev dest)
       (set_state MOVING
          (set_waiting (negb (dest =? i)%Z || waitForTransition (options env)) w)),
     FStart dest {| done_dest := dest; done_index := i; done_prev := prev;
                    done_position := getPosition env (dom w); done_callback := cb |}
     :: stack).
Proof. intros Hb. cbn [advance enter]. unfold move_announce. now rewrite Hb. Qed.

(** A move requested while the component is busy is dropped, from a
    listener as from anywhere. *)
Lemma advance_move_busy (dest i prev : Z) (cb : option Callback) (w : World)
    (stack : list Frame) :
  isBusy w = true -> advance env (Calls (LMove dest i prev cb)) (w, stack) = (w, stack).
Proof. intros Hb. cbn [advance enter]. unfold move_announce. now rewrite Hb. Qed.

(** A transition that animates starts when the listeners have returned. *)
Lemma advance_start (dest : Z) (c : Done) (w : World) (stack : list Frame) :
  type (options env) <> FADE -> animates env dest w = true ->
  advance env Returns (w, FStart dest c :: stack)
  = (set_endCallback (Some c)
       (translate env (toPosition env dest true) true
          (set_dom (ruleBy_transition true (dom w)) (logged (TransitionStart dest) w))),
     stack).
Proof.
  intros Hf Ha. cbn [advance resume]. unfold start_announce. rewrite (not_FADE env Hf).
  unfold animates in Ha. cbn [dom logged]. now rewrite Ha.
Qed.

Lemma advance_done (c : Done) (w : World) (stack : list Frame) :
  advance env Returns (w, FDone c :: stack) = (done_finish env c w, stack).
Proof. reflexivity. Qed.

End Turns.

(** ** The theorems at the slider of the test suite *)

(** [Move.move( 1, 1, -1 )] of the tests, turn by turn: the call, and the
    return of the listeners of the move event. *)
Example move_by_turns :
  rexec slider [Calls (LMove 1 1 (-1) None); Returns] (created, []) = Some (moving, []).
Proof. vm_compute. reflexivity. Qed.

Example moving_by_turns : rreachable slider (moving, []).
Proof. apply reachable_turns. exact moving_reachable. Qed.
