(* ===== verification/Listeners.v ===== *)
(** * Listeners: what holds whatever the listeners call

    Along the runs of turns of [Reentry], in which a listener of the move
    or moved event may call the interface while the handler that emitted
    is on the stack: the invariant of the orchestration ([Safe], which is
    [Inv] of [Motion] on an empty stack), the order of the events
    ([Sequenced]) and the well-formedness of the DOM ([Coherent]) hold in
    every configuration, and a busy component comes to rest with no
    call of the interface, by the returns of the listeners and what the
    browser reports ([eventually_idle]).

    What listeners change is at the end: without them a slider that waits
    for its transitions is busy exactly while a transition runs
    ([busy_exact]); a listener of the move event that calls [cancel]
    leaves a transition running with the component not busy
    ([cancel_from_listener]), and one that asks for another move has that
    move overtaken by the move it listened to ([inner_move_first]). *)

From S2P Require Import Prelude Utils Env Position Loop Motion Machine Display Reentry.

Local Open Scope Q_scope.
Local Open Scope js_scope.

(** ** The invariant of the orchestration *)

Definition is_FStart (f : Frame) : bool :=
  match f with FStart _ _ => true | FDone _ => false end.

(** A move on the stack has still to start its transition. *)
Definition starting (stack : list Frame) : bool := existsb is_FStart stack.

(** [Inv], with the completion of a busy component allowed to be on its
    way: a move that has announced itself and not yet started. *)
Record Safe (env : Env) (c : Config) : Prop := {
  safe_moving : waiting (fst c) = true -> state (fst c) = MOVING;
  safe_pending :
    waiting (fst c) = true -> starting (snd c) = false ->
    if Splide_is (options env) FADE then ticks (fst c) <> []
    else transitionRule (dom (fst c)) = true;
  safe_callback : transitionRule (dom (fst c)) = true -> endCallback (fst c) <> None
}.

Lemma Safe_Inv (env : Env) (w : World) : Safe env (w, []) <-> Inv env w.
Proof.
  split; intros [H1 H2 H3]; split; cbn [fst snd starting existsb] in *;
    try assumption; intros Hw; [now apply H2 | intros _; now apply H2].
Qed.

Lemma Safe_control (env : Env) (w w' : World) (stack stack' : list Frame) :
  control w = control w' -> starting stack = starting stack' ->
  Safe env (w, stack) -> Safe env (w', stack').
Proof.
  unfold control. intros E Es [H1 H2 H3]. injection E as Ew Est Et Ec Ek.
  cbn [fst snd] in *. split; cbn [fst snd]; rewrite <- ?Ew, <- ?Est, <- ?Et, <- ?Es.
  - exact H1.
  - intros Hw Hs. specialize (H2 Hw Hs). destruct (Splide_is (options env) FADE);
      [|exact H2]. destruct (ticks w), (ticks w'); congruence.
  - intros Ht. specialize (H3 Ht). destruct (endCallback w), (endCallback w');
      congruence.
Qed.

Lemma Safe_idle (env : Env) (w : World) (stack : list Frame) :
  waiting w = false -> (transitionRule (dom w) = true -> endCallback w <> None) ->
  Safe env (w, stack).
Proof. intros Hw Hc. split; cbn [fst snd]; [congruence | congruence | exact Hc]. Qed.

(** The announcement of a completion leaves the component at rest. *)
Lemma done_announce_settled (env : Env) (c : Done) (w : World) :
  let w' := done_announce env c w in
  waiting w' = false /\ state w' = IDLE
  /\ endCallback w' = endCallback w /\ ticks w' = ticks w
  /\ transitionRule (dom w') = transitionRule (dom w).
Proof.
  unfold done_announce. destruct (negb (done_dest c =? done_index c)%Z); repeat split.
Qed.

Lemma Safe_done_announce (env : Env) (c : Done) (w : World) (stack : list Frame) :
  (transitionRule (dom w) = true -> endCallback w <> None) ->
  Safe env (done_announce env c w, stack).
Proof.
  intros H. destruct (done_announce_settled env c w) as (Hw & _ & Hc & _ & Hr).
  apply Safe_idle; [exact Hw | now rewrite Hr, Hc].
Qed.

Lemma done_finish_control (env : Env) (c : Done) (w : World) :
  control (done_finish env c w) = control w.
Proof.
  unfold done_finish. destruct (_ && _ && _); [reflexivity|].
  now destruct (done_callback c).
Qed.

Lemma Safe_enter (env : Env) (l : Label) (w : World) (stack : list Frame) :
  Safe env (w, stack) -> Safe env (push (enter env l w) stack).
Proof.
  intros HS. pose proof (safe_callback _ _ HS) as Hc. cbn [fst] in Hc.
  destruct l; cbn [enter perform];
    try (apply (Safe_control env w _ stack); [|reflexivity|exact HS];
         unfold mount; try destruct (negb _); reflexivity).
  - unfold move_announce. destruct (isBusy w); [exact HS|]. cbn [negb].
    split; cbn [push fst snd starting existsb is_FStart orb]; wsimpl;
      [reflexivity | discriminate | exact Hc].
  - unfold cancel, translate, Transition_cancel.
    destruct (Splide_is (options env) FADE); apply Safe_idle; wsimpl;
      [reflexivity | exact Hc | reflexivity | discriminate].
  - destruct (endCallback w) eqn:E; [|exact HS].
    apply Safe_done_announce. unfold Transition_cancel.
    destruct (Splide_is (options env) FADE); wsimpl;
      [rewrite E; discriminate | discriminate].
  - destruct (ticks w); [exact HS|]. now apply Safe_done_announce.
Qed.

Lemma Safe_resume (env : Env) (f : Frame) (w : World) (stack : list Frame) :
  Safe env (w, f :: stack) -> Safe env (push (resume env f w) stack).
Proof.
  intros HS. pose proof (safe_callback _ _ HS) as Hc. cbn [fst] in Hc.
  destruct f as [dest c|c]; cbn [resume].
  - unfold start_announce.
    destruct (Splide_is (options env) FADE) eqn:Ef; [|destruct (_ && _)].
    + destruct HS as [H1 _ _]. split; cbn [push fst snd] in *; wsimpl;
        [exact H1 | | exact Hc].
      rewrite Ef. intros _ _ E. now destruct (ticks w).
    + destruct HS as [H1 _ _]. split; cbn [push fst snd] in *; unfold translate; wsimpl;
        [exact H1 | now rewrite Ef | discriminate].
    + now apply Safe_done_announce.
  - apply (Safe_control env w _ (FDone c :: stack));
      [symmetry; apply done_finish_control | reflexivity | exact HS].
Qed.

Lemma Safe_rstep (env : Env) (c c' : Config) (t : Turn) :
  Safe env c -> rstep env c t c' -> Safe env c'.
Proof.
  intros HS Hs. revert HS. destruct Hs as [[w stack] t0 Hp]. intros HS.
  destruct t0 as [l|]; cbn [advance].
  - now apply Safe_enter.
  - destruct stack as [|f stack]; [discriminate|]. now apply Safe_resume.
Qed.

Lemma Safe_rrun (env : Env) (c c' : Config) (ts : list Turn) :
  rrun env c ts c' -> Safe env c -> Safe env c'.
Proof. induction 1; eauto using Safe_rstep. Qed.

Lemma Safe_rreachable (env : Env) (c : Config) : rreachable env c -> Safe env c.
Proof.
  intros [ts Hr]. apply (Safe_rrun env _ _ _ Hr). apply Safe_Inv, Inv_created.
Qed.

(** C14. Whatever the listeners call: in every configuration of every
    run of turns, a busy component is in the state MOVING; its
    completion is pending (a running transition, or a tick in fade mode)
    unless a move on the stack has still to start its transition; and a
    transition rule is never set without a callback to end it. *)
Theorem rreachable_Safe (env : Env) (c : Config) :
  rreachable env c ->
  (waiting (fst c) = true -> state (fst c) = MOVING)
  /\ (waiting (fst c) = true -> starting (snd c) = false ->
      if Splide_is (options env) FADE then ticks (fst c) <> []
      else transitionRule (dom (fst c)) = true)
  /\ (transitionRule (dom (fst c)) = true -> endCallback (fst c) <> None).
Proof. intros Hr. destruct (Safe_rreachable env c Hr) as [H1 H2 H3]. auto. Qed.

(** ** The order of the events *)

Definition frame_done (f : Frame) : Done :=
  match f with FStart _ c => c | FDone c => c end.

(** [Ordered], with the moves on the stack announced too. *)
Record Sequenced (c : Config) : Prop := {
  seq_world : Ordered (fst c);
  seq_stack : Forall (fun f => announced (log (fst c)) (frame_done f)) (snd c)
}.

(** Handlers only add to the log. *)
Definition extends (w w' : World) : Prop := exists l, log w' = log w ++ l.

#[export] Instance extends_Reflexive : Reflexive extends.
Proof. intros w. exists []. now rewrite app_nil_r. Qed.

#[export] Instance extends_Transitive : Transitive extends.
Proof. intros w1 w2 w3 [l E] [l' E']. exists (l ++ l'). now rewrite E', E, app_assoc. Qed.

Lemma extends_same (w w' : World) : log w' = log w -> extends w w'.
Proof. intros E. exists []. now rewrite app_nil_r. Qed.

Lemma announced_extends (w w' : World) (c : Done) :
  extends w w' -> announced (log w) c -> announced (log w') c.
Proof. intros [l ->] H. apply in_or_app. now left. Qed.

Lemma Sequenced_push (p : World * option Frame) (w : World) (stack : list Frame) :
  extends w (fst p) -> Ordered (fst p) ->
  (forall f, snd p = Some f -> announced (log (fst p)) (frame_done f)) ->
  Forall (fun f => announced (log w) (frame_done f)) stack ->
  Sequenced (push p stack).
Proof.
  intros He Ho Hf Hs.
  assert (Forall (fun f => announced (log (fst p)) (frame_done f)) stack) as Hs'
    by (eapply Forall_impl; [|exact Hs]; intros f; now apply announced_extends).
  split; cbn [push fst snd]; [exact Ho|]. destruct (snd p); auto.
Qed.

Section Order.
Variable env : Env.

Lemma done_announce_extends (c : Done) (w : World) : extends w (done_announce env c w).
Proof.
  exists [Emit (EVENT_MOVED (done_index c) (done_prev c) (done_dest c))].
  unfold done_announce. now destruct (negb _).
Qed.

Lemma Ordered_done_announce (c : Done) (w : World) :
  announced (log w) c -> Ordered w -> Ordered (done_announce env c w).
Proof.
  intros Ha Ho. unfold done_announce.
  set (w1 := if negb (done_dest c =? done_index c)%Z then _ else w).
  assert (Ordered w1 /\ announced (log w1) c) as [[H1 H2 H3] Ha1].
  { subst w1. destruct (negb (done_dest c =? done_index c)%Z); split; auto.
    eapply Ordered_same; [| | |exact Ho]; reflexivity. }
  split; wsimpl.
  - apply moved_preceded_snoc; [exact H1|]. intros i p d E.
    injection E as <- <- <-. exact Ha1.
  - intros c' Hc. apply in_or_app. left. now apply H2.
  - intros c' Hc. apply in_or_app. left. now apply H3.
Qed.

Lemma done_finish_extends (c : Done) (w : World) : extends w (done_finish env c w).
Proof.
  unfold done_finish. destruct (_ && _ && _); [now eexists [_]|].
  destruct (done_callback c); [now eexists [_] | reflexivity].
Qed.

Lemma Ordered_done_finish (c : Done) (w : World) :
  Ordered w -> Ordered (done_finish env c w).
Proof.
  intros Ho. unfold done_finish.
  destruct (_ && _ && _); [|destruct (done_callback c); [|exact Ho]];
    (apply Ordered_logged; [discriminate | exact Ho]).
Qed.

Lemma Sequenced_done_announce (c : Done) (w w0 : World) (stack : list Frame) :
  extends w0 w -> announced (log w) c -> Ordered w ->
  Forall (fun f => announced (log w0) (frame_done f)) stack ->
  Sequenced (done_announce env c w, FDone c :: stack).
Proof.
  intros He Ha Ho Hs.
  apply (Sequenced_push (done_announce env c w, Some (FDone c)) w0); cbn [fst snd].
  - etransitivity; [exact He | apply done_announce_extends].
  - now apply Ordered_done_announce.
  - intros f [= <-]. exact (announced_extends _ _ c (done_announce_extends c w) Ha).
  - exact Hs.
Qed.

Lemma perform_extends (l : Label) (w : World) :
  plain l = true -> extends w (perform env l w).
Proof.
  destruct l; try discriminate; intros _; cbn [perform];
    try (apply extends_same; reflexivity).
  - unfold mount. destruct (negb _); now eexists [_].
  - exists [ScrollCancel; Emit EVENT_REPOSITIONED].
    unfold reposition, jump, translate. wsimpl. now rewrite <- app_assoc.
  - exists [TransitionCancel]. unfold cancel, translate. wsimpl.
    now rewrite Transition_cancel_log.
Qed.

Lemma Sequenced_enter (l : Label) (w : World) (stack : list Frame) :
  enabled env l w = true ->
  Sequenced (w, stack) -> Sequenced (push (enter env l w) stack).
Proof.
  intros He [Ho Hs]. cbn [fst snd] in *.
  destruct (plain l) eqn:Hp.
  - rewrite (enter_plain env l w Hp). apply (Sequenced_push _ w); cbn [fst snd];
      [now apply perform_extends | | discriminate | exact Hs].
    exact (Ordered_step env w _ l Ho (step_apply env w l He)).
  - destruct l; try discriminate; cbn [enter].
    + unfold move_announce. destruct (negb (isBusy w)); [|now split].
      apply (Sequenced_push _ w); cbn [fst snd];
        [now exists [Emit (EVENT_MOVE index prev dest)] | | | exact Hs].
      * apply Ordered_logged; [discriminate|].
        eapply Ordered_same; [| | |exact Ho]; reflexivity.
      * intros f [= <-]. unfold announced. wsimpl. apply in_or_app. right. now left.
    + destruct (endCallback w) as [c|] eqn:E; [|now split].
      apply (Sequenced_done_announce c _ w);
        [apply extends_same, Transition_cancel_log | | | exact Hs].
      * rewrite Transition_cancel_log. exact (ord_callback w Ho c E).
      * apply (Ordered_same w); [apply Transition_cancel_log | | | exact Ho];
          unfold Transition_cancel; now destruct (Splide_is (options env) FADE).
    + destruct (ticks w) as [|c rest] eqn:E; [now split|].
      apply (Sequenced_done_announce c _ w);
        [now apply extends_same | | | exact Hs].
      * apply (ord_ticks w Ho). rewrite E. now left.
      * destruct Ho as [H1 H2 H3]. split; wsimpl; auto.
        intros c' Hc. apply H3. rewrite E. now right.
Qed.

Lemma Sequenced_resume (f : Frame) (w : World) (stack : list Frame) :
  Sequenced (w, f :: stack) -> Sequenced (push (resume env f w) stack).
Proof.
  intros [Ho Hs]. cbn [fst snd] in *. inversion Hs as [|? ? Hf Hs']; subst.
  destruct f as [dest c|c]; cbn [resume frame_done] in *.
  - set (w1 := logged (TransitionStart dest) w).
    assert (extends w w1) as He1 by now exists [TransitionStart dest].
    assert (Ordered w1) as Ho1 by (apply Ordered_logged; [discriminate | exact Ho]).
    pose proof (announced_extends w w1 c He1 Hf) as Ha1.
    unfold start_announce. destruct (Splide_is (options env) FADE); [|destruct (_ && _)].
    + apply (Sequenced_push _ w); cbn [fst snd]; [exact He1 | | discriminate | exact Hs'].
      destruct Ho1 as [H1 H2 H3]. split; wsimpl; auto.
      intros c' [Hc|[<-|[]]]%in_app_or; [auto | exact Ha1].
    + apply (Sequenced_push _ w); cbn [fst snd]; [exact He1 | | discriminate | exact Hs'].
      destruct Ho1 as [H1 H2 H3]. split; unfold translate; wsimpl; auto.
      intros c' [= <-]. exact Ha1.
    + apply (Sequenced_done_announce c _ w); [exact He1 | exact Ha1 | | exact Hs'].
      eapply Ordered_same; [| | |exact Ho1]; reflexivity.
  - apply (Sequenced_push _ w); cbn [fst snd];
      [apply done_finish_extends | now apply Ordered_done_finish | discriminate | exact Hs'].
Qed.

Lemma Sequenced_rstep (c c' : Config) (t : Turn) :
  Sequenced c -> rstep env c t c' -> Sequenced c'.
Proof.
  intros HS Hs. revert HS. destruct Hs as [[w stack] t0 Hp]. intros HS.
  destruct t0 as [l|]; cbn [advance].
  - apply Sequenced_enter; [|exact HS]. cbn in Hp. now apply andb_true_iff in Hp.
  - destruct stack as [|f stack]; [discriminate|]. now apply Sequenced_resume.
Qed.

Lemma Sequenced_rrun (c c' : Config) (ts : list Turn) :
  rrun env c ts c' -> Sequenced c -> Sequenced c'.
Proof. induction 1; eauto using Sequenced_rstep. Qed.

Lemma Sequenced_rreachable (c : Config) : rreachable env c -> Sequenced c.
Proof.
  intros [ts Hr]. apply (Sequenced_rrun _ _ _ Hr).
  split; [exact Ordered_created | constructor].
Qed.

End Order.

(** C17. Whatever the listeners call: in every configuration of every
    run of turns, every moved event in the log is preceded by the move
    event of the same indices, and every completion that is pending or on
    the stack has had its move event emitted. *)
Theorem rreachable_Sequenced (env : Env) (c : Config) :
  rreachable env c ->
  moved_preceded (log (fst c))
  /\ (forall d, endCallback (fst c) = Some d \/ In d (ticks (fst c))
                \/ In d (map frame_done (snd c)) ->
                announced (log (fst c)) d).
Proof.
  intros Hr. destruct (Sequenced_rreachable env c Hr) as [[H1 H2 H3] Hs].
  split; [exact H1|]. intros d [H|[H|H]]; [now apply H2 | now apply H3 |].
  apply in_map_iff in H as (f & <- & Hf). rewrite Forall_forall in Hs. now apply Hs.
Qed.

(** ** The DOM *)

Section Dom.
Variable env : Env.

Lemma dom_done_announce (c : Done) (w : World) :
  dom (done_announce env c w)
  = dom (if negb (done_dest c =? done_index c)%Z then jump env (done_index c) w else w).
Proof. unfold done_announce. now destruct (negb _). Qed.

Lemma dom_done_finish (c : Done) (w : World) : dom (done_finish env c w) = dom w.
Proof.
  unfold done_finish. destruct (_ && _ && _); [reflexivity|].
  now destruct (done_callback c).
Qed.

Lemma Coherent_done_announce (c : Done) (w : World) :
  Coherent env (dom w) -> Coherent env (dom (done_announce env c w)).
Proof.
  intros H. rewrite dom_done_announce.
  destruct (negb _); [now apply Coherent_translate | exact H].
Qed.

Lemma Coherent_enter (l : Label) (w : World) :
  enabled env l w = true ->
  Coherent env (dom w) -> Coherent env (dom (fst (enter env l w))).
Proof.
  intros He H. destruct (plain l) eqn:Hp.
  - rewrite (enter_plain env l w Hp). now apply Coherent_perform.
  - destruct l; try discriminate; cbn [enter].
    + unfold move_announce. now destruct (negb (isBusy w)).
    + destruct (endCallback w); [|exact H].
      now apply Coherent_done_announce, Coherent_Transition_cancel.
    + destruct (ticks w); [exact H|]. now apply Coherent_done_announce.
Qed.

Lemma Coherent_resume (f : Frame) (w : World) :
  Coherent env (dom w) -> Coherent env (dom (fst (resume env f w))).
Proof.
  intros H. destruct f as [dest c|c]; cbn [resume fst].
  - unfold start_announce. destruct (Splide_is (options env) FADE); [exact H|].
    destruct (_ && _).
    + now apply Coherent_animate.
    + apply Coherent_done_announce. now apply Coherent_translate.
  - now rewrite dom_done_finish.
Qed.

Lemma Coherent_rrun (c c' : Config) (ts : list Turn) :
  rrun env c ts c' -> Coherent env (dom (fst c)) -> Coherent env (dom (fst c')).
Proof.
  induction 1 as [|c c1 c2 t ts Hs _ IH]; [auto|]. intros H. apply IH. clear IH.
  revert H. destruct Hs as [[w stack] t0 Hp]. intros H.
  destruct t0 as [l|]; cbn [advance].
  - apply Coherent_enter; [|exact H]. cbn in Hp. now apply andb_true_iff in Hp.
  - destruct stack as [|f stack]; [discriminate|]. now apply Coherent_resume.
Qed.

End Dom.

(** ** All of it *)

Record Robust (env : Env) (c : Config) : Prop := {
  robust_safe : Safe env c;
  robust_sequenced : Sequenced c;
  robust_coherent : Coherent env (dom (fst c))
}.

Theorem rreachable_Robust (env : Env) (c : Config) : rreachable env c -> Robust env c.
Proof.
  intros Hr. split;
    [now apply Safe_rreachable | now apply (Sequenced_rreachable env) |].
  destruct Hr as [ts Hr]. exact (Coherent_rrun env _ _ _ Hr (Coherent_initial env)).
Qed.

(** ** Coming to rest *)

Lemma rreachable_rrun (env : Env) (c c' : Config) (ts : list Turn) :
  rreachable env c -> rrun env c ts c' -> rreachable env c'.
Proof. intros [ts0 H0] Hr. exists (ts0 ++ ts). eapply rrun_app; eassumption. Qed.

Lemma done_finish_orchestration (env : Env) (c : Done) (w : World) :
  waiting (done_finish env c w) = waiting w /\ state (done_finish env c w) = state w.
Proof.
  pose proof (done_finish_control env c w) as E. unfold control in E.
  injection E as -> -> _ _ _. now split.
Qed.

(** A completion, turn by turn, leaves the component at rest. *)
Lemma completed_idle (env : Env) (c : Done) (w : World) :
  let w' := done_finish env c (done_announce env c w) in
  isBusy w' = false /\ state w' = IDLE.
Proof.
  destruct (done_announce_settled env c w) as (H1 & H2 & _).
  destruct (done_finish_orchestration env c (done_announce env c w)) as [E1 E2].
  unfold isBusy. cbn zeta. now rewrite E1, E2.
Qed.

(** On an empty stack, a busy component completes in two turns. *)
Lemma quiescent_busy (env : Env) (w : World) :
  rreachable env (w, []) -> isBusy w = true ->
  let c := play env [Calls (completion env); Returns] (w, []) in
  rexec env [Calls (completion env); Returns] (w, []) = Some c
  /\ snd c = [] /\ isBusy (fst c) = false /\ state (fst c) = IDLE.
Proof.
  intros Hr Hb.
  destruct (proj1 (Safe_Inv env w) (Safe_rreachable env _ Hr)) as [_ Hp Hc].
  specialize (Hp Hb). unfold completion, isBusy in Hp |- *.
  destruct (Splide_is (options env) FADE);
    cbn [play fold_left rexec permitted advance enabled enter fst snd idle
         synchronous andb orb].
  - destruct (ticks w) as [|c rest]; [contradiction|].
    cbn [push fst snd idle negb resume].
    destruct (completed_idle env c (set_ticks rest w)). auto.
  - specialize (Hc Hp). destruct (endCallback w) as [c|]; [|contradiction].
    rewrite Hp. cbn [push fst snd idle negb andb resume].
    destruct (completed_idle env c (Transition_cancel env w)). auto.
Qed.

(** A turn nobody asks for: the return of the listeners, or what the
    browser does.  No call of the interface, [cancel] least of all. *)
Definition unasked (t : Turn) : bool :=
  match t with
  | Calls l => negb (synchronous l)
  | Returns => true
  end.

Lemma unasked_returns (k : nat) : forallb unasked (repeat Returns k) = true.
Proof. induction k; [reflexivity | exact IHk]. Qed.

Lemma unasked_completion (env : Env) : unasked (Calls (completion env)) = true.
Proof. unfold completion. now destruct (Splide_is (options env) FADE). Qed.

Lemma idle_reached (env : Env) (c : Config) :
  rreachable env c ->
  exists ts c', rrun env c ts c' /\ forallb unasked ts = true
                /\ (length ts <= weight (snd c) + 2)%nat
                /\ snd c' = [] /\ isBusy (fst c') = false.
Proof.
  intros Hr. destruct (drain_run env c) as (k & Hk & Hd).
  pose proof (drain_idle env c) as Hi.
  destruct (drain env c) as [w stack] eqn:E. cbn [snd] in Hi. subst stack.
  destruct (isBusy w) eqn:Hb.
  - pose proof (rreachable_rrun env _ _ _ Hr Hd) as Hr'.
    destruct (quiescent_busy env w Hr' Hb) as (He & H1 & H2 & _).
    apply rexec_play in He as [_ He].
    exists (repeat Returns k ++ [Calls (completion env); Returns]),
           (play env [Calls (completion env); Returns] (w, [])).
    split; [eapply rrun_app; eassumption|].
    rewrite forallb_app, unasked_returns, length_app, repeat_length.
    cbn [length forallb]. rewrite unasked_completion.
    repeat split; [lia | assumption..].
  - exists (repeat Returns k), (w, []). rewrite unasked_returns, repeat_length.
    repeat split; [exact Hd | lia | exact Hb].
Qed.

(** C22. Left alone, the component comes to rest, listeners or not:
    from every configuration of every run of turns there is a run in
    which nothing calls the interface, made of the returns of the
    listeners and of what the browser reports, of at most the weight of
    the stack and two more turns, to a configuration with an empty stack
    and the component not busy.  No [cancel] is needed: the completion
    the Transition component holds is enough. *)
Theorem eventually_idle (env : Env) (c : Config) :
  rreachable env c ->
  exists ts c', rrun env c ts c' /\ forallb unasked ts = true
                /\ (length ts <= weight (snd c) + 2)%nat
                /\ snd c' = [] /\ isBusy (fst c') = false.
Proof. apply idle_reached. Qed.

(** That takes a reachable configuration: a component that waits with
    nothing pending stays busy whatever the browser does. *)
Example stuck_when_unreachable :
  let c := (set_waiting true created, @nil Frame) in
  forall t, unasked t = true -> permitted slider t c = false.
Proof. intros c [[]|]; cbn; congruence. Qed.

(** ** What listeners change *)

(** Without listeners, on a slider that waits for its transitions, a
    running transition means a busy component. *)
Definition Exact (w : World) : Prop := transitionRule (dom w) = true -> waiting w = true.

Section Waiting.
Variable env : Env.
Hypothesis waits : waitForTransition (options env) = true.
Hypothesis slides : type (options env) <> FADE.

Lemma Exact_move_done (c : Done) (w : World) :
  transitionRule (dom w) = false -> Exact (move_done env c w).
Proof.
  intros Ht. destruct (move_done_settled env c w) as (_ & _ & _ & _ & _ & _ & Er).
  unfold Exact. rewrite Er, Ht. discriminate.
Qed.

Lemma Exact_perform (l : Label) (w : World) :
  enabled env l w = true -> Shaped env w -> Exact w -> Exact (perform env l w).
Proof.
  intros He HS Hb. pose proof (not_FADE env slides) as Ef.
  unfold Shaped in HS. rewrite Ef in HS.
  destruct l; cbn [perform enabled] in *; try exact Hb.
  - unfold mount. rewrite Ef. exact Hb.
  - unfold move, Transition_start. rewrite Ef.
    destruct (isBusy w) eqn:Eb; [exact Hb|]. cbn [negb].
    destruct (_ && _).
    + intros _. unfold translate. wsimpl. now rewrite waits, orb_true_r.
    + apply Exact_move_done. unfold jump, translate. wsimpl.
      destruct (transitionRule (dom w)) eqn:Et; [|reflexivity].
      unfold isBusy in Eb. rewrite (Hb Et) in Eb. discriminate.
  - unfold cancel, translate, Transition_cancel. rewrite Ef. discriminate.
  - unfold transitionend. destruct (endCallback w); [|exact Hb].
    apply Exact_move_done. unfold Transition_cancel. now rewrite Ef.
  - rewrite HS in He. discriminate.
Qed.

Lemma Exact_reachable (w : World) : reachable env w -> Exact w.
Proof.
  intros [ls Hr]. cut (Shaped env w /\ Exact w); [tauto|].
  assert (Shaped env created /\ Exact created) as H0
    by (split; [apply Shaped_created | discriminate]).
  induction Hr as [|w0 w1 w2 l ls Hs _ IH]; [exact H0|]. apply IH.
  destruct H0 as [HS HE]. split.
  - exact (proj2 (step_machine env _ _ _ HS Hs)).
  - destruct Hs. now apply Exact_perform.
Qed.

Lemma busy_while_moving (w : World) :
  reachable env w -> isBusy w = transitionRule (dom w).
Proof.
  intros Hr. pose proof (Exact_reachable w Hr) as Hb.
  destruct (Inv_reachable env w Hr) as [_ Hp _].
  rewrite (not_FADE env slides) in Hp. unfold isBusy, Exact in *.
  destruct (waiting w), (transitionRule (dom w)); auto.
  symmetry. now apply Hp.
Qed.

End Waiting.

(** C30. Without listeners, on a slider that waits for its transitions
    and does not fade, [isBusy] is exact: along every run of [Motion] the
    component is busy exactly while a transition runs. *)
Theorem busy_exact (env : Env) (w : World) :
  waitForTransition (options env) = true -> type (options env) <> FADE ->
  reachable env w -> isBusy w = transitionRule (dom w).
Proof. intros Hw Hf. now apply busy_while_moving. Qed.

Section Anomalies.
Variable env : Env.
Hypothesis slides : type (options env) <> FADE.

Lemma animates_ext (dest : Z) (w w' : World) :
  getPosition env (dom w) == getPosition env (dom w') ->
  animates env dest w = animates env dest w'.
Proof. intros E. unfold animates. now rewrite E. Qed.

(** At rest [cancel] leaves the list where it is. *)
Lemma cancel_getPosition (w : World) :
  Coherent env (dom w) -> transitionRule (dom w) = false ->
  getPosition env (dom (cancel env w)) == getPosition env (dom w).
Proof.
  intros HC Ht. unfold cancel, Transition_cancel. rewrite (not_FADE env slides).
  set (w1 := set_dom _ _).
  assert (rendered (dom w1) == rendered (dom w)) as E.
  { subst w1. wsimpl. destruct (transformRule (dom w)) as [[a q]|] eqn:Er; [|reflexivity].
    pose proof (coh_settled _ _ HC Ht) as H. unfold target in H. rewrite Er in H.
    now symmetry. }
  rewrite !getPosition_rendered, translate_rendered by reflexivity.
  rewrite loop_current by apply getPosition_rendered.
  now rewrite !getPosition_rendered.
Qed.

Lemma cancel_orchestration (w : World) :
  waiting (cancel env w) = false /\ state (cancel env w) = state w.
Proof.
  unfold cancel, Transition_cancel. now destruct (Splide_is (options env) FADE).
Qed.

(** A listener of the move event that calls [cancel]. *)
Definition cancelling_listener (dest i prev : Z) (cb : option Callback) : list Turn :=
  [Calls (LMove dest i prev cb); Calls LCancel; Returns].

(** [cancel] called by a listener of the move event does not stop the
    move: the transition starts when the listener has returned, with
    [waiting] cleared, and the component is not busy while it runs. *)
Theorem cancel_from_listener (dest i prev : Z) (cb : option Callback) (w : World) :
  Coherent env (dom w) -> transitionRule (dom w) = false ->
  isBusy w = false -> animates env dest w = true ->
  let c := play env (cancelling_listener dest i prev cb) (w, []) in
  rexec env (cancelling_listener dest i prev cb) (w, []) = Some c
  /\ snd c = [] /\ isBusy (fst c) = false /\ state (fst c) = MOVING
  /\ transitionRule (dom (fst c)) = true
  /\ transformRule (dom (fst c)) = Some (resolveX (options env), toPosition env dest true).
Proof.
  intros HC Ht Hb Ha. unfold cancelling_listener.
  cbn [play fold_left]. rewrite !rexec_cons; try reflexivity;
    rewrite (advance_move env dest i prev cb w [] Hb); [|reflexivity..].
  set (w1 := emit _ _). rewrite advance_plain by reflexivity. cbn [perform].
  rewrite advance_start; [|exact slides|].
  - destruct (cancel_orchestration w1) as [Hw Hs]. repeat split; assumption.
  - rewrite <- Ha. apply animates_ext. now rewrite cancel_getPosition.
Qed.

(** A listener of the move event that asks for another move. *)
Definition moving_listener (d1 i1 p1 : Z) (cb1 : option Callback)
    (d2 i2 p2 : Z) (cb2 : option Callback) : list Turn :=
  [Calls (LMove d1 i1 p1 cb1); Calls (LMove d2 i2 p2 cb2); Returns; Returns].

Lemma moves_nested (d1 i1 p1 : Z) (cb1 : option Callback)
    (d2 i2 p2 : Z) (cb2 : option Callback) (w : World) :
  isBusy w = false -> negb (d1 =? i1)%Z || waitForTransition (options env) = false ->
  animates env d1 w = true -> animates env d2 w = true ->
  let c := play env (moving_listener d1 i1 p1 cb1 d2 i2 p2 cb2) (w, []) in
  rexec env (moving_listener d1 i1 p1 cb1 d2 i2 p2 cb2) (w, []) = Some c
  /\ snd c = []
  /\ log (fst c)
     = log w ++ [Emit (EVENT_MOVE i1 p1 d1); Emit (EVENT_MOVE i2 p2 d2);
                 TransitionStart d2; TransitionStart d1]
  /\ transformRule (dom (fst c)) = Some (resolveX (options env), toPosition env d1 true)
  /\ endCallback (fst c)
     = Some {| done_dest := d1; done_index := i1; done_prev := p1;
               done_position := getPosition env (dom w); done_callback := cb1 |}.
Proof.
  intros Hb Hw Ha1 Ha2. unfold moving_listener. cbn [play fold_left].
  rewrite !rexec_cons; try reflexivity;
    rewrite (advance_move env d1 i1 p1 cb1 w [] Hb); rewrite Hw;
    rewrite advance_move by reflexivity; try reflexivity;
    rewrite advance_start by (exact slides || exact Ha2); try reflexivity.
  rewrite advance_start by (exact slides || exact Ha1).
  unfold translate. cbn [fst snd]. wsimpl. rewrite <- !app_assoc. repeat split.
Qed.

End Anomalies.

(** C32. A move requested by a listener of the move event is started
    first and replaced at once: on a slider that does not wait for its
    transitions, when a listener of the event of a first move asks for a
    second, the transition of the second starts first and the transition
    of the first replaces it.  The list goes to the destination of the
    first move and only the first move will complete, although the second
    was requested last. *)
Theorem inner_move_first (env : Env) (d1 i1 p1 : Z) (cb1 : option Callback)
    (d2 i2 p2 : Z) (cb2 : option Callback) (w : World) :
  type (options env) <> FADE ->
  isBusy w = false -> negb (d1 =? i1)%Z || waitForTransition (options env) = false ->
  animates env d1 w = true -> animates env d2 w = true ->
  let c := play env (moving_listener d1 i1 p1 cb1 d2 i2 p2 cb2) (w, []) in
  rexec env (moving_listener d1 i1 p1 cb1 d2 i2 p2 cb2) (w, []) = Some c
  /\ snd c = []
  /\ log (fst c)
     = log w ++ [Emit (EVENT_MOVE i1 p1 d1); Emit (EVENT_MOVE i2 p2 d2);
                 TransitionStart d2; TransitionStart d1]
  /\ transformRule (dom (fst c)) = Some (resolveX (options env), toPosition env d1 true)
  /\ endCallback (fst c)
     = Some {| done_dest := d1; done_index := i1; done_prev := p1;
               done_position := getPosition env (dom w); done_callback := cb1 |}.
Proof. intros Hf. now apply moves_nested. Qed.

(** ** The theorems at the sliders of the test suite *)

(** The slider of the tests after [Move.move( 1, 1, -1 )] with a listener
    of the move event that calls [Move.cancel()]. *)
Definition cancelled_early : Config :=
  play slider (cancelling_listener 1 1 (-1) None) (created, []).

Lemma cancelled_early_reachable : rreachable slider cancelled_early.
Proof.
  apply (rexec_rreachable slider (cancelling_listener 1 1 (-1) None)).
  vm_compute. reflexivity.
Qed.

Lemma rreachable_Safe_witness :
  (waiting (fst cancelled_early) = true -> state (fst cancelled_early) = MOVING)
  /\ (waiting (fst cancelled_early) = true -> starting (snd cancelled_early) = false ->
      transitionRule (dom (fst cancelled_early)) = true)
  /\ (transitionRule (dom (fst cancelled_early)) = true ->
      endCallback (fst cancelled_early) <> None).
Proof. apply (rreachable_Safe slider cancelled_early). exact cancelled_early_reachable. Defined.

Lemma rreachable_Sequenced_witness :
  moved_preceded (log (fst cancelled_early))
  /\ (forall d, endCallback (fst cancelled_early) = Some d
                \/ In d (ticks (fst cancelled_early))
                \/ In d (map frame_done (snd cancelled_early)) ->
                announced (log (fst cancelled_early)) d).
Proof.
  apply (rreachable_Sequenced slider cancelled_early). exact cancelled_early_reachable.
Defined.

Lemma eventually_idle_witness :
  exists ts c', rrun slider (moving, []) ts c' /\ forallb unasked ts = true
                /\ (length ts <= weight (snd (moving, @nil Frame)) + 2)%nat
                /\ snd c' = [] /\ isBusy (fst c') = false.
Proof.
  apply (eventually_idle slider (moving, [])).
  apply reachable_turns. exact moving_reachable.
Defined.

Lemma busy_exact_witness : isBusy moving = transitionRule (dom moving).
Proof.
  apply (busy_exact slider moving); [reflexivity | discriminate | exact moving_reachable].
Defined.

(** With the listener, the world at rest between two handlers runs a
    transition and is not busy: by [busy_exact] no run of [Motion] reaches
    it. *)
Example listeners_add_worlds :
  snd cancelled_early = []
  /\ isBusy (fst cancelled_early) = false
  /\ transitionRule (dom (fst cancelled_early)) = true
  /\ log (fst cancelled_early)
     = [Emit (EVENT_MOVE 1 (-1) 1); TransitionCancel; TransitionStart 1].
Proof. repeat split; vm_compute; reflexivity. Qed.

Lemma cancelled_early_unreachable : ~ reachable slider (fst cancelled_early).
Proof.
  intros Hr.
  pose proof (busy_while_moving slider eq_refl ltac:(discriminate) _ Hr) as H.
  vm_compute in H. discriminate.
Qed.

(** The slider that does not wait for its transitions, with a listener of
    the move event that asks for the next slide. *)
Lemma inner_move_first_witness :
  let c := play eager (moving_listener 1 1 0 None 2 2 1 None) (created, []) in
  rexec eager (moving_listener 1 1 0 None 2 2 1 None) (created, []) = Some c
  /\ snd c = []
  /\ log (fst c)
     = log created ++ [Emit (EVENT_MOVE 1 0 1); Emit (EVENT_MOVE 2 1 2);
                       TransitionStart 2; TransitionStart 1]
  /\ transformRule (dom (fst c)) = Some (resolveX (options eager), toPosition eager 1 true)
  /\ endCallback (fst c)
     = Some {| done_dest := 1; done_index := 1; done_prev := 0;
               done_position := getPosition eager (dom created); done_callback := None |}.
Proof.
  apply (inner_move_first eager 1 1 0 None 2 2 1 None created);
    [discriminate | reflexivity | reflexivity | reflexivity | reflexivity].
Defined.

(** When the transition ends, the first move completes and the second
    never does. *)
Example inner_move_lost :
  let c := play eager (moving_listener 1 1 0 None 2 2 1 None
                         ++ [Calls LTransitionEnd; Returns]) (created, []) in
  log (fst c)
  = [Emit (EVENT_MOVE 1 0 1); Emit (EVENT_MOVE 2 1 2); TransitionStart 2;
     TransitionStart 1; Emit (EVENT_MOVED 1 0 1)]
  /\ rendered (dom (fst c)) == -200.
Proof. split; vm_compute; reflexivity. Qed.
