(* ===== verification/Dispatch.v ===== *)
(** * Dispatch: listeners as programs

    [Reentry] lets any sequence of calls happen between an event and the
    return to the handler that emitted it.  Here a listener is a program:
    for an event and the world it finds, the requests it makes of the
    component, each decided on the world the one before has left.  [call]
    is [emit] with such listeners: it enters a handler, runs the listeners
    of each event the handler emits, their requests included, and goes on
    with the handler when they have returned.

    The recursion of [call] is the recursion of the JavaScript: a request
    of a listener runs a handler, that emits, whose listeners request
    again.  It is bounded by a fuel that counts the events in handling,
    and [None] means that the fuel ran out.  Every result of [call] is a
    run of turns of [Reentry] ([call_turns]), so the invariants of
    [Listeners] hold of every world the component serves, whatever the
    listeners are ([served_Sound]); the result does not depend on the
    fuel that was enough ([call_fuel], [call_deterministic]); without
    listeners [call] is [perform] ([call_mute]).  Moves requested by the
    listeners of a move that waits are dropped ([moves_dropped]); when
    the move does not wait, a listener that answers every move event with
    a move never returns ([echo_diverges]). *)

From S2P Require Import Prelude Utils Env Position Loop Motion Machine Display.
From S2P Require Import Reentry Listeners.

Local Open Scope Q_scope.
Local Open Scope js_scope.

(** ** Listeners *)

(** What other code can ask of the component: the methods of the object
    of Move.ts lines 276-288 that write, and the events [reposition] is
    bound to. *)
Inductive Request : Type :=
| RMove (dest index prev : Z) (callback : option Callback)
| RJump (index : Z)
| RTranslate (position : Q) (preventLoop : bool)
| RCancel
| RRefresh.                         (* emit of resized, updated or refresh *)

(** A listener at work: it stops, or makes a request and goes on from
    the world the request has left. *)
Inductive Script : Type :=
| Stop
| Do (r : Request) (k : World -> Script).

Definition Listener : Type := Event -> World -> Script.

Definition label (r : Request) : Label :=
  match r with
  | RMove dest index prev callback => LMove dest index prev callback
  | RJump index => LJump index
  | RTranslate position preventLoop => LTranslate position preventLoop
  | RCancel => LCancel
  | RRefresh => LReposition
  end.

(** The event a handler has emitted when it waits as the frame. *)
Definition emitted (f : Frame) : Event :=
  match f with
  | FStart dest c => EVENT_MOVE (done_index c) (done_prev c) dest
  | FDone c => EVENT_MOVED (done_index c) (done_prev c) (done_dest c)
  end.

(** The event a handler emits as the last thing it does: [reposition],
    and [mount] of a slider that fades. *)
Definition closing (env : Env) (l : Label) : option Event :=
  match l with
  | LReposition => Some EVENT_REPOSITIONED
  | LMount => if Splide_is (options env) FADE then Some EVENT_REPOSITIONED else None
  | _ => None
  end.

(** The listener's requests, one after the other, each answered by [ask]. *)
Fixpoint obey (ask : Request -> World -> option World) (s : Script) (w : World)
    : option World :=
  match s with
  | Stop => Some w
  | Do r k =>
      match ask r w with
      | Some w' => obey ask (k w') w'
      | None => None
      end
  end.

(** ** Emitting to listeners *)

Section Dispatch.
Variable env : Env.
Variable L : Listener.

(** The listeners of [e] run; what they request is done by [run].  A
    refresh is heard only when [reposition] is bound. *)
Definition hear (run : Label -> World -> option World) (e : Event) (w : World)
    : option World :=
  obey (fun r w => if enabled env (label r) w then run (label r) w else Some w)
       (L e w) w.

(** [call n l w]: the handler of [l] with the listeners of its events;
    [settle n p]: the rest of a handler that has emitted, the listeners of
    the event first. *)
Fixpoint call (n : nat) (l : Label) (w : World) {struct n} : option World :=
  match n with
  | O => None
  | S n =>
      match settle n (enter env l w) with
      | Some w' =>
          match closing env l with
          | Some e => hear (call n) e w'
          | None => Some w'
          end
      | None => None
      end
  end
with settle (n : nat) (p : World * option Frame) {struct n} : option World :=
  match snd p with
  | None => Some (fst p)
  | Some f =>
      match n with
      | O => None
      | S n =>
          match hear (call n) (emitted f) (fst p) with
          | Some w => settle n (resume env f w)
          | None => None
          end
      end
  end.

(** The worlds the component comes to, call by call and event of the
    browser by event, with the listeners [L]. *)
Inductive served : World -> Prop :=
| served_created : served created
| served_call (n : nat) (l : Label) (w w' : World) :
    served w -> enabled env l w = true -> call n l w = Some w' -> served w'.

(** [w'] is reached from [w] by turns, whatever waits on the stack. *)
Definition leads (w w' : World) : Prop :=
  forall stack, exists ts, rrun env (w, stack) ts (w', stack).

End Dispatch.

(** No listener at all. *)
Definition mute : Listener := fun _ _ => Stop.

(** A listener that answers every move event with the same move again. *)
Definition echo : Listener := fun e _ =>
  match e with
  | EVENT_MOVE index prev dest => Do (RMove dest index prev None) (fun _ => Stop)
  | _ => Stop
  end.

(** A listener that cancels when a move is announced. *)
Definition canceller : Listener := fun e _ =>
  match e with
  | EVENT_MOVE _ _ _ => Do RCancel (fun _ => Stop)
  | _ => Stop
  end.

(** A listener that asks for slide 2 when the move to slide 1 is
    announced. *)
Definition hasty : Listener := fun e _ =>
  match e with
  | EVENT_MOVE index _ _ =>
      if (index =? 1)%Z then Do (RMove 2 2 1 None) (fun _ => Stop) else Stop
  | _ => Stop
  end.

(** Scripts that only ask for moves. *)
Inductive only_moves : Script -> Prop :=
| only_moves_stop : only_moves Stop
| only_moves_do (dest index prev : Z) (callback : option Callback) (k : World -> Script) :
    (forall w, only_moves (k w)) -> only_moves (Do (RMove dest index prev callback) k).

(** ** Every call is a run of turns *)

#[export] Instance leads_Reflexive (env : Env) : Reflexive (leads env).
Proof. intros w stack. exists []. apply rrun_nil. Qed.

#[export] Instance leads_Transitive (env : Env) : Transitive (leads env).
Proof.
  intros w1 w2 w3 H1 H2 stack.
  destruct (H1 stack) as [ts1 R1], (H2 stack) as [ts2 R2].
  exists (ts1 ++ ts2). eapply rrun_app; eassumption.
Qed.

Lemma label_synchronous (r : Request) : synchronous (label r) = true.
Proof. now destruct r. Qed.

Section Sound.
Variable env : Env.
Variable L : Listener.

(** [run] does what turns can do. *)
Definition Runs (run : Label -> World -> option World) : Prop :=
  forall l w w' stack,
    permitted env (Calls l) (w, stack) = true -> run l w = Some w' ->
    exists ts, rrun env (w, stack) ts (w', stack).

Lemma obey_leads (ask : Request -> World -> option World) (s : Script) :
  (forall r w1 w2, ask r w1 = Some w2 -> leads env w1 w2) ->
  forall w w', obey ask s w = Some w' -> leads env w w'.
Proof.
  intros Ha. induction s as [|r k IH]; intros w w' H; cbn [obey] in H.
  - injection H as <-. reflexivity.
  - destruct (ask r w) as [w1|] eqn:E; [|discriminate].
    transitivity w1; [now apply (Ha r) | now apply (IH w1)].
Qed.

Lemma hear_leads (run : Label -> World -> option World) (e : Event) (w w' : World) :
  Runs run -> hear env L run e w = Some w' -> leads env w w'.
Proof.
  intros Hr. unfold hear. apply obey_leads. intros r w1 w2 H stack.
  destruct (enabled env (label r) w1) eqn:He.
  - apply (Hr (label r)); [|exact H].
    cbn [permitted fst snd]. now rewrite He, label_synchronous.
  - injection H as <-. exists []. apply rrun_nil.
Qed.

(** The equations of [call] and [settle]. *)
Lemma call_S (n : nat) (l : Label) (w : World) :
  call env L (S n) l w
  = match settle env L n (enter env l w) with
    | Some w' =>
        match closing env l with
        | Some e => hear env L (call env L n) e w'
        | None => Some w'
        end
    | None => None
    end.
Proof. reflexivity. Qed.

Lemma settle_none (n : nat) (w : World) : settle env L n (w, None) = Some w.
Proof. now destruct n. Qed.

Lemma settle_O (f : Frame) (w : World) : settle env L 0 (w, Some f) = None.
Proof. reflexivity. Qed.

Lemma settle_S (n : nat) (f : Frame) (w : World) :
  settle env L (S n) (w, Some f)
  = match hear env L (call env L n) (emitted f) w with
    | Some w' => settle env L n (resume env f w')
    | None => None
    end.
Proof. reflexivity. Qed.

Lemma call_settle_rrun (n : nat) :
  Runs (call env L n)
  /\ forall p w' stack,
       settle env L n p = Some w' -> exists ts, rrun env (push p stack) ts (w', stack).
Proof.
  induction n as [|n [IHc IHs]]; split.
  - intros l w w' stack _ H. discriminate.
  - intros [w [f|]] w' stack H; [discriminate|].
    rewrite settle_none in H. injection H as <-. exists []. apply rrun_nil.
  - intros l w w' stack Hp H. rewrite call_S in H.
    destruct (settle env L n (enter env l w)) as [w1|] eqn:Es; [|discriminate].
    destruct (IHs _ _ stack Es) as [ts1 R1].
    assert (rrun env (w, stack) (Calls l :: ts1) (w1, stack)) as R
      by (eapply rrun_cons; [exact (rstep_apply env (w, stack) (Calls l) Hp) | exact R1]).
    destruct (closing env l) as [e|].
    + destruct (hear_leads _ _ _ _ IHc H stack) as [ts2 R2].
      exists ((Calls l :: ts1) ++ ts2). eapply rrun_app; eassumption.
    + injection H as <-. eauto.
  - intros [w [f|]] w' stack H; [|rewrite settle_none in H; injection H as <-;
                                   exists []; apply rrun_nil].
    rewrite settle_S in H.
    destruct (hear env L (call env L n) (emitted f) w) as [w1|] eqn:Eh; [|discriminate].
    destruct (hear_leads _ _ _ _ IHc Eh (f :: stack)) as [ts1 R1].
    destruct (IHs _ _ stack H) as [ts2 R2].
    exists (ts1 ++ Returns :: ts2). eapply rrun_app; [exact R1|].
    eapply rrun_cons; [|exact R2].
    exact (rstep_apply env (w1, f :: stack) Returns eq_refl).
Qed.

Lemma call_rrun (n : nat) (l : Label) (w w' : World) :
  enabled env l w = true -> call env L n l w = Some w' ->
  exists ts, rrun env (w, []) ts (w', []).
Proof.
  intros He. apply (proj1 (call_settle_rrun n)).
  cbn [permitted fst snd idle]. now rewrite He, orb_true_r.
Qed.

Lemma served_rreachable (w : World) : served env L w -> rreachable env (w, []).
Proof.
  induction 1 as [|n l w w' _ IH He Hc]; [exists []; apply rrun_nil|].
  destruct (call_rrun n l w w' He Hc) as [ts Hr].
  exact (rreachable_rrun env _ _ ts IH Hr).
Qed.

Lemma served_Robust (w : World) : served env L w -> Robust env (w, []).
Proof. intros H. now apply rreachable_Robust, served_rreachable. Qed.

(** ** More fuel, same result *)

(** [run'] does what [run] does, and maybe more. *)
Definition Below (run run' : Label -> World -> option World) : Prop :=
  forall l w w', run l w = Some w' -> run' l w = Some w'.

Lemma obey_mono (ask ask' : Request -> World -> option World) (s : Script) :
  (forall r w w', ask r w = Some w' -> ask' r w = Some w') ->
  forall w w', obey ask s w = Some w' -> obey ask' s w = Some w'.
Proof.
  intros Ha. induction s as [|r k IH]; intros w w' H; cbn [obey] in *; [exact H|].
  destruct (ask r w) as [w1|] eqn:E; [|discriminate].
  rewrite (Ha _ _ _ E). now apply IH.
Qed.

Lemma hear_mono (run run' : Label -> World -> option World) (e : Event) (w w' : World) :
  Below run run' -> hear env L run e w = Some w' -> hear env L run' e w = Some w'.
Proof.
  intros Hb. unfold hear. apply obey_mono. intros r w1 w2.
  destruct (enabled env (label r) w1); [apply Hb | auto].
Qed.

Lemma call_settle_S (n : nat) :
  Below (call env L n) (call env L (S n))
  /\ forall p w', settle env L n p = Some w' -> settle env L (S n) p = Some w'.
Proof.
  induction n as [|n [IHc IHs]]; split.
  - intros l w w' H. discriminate.
  - intros [w [f|]] w' H; [discriminate | now rewrite settle_none in *].
  - intros l w w' H. rewrite call_S in *.
    destruct (settle env L n (enter env l w)) as [w1|] eqn:Es; [|discriminate].
    rewrite (IHs _ _ Es). destruct (closing env l); [|exact H].
    exact (hear_mono _ _ _ _ _ IHc H).
  - intros [w [f|]] w' H; [|now rewrite settle_none in *].
    rewrite settle_S in *.
    destruct (hear env L (call env L n) (emitted f) w) as [w1|] eqn:Eh; [|discriminate].
    rewrite (hear_mono _ _ _ _ _ IHc Eh). now apply IHs.
Qed.

Lemma call_fuel (n m : nat) (l : Label) (w w' : World) :
  (n <= m)%nat -> call env L n l w = Some w' -> call env L m l w = Some w'.
Proof.
  induction 1 as [|m _ IH]; [auto|]. intros H. now apply call_settle_S, IH.
Qed.

(** Out of fuel, out of fuel with less. *)
Lemma call_starved (n : nat) (l : Label) (w : World) :
  call env L (S n) l w = None -> call env L n l w = None.
Proof.
  intros H. destruct (call env L n l w) as [w'|] eqn:E; [|reflexivity].
  apply call_settle_S in E. congruence.
Qed.

(** ** Handlers whose listeners ask for nothing that counts *)

(** A completion whose listeners do nothing. *)
Lemma settle_done (n : nat) (c : Done) (w : World) :
  L (emitted (FDone c)) w = Stop ->
  settle env L (S n) (w, Some (FDone c)) = Some (done_finish env c w).
Proof.
  intros E. rewrite settle_S. unfold hear. rewrite E. cbn [obey resume].
  apply settle_none.
Qed.

(** A move whose listeners leave [w1], when the listeners of the moved
    event do nothing. *)
Lemma settle_start (n : nat) (dest : Z) (c : Done) (w w1 : World) :
  (forall i p d w, L (EVENT_MOVED i p d) w = Stop) ->
  hear env L (call env L (S n)) (emitted (FStart dest c)) w = Some w1 ->
  settle env L (S (S n)) (w, Some (FStart dest c))
  = Some (Transition_start env dest c (logged (TransitionStart dest) w1)).
Proof.
  intros HD Hh. rewrite settle_S, Hh. cbn [resume].
  unfold start_announce, Transition_start.
  destruct (Splide_is (options env) FADE); [apply settle_none|].
  destruct (_ && _); [apply settle_none|].
  rewrite settle_done by apply HD. now rewrite <- move_done_split.
Qed.

(** A handler that emits nothing at its end. *)
Lemma call_open (n : nat) (l : Label) (w w' : World) :
  closing env l = None -> settle env L n (enter env l w) = Some w' ->
  call env L (S n) l w = Some w'.
Proof. intros Hc Hs. now rewrite call_S, Hs, Hc. Qed.

(** A move requested while the component is busy is dropped. *)
Lemma call_busy (n : nat) (dest i prev : Z) (cb : option Callback) (w : World) :
  isBusy w = true -> call env L (S n) (LMove dest i prev cb) w = Some w.
Proof.
  intros Hb. apply call_open; [reflexivity|].
  cbn [enter]. unfold move_announce. rewrite Hb. apply settle_none.
Qed.

Lemma obey_dropped (n : nat) (s : Script) (w : World) :
  only_moves s -> isBusy w = true ->
  obey (fun r w => if enabled env (label r) w
                   then call env L (S n) (label r) w else Some w) s w
  = Some w.
Proof.
  intros Hs Hb. induction Hs as [|dest i prev cb k _ IH]; [reflexivity|].
  cbn [obey label enabled]. rewrite call_busy by exact Hb. apply IH.
Qed.

(** The moves the listeners of a move that waits ask for are dropped. *)
Lemma call_move_waits (n : nat) (dest i prev : Z) (cb : option Callback) (w : World) :
  (forall i p d w, only_moves (L (EVENT_MOVE i p d) w)) ->
  (forall i p d w, L (EVENT_MOVED i p d) w = Stop) ->
  negb (dest =? i)%Z || waitForTransition (options env) = true ->
  isBusy w = false ->
  call env L (S (S (S n))) (LMove dest i prev cb) w = Some (move env dest i prev cb w).
Proof.
  intros HM HD Hw Hb. apply call_open; [reflexivity|].
  cbn [enter]. unfold move_announce, move. rewrite Hb. cbn [negb].
  apply settle_start; [exact HD|]. unfold hear. apply obey_dropped; [apply HM|].
  exact Hw.
Qed.

End Sound.

(** Without listeners [call] is [perform], with fuel for the two events
    of a move that completes at once. *)
Lemma call_mute (env : Env) (n : nat) (l : Label) (w : World) :
  call env mute (S (S (S n))) l w = Some (perform env l w).
Proof.
  destruct l; try (rewrite call_S, enter_plain, settle_none by reflexivity;
                   cbn [closing]; try destruct (Splide_is _ _); reflexivity);
    apply call_open; try reflexivity; cbn [enter perform].
  - unfold move_announce, move. destruct (negb (isBusy w)); [|apply settle_none].
    now apply settle_start.
  - unfold transitionend. destruct (endCallback w); [|apply settle_none].
    now rewrite settle_done.
  - unfold tick. destruct (ticks w); [apply settle_none|]. now rewrite settle_done.
Qed.

(** On a slider that does not wait for its transitions, [echo] answers
    the event of a move to a slide with the same move, which is accepted
    and emits again. *)
Lemma echo_starves (env : Env) (n : nat) :
  waitForTransition (options env) = false ->
  forall (d p : Z) (cb : option Callback) (w : World),
    isBusy w = false -> call env echo n (LMove d d p cb) w = None.
Proof.
  intros Hw. induction n as [|n IH]; intros d p cb w Hb; [reflexivity|].
  rewrite call_S. cbn [enter]. unfold move_announce. rewrite Hb. cbn [negb].
  destruct n as [|n]; [reflexivity|]. rewrite settle_S. unfold hear.
  cbn [emitted echo done_index done_prev obey label enabled fst].
  rewrite (call_starved env echo n); [reflexivity|]. apply IH.
  unfold isBusy. wsimpl. now rewrite Z.eqb_refl, Hw.
Qed.

Lemma echo_only_moves (e : Event) (w : World) : only_moves (echo e w).
Proof. destruct e; repeat constructor. Qed.

(** ** Theorems *)

(** The result of a call is a run of turns from an empty stack to an
    empty stack: [call] computes what [Reentry] allows. *)
Theorem call_turns (env : Env) (L : Listener) (n : nat) (l : Label) (w w' : World) :
  enabled env l w = true -> call env L n l w = Some w' ->
  exists ts, rrun env (w, []) ts (w', []).
Proof. apply call_rrun. Qed.

(** The result of a call does not depend on the fuel that was enough. *)
Theorem call_deterministic (env : Env) (L : Listener) (n m : nat) (l : Label)
    (w w1 w2 : World) :
  call env L n l w = Some w1 -> call env L m l w = Some w2 -> w1 = w2.
Proof.
  intros H1 H2.
  apply (call_fuel env L n (Nat.max n m)) in H1; [|lia].
  apply (call_fuel env L m (Nat.max n m)) in H2; [|lia]. congruence.
Qed.

(** C29. Whatever the listeners are, between two calls the component is
    sound: every world it comes to by calls and events of the browser,
    each with the listeners of its events and all they request, satisfies
    the invariant of the orchestration ([waiting] implies MOVING and a
    pending completion), has its moved events after their move events,
    and has a well-formed DOM. *)
Theorem served_Sound (env : Env) (L : Listener) (w : World) :
  served env L w -> Inv env w /\ Ordered w /\ Coherent env (dom w).
Proof.
  intros H. destruct (served_Robust env L w H) as [HS HQ HC].
  split; [now apply Safe_Inv | split; [exact (seq_world _ HQ) | exact HC]].
Qed.

(** C33. Overlapping moves are rejected when the move waits: if the
    listeners of the move event only ask for moves and those of the moved
    event ask for nothing, a move that sets [waiting] (to a clone, or with
    [waitForTransition]) returns, with any fuel of three or more, and does
    what [move] does without listeners: every move requested in between
    is dropped. *)
Theorem moves_dropped (env : Env) (L : Listener) (m : nat) (dest i prev : Z)
    (cb : option Callback) (w : World) :
  (forall i p d w, only_moves (L (EVENT_MOVE i p d) w)) ->
  (forall i p d w, L (EVENT_MOVED i p d) w = Stop) ->
  negb (dest =? i)%Z || waitForTransition (options env) = true ->
  isBusy w = false -> (3 <= m)%nat ->
  call env L m (LMove dest i prev cb) w = Some (move env dest i prev cb w).
Proof.
  intros HM HD Hw Hb Hm. apply (call_fuel env L 3 m); [exact Hm|].
  now apply call_move_waits.
Qed.

(** C34. A move that does not wait is re-entrant without bound: on a
    slider with [waitForTransition] off, a move to a slide
    ([dest === index]) whose event is answered by the listener [echo] with
    the same move never returns, whatever the fuel, while the same call
    returns what [move] computes when nobody listens. *)
Theorem echo_diverges (env : Env) (n : nat) (d p : Z) (cb : option Callback)
    (w : World) :
  waitForTransition (options env) = false -> isBusy w = false ->
  call env echo n (LMove d d p cb) w = None
  /\ call env mute (S (S (S n))) (LMove d d p cb) w = Some (move env d d p cb w).
Proof.
  intros Hw Hb. split; [now apply echo_starves | apply call_mute].
Qed.

(** ** The theorems at the sliders of the test suite *)

(** The slider of the tests with the listener that cancels: the call
    computes the world of [cancelled_early]. *)
Example canceller_early :
  call slider canceller 3 (LMove 1 1 (-1) None) created = Some (fst cancelled_early).
Proof. vm_compute. reflexivity. Qed.

Lemma canceller_served : served slider canceller (fst cancelled_early).
Proof.
  apply (served_call slider canceller 3 (LMove 1 1 (-1) None) created);
    [constructor | reflexivity | exact canceller_early].
Qed.

Lemma served_Sound_witness :
  Inv slider (fst cancelled_early) /\ Ordered (fst cancelled_early)
  /\ Coherent slider (dom (fst cancelled_early)).
Proof. apply (served_Sound slider canceller). exact canceller_served. Defined.

(** The slider of the tests waits for its transitions: the move [echo]
    asks for is dropped and [Move.move( 1, 1, -1 )] does what it does in
    the tests. *)
Lemma moves_dropped_witness :
  call slider echo 3 (LMove 1 1 (-1) None) created = Some moving.
Proof.
  apply (moves_dropped slider echo 3 1 1 (-1) None created);
    [intros; apply echo_only_moves | reflexivity | reflexivity | reflexivity | lia].
Defined.

(** The same slider with [waitForTransition] off: the call does not
    return. *)
Lemma echo_diverges_witness :
  call eager echo 1000 (LMove 1 1 0 None) created = None
  /\ call eager mute 1003 (LMove 1 1 0 None) created
     = Some (move eager 1 1 0 None created).
Proof. apply (echo_diverges eager 1000 1 0 None created); reflexivity. Defined.

(** With the listener that asks for slide 2 when the move to slide 1 is
    announced, the call computes the run of [inner_move_first]. *)
Example hasty_overtaken :
  call eager hasty 4 (LMove 1 1 0 None) created
  = Some (fst (play eager (moving_listener 1 1 0 None 2 2 1 None) (created, []))).
Proof. vm_compute. reflexivity. Qed.
