(* ===== verification/Places.v ===== *)
(** * Places: where the list is sent, with listeners at work

    [Offsets] shows that the handlers of Move.ts send the list to the
    place of a registered slide and nowhere else, along the runs of the
    component.  Listeners run in the middle of the handlers; this file
    shows the same for every run of turns: whatever the listeners call,
    as long as they call with registered indices and do not translate to
    a position of their own, the target of the transform rule is the
    place of a registered slide ([rreachable_Placed]).  The invariant
    [Placed] adds to [Derived] that the handlers waiting on the stack
    know the slides they will go to.  For the listeners of [Dispatch],
    which are programs, the condition is one on their scripts
    ([proper_script], [call_Placed]). *)

From S2P Require Import Prelude Utils Env Position Loop Motion Machine Display Offsets.
From S2P Require Import Reentry Listeners Dispatch.

Local Open Scope Q_scope.
Local Open Scope js_scope.

(** ** The invariant *)

(** The slides a waiting handler will go to are registered. *)
Definition frame_known (env : Env) (f : Frame) : bool :=
  match f with
  | FStart dest c => registered env dest && known env c
  | FDone c => known env c
  end.

(** The turns of well-behaved callers. *)
Definition proper_turn (env : Env) (t : Turn) : bool :=
  match t with
  | Calls l => proper env l
  | Returns => true
  end.

Record Placed (env : Env) (c : Config) : Prop := {
  placed_world : Derived env (fst c);
  placed_shape : Shaped env (fst c);
  placed_dom : Coherent env (dom (fst c));
  placed_frames : forallb (frame_known env) (snd c) = true
}.

(** ** The halves of the handlers *)

Section Halves.
Variable env : Env.

Lemma Shaped_ext (w w' : World) :
  transitionRule (dom w') = transitionRule (dom w) -> ticks w' = ticks w ->
  Shaped env w -> Shaped env w'.
Proof.
  unfold Shaped. intros -> ->. now destruct (Splide_is (options env) FADE).
Qed.

(** What follows the moved event only writes the log. *)
Lemma done_finish_fields (c : Done) (w : World) :
  dom (done_finish env c w) = dom w /\ index (done_finish env c w) = index w
  /\ endCallback (done_finish env c w) = endCallback w
  /\ ticks (done_finish env c w) = ticks w.
Proof.
  unfold done_finish. destruct (_ && _ && _); [now repeat split|].
  destruct (done_callback c); now repeat split.
Qed.

Lemma Derived_before_finish (c : Done) (w : World) :
  Derived env (done_finish env c w) -> Derived env w.
Proof.
  destruct (done_finish_fields c w) as (Hd & Hi & Hc & Ht).
  apply Derived_ext; now rewrite ?Hd, ?Hi, ?Hc, ?Ht.
Qed.

Lemma Derived_done_finish (c : Done) (w : World) :
  Derived env w -> Derived env (done_finish env c w).
Proof.
  destruct (done_finish_fields c w) as (Hd & Hi & Hc & Ht).
  apply Derived_ext; now rewrite ?Hd, ?Hi, ?Hc, ?Ht.
Qed.

Lemma Derived_done_announce (c : Done) (w : World) :
  known env c = true -> Derived env w -> Derived env (done_announce env c w).
Proof.
  intros Hc HD. apply (Derived_before_finish c). rewrite <- move_done_split.
  now apply Derived_move_done.
Qed.

Lemma Shaped_done_announce (c : Done) (w : World) :
  Shaped env w -> Shaped env (done_announce env c w).
Proof.
  apply Shaped_ext; unfold done_announce; now destruct (negb _).
Qed.

(** [Transition.start] is its first half, and the rest of the completion
    if the completion ran at once. *)
Lemma start_announce_finish (dest : Z) (c : Done) (w : World) :
  Transition_start env dest c w
  = match snd (start_announce env dest c w) with
    | Some _ => done_finish env c (fst (start_announce env dest c w))
    | None => fst (start_announce env dest c w)
    end.
Proof.
  unfold Transition_start, start_announce.
  destruct (Splide_is (options env) FADE); [reflexivity|]. now destruct (_ && _).
Qed.

Lemma Derived_start_announce (dest : Z) (c : Done) (w : World) :
  registered env dest = true -> known env c = true -> Derived env w ->
  Derived env (fst (start_announce env dest c w)).
Proof.
  intros Hd Hc HD. pose proof (Derived_Transition_start env dest c w Hd Hc HD) as H.
  rewrite start_announce_finish in H.
  destruct (snd (start_announce env dest c w)); [now apply (Derived_before_finish c) | exact H].
Qed.

Lemma Shaped_start_announce (dest : Z) (c : Done) (w : World) :
  Shaped env w -> Shaped env (fst (start_announce env dest c w)).
Proof.
  unfold start_announce, Shaped. destruct (Splide_is (options env) FADE) eqn:Hf.
  - auto.
  - destruct (_ && _); cbn [fst]; [auto|]. intros H.
    pose proof (Shaped_done_announce c (jump env dest w)) as Hs. unfold Shaped in Hs.
    rewrite Hf in Hs. now apply Hs.
Qed.

Lemma start_announce_frame (dest : Z) (c : Done) (w : World) :
  known env c = true ->
  forallb (frame_known env)
    (match snd (start_announce env dest c w) with Some f => [f] | None => [] end) = true.
Proof.
  intros Hc. unfold start_announce. destruct (Splide_is (options env) FADE); [reflexivity|].
  destruct (_ && _); cbn; [reflexivity | now rewrite Hc].
Qed.

Lemma Shaped_Transition_cancel (w : World) :
  Shaped env w -> Shaped env (Transition_cancel env w).
Proof.
  unfold Transition_cancel, Shaped.
  destruct (Splide_is (options env) FADE); [auto | now cbn].
Qed.

Lemma Shaped_ticked (c : Done) (rest : list Done) (w : World) :
  ticks w = c :: rest -> Shaped env w -> Shaped env (set_ticks rest w).
Proof.
  unfold Shaped. intros E. destruct (Splide_is (options env) FADE); [auto|].
  rewrite E. discriminate.
Qed.

Lemma Derived_ticked (c : Done) (rest : list Done) (w : World) :
  ticks w = c :: rest -> Derived env w -> Derived env (set_ticks rest w).
Proof.
  intros E [H1 H2 H3 H4]. split; try assumption. wsimpl.
  intros c0 Hc0. apply H4. rewrite E. now right.
Qed.

(** ** Entering a handler *)

Lemma Derived_enter (l : Label) (w : World) :
  proper env l = true -> Coherent env (dom w) -> Shaped env w -> Derived env w ->
  Derived env (fst (enter env l w)).
Proof.
  intros Hp HC HS HD. destruct (plain l) eqn:Hl.
  - rewrite (enter_plain env l w Hl). now apply Derived_perform.
  - destruct l; try discriminate; cbn [enter].
    + unfold move_announce. destruct (negb (isBusy w)); [|exact HD].
      now apply (Derived_ext env w).
    + destruct (endCallback w) as [c|] eqn:E; [|exact HD].
      apply Derived_done_announce; [exact (der_callback _ _ HD c E)|].
      now apply Derived_Transition_cancel.
    + destruct (ticks w) as [|c rest] eqn:E; [exact HD|].
      apply Derived_done_announce; [apply (der_ticks _ _ HD); rewrite E; now left|].
      now apply (Derived_ticked c).
Qed.

Lemma Shaped_enter (l : Label) (w : World) :
  enabled env l w = true -> Shaped env w -> Shaped env (fst (enter env l w)).
Proof.
  intros He HS. destruct (plain l) eqn:Hl.
  - rewrite (enter_plain env l w Hl).
    exact (proj2 (step_machine env w _ l HS (step_apply env w l He))).
  - destruct l; try discriminate; cbn [enter].
    + unfold move_announce. destruct (negb (isBusy w)); [|exact HS].
      now apply (Shaped_ext w).
    + destruct (endCallback w); [|exact HS].
      now apply Shaped_done_announce, Shaped_Transition_cancel.
    + destruct (ticks w) as [|c rest] eqn:E; [exact HS|].
      now apply Shaped_done_announce, (Shaped_ticked c).
Qed.

Lemma known_enter (l : Label) (w : World) :
  proper env l = true -> Derived env w ->
  forallb (frame_known env)
    (match snd (enter env l w) with Some f => [f] | None => [] end) = true.
Proof.
  intros Hp HD. destruct l; try reflexivity; cbn [enter proper] in *.
  - unfold move_announce. destruct (negb (isBusy w)); [|reflexivity].
    cbn. unfold known. cbn. apply andb_true_iff in Hp as [Hd Hi]. now rewrite Hd, Hi.
  - destruct (endCallback w) as [c|] eqn:E; [|reflexivity].
    cbn. now rewrite (der_callback _ _ HD c E).
  - destruct (ticks w) as [|c rest] eqn:E; [reflexivity|].
    cbn. rewrite (der_ticks _ _ HD c); [reflexivity | rewrite E; now left].
Qed.

(** ** Turns *)

Lemma forallb_push (p : World * option Frame) (stack : list Frame) :
  forallb (frame_known env) (match snd p with Some f => [f] | None => [] end) = true ->
  forallb (frame_known env) stack = true ->
  forallb (frame_known env) (snd (push p stack)) = true.
Proof.
  unfold push. destruct (snd p); cbn; [|auto].
  intros H ->. now rewrite andb_true_r in H |- *.
Qed.

Lemma Placed_enter (l : Label) (w : World) (stack : list Frame) :
  enabled env l w = true -> proper env l = true ->
  Placed env (w, stack) -> Placed env (push (enter env l w) stack).
Proof.
  intros He Hp [HD HS HC HF]. cbn [fst snd] in *. split.
  - now apply Derived_enter.
  - now apply Shaped_enter.
  - now apply Coherent_enter.
  - apply forallb_push; [now apply known_enter | exact HF].
Qed.

Lemma Placed_resume (f : Frame) (w : World) (stack : list Frame) :
  Placed env (w, f :: stack) -> Placed env (push (resume env f w) stack).
Proof.
  intros [HD HS HC HF]. cbn [fst snd forallb] in *.
  apply andb_true_iff in HF as [Hf HF]. split; [| |now apply Coherent_resume|].
  - destruct f as [dest c|c]; cbn [resume fst frame_known] in *.
    + apply andb_true_iff in Hf as [Hd Hc].
      apply Derived_start_announce; [exact Hd | exact Hc | now apply (Derived_ext env w)].
    + now apply Derived_done_finish.
  - destruct f as [dest c|c]; cbn [resume fst].
    + apply Shaped_start_announce. now apply (Shaped_ext w).
    + destruct (done_finish_fields c w) as (Ed & _ & _ & Et).
      apply (Shaped_ext w (done_finish env c w)); [now rewrite Ed | exact Et | exact HS].
  - apply forallb_push; [|exact HF]. destruct f as [dest c|c]; cbn [resume snd].
    + apply andb_true_iff in Hf as [_ Hc]. now apply start_announce_frame.
    + reflexivity.
Qed.

Lemma Placed_rrun (c c' : Config) (ts : list Turn) :
  rrun env c ts c' -> forallb (proper_turn env) ts = true ->
  Placed env c -> Placed env c'.
Proof.
  induction 1 as [|c c1 c2 t ts Hs _ IH]; [auto|]. cbn [forallb].
  intros [Ht Hts]%andb_true_iff HP. apply (IH Hts). clear IH.
  destruct Hs as [[w stack] t Hp]. destruct t as [l|]; cbn [advance proper_turn] in *.
  - apply andb_true_iff in Hp as [He _]. now apply Placed_enter.
  - destruct stack as [|f stack]; [discriminate|]. now apply Placed_resume.
Qed.

End Halves.

Lemma Placed_created (env : Env) : registered env 0 = true -> Placed env (created, []).
Proof.
  intros H0. split; cbn [fst snd].
  - now apply Derived_created.
  - apply Shaped_created.
  - apply Coherent_initial.
  - reflexivity.
Qed.

(** ** Theorems *)

(** C20. The list is only ever sent to the place of a slide, whatever
    the listeners do: along every run of turns from the created slider in
    which the calls, those of listeners in the middle of a handler
    included, come with registered indices and none is a [translate] to
    a position of the caller's own, the target of the transform rule is
    the position of a registered slide or the position 0 the list is
    created at (up to whole slider sizes in loop mode), so is the
    position [getPosition] reads while no transition runs, and
    [Splide.index] is the index of a registered slide. *)
Theorem rreachable_Placed (env : Env) (c : Config) (ts : list Turn) :
  registered env 0 = true ->
  rrun env (created, []) ts c -> forallb (proper_turn env) ts = true ->
  placed env (target (dom (fst c)))
  /\ (transitionRule (dom (fst c)) = false -> placed env (getPosition env (dom (fst c))))
  /\ registered env (index (fst c)) = true.
Proof.
  intros H0 Hr Hp. destruct (Placed_rrun env _ _ _ Hr Hp (Placed_created env H0))
    as [[H1 H2 _ _] _ HC _].
  repeat split; [exact H1 | | exact H2].
  intros Hs. now rewrite getPosition_rendered, (coh_settled _ _ HC Hs).
Qed.

(** Runs without listeners are runs of turns with the same calls, so the
    theorem covers them. *)
Lemma run_proper_turns (env : Env) (w w' : World) (ls : list Label) :
  run env w ls w' -> forallb (proper env) ls = true ->
  exists ts, rrun env (w, []) ts (w', []) /\ forallb (proper_turn env) ts = true.
Proof.
  induction 1 as [w|w w1 w2 l ls Hs _ IH]; cbn [forallb].
  - exists []. split; [apply rrun_nil | reflexivity].
  - intros [Hl Hls]%andb_true_iff. destruct (IH Hls) as (ts & Hr & Hp).
    destruct (step_rrun env w w1 l Hs) as (k & _ & Hk).
    exists ((Calls l :: repeat Returns k) ++ ts). split; [eapply rrun_app; eassumption|].
    rewrite forallb_app, Hp, andb_true_r. cbn [forallb proper_turn]. rewrite Hl.
    clear. induction k; [reflexivity | exact IHk].
Qed.

(** ** Listeners as programs *)

(** A script that asks with registered indices, and never for a position
    of its own. *)
Fixpoint proper_script (env : Env) (s : Script) : Prop :=
  match s with
  | Stop => True
  | Do r k => proper env (label r) = true /\ forall w, proper_script env (k w)
  end.

Section Programs.
Variable env : Env.
Variable L : Listener.
Hypothesis HL : forall e w, proper_script env (L e w).

(** [run] keeps [Placed], whatever waits on the stack. *)
Definition Places (run : Label -> World -> option World) : Prop :=
  forall l w w' stack,
    enabled env l w = true -> proper env l = true ->
    Placed env (w, stack) -> run l w = Some w' -> Placed env (w', stack).

Lemma obey_Placed (run : Label -> World -> option World) (stack : list Frame)
    (s : Script) :
  Places run -> proper_script env s -> forall w w',
  Placed env (w, stack) ->
  obey (fun r w => if enabled env (label r) w then run (label r) w else Some w) s w = Some w' ->
  Placed env (w', stack).
Proof.
  intros Hr. induction s as [|r k IH]; intros Hs w w' HP H; cbn [obey] in H.
  - now injection H as <-.
  - destruct Hs as [Hp Hk]. destruct (enabled env (label r) w) eqn:He.
    + destruct (run (label r) w) as [w1|] eqn:E; [|discriminate].
      exact (IH w1 (Hk w1) w1 w' (Hr _ _ _ _ He Hp HP E) H).
    + exact (IH w (Hk w) w w' HP H).
Qed.

Lemma hear_Placed (run : Label -> World -> option World) (e : Event) (w w' : World)
    (stack : list Frame) :
  Places run -> Placed env (w, stack) -> hear env L run e w = Some w' ->
  Placed env (w', stack).
Proof. intros Hr HP. unfold hear. now apply obey_Placed. Qed.

Lemma call_settle_Placed (n : nat) :
  Places (call env L n)
  /\ forall p w' stack,
       Placed env (push p stack) -> settle env L n p = Some w' -> Placed env (w', stack).
Proof.
  induction n as [|n [IHc IHs]]; split.
  - intros l w w' stack _ _ _ H. discriminate.
  - intros [w [f|]] w' stack HP H; [discriminate|].
    rewrite settle_none in H. now injection H as <-.
  - intros l w w' stack He Hp HP H. rewrite call_S in H.
    destruct (settle env L n (enter env l w)) as [w1|] eqn:Es; [|discriminate].
    pose proof (IHs _ _ stack (Placed_enter env l w stack He Hp HP) Es) as H1.
    destruct (closing env l); [|now injection H as <-].
    exact (hear_Placed _ _ _ _ _ IHc H1 H).
  - intros [w [f|]] w' stack HP H;
      [|rewrite settle_none in H; now injection H as <-].
    rewrite settle_S in H.
    destruct (hear env L (call env L n) (emitted f) w) as [w1|] eqn:Eh; [|discriminate].
    pose proof (hear_Placed _ _ _ _ (f :: stack) IHc HP Eh) as H1.
    exact (IHs _ _ stack (Placed_resume env f w1 stack H1) H).
Qed.

End Programs.

(** With listeners that ask with registered indices and never for a
    position of their own, a handler called with registered indices, run
    with all that its listeners ask for, sends the list to the place of a
    registered slide. *)
Theorem call_Placed (env : Env) (L : Listener) (n : nat) (l : Label) (w w' : World) :
  (forall e w, proper_script env (L e w)) ->
  enabled env l w = true -> proper env l = true -> Placed env (w, []) ->
  call env L n l w = Some w' ->
  Placed env (w', []) /\ placed env (target (dom w')).
Proof.
  intros HL He Hp HP H.
  pose proof (proj1 (call_settle_Placed env L HL n) l w w' [] He Hp HP H) as H'.
  split; [exact H' | exact (der_target _ _ (placed_world _ _ H'))].
Qed.

Lemma canceller_proper (e : Event) (w : World) : proper_script slider (canceller e w).
Proof. destruct e; cbn; auto. Qed.

Example canceller_call_Placed (n : nat) (w' : World) :
  call slider canceller n (LMove 1 1 (-1) None) created = Some w' ->
  placed slider (target (dom w')).
Proof.
  intros H.
  apply (call_Placed slider canceller n (LMove 1 1 (-1) None) created w');
    [apply canceller_proper | reflexivity | reflexivity | now apply Placed_created | exact H].
Qed.

(** The slider of the tests with the listener that cancels every move it
    hears of. *)
Example canceller_placed :
  match call slider canceller 3 (LMove 1 1 (-1) None) created with
  | Some w' => placedb slider (target (dom w')) = true
  | None => False
  end.
Proof. vm_compute. reflexivity. Qed.

(** ** The theorem at the slider of the test suite *)

(** The listener that cancels the move it hears of: the transition starts
    all the same, towards the second slide. *)
Lemma rreachable_Placed_witness :
  placed slider (target (dom (fst cancelled_early)))
  /\ (transitionRule (dom (fst cancelled_early)) = false
      -> placed slider (getPosition slider (dom (fst cancelled_early))))
  /\ registered slider (index (fst cancelled_early)) = true.
Proof.
  apply (rreachable_Placed slider cancelled_early
           [Calls (LMove 1 1 (-1) None); Calls LCancel; Returns]);
    [reflexivity | | reflexivity].
  repeat (eapply rrun_cons; [apply rstep_apply; reflexivity|]). apply rrun_nil.
Defined.
