(* ===== verification/Session.v ===== *)
(** * Session: the slider across resizes

    The handlers of [Motion] read one environment.  When the slider is
    resized, its content updated or the slider refreshed, the Layout
    component measures again and emits the event [reposition] is bound
    to: the measurements, the registry and the last index change, the
    options stay.  A session is a run in which such changes happen between
    the steps of the component; the invariants of [Motion], [Machine]
    and [Display] hold along sessions. *)

From S2P Require Import Prelude Utils Env Position Loop Motion Machine Display.

Local Open Scope Q_scope.
Local Open Scope js_scope.

(** ** Geometry *)

(** What a resize, an update or a refresh replaces. *)
Record Geometry : Type := {
  g_layout : Layout;
  g_Slides : list Z;
  g_getEnd : Z
}.

Definition resized (env : Env) (g : Geometry) : Env := {|
  options := options env;
  layout := g_layout g;
  Slides := g_Slides g;
  getEnd := g_getEnd g
|}.

Inductive SLabel : Type :=
| SCall (l : Label)                 (* a step of the component *)
| SResize (g : Geometry).           (* resized, updated or refresh, measured anew *)

Definition senabled (sl : SLabel) (s : Env * World) : bool :=
  match sl with
  | SCall l => enabled (fst s) l (snd s)
  | SResize _ => true
  end.

(** The event reaches [reposition] if [mount] bound it. *)
Definition sperform (sl : SLabel) (s : Env * World) : Env * World :=
  match sl with
  | SCall l => (fst s, perform (fst s) l (snd s))
  | SResize g =>
      let env' := resized (fst s) g in
      (env', if listening (snd s) then reposition env' (snd s) else snd s)
  end.

Inductive sstep : Env * World -> SLabel -> Env * World -> Prop :=
| sstep_apply (s : Env * World) (sl : SLabel) :
    senabled sl s = true -> sstep s sl (sperform sl s).

Inductive session : Env * World -> list SLabel -> Env * World -> Prop :=
| session_nil (s : Env * World) : session s [] s
| session_cons (s s' s'' : Env * World) (sl : SLabel) (sls : list SLabel) :
    sstep s sl s' -> session s' sls s'' -> session s (sl :: sls) s''.

Fixpoint sexec (sls : list SLabel) (s : Env * World) : option (Env * World) :=
  match sls with
  | [] => Some s
  | sl :: rest => if senabled sl s then sexec rest (sperform sl s) else None
  end.

Lemma sexec_session (sls : list SLabel) : forall s s',
  sexec sls s = Some s' -> session s sls s'.
Proof.
  induction sls as [|sl sls IH]; intros s s' H; cbn [sexec] in H.
  - injection H as <-. constructor.
  - destruct (senabled sl s) eqn:E; [|discriminate].
    econstructor; [now constructor | now apply IH].
Qed.

(** ** Invariants do not read the geometry *)

(** Everything the orchestration keeps true, of a world in an
    environment. *)
Record Sound (s : Env * World) : Prop := {
  sound_inv : Inv (fst s) (snd s);
  sound_ordered : Ordered (snd s);
  sound_coherent : Coherent (fst s) (dom (snd s));
  sound_shaped : Shaped (fst s) (snd s);
  sound_counts : AInv (abstraction (fst s) (snd s))
}.

Lemma Sound_resized (env : Env) (g : Geometry) (w : World) :
  Sound (env, w) -> Sound (resized env g, w).
Proof. intros [H1 H2 H3 H4 H5]. split; [destruct H1; split | | destruct H3; split | |]; assumption. Qed.

Lemma Sound_created (env : Env) : Sound (env, created).
Proof.
  split; cbn [fst snd].
  - apply Inv_created.
  - apply Ordered_created.
  - apply Coherent_initial.
  - apply Shaped_created.
  - rewrite abstraction_created. apply AInv_created.
Qed.

Lemma Sound_step (env : Env) (w w' : World) (l : Label) :
  Sound (env, w) -> step env w l w' -> Sound (env, w').
Proof.
  intros [H1 H2 H3 H4 H5] Hs. cbn [fst snd] in *.
  destruct (step_machine env w w' l H4 Hs) as [Ha H4'].
  split; cbn [fst snd].
  - exact (Inv_step env w w' l H1 Hs).
  - exact (Ordered_step env w w' l H2 Hs).
  - destruct Hs. now apply Coherent_perform.
  - exact H4'.
  - exact (AInv_astep _ _ _ _ _ H5 Ha).
Qed.

Lemma Sound_sstep (s s' : Env * World) (sl : SLabel) :
  Sound s -> sstep s sl s' -> Sound s'.
Proof.
  intros HS Hs. destruct Hs as [[env w] sl He]. destruct sl as [l|g]; cbn in *.
  - apply (Sound_step env w _ l HS). now constructor.
  - apply (Sound_resized env g) in HS. destruct (listening w) eqn:El; [|exact HS].
    apply (Sound_step (resized env g) w _ LReposition HS).
    exact (step_apply (resized env g) w LReposition El).
Qed.

Lemma Sound_session (s s' : Env * World) (sls : list SLabel) :
  session s sls s' -> Sound s -> Sound s'.
Proof. induction 1; eauto using Sound_sstep. Qed.

(** ** Theorems *)

(** C37. Along every session from the created slider, across any number
    of resizes, the invariants of the orchestration hold in the
    environment of the moment: a busy component is MOVING with its
    completion pending, moved events follow their move events and never
    outnumber them, and the DOM of the list is well formed. *)
Theorem session_Sound (env env' : Env) (w' : World) (sls : list SLabel) :
  session (env, created) sls (env', w') ->
  Inv env' w' /\ Ordered w' /\ Coherent env' (dom w')
  /\ (count is_moved (log w') + armed env' w' <= count is_move (log w'))%nat.
Proof.
  intros Hs. destruct (Sound_session _ _ _ Hs (Sound_created env)) as [H1 H2 H3 _ H5].
  split; [exact H1|]. split; [exact H2|]. split; [exact H3|]. exact (ainv_count _ H5).
Qed.

(** C23. A resize repositions: when [reposition] is bound, after the
    geometry changed the Scroll component is cancelled, the transform rule
    is the position of [Splide.index] in the new geometry (wrapped in loop
    mode), the repositioned event is emitted, and neither [waiting], the
    state nor the pending completion is touched: a transition that is
    running goes on towards the new position. *)
Theorem resize_repositions (env : Env) (g : Geometry) (w : World) :
  listening w = true ->
  let env' := resized env g in
  let w' := snd (sperform (SResize g) (env, w)) in
  target (dom w') = loop env' (waiting w) (dom w) (toPosition env' (index w) true)
  /\ (transitionRule (dom w) = false -> getPosition env' (dom w') == target (dom w'))
  /\ log w' = log w ++ [ScrollCancel; Emit EVENT_REPOSITIONED]
  /\ isBusy w' = isBusy w /\ state w' = state w
  /\ armed env' w' = armed env w.
Proof.
  intros Hl env' w'. subst w'. cbn [sperform fst snd]. rewrite Hl. fold env'.
  destruct (reposition_effect env' w) as (H1 & H2 & H3 & H4).
  unfold target. rewrite H2. repeat split; try assumption.
  intros Ht. rewrite getPosition_rendered. unfold reposition, jump.
  cbn [emit logged dom]. now rewrite translate_rendered.
Qed.

(** In fade mode a resize changes nothing but the geometry. *)
Lemma resize_fade (env : Env) (g : Geometry) (w : World) :
  listening w = false -> sperform (SResize g) (env, w) = (resized env g, w).
Proof. intros H. cbn. now rewrite H. Qed.

(** ** The theorems at the sliders of the test suite *)

(** The slider of the tests made 300 wide: slides and viewport alike. *)
Definition wider : Geometry := {|
  g_layout := uniform 5 0 300 0 300 0;
  g_Slides := indices 0 5;
  g_getEnd := 4
|}.

(** Mounted, gone to the third slide, then resized. *)
Definition widened : list SLabel :=
  [SCall LMount; SCall (LSetIndex 2); SCall (LJump 2); SResize wider].

Example widened_position :
  match sexec widened (slider, created) with
  | Some (env', w') =>
      (getPosition slider (dom (jump slider 2 created)) =? -400)
      && (getPosition env' (dom w') =? -600)
  | None => false
  end = true.
Proof. vm_compute. reflexivity. Qed.

Definition widened_world : World :=
  reposition (resized slider wider) (jump slider 2 (set_index 2 (mount slider created))).

Lemma widened_session :
  session (slider, created) widened (resized slider wider, widened_world).
Proof. apply sexec_session. vm_compute. reflexivity. Qed.

Lemma session_Sound_witness :
  Inv (resized slider wider) widened_world /\ Ordered widened_world
  /\ Coherent (resized slider wider) (dom widened_world)
  /\ (count is_moved (log widened_world) + armed (resized slider wider) widened_world
      <= count is_move (log widened_world))%nat.
Proof. exact (session_Sound slider _ _ widened widened_session). Defined.

Lemma resize_repositions_witness :
  let env' := resized slider wider in
  let w := mount slider created in
  let w' := snd (sperform (SResize wider) (slider, w)) in
  target (dom w') = loop env' (waiting w) (dom w) (toPosition env' (index w) true)
  /\ (transitionRule (dom w) = false -> getPosition env' (dom w') == target (dom w'))
  /\ log w' = log w ++ [ScrollCancel; Emit EVENT_REPOSITIONED]
  /\ isBusy w' = isBusy w /\ state w' = state w
  /\ armed env' w' = armed slider w.
Proof. apply (resize_repositions slider wider (mount slider created)). reflexivity. Defined.
