(* ===== verification/Render.v ===== *)
(** * Render: the text of the transform rule

    [translate] hands the Style component a text, the template literal of
    Move.ts line 131: [translate], the letter of the axis, and the
    position in pixels between parentheses.  [Motion] keeps the axis and
    the number.  This file writes the text, for the positions that are
    whole numbers of pixels: JavaScript writes an integer in decimal
    digits with a minus sign if it is negative, and both zeros as [0].
    The digits of a fraction depend on its double and are not written
    here.

    The text determines the axis and the position ([rule_text_injective])
    and is read back by [read_rule] ([read_rule_written]), so comparing
    texts, as the tests do, is comparing axes and numbers
    ([transform_text_rule]); what [translate] leaves in
    [rule.style.transform] reads as the axis of the direction and the
    position written, wrapped or not ([translate_writes]). *)

From Stdlib Require Import String Ascii DecimalString DecimalZ.
From Stdlib Require Qcanon.
From S2P Require Import Prelude Utils Env Position Loop Motion.

Local Open Scope Q_scope.

(** ** Writing *)

(** [resolve( 'X' )] as it is written into the rule. *)
Definition axis_text (a : Axis) : string :=
  match a with X => "X" | Y => "Y" end.

(** The text JavaScript makes of an integer. *)
Definition number_text (z : Z) : string := NilEmpty.string_of_int (Z.to_int z).

(** The template literal of [translate]. *)
Definition rule_text (a : Axis) (z : Z) : string :=
  ("translate" ++ axis_text a ++ "(" ++ number_text z ++ "px)")%string.

(** The integer a position is, if it is one. *)
Definition whole (q : Q) : option Z :=
  let r := Qred q in
  if (Qden r =? 1)%positive then Some (Qnum r) else None.

(** [rule.style.transform]: empty before the first [translate]; [None]
    for a position that is not a whole number of pixels. *)
Definition transform_text (w : World) : option string :=
  match transformRule (dom w) with
  | Some (a, q) => option_map (rule_text a) (whole q)
  | None => Some EmptyString
  end.

(** ** Reading *)

(** The text up to the first [p], and the text from there. *)
Fixpoint until_p (s : string) : string * string :=
  match s with
  | EmptyString => (EmptyString, EmptyString)
  | String c rest =>
      if Ascii.eqb c "p" then (EmptyString, s)
      else let (n, r) := until_p rest in (String c n, r)
  end.

Definition read_axis (c : ascii) : option Axis :=
  if Ascii.eqb c "X" then Some X else if Ascii.eqb c "Y" then Some Y else None.

(** The axis and the position of a rule [translate<axis>(<integer>px)]. *)
Definition read_rule (s : string) : option (Axis * Z) :=
  match s with
  | String "t" (String "r" (String "a" (String "n" (String "s" (String "l"
      (String "a" (String "t" (String "e" (String c (String "(" rest)))))))))) =>
      let (n, r) := until_p rest in
      match read_axis c, NilEmpty.int_of_string n with
      | Some a, Some d => if String.eqb r "px)" then Some (a, Z.of_int d) else None
      | _, _ => None
      end
  | _ => None
  end.

(** ** Whole positions *)

Lemma whole_inject_Z (z : Z) : whole (inject_Z z) = Some z.
Proof.
  unfold whole. rewrite Qcanon.Qred_identity by apply Z.gcd_1_r. reflexivity.
Qed.

Lemma whole_iff (q : Q) (z : Z) : whole q = Some z <-> q == inject_Z z.
Proof.
  split.
  - unfold whole. intros H. rewrite <- (Qred_correct q).
    destruct (Qred q) as [n d]. cbn [Qden Qnum] in H.
    destruct (Pos.eqb_spec d 1); [|discriminate]. injection H as <-. now subst.
  - intros E. unfold whole. rewrite (Qred_complete _ _ E).
    rewrite Qcanon.Qred_identity by apply Z.gcd_1_r. reflexivity.
Qed.

#[export] Instance whole_Proper : Proper (Qeq ==> eq) whole.
Proof. intros q q' E. unfold whole. now rewrite (Qred_complete _ _ E). Qed.

(** ** The text is read back *)

Lemma until_p_digits (u : Decimal.uint) (t : string) :
  until_p (NilEmpty.string_of_uint u ++ String "p" t)
  = (NilEmpty.string_of_uint u, String "p" t).
Proof. induction u; cbn; [reflexivity | now rewrite IHu ..]. Qed.

Lemma until_p_number (z : Z) (t : string) :
  until_p (number_text z ++ String "p" t) = (number_text z, String "p" t).
Proof.
  unfold number_text. destruct (Z.to_int z); cbn; now rewrite until_p_digits.
Qed.

Lemma read_number_text (z : Z) :
  option_map Z.of_int (NilEmpty.int_of_string (number_text z)) = Some z.
Proof.
  unfold number_text. rewrite NilEmpty.isi. cbn [option_map].
  now rewrite DecimalZ.of_to.
Qed.

Lemma read_rule_written (a : Axis) (z : Z) : read_rule (rule_text a z) = Some (a, z).
Proof.
  pose proof (read_number_text z) as Hn.
  destruct (NilEmpty.int_of_string (number_text z)) as [d|] eqn:E; [|discriminate].
  injection Hn as Hn.
  unfold rule_text. destruct a; cbn [append axis_text read_rule];
    rewrite (until_p_number z "x)"), E; cbn; now rewrite Hn.
Qed.

Lemma rule_text_injective (a a' : Axis) (z z' : Z) :
  rule_text a z = rule_text a' z' -> a = a' /\ z = z'.
Proof.
  intros H. apply (f_equal read_rule) in H. rewrite !read_rule_written in H.
  now injection H.
Qed.

(** ** What [translate] writes *)

Lemma transform_text_rule (w : World) (a : Axis) (z : Z) :
  transform_text w = Some (rule_text a z)
  <-> exists q, transformRule (dom w) = Some (a, q) /\ q == inject_Z z.
Proof.
  unfold transform_text. destruct (transformRule (dom w)) as [[a0 q]|]; split.
  - destruct (whole q) as [z0|] eqn:E; [|discriminate]. cbn [option_map].
    intros H. assert (H' : rule_text a0 z0 = rule_text a z) by congruence.
    apply rule_text_injective in H' as [-> ->]. exists q. now rewrite <- whole_iff.
  - intros (q0 & [= -> ->] & E). apply whole_iff in E. now rewrite E.
  - discriminate.
  - now intros (q & H & _).
Qed.

Lemma translate_text (env : Env) (z : Z) (w : World) :
  transform_text (translate env (inject_Z z) true w)
  = Some (rule_text (resolveX (options env)) z).
Proof.
  apply transform_text_rule. exists (inject_Z z). split; reflexivity.
Qed.

(** With the loop at work the text is that of the folded position. *)
Lemma translate_loop_text (env : Env) (position : Q) (z : Z) (w : World) :
  loop env (waiting w) (dom w) position == inject_Z z ->
  transform_text (translate env position false w)
  = Some (rule_text (resolveX (options env)) z).
Proof.
  intros E. apply transform_text_rule.
  exists (loop env (waiting w) (dom w) position). now split.
Qed.

(** ** Theorems *)

(** C38. What [translate] writes is a rule a reader of CSS understands:
    when the position it writes (the position given with [preventLoop],
    its wrap by [loop] without) is a whole number of pixels, the text of
    [rule.style.transform] afterwards, whatever it was before, reads as a
    translation along the axis of the direction of the slider by that
    number of pixels, and it is the text of the template literal. *)
Theorem translate_writes (env : Env) (position : Q) (preventLoop : bool) (z : Z)
    (w : World) :
  (if preventLoop then position else loop env (waiting w) (dom w) position)
  == inject_Z z ->
  exists text,
    transform_text (translate env position preventLoop w) = Some text
    /\ read_rule text = Some (resolveX (options env), z)
    /\ text = rule_text (resolveX (options env)) z.
Proof.
  intros E. exists (rule_text (resolveX (options env)) z).
  split; [|split; [apply read_rule_written | reflexivity]].
  apply transform_text_rule. eexists. split; [reflexivity | exact E].
Qed.

Lemma translate_writes_witness :
  exists text,
    transform_text (translate looped 200 false created) = Some text
    /\ read_rule text = Some (resolveX (options looped), (-800)%Z)
    /\ text = rule_text (resolveX (options looped)) (-800).
Proof. apply (translate_writes looped 200 false (-800) created). vm_compute. reflexivity. Defined.

(** ** The texts of the tests *)

Example texts_of_the_tests :
  rule_text X (-400) = "translateX(-400px)"%string
  /\ rule_text X 100 = "translateX(100px)"%string
  /\ rule_text Y 0 = "translateY(0px)"%string
  /\ read_rule "translateX(-800px)" = Some (X, (-800)%Z)
  /\ read_rule "translateX(-0px)" = Some (X, 0%Z)
  /\ read_rule "translate(5px)" = None
  /\ whole (-1600 # 4) = Some (-400)%Z
  /\ whole (1 # 2) = None.
Proof. repeat split; vm_compute; reflexivity. Qed.
