(* ===== verification/Scenarios.v ===== *)
(** * Scenarios: the test suite of the Move component

    Each test of [src/unnamed/part_000] as a run of the model on the
    sliders [slider] and [looped] of [Env], calling the component through
    its interface [Move] as the test does, with what the test expects as
    an [Example] proved by evaluation.  A transform rule
    ['translateX(-400px)'] is the axis [X] and the number [-400]; the
    texts themselves, as [Render] writes them, are compared at the end. *)

From Stdlib Require Import String.
From S2P Require Import Prelude Utils Env Position Loop Motion Directions Render.

Local Open Scope Q_scope.
Local Open Scope js_scope.

(** [rule.style.transform] is [translate<axis>(<position>px)]. *)
Definition transform_is (w : World) (axis : Axis) (position : Q) : bool :=
  match transformRule (dom w) with
  | Some (a, q) =>
      match a, axis with X, X | Y, Y => q =? position | _, _ => false end
  | None => false
  end.

(** The slider once [init] has mounted it. *)
Definition mounted (env : Env) : World := MoveComponent.mount (Move env) created.

(** 'can jump to the specific slide.' *)
Definition can_jump : World * World :=
  let Move := Move slider in
  let w1 := MoveComponent.jump Move 2 (mounted slider) in
  let w2 := MoveComponent.jump Move 4 w1 in
  (w1, w2).

Example can_jump_ok :
  transform_is (fst can_jump) X (-400) = true
  /\ transform_is (snd can_jump) X (-800) = true.
Proof. split; vm_compute; reflexivity. Qed.

(** 'can set transform to the list element.' *)
Definition can_translate : World * World :=
  let Move := Move slider in
  let w1 := MoveComponent.translate Move 100 false (mounted slider) in
  let w2 := MoveComponent.translate Move 500 false w1 in
  (w1, w2).

Example can_translate_ok :
  transform_is (fst can_translate) X 100 = true
  /\ transform_is (snd can_translate) X 500 = true.
Proof. split; vm_compute; reflexivity. Qed.

(** 'can loop the slider if it exceeds bounds.' *)
Definition can_loop : World :=
  MoveComponent.translate (Move looped) 200 false (mounted looped).

Example can_loop_ok :
  transform_is can_loop X (- 200 * (inject_Z (Z.of_nat 5) - 1)) = true.
Proof. vm_compute. reflexivity. Qed.

(** 'can cancel the transition.' *)
Definition can_cancel : World * World :=
  let Move := Move slider in
  let w1 := MoveComponent.move Move 1 1 (-1) None (mounted slider) in
  let w2 := MoveComponent.cancel Move w1 in
  (w1, w2).

Example can_cancel_ok :
  transitionRule (dom (fst can_cancel)) = true
  /\ transitionRule (dom (snd can_cancel)) = false.
Proof. split; vm_compute; reflexivity. Qed.

(** 'can convert the position to the closest index.' *)
Definition can_toIndex : list Z :=
  map (MoveComponent.toIndex (Move slider)) [0; -100; -101; -200; -300; -301].

Example can_toIndex_ok : can_toIndex = [0; 0; 1; 1; 1; 2]%Z.
Proof. vm_compute. reflexivity. Qed.

(** 'can convert the index to the position.' *)
Definition can_toPosition : list Q :=
  map (fun i => MoveComponent.toPosition (Move slider) i false) [0; 1; 2; 3]%Z.

Example can_toPosition_ok :
  Forall2 Qeq can_toPosition [-0; -200; -400; -600].
Proof. repeat constructor; vm_compute; reflexivity. Qed.

(** 'can check the position exceeds bounds or not.' *)
Definition can_exceed : list bool :=
  let Move := Move slider in
  let totalSize := 200 * inject_Z (Z.of_nat 5) in
  let w := mounted slider in
  [ MoveComponent.exceededLimit Move (Some false) (Some (-10)) w;
    MoveComponent.exceededLimit Move (Some false) (Some 10) w;
    MoveComponent.exceededLimit Move (Some true) (Some (- (totalSize - 200) + 10)) w;
    MoveComponent.exceededLimit Move (Some true) (Some (- (totalSize - 200) - 10)) w;
    MoveComponent.exceededLimit Move None None
      (MoveComponent.translate Move 10 false w) ].

Example can_exceed_ok : can_exceed = [false; true; false; true; true].
Proof. vm_compute. reflexivity. Qed.

(** 'can check if the slider can move or not.' *)
Definition can_be_busy : list bool :=
  let Move := Move slider in
  let w0 := mounted slider in
  let w1 := MoveComponent.move Move 1 1 (-1) None w0 in
  let w2 := transitionend slider w1 in
  map (MoveComponent.isBusy Move) [w0; w1; w2].

Example can_be_busy_ok : can_be_busy = [false; true; false].
Proof. vm_compute. reflexivity. Qed.

(** 'should not move the slider while looping.' *)
Definition busy_while_looping : list bool :=
  let env := init (with_waitForTransition false (with_type LOOP defaults)) 5 2 in
  let Move := Move env in
  let w0 := mounted env in
  let w1 := MoveComponent.move Move (Z.of_nat 5) 0 (-1) None w0 in
  let w2 := transitionend env w1 in
  map (MoveComponent.isBusy Move) [w0; w1; w2].

Example busy_while_looping_ok : busy_while_looping = [false; true; false].
Proof. vm_compute. reflexivity. Qed.

(** The tests fire [transitionend] by hand; in the model the browser would
    have fired it too: the runs above are runs of the transition system. *)
Example can_be_busy_run :
  exec slider [LMount; LMove 1 1 (-1) None; LTransitionEnd] created
  = Some (transitionend slider (move slider 1 1 (-1) None (mounted slider))).
Proof. vm_compute. reflexivity. Qed.

(** The spec's scenario of two moves issued back to back: on the slider of
    the tests, which waits for transitions, the second changes nothing. *)
Example move_twice :
  let Move := Move slider in
  let w1 := MoveComponent.move Move 1 1 0 None (mounted slider) in
  MoveComponent.move Move 2 2 1 None w1 = w1.
Proof. vm_compute. reflexivity. Qed.

(** The texts the tests compare [rule.style.transform] with (lines 12, 15,
    27, 30 and 44 of the suite), letter by letter. *)
Example transform_texts :
  map transform_text [fst can_jump; snd can_jump; fst can_translate; snd can_translate;
                      can_loop]
  = map Some ["translateX(-400px)"; "translateX(-800px)"; "translateX(100px)";
              "translateX(500px)"; "translateX(-800px)"]%string.
Proof. vm_compute. reflexivity. Qed.

(** The first test on the same slider in the other directions. *)
Example transform_texts_directed :
  map (fun dir => transform_text (jump (toward dir slider) 2 (mounted (toward dir slider))))
    [LTR; RTL; TTB]
  = map Some ["translateX(-400px)"; "translateX(400px)"; "translateY(-400px)"]%string.
Proof. vm_compute. reflexivity. Qed.

(** [mount] writes nothing; the first [reposition] writes the place of
    the first slide, and both zeros are written [0]. *)
Example transform_text_mounted :
  transform_text (mounted slider) = Some ""%string
  /\ transform_text (reposition slider (mounted slider)) = Some "translateX(0px)"%string.
Proof. split; vm_compute; reflexivity. Qed.
